(** * gx: opaque-ID codec, ID adapters and flow-control primitives

    A shallow embedding of the Go packages [idcodec] (the codec), [gx]
    (the [ID] JSON adapter and the flow-control primitives Throttler,
    Debouncer and Coalescer) together with the properties of the
    specification that are settled against them.

    Conventions.
    - A Go [byte] is an [ascii]; a Go [string] or [[]byte] is a
      [list ascii].  [len] is [length], [s[i]] is [nth i s], and a slice
      [s[a:b]] is [firstn (b-a) (skipn a s)].
    - [uint64] values are [Z] with the wrap-around modulo [2^64] written
      out at every operation that can overflow.
    - Go's [int] lengths ([macLen], [len(s)]) are unbounded [Z]/[nat]:
      a slice whose length does not fit an [int] cannot exist.
    - An [error] is the sentinel that [errors.Is] finds in it. *)

From Stdlib Require Import String Ascii ZArith Lia List Bool.
Import ListNotations.
Local Open Scope Z_scope.

Definition bytes := list ascii.

Definition byte_val (b : ascii) : Z := Z.of_N (N_of_ascii b).
Definition byte_of (z : Z) : ascii := ascii_of_N (Z.to_N (z mod 256)).
Definition str (s : string) : bytes := list_ascii_of_string s.

(** ** crypto/sha256 and crypto/hmac

    The Go standard library functions the codec calls, written from
    FIPS 180-4 and RFC 2104.  The round constants are the fractional
    parts of the cube roots (square roots for the initial state) of the
    first 64 primes, computed rather than tabulated. *)
Module Sha256.

Definition w32 (x : Z) : Z := x mod 2 ^ 32.
Definition add32 (x y : Z) : Z := w32 (x + y).
Definition rotr (n x : Z) : Z := Z.lor (Z.shiftr x n) (w32 (Z.shiftl x (32 - n))).
Definition not32 (x : Z) : Z := Z.lxor x (2 ^ 32 - 1).

Definition Ch (x y z : Z) : Z := Z.lxor (Z.land x y) (Z.land (not32 x) z).
Definition Maj (x y z : Z) : Z :=
  Z.lxor (Z.lxor (Z.land x y) (Z.land x z)) (Z.land y z).
Definition bsig0 (x : Z) : Z := Z.lxor (Z.lxor (rotr 2 x) (rotr 13 x)) (rotr 22 x).
Definition bsig1 (x : Z) : Z := Z.lxor (Z.lxor (rotr 6 x) (rotr 11 x)) (rotr 25 x).
Definition ssig0 (x : Z) : Z := Z.lxor (Z.lxor (rotr 7 x) (rotr 18 x)) (Z.shiftr x 3).
Definition ssig1 (x : Z) : Z := Z.lxor (Z.lxor (rotr 17 x) (rotr 19 x)) (Z.shiftr x 10).

(** The primes below [2 + fuel], by trial division. *)
Fixpoint primes_from (fuel : nat) (n : Z) (found : list Z) : list Z :=
  match fuel with
  | O => List.rev found
  | S fuel' =>
      if forallb (fun p => negb (n mod p =? 0)) found
      then primes_from fuel' (n + 1) (n :: found)
      else primes_from fuel' (n + 1) found
  end.

Definition primes64 : list Z := primes_from 310 2 [].

(** Integer cube root, one bit at a time from bit [nbits-1] down. *)
Fixpoint icbrt_bits (nbits : nat) (n r : Z) : Z :=
  match nbits with
  | O => r
  | S k =>
      let r' := r + 2 ^ Z.of_nat k in
      icbrt_bits k n (if r' * r' * r' <=? n then r' else r)
  end.

Definition K : list Z :=
  Eval vm_compute in map (fun p => w32 (icbrt_bits 40 (p * 2 ^ 96) 0)) primes64.
Definition H0 : list Z :=
  Eval vm_compute in map (fun p => w32 (Z.sqrt (p * 2 ^ 64))) (firstn 8 primes64).

(** Big-endian packing. *)
Definition be_word (bs : bytes) : Z :=
  fold_left (fun acc b => acc * 256 + byte_val b) bs 0.

Fixpoint be_bytes (n : nat) (x : Z) : bytes :=
  match n with
  | O => []
  | S k => byte_of (Z.shiftr x (8 * Z.of_nat k)) :: be_bytes k x
  end.

(** Message padding: 0x80, zeros up to 56 mod 64, the bit length. *)
Definition pad (msg : bytes) : bytes :=
  let len := Z.of_nat (length msg) in
  let zeros := Z.to_nat ((55 - len) mod 64) in
  msg ++ byte_of 128 :: repeat (byte_of 0) zeros ++ be_bytes 8 (8 * len).

Fixpoint words_of (n : nat) (bs : bytes) : list Z :=
  match n with
  | O => []
  | S k => be_word (firstn 4 bs) :: words_of k (skipn 4 bs)
  end.

Definition sched_next (win : list Z) : Z :=
  add32 (add32 (ssig1 (nth 14 win 0)) (nth 9 win 0))
        (add32 (ssig0 (nth 1 win 0)) (nth 0 win 0)).

(** The 64 rounds over the sliding 16-word window of the schedule. *)
Fixpoint rounds (ks win st : list Z) : list Z :=
  match ks, st with
  | k :: ks', [a; b; c; d; e; f; g; h] =>
      let wt := nth 0 win 0 in
      let t1 := add32 (add32 (add32 (add32 h (bsig1 e)) (Ch e f g)) k) wt in
      let t2 := add32 (bsig0 a) (Maj a b c) in
      rounds ks' (tl win ++ [sched_next win])
             [add32 t1 t2; a; b; c; add32 d t1; e; f; g]
  | _, _ => st
  end.

Fixpoint add_state (s t : list Z) : list Z :=
  match s, t with
  | x :: s', y :: t' => add32 x y :: add_state s' t'
  | _, _ => []
  end.

Definition compress (st : list Z) (block : bytes) : list Z :=
  add_state st (rounds K (words_of 16 block) st).

Fixpoint blocks (n : nat) (st : list Z) (bs : bytes) : list Z :=
  match n with
  | O => st
  | S k => blocks k (compress st (firstn 64 bs)) (skipn 64 bs)
  end.

Definition Sum256 (msg : bytes) : bytes :=
  let p := pad msg in
  flat_map (be_bytes 4) (blocks (length p / 64) H0 p).

Definition xor_pad (c : Z) (key : bytes) : bytes :=
  map (fun b => byte_of (Z.lxor (byte_val b) c)) key.

(** [hmac.New(sha256.New, key)], the writes concatenated, then [Sum(nil)]. *)
Definition HMAC (key msg : bytes) : bytes :=
  let key0 := if (64 <? length key)%nat then Sum256 key else key in
  let key' := key0 ++ repeat (byte_of 0) (64 - length key0) in
  Sum256 (xor_pad 92 key' ++ Sum256 (xor_pad 54 key' ++ msg)).

End Sha256.

Definition hex_digit (n : Z) : ascii :=
  nth (Z.to_nat n) (str "0123456789abcdef") "0"%char.

Definition hex (bs : bytes) : string :=
  string_of_list_ascii
    (flat_map (fun b => [hex_digit (byte_val b / 16); hex_digit (byte_val b mod 16)]) bs).

(** ** Package idcodec *)
Module Idcodec.

Definition DefaultAlphabet : bytes :=
  str "0123456789ABCDEFGHIJKLMNOPQRSTUVWXYZabcdefghijklmnopqrstuvwxyz".

Inductive error : Type :=
| ErrInvalidLength
| ErrVersionMismatch
| ErrMACVerification
| ErrInvalidBase62Char
| ErrBadConfig.

Inductive result (A : Type) : Type :=
| Ok (a : A)
| Err (e : error).
Arguments Ok {A} a.
Arguments Err {A} e.

(** [Version] is a [uint8]: an [N], so never negative. [MacLen] is an
    [int]. An empty [Alphabet] stands for the default one. *)
Record Config : Type := mkConfig {
  Secret : bytes;
  Version : N;
  MacLen : Z;
  Alphabet : bytes;
  Domain : bytes;
  Kind : option ascii
}.

(** [rev] is the [[256]int8] table, a list of 256 entries. *)
Record Codec : Type := mkCodec {
  version : N;
  macLen : Z;
  alphabet : bytes;
  rev : list Z;
  k1 : Z; k2 : Z; k3 : Z; k4 : Z;
  macKey : bytes;
  domain : bytes;
  kind : option ascii
}.

Definition zero_byte : ascii := Ascii.zero.

(** The conversion [int8(x)] of a small unsigned integer. *)
Definition int8 (z : Z) : Z := (z + 128) mod 256 - 128.

(** [a[i] = v] on a list; the codec only writes inside the table. *)
Fixpoint set_nth (l : list Z) (i : nat) (v : Z) : list Z :=
  match l, i with
  | [], _ => []
  | _ :: t, O => v :: t
  | h :: t, S j => h :: set_nth t j v
  end.

Definition at_byte (s : bytes) (i : nat) : ascii := nth i s zero_byte.

(** The two loops that fill [c.rev]: every entry -1, then
    [c.rev[alp[i]] = int8(i)] for [i < len(alp) && i < 62]. *)
Definition build_rev (alp : bytes) : list Z :=
  fold_left
    (fun r i => set_nth r (nat_of_ascii (at_byte alp i)) (int8 (Z.of_nat i)))
    (seq 0 (Nat.min (length alp) 62))
    (repeat (-1) 256).

Definition derive (kMaster : bytes) (label : ascii) : bytes :=
  Sha256.Sum256 (kMaster ++ [label]).

Definition NewCodecFromSecret (cfg : Config) : result Codec :=
  if MacLen cfg <=? 0 then Err ErrBadConfig
  else if (62 <=? Version cfg)%N then Err ErrBadConfig
  else
    let alp := match Alphabet cfg with [] => DefaultAlphabet | _ => Alphabet cfg end in
    if (length alp <? 62)%nat then Err ErrBadConfig
    else
      let kMaster := Sha256.Sum256 (Secret cfg) in
      let kRaw := derive kMaster "K"%char in
      let mac := derive kMaster "M"%char in
      Ok {| version := Version cfg;
            macLen := MacLen cfg;
            alphabet := alp;
            rev := build_rev alp;
            k1 := Sha256.be_word (firstn 8 kRaw);
            k2 := Sha256.be_word (firstn 8 (skipn 8 kRaw));
            k3 := Sha256.be_word (firstn 8 (skipn 16 kRaw));
            k4 := Sha256.be_word (firstn 8 (skipn 24 kRaw));
            macKey := mac;
            domain := Domain cfg;
            kind := Kind cfg |}.

Definition NewCodec (masterKey : bytes) (ver : N) (mlen : Z) : result Codec :=
  NewCodecFromSecret
    {| Secret := masterKey; Version := ver; MacLen := mlen;
       Alphabet := []; Domain := []; Kind := None |}.

Definition u64 (x : Z) : Z := x mod 2 ^ 64.

(** [c.rev[ch]] *)
Definition rev_at (c : Codec) (ch : ascii) : Z := nth (nat_of_ascii ch) (rev c) (-1).

(** [c.alphabet[i]] for a [uint64] or [uint8] index. *)
Definition alpha_at (c : Codec) (i : Z) : ascii := at_byte (alphabet c) (Z.to_nat i).

(** The loop [for i := 10; i >= 0; i--] fills [buf] from its last
    position; [n] positions are still to fill and [acc] is the suffix
    already written. *)
Fixpoint base62_fill (c : Codec) (n : nat) (u : Z) (acc : bytes) : bytes :=
  match n with
  | O => acc
  | S n' => base62_fill c n' (u / 62) (alpha_at c (u mod 62) :: acc)
  end.

Definition base62EncodeFixed (c : Codec) (u : Z) : bytes := base62_fill c 11 u [].

Fixpoint base62_loop (c : Codec) (s : bytes) (u : Z) : result Z :=
  match s with
  | [] => Ok u
  | ch :: s' =>
      let v := rev_at c ch in
      if v <? 0 then Err ErrInvalidBase62Char
      else base62_loop c s' (u64 (u * 62 + v))
  end.

Definition base62DecodeFixed (c : Codec) (s : bytes) : result Z :=
  if negb (length s =? 11)%nat then Err ErrInvalidLength
  else base62_loop c s 0.

Definition toBytes8 (u : Z) : bytes := Sha256.be_bytes 8 u.

(** [bits.RotateLeft64(x, k)]: [s := uint(k) & 63; x<<s | x>>(64-s)]. *)
Definition RotateLeft64 (x k : Z) : Z :=
  let s := k mod 64 in
  Z.lor (u64 (Z.shiftl x s)) (Z.shiftr x (64 - s)).

Definition permutation (c : Codec) (x : Z) : Z :=
  let x := Z.lxor x (k1 c) in
  let x := RotateLeft64 x 17 in
  let x := u64 (x + k2 c) in
  let x := RotateLeft64 x 31 in
  let x := Z.lxor x (k3 c) in
  u64 (x + k4 c).

Definition inversePermutation (c : Codec) (x : Z) : Z :=
  let x := u64 (x - k4 c) in
  let x := Z.lxor x (k3 c) in
  let x := RotateLeft64 x (-31) in
  let x := u64 (x - k2 c) in
  let x := RotateLeft64 x (-17) in
  Z.lxor x (k1 c).

(** The inner loop [for bitsIn < 6 && src < len(sum)] over the bytes of
    [sum] not yet consumed. *)
Fixpoint pad_refill (bitbuf bitsIn : Z) (rest : bytes) : Z * Z * bytes :=
  if bitsIn <? 6 then
    match rest with
    | [] => (bitbuf, bitsIn, rest)
    | b :: rest' =>
        pad_refill (Z.lor (u64 (Z.shiftl bitbuf 8)) (byte_val b)) (bitsIn + 8) rest'
    end
  else (bitbuf, bitsIn, rest).

(** The outer loop [for idx < c.macLen], [n] characters still to write. *)
Fixpoint pad_loop (c : Codec) (n : nat) (bitbuf bitsIn : Z) (rest : bytes) : bytes :=
  match n with
  | O => []
  | S n' =>
      let '(bitbuf, bitsIn, rest) := pad_refill bitbuf bitsIn rest in
      let '(bitbuf, bitsIn) :=
        if bitsIn <? 6 then (u64 (Z.shiftl bitbuf (6 - bitsIn)), 6) else (bitbuf, bitsIn) in
      let shift := bitsIn - 6 in
      let val := Z.land (Z.shiftr bitbuf shift) 63 in
      let bitsIn := bitsIn - 6 in
      let val := if 62 <=? val then val - 2 else val in
      alpha_at c val :: pad_loop c n' bitbuf bitsIn rest
  end.

Definition mac_input (c : Codec) (encrypted : Z) (knd : option ascii) : bytes :=
  (match domain c with [] => [] | d => d end)
  ++ (match knd with None => [] | Some k => [k] end)
  ++ [alpha_at c (Z.of_N (version c))]
  ++ toBytes8 encrypted.

Definition hmacPadding (c : Codec) (encrypted : Z) (knd : option ascii) : bytes :=
  let sum := Sha256.HMAC (macKey c) (mac_input c encrypted knd) in
  pad_loop c (Z.to_nat (macLen c)) 0 0 sum.

Definition token (c : Codec) (enc : Z) (knd : option ascii) : bytes :=
  let body := base62EncodeFixed c enc in
  let pad := hmacPadding c enc knd in
  [alpha_at c (Z.of_N (version c))] ++ body ++ pad.

Definition EncodeUint64WithKind (c : Codec) (id : Z) (knd : option ascii) : bytes :=
  token c (permutation c id) knd.

Definition EncodeUint64 (c : Codec) (id : Z) : bytes :=
  EncodeUint64WithKind c id (kind c).

(** [crypto/subtle]: [ConstantTimeCompare] ors the xor of every byte
    pair into one byte and compares it with zero at the end. *)
Fixpoint ct_fold (v : Z) (x y : bytes) : Z :=
  match x, y with
  | a :: x', b :: y' => ct_fold (Z.lor v (Z.lxor (byte_val a) (byte_val b))) x' y'
  | _, _ => v
  end.

Definition ConstantTimeCompare (x y : bytes) : Z :=
  if negb (length x =? length y)%nat then 0
  else if ct_fold 0 x y =? 0 then 1 else 0.

Definition decodeInternal (c : Codec) (s : bytes) (needValue : bool)
    (knd : option ascii) : result Z :=
  let need := 1 + 11 + macLen c in
  if negb (Z.of_nat (length s) =? need) then Err ErrInvalidLength
  else
    let verCh := at_byte s 0 in
    if negb (rev_at c verCh =? int8 (Z.of_N (version c))) then Err ErrVersionMismatch
    else
      let body := firstn 11 (skipn 1 s) in
      match base62DecodeFixed c body with
      | Err e => Err e
      | Ok enc =>
          let pad := skipn (1 + 11) s in
          let exp := hmacPadding c enc knd in
          if negb (ConstantTimeCompare pad exp =? 1) then Err ErrMACVerification
          else if negb needValue then Ok 0
          else Ok (inversePermutation c enc)
      end.

Definition Validate (c : Codec) (s : bytes) : option error :=
  match decodeInternal c s false (kind c) with
  | Ok _ => None
  | Err e => Some e
  end.

Definition DecodeToUint64WithKind (c : Codec) (s : bytes) (knd : option ascii) : result Z :=
  decodeInternal c s true knd.

Definition DecodeToUint64 (c : Codec) (s : bytes) : result Z :=
  DecodeToUint64WithKind c s (kind c).

Definition DecodeBodyOnly (c : Codec) (s : bytes) : result Z :=
  if (length s <? 1 + 11)%nat then Err ErrInvalidLength
  else base62DecodeFixed c (firstn 11 (skipn 1 s)).

End Idcodec.

(** ** Package gx: the JSON adapter of [ID] *)
Module GxID.

Import Idcodec.

(** The errors of [UnmarshalJSON]: the codec is unset, the token does
    not decode (the codec's error wrapped with [%w]), or the document is
    neither a string nor a number. *)
Inductive gx_error : Type :=
| ErrDefaultCodecNil
| ErrInvalidEncodedID (e : error)
| ErrNotStringOrNumber.

(** A number literal of a JSON document: its sign, the value of its
    integer digits, and whether a fraction or an exponent follows. *)
Record number : Type := mkNumber {
  negative : bool;
  digits : N;
  frac_or_exp : bool
}.

(** The JSON document held by the bytes [b] handed to [UnmarshalJSON],
    as encoding/json reads it; [JMalformed] is anything it rejects with
    a syntax error. A string carries its unescaped contents. *)
Inductive json : Type :=
| JNull
| JBool (b : bool)
| JNumber (n : number)
| JString (s : bytes)
| JArray
| JObject
| JMalformed.

(** [json.Unmarshal(b, &s)] into a fresh [string]: a JSON string
    decodes, [null] leaves the variable untouched, anything else fails. *)
Definition unmarshal_string (b : json) : option bytes :=
  match b with
  | JString s => Some s
  | JNull => Some []
  | _ => None
  end.

(** [json.Unmarshal(b, &n)] into a fresh [uint64]: the literal must
    parse as an unsigned base-10 integer of 64 bits. *)
Definition unmarshal_uint64 (b : json) : option Z :=
  match b with
  | JNumber n =>
      if negative n || frac_or_exp n || (2 ^ 64 <=? digits n)%N then None
      else Some (Z.of_N (digits n))
  | JNull => Some 0
  | _ => None
  end.

(** strings.TrimSpace on valid UTF-8: the ASCII white space and the
    UTF-8 encodings of the other code points of [unicode.IsSpace]. *)
Definition ascii_space (b : ascii) : bool :=
  let n := byte_val b in
  ((9 <=? n) && (n <=? 13)) || (n =? 32).

Definition wide_spaces : list (list Z) :=
  [[194; 133]; [194; 160]; [225; 154; 128]; [226; 128; 168]; [226; 128; 169];
   [226; 128; 175]; [226; 129; 159]; [227; 128; 128]]
  ++ map (fun k => [226; 128; 128 + Z.of_nat k]) (seq 0 11).

Fixpoint has_prefix (p : list Z) (s : bytes) : bool :=
  match p, s with
  | [], _ => true
  | x :: p', b :: s' => (byte_val b =? x) && has_prefix p' s'
  | _ :: _, [] => false
  end.

Fixpoint trim_left (patterns : list (list Z)) (fuel : nat) (s : bytes) : bytes :=
  match fuel, s with
  | S fuel', b :: s' =>
      if ascii_space b then trim_left patterns fuel' s'
      else
        match find (fun p => has_prefix p s) patterns with
        | Some p => trim_left patterns fuel' (skipn (length p) s)
        | None => s
        end
  | _, _ => s
  end.

Definition TrimSpace (s : bytes) : bytes :=
  let s1 := trim_left wide_spaces (length s) s in
  List.rev (trim_left (map (@List.rev Z) wide_spaces) (length s1) (List.rev s1)).

(** [getCodec]: the process-global default codec, or an error. *)
Definition getCodec (defaultCodec : option Codec) : gx_error + Codec :=
  match defaultCodec with
  | None => inl ErrDefaultCodecNil
  | Some c => inr c
  end.

(** [(i *ID) UnmarshalJSON(b)]: the error returned and the value [*i]
    holds afterwards ([i] is the value it held before). *)
Definition UnmarshalJSON (defaultCodec : option Codec) (i : Z) (b : json)
  : option gx_error * Z :=
  match b with
  | JNull => (None, 0)
  | _ =>
    match unmarshal_string b with
    | Some s =>
        let s := TrimSpace s in
        match s with
        | [] => (None, 0)
        | _ =>
            match getCodec defaultCodec with
            | inl err => (Some err, i)
            | inr c =>
                match DecodeToUint64 c s with
                | Err e => (Some (ErrInvalidEncodedID e), i)
                | Ok u => (None, u)
                end
            end
        end
    | None =>
        match unmarshal_uint64 b with
        | Some n => (None, n)
        | None => (Some ErrNotStringOrNumber, i)
        end
    end
  end.

End GxID.

(** ** Package gx: flow control

    A method is a computation over the instance's fields that also
    records, in order, what it does to the world outside them: taking
    and releasing the instance's mutex and calling the user's
    callbacks.  Durations are nanoseconds ([time.Duration]).  A user
    callback is modelled by the event of calling it. *)
Module Flow.

Inductive StopMode : Type :=
| StopNoop
| StopFlush
| StopCallbackOnly
| StopFlushAndCallback.

Definition mode_eqb (a b : StopMode) : bool :=
  match a, b with
  | StopNoop, StopNoop | StopFlush, StopFlush
  | StopCallbackOnly, StopCallbackOnly
  | StopFlushAndCallback, StopFlushAndCallback => true
  | _, _ => false
  end.

(** What a method does besides updating fields. [EvCb] is the trigger
    callback of a debouncer or the [emit] of a coalescer. *)
Inductive event (T : Type) : Type :=
| EvLock
| EvUnlock
| EvCb (v : T)
| EvOnStop (v : T).
Arguments EvLock {T}.
Arguments EvUnlock {T}.
Arguments EvCb {T} v.
Arguments EvOnStop {T} v.

(** State and trace. *)
Section Monad.
Context {S E : Type}.

Definition M (A : Type) : Type := S -> A * S * list E.

Definition ret {A : Type} (a : A) : M A := fun s => (a, s, []).

Definition bind {A B : Type} (m : M A) (k : A -> M B) : M B :=
  fun s =>
    let '(a, s1, t1) := m s in
    let '(b, s2, t2) := k a s1 in
    (b, s2, t1 ++ t2).

Definition get : M S := fun s => (s, s, []).
Definition modify (f : S -> S) : M unit := fun s => (tt, f s, []).
Definition emit (e : E) : M unit := fun s => (tt, s, [e]).
Definition when (b : bool) (m : M unit) : M unit := if b then m else ret tt.

(** The fields after, and the events of, running a method. *)
Definition state_after {A : Type} (m : M A) (s : S) : S := snd (fst (m s)).
Definition trace_of {A : Type} (m : M A) (s : S) : list E := snd (m s).

End Monad.

Notation "x <- m ;; k" := (bind m (fun x => k))
  (at level 61, m at next level, right associativity).
Notation "m ;; k" := (bind m (fun _ => k))
  (at level 61, right associativity).

(** A [*time.Timer] field: nil, armed for a duration, or stopped. *)
Inductive timer : Type :=
| TimerNil
| TimerArmed (d : Z)
| TimerStopped.

(** *** Throttler *)
Module Throttler.

Record ThrottlerOpts : Type := mkThrottlerOpts {
  Interval : Z;
  Burst : Z;
  OnStop : bool       (* a callback is configured (non-nil) *)
}.

(** [sync.Once]: not entered, running its function, done. *)
Inductive once : Type := OnceIdle | OnceRunning | OnceDone.

(** [tokens] counts the items buffered in the channel of capacity
    [capacity]; [stop_closed] says the [stop] channel is closed;
    [refilling] that the refill goroutine has not returned. *)
Record throttler : Type := mkThrottler {
  interval : Z;
  capacity : nat;
  tokens : nat;
  stop_closed : bool;
  stopOnce : once;
  onStop : bool;
  refilling : bool
}.

Definition NewThrottler (opts : ThrottlerOpts) : option throttler :=
  if Interval opts <=? 0 then None
  else
    let burst := if Burst opts <? 1 then 1 else Burst opts in
    Some {| interval := Interval opts;
            capacity := Z.to_nat burst;
            tokens := Z.to_nat burst;
            stop_closed := false;
            stopOnce := OnceIdle;
            onStop := OnStop opts;
            refilling := true |}.

Definition with_tokens (n : nat) (t : throttler) : throttler :=
  {| interval := interval t; capacity := capacity t; tokens := n;
     stop_closed := stop_closed t; stopOnce := stopOnce t;
     onStop := onStop t; refilling := refilling t |}.

Definition with_once (o : once) (closed : bool) (t : throttler) : throttler :=
  {| interval := interval t; capacity := capacity t; tokens := tokens t;
     stop_closed := closed; stopOnce := o;
     onStop := onStop t; refilling := refilling t |}.

Definition with_refilling (b : bool) (t : throttler) : throttler :=
  {| interval := interval t; capacity := capacity t; tokens := tokens t;
     stop_closed := stop_closed t; stopOnce := stopOnce t;
     onStop := onStop t; refilling := b |}.

(** [TryAcquire]: a [select] with a [default]; only the token channel
    is looked at. *)
Definition TryAcquire (t : throttler) : bool * throttler :=
  match tokens t with
  | S n => (true, with_tokens n t)
  | O => (false, t)
  end.

Inductive acquired : Type :=
| AcqOk               (* nil *)
| AcqCanceled         (* ctx.Err() *)
| AcqStopped.         (* "gx.Throttler: stopped" *)

(** [Acquire]: a [select] over [ctx.Done()], [t.stop] and [t.tokens].
    Go picks any case that is ready, so the call has one outcome per
    ready case, and blocks (no outcome) while none is. *)
Definition Acquire (ctx_done : bool) (t : throttler) : list (acquired * throttler) :=
  (if ctx_done then [(AcqCanceled, t)] else [])
  ++ (if stop_closed t then [(AcqStopped, t)] else [])
  ++ (match tokens t with S n => [(AcqOk, with_tokens n t)] | O => [] end).

(** What the throttler does that other goroutines can observe. *)
Inductive tevent : Type :=
| TOnStop                    (* the onStop callback ran *)
| TStopClosed                (* close(t.stop): the stop signal is published *)
| TStopReturned              (* a call of Stop returned *)
| TTried (hit : bool)        (* a call of TryAcquire returned *)
| TAcquired (r : acquired)   (* a call of Acquire returned *)
| TRefilled (added : bool)   (* a tick of the refill loop *)
| TRefillExit.               (* the refill loop returned *)

(** [Stop] run to its end by one caller with no other goroutine in
    between: [stopOnce.Do] runs the function the first time only. *)
Definition Stop (t : throttler) : list tevent * throttler :=
  match stopOnce t with
  | OnceIdle =>
      ((if onStop t then [TOnStop] else []) ++ [TStopClosed; TStopReturned],
       with_once OnceDone true t)
  | _ => ([TStopReturned], t)
  end.

(** The goroutines' atomic steps. A second caller of [Stop] waits
    while the first is inside [Do], and returns once it is done. *)
Inductive tstep : throttler -> list tevent -> throttler -> Prop :=
| step_stop_enter t :
    stopOnce t = OnceIdle ->
    tstep t (if onStop t then [TOnStop] else []) (with_once OnceRunning (stop_closed t) t)
| step_stop_close t :
    stopOnce t = OnceRunning ->
    tstep t [TStopClosed; TStopReturned] (with_once OnceDone true t)
| step_stop_again t :
    stopOnce t = OnceDone ->
    tstep t [TStopReturned] t
| step_try t :
    tstep t [TTried (fst (TryAcquire t))] (snd (TryAcquire t))
| step_acquire ctx_done t r t' :
    In (r, t') (Acquire ctx_done t) ->
    tstep t [TAcquired r] t'
| step_refill_tick t :
    refilling t = true ->
    tstep t [TRefilled (tokens t <? capacity t)%nat]
          (if (tokens t <? capacity t)%nat then with_tokens (S (tokens t)) t else t)
| step_refill_exit_stop t :
    refilling t = true -> stop_closed t = true ->
    tstep t [TRefillExit] (with_refilling false t)
| step_refill_exit_ctx t :
    refilling t = true ->
    tstep t [TRefillExit] (with_refilling false t).

(** Executions: the events so far, oldest first. *)
Inductive texec : throttler -> list tevent -> throttler -> Prop :=
| texec_nil t : texec t [] t
| texec_step t tr t1 evs t2 :
    texec t tr t1 -> tstep t1 evs t2 -> texec t (tr ++ evs) t2.

End Throttler.

(** *** Debouncer *)
Module Debouncer.
Section WithValue.
Variable T : Type.
Variable zero : T.    (* the zero value of [T] *)

Record DebounceOpts : Type := mkDebounceOpts {
  Wait : Z;
  Leading : bool;
  Trailing : bool;
  MaxWait : Z;
  StopMode_ : StopMode;
  OnStop : bool        (* a callback is configured (non-nil) *)
}.

Record debouncer : Type := mkDebouncer {
  opts : DebounceOpts;
  timer_ : timer;
  maxTimer : timer;
  last : T;
  pending : bool;
  stopped : bool;
  timerLoopStarted : bool;
  maxLoopStarted : bool
}.

Definition NewDebouncer (o : DebounceOpts) : option debouncer :=
  if Wait o <=? 0 then None
  else
    let o :=
      if negb (Leading o) && negb (Trailing o)
      then mkDebounceOpts (Wait o) (Leading o) true (MaxWait o) (StopMode_ o) (OnStop o)
      else o in
    Some {| opts := o; timer_ := TimerNil; maxTimer := TimerNil; last := zero;
            pending := false; stopped := false;
            timerLoopStarted := false; maxLoopStarted := false |}.

Definition set_timer (x : timer) (started : bool) (d : debouncer) : debouncer :=
  mkDebouncer (opts d) x (maxTimer d) (last d) (pending d) (stopped d)
              started (maxLoopStarted d).
Definition set_maxTimer (x : timer) (started : bool) (d : debouncer) : debouncer :=
  mkDebouncer (opts d) (timer_ d) x (last d) (pending d) (stopped d)
              (timerLoopStarted d) started.
Definition set_last (v : T) (d : debouncer) : debouncer :=
  mkDebouncer (opts d) (timer_ d) (maxTimer d) v (pending d) (stopped d)
              (timerLoopStarted d) (maxLoopStarted d).
Definition set_pending (b : bool) (d : debouncer) : debouncer :=
  mkDebouncer (opts d) (timer_ d) (maxTimer d) (last d) b (stopped d)
              (timerLoopStarted d) (maxLoopStarted d).
Definition set_stopped (b : bool) (d : debouncer) : debouncer :=
  mkDebouncer (opts d) (timer_ d) (maxTimer d) (last d) (pending d) b
              (timerLoopStarted d) (maxLoopStarted d).

Definition DM : Type -> Type := @M debouncer (event T).

Definition lock : DM unit := emit EvLock.
Definition unlock : DM unit := emit EvUnlock.

(** A nil timer is created armed and its loop started once; any other
    is stopped, drained and reset. *)
Definition resetTimerLocked (dur : Z) : DM unit :=
  if dur <=? 0 then ret tt
  else
    d <- get ;;
    match timer_ d with
    | TimerNil => modify (set_timer (TimerArmed dur) true)
    | _ => modify (set_timer (TimerArmed dur) (timerLoopStarted d))
    end.

Definition resetMaxLocked (dur : Z) : DM unit :=
  if dur <=? 0 then ret tt
  else
    d <- get ;;
    match maxTimer d with
    | TimerNil => modify (set_maxTimer (TimerArmed dur) true)
    | _ => modify (set_maxTimer (TimerArmed dur) (maxLoopStarted d))
    end.

(** [stopTimerLocked(d.timer)] and [stopTimerLocked(d.maxTimer)]: a
    nil timer stays nil, any other is stopped and never set to nil. *)
Definition stopTimerLocked (is_max : bool) : DM unit :=
  d <- get ;;
  if is_max then
    match maxTimer d with
    | TimerNil => ret tt
    | _ => modify (set_maxTimer TimerStopped (maxLoopStarted d))
    end
  else
    match timer_ d with
    | TimerNil => ret tt
    | _ => modify (set_timer TimerStopped (timerLoopStarted d))
    end.

Definition Trigger (v : T) : DM unit :=
  lock ;;
  d <- get ;;
  if stopped d then unlock
  else
    let first := negb (pending d) in
    modify (set_pending true) ;;
    modify (set_last v) ;;
    if Leading (opts d) && first then
      emit (EvCb v) ;;
      resetTimerLocked (Wait (opts d)) ;;
      resetMaxLocked (MaxWait (opts d)) ;;
      unlock
    else
      resetTimerLocked (Wait (opts d)) ;;
      when ((0 <? MaxWait (opts d)) && first) (resetMaxLocked (MaxWait (opts d))) ;;
      unlock.

Definition Flush : DM unit :=
  lock ;;
  d <- get ;;
  if stopped d || negb (pending d) then unlock
  else
    when (Trailing (opts d)) (emit (EvCb (last d))) ;;
    modify (set_pending false) ;;
    stopTimerLocked false ;;
    stopTimerLocked true ;;
    unlock.

Definition Stop : DM unit :=
  lock ;;
  d <- get ;;
  if stopped d then unlock
  else
    let pending0 := pending d in
    let last0 := last d in
    let shouldFlush :=
      (mode_eqb (StopMode_ (opts d)) StopFlush
       || mode_eqb (StopMode_ (opts d)) StopFlushAndCallback)
      && pending0 && Trailing (opts d) in
    let shouldCallback :=
      (mode_eqb (StopMode_ (opts d)) StopCallbackOnly
       || mode_eqb (StopMode_ (opts d)) StopFlushAndCallback)
      && OnStop (opts d) in
    modify (set_stopped true) ;;
    stopTimerLocked false ;;
    stopTimerLocked true ;;
    modify (set_pending false) ;;
    unlock ;;
    when shouldFlush (emit (EvCb last0)) ;;
    when shouldCallback (emit (EvOnStop last0)).

(** One turn of [timerLoop] (and of [maxLoop], whose body is the same)
    on a tick of its timer. *)
Definition timerLoop : DM unit :=
  lock ;;
  d <- get ;;
  if stopped d then unlock
  else
    when (Trailing (opts d) && pending d) (emit (EvCb (last d))) ;;
    modify (set_pending false) ;;
    stopTimerLocked false ;;
    stopTimerLocked true ;;
    unlock.

Definition maxLoop : DM unit :=
  lock ;;
  d <- get ;;
  if stopped d then unlock
  else
    when (pending d && Trailing (opts d)) (emit (EvCb (last d))) ;;
    modify (set_pending false) ;;
    stopTimerLocked false ;;
    stopTimerLocked true ;;
    unlock.

(** The calls a debouncer receives, ticks of its two loops included. *)
Inductive op : Type :=
| OpTrigger (v : T)
| OpFlush
| OpStop
| OpTimerTick
| OpMaxTick.

Definition run_op (o : op) : DM unit :=
  match o with
  | OpTrigger v => Trigger v
  | OpFlush => Flush
  | OpStop => Stop
  | OpTimerTick => timerLoop
  | OpMaxTick => maxLoop
  end.

Fixpoint run (ops : list op) : DM unit :=
  match ops with
  | [] => ret tt
  | o :: ops' => run_op o ;; run ops'
  end.

End WithValue.
End Debouncer.

(** *** Coalescer *)
Module Coalescer.
Section WithValue.
Variable T : Type.
Variable zero : T.
Variable folder : T -> T -> T.

Record CoalesceOpts : Type := mkCoalesceOpts {
  StopMode_ : StopMode;
  OnStop : bool
}.

(** [looping] says that the goroutine started by [go c.loop()] has not
    returned. *)
Record coalescer : Type := mkCoalescer {
  window : Z;
  timer_ : timer;
  acc : T;
  hasAcc : bool;
  stopped : bool;
  stopMode : StopMode;
  onStop : bool;
  looping : bool
}.

(** [opts ...CoalesceOpts[T]]: the first one given, else the zero
    options. *)
Definition NewCoalescer (w : Z) (o : list CoalesceOpts) : option coalescer :=
  if w <=? 0 then None
  else
    let o := match o with o0 :: _ => o0 | [] => mkCoalesceOpts StopNoop false end in
    Some {| window := w; timer_ := TimerNil; acc := zero; hasAcc := false;
            stopped := false; stopMode := StopMode_ o; onStop := OnStop o;
            looping := false |}.

Definition set_timer (x : timer) (lp : bool) (c : coalescer) : coalescer :=
  mkCoalescer (window c) x (acc c) (hasAcc c) (stopped c) (stopMode c) (onStop c) lp.
Definition set_acc (v : T) (h : bool) (c : coalescer) : coalescer :=
  mkCoalescer (window c) (timer_ c) v h (stopped c) (stopMode c) (onStop c) (looping c).
Definition set_hasAcc (h : bool) (c : coalescer) : coalescer :=
  mkCoalescer (window c) (timer_ c) (acc c) h (stopped c) (stopMode c) (onStop c) (looping c).
Definition set_stopped (b : bool) (c : coalescer) : coalescer :=
  mkCoalescer (window c) (timer_ c) (acc c) (hasAcc c) b (stopMode c) (onStop c) (looping c).
Definition set_looping (b : bool) (c : coalescer) : coalescer :=
  mkCoalescer (window c) (timer_ c) (acc c) (hasAcc c) (stopped c) (stopMode c) (onStop c) b.

Definition CM : Type -> Type := @M coalescer (event T).

Definition lock : CM unit := emit EvLock.
Definition unlock : CM unit := emit EvUnlock.

Definition stopTimerLocked : CM unit :=
  c <- get ;;
  match timer_ c with
  | TimerNil => ret tt
  | _ => modify (set_timer TimerStopped (looping c))
  end.

Definition Add (v : T) : CM unit :=
  lock ;;
  c <- get ;;
  if stopped c then unlock
  else
    (if negb (hasAcc c) then modify (set_acc v true)
     else modify (set_acc (folder (acc c) v) (hasAcc c))) ;;
    (match timer_ c with
     | TimerNil => modify (set_timer (TimerArmed (window c)) true)
     | _ => modify (set_timer (TimerArmed (window c)) (looping c))
     end) ;;
    unlock.

Definition Flush : CM unit :=
  lock ;;
  c <- get ;;
  if stopped c || negb (hasAcc c) then unlock
  else
    let acc0 := acc c in
    modify (set_hasAcc false) ;;
    stopTimerLocked ;;
    unlock ;;
    emit (EvCb acc0) ;;
    lock ;;
    unlock.

Definition Stop : CM unit :=
  lock ;;
  c <- get ;;
  if stopped c then unlock
  else
    let hasAcc0 := hasAcc c in
    let acc0 := acc c in
    let shouldFlush :=
      (mode_eqb (stopMode c) StopFlush || mode_eqb (stopMode c) StopFlushAndCallback)
      && hasAcc0 in
    let shouldCallback :=
      (mode_eqb (stopMode c) StopCallbackOnly || mode_eqb (stopMode c) StopFlushAndCallback)
      && onStop c in
    modify (set_stopped true) ;;
    stopTimerLocked ;;
    modify (set_hasAcc false) ;;
    unlock ;;
    when shouldFlush (emit (EvCb acc0)) ;;
    when shouldCallback (emit (EvOnStop acc0)).

(** One turn of [loop] on a tick of the window timer; the goroutine
    returns when the coalescer is stopped or holds nothing. *)
Definition loop : CM unit :=
  c0 <- get ;;
  if negb (looping c0) then ret tt
  else
    lock ;;
    c <- get ;;
    if stopped c then unlock ;; modify (set_looping false)
    else if hasAcc c then
      let acc0 := acc c in
      modify (set_hasAcc false) ;;
      stopTimerLocked ;;
      unlock ;;
      emit (EvCb acc0)
    else
      stopTimerLocked ;;
      unlock ;;
      modify (set_looping false).

(** [loop] leaving on [ctx.Done()]. *)
Definition loop_cancelled : CM unit := modify (set_looping false).

Inductive op : Type :=
| OpAdd (v : T)
| OpFlush
| OpStop
| OpTick
| OpCancel.

Definition run_op (o : op) : CM unit :=
  match o with
  | OpAdd v => Add v
  | OpFlush => Flush
  | OpStop => Stop
  | OpTick => loop
  | OpCancel => loop_cancelled
  end.

Fixpoint run (ops : list op) : CM unit :=
  match ops with
  | [] => ret tt
  | o :: ops' => run_op o ;; run ops'
  end.

End WithValue.
End Coalescer.

End Flow.

(** ** Package idcodec: key rotation *)
Module IdcodecMulti.

Import Idcodec.

(** [Cur] and the entries of [Old] are pointers that the methods
    dereference (a nil one panics): they are codecs here. *)
Record MultiCodec : Type := mkMultiCodec {
  Cur : Codec;
  Old : list Codec
}.

Definition EncodeUint64 (m : MultiCodec) (id : Z) : bytes :=
  Idcodec.EncodeUint64 (Cur m) id.

(** The loop [for _, c := range m.Old] and the return after it. *)
Fixpoint decode_old (old : list Codec) (s : bytes) : result Z :=
  match old with
  | [] => Err ErrMACVerification
  | c :: old' =>
      match Idcodec.DecodeToUint64 c s with
      | Ok u => Ok u
      | Err _ => decode_old old' s
      end
  end.

Definition DecodeToUint64 (m : MultiCodec) (s : bytes) : result Z :=
  match Idcodec.DecodeToUint64 (Cur m) s with
  | Ok u => Ok u
  | Err _ => decode_old (Old m) s
  end.

End IdcodecMulti.

(** ** Package gx: the SQL and text adapters of [ID] *)
Module GxAdapters.

Import Idcodec GxID.

(** [SetDefaultCodec]: the codec stored afterwards; [None] is the panic
    on a nil codec. *)
Definition SetDefaultCodec (c : option Codec) : option (option Codec) :=
  match c with
  | None => None
  | Some c => Some (Some c)
  end.

(** unicode/utf8: the size of the encoding at the head of [s], [0] when
    the head does not start a valid encoding ([RuneError] of width 1).
    The second byte has a range of its own after 0xE0, 0xED, 0xF0 and
    0xF4. *)
Definition continuation (lo hi : Z) (s : bytes) (i : nat) : bool :=
  match nth_error s i with
  | Some b => (lo <=? byte_val b) && (byte_val b <=? hi)
  | None => false
  end.

Definition sized (s : bytes) (n : nat) (lo hi : Z) : nat :=
  if (length s <? n)%nat then 0%nat
  else if negb (continuation lo hi s 1) then 0%nat
  else if (n <=? 2)%nat then 2%nat
  else if negb (continuation 128 191 s 2) then 0%nat
  else if (n <=? 3)%nat then 3%nat
  else if negb (continuation 128 191 s 3) then 0%nat
  else 4%nat.

Definition rune_size (s : bytes) : nat :=
  match s with
  | [] => 0%nat
  | b :: _ =>
      let x := byte_val b in
      if x <? 128 then 1%nat
      else if x <? 194 then 0%nat
      else if x <? 224 then sized s 2 128 191
      else if x =? 224 then sized s 3 160 191
      else if x =? 237 then sized s 3 128 159
      else if x <? 240 then sized s 3 128 191
      else if x =? 240 then sized s 4 144 191
      else if x <? 244 then sized s 4 128 191
      else if x =? 244 then sized s 4 128 143
      else 0%nat
  end.

(** The contents of the JSON string [json.Marshal] writes for a Go
    string: every byte that does not belong to a valid encoding becomes
    U+FFFD. Escapes are undone by the reader and leave no trace. *)
Fixpoint coerce_utf8 (fuel : nat) (s : bytes) : bytes :=
  match fuel, s with
  | S fuel', b :: s' =>
      if byte_val b <? 128 then b :: coerce_utf8 fuel' s'
      else
        match rune_size s with
        | O => byte_of 239 :: byte_of 191 :: byte_of 189 :: coerce_utf8 fuel' s'
        | n => firstn n s ++ coerce_utf8 fuel' (skipn n s)
        end
  | _, _ => []
  end.

Definition json_Marshal_string (s : bytes) : json := JString (coerce_utf8 (length s) s).

Definition MarshalJSON (defaultCodec : option Codec) (i : Z) : gx_error + json :=
  match getCodec defaultCodec with
  | inl err => inl err
  | inr c => inr (json_Marshal_string (EncodeUint64 c i))
  end.

(** [int64(i)] of a [uint64]. *)
Definition int64 (u : Z) : Z := (u + 2 ^ 63) mod 2 ^ 64 - 2 ^ 63.

(** The dynamic type and value of the [any] handed to [Scan], which is
    also what a [driver.Value] holds. *)
Inductive src : Type :=
| SrcInt64 (v : Z)
| SrcBytes (b : bytes)
| SrcString (s : bytes)
| SrcUint64 (v : Z)
| SrcNil
| SrcOther.

(** [strconv.ParseUint(s, 10, 64)]. *)
Inductive num_error : Type := ErrSyntax | ErrRange.

Definition maxUint64 : Z := 2 ^ 64 - 1.

Fixpoint parse_digits (s : bytes) (n : Z) : num_error + Z :=
  match s with
  | [] => inr n
  | ch :: s' =>
      let v := byte_val ch in
      if (48 <=? v) && (v <=? 57) then
        let d := v - 48 in
        if maxUint64 / 10 + 1 <=? n then inl ErrRange
        else
          let n := n * 10 in
          let n1 := u64 (n + d) in
          if (n1 <? n) || (maxUint64 <? n1) then inl ErrRange
          else parse_digits s' n1
      else inl ErrSyntax
  end.

Definition ParseUint (s : bytes) : num_error + Z :=
  match s with
  | [] => inl ErrSyntax
  | _ => parse_digits s 0
  end.

(** The errors of [Scan]; the first two wrap the error of [ParseUint]. *)
Inductive scan_error : Type :=
| ErrScanBytes (e : num_error)
| ErrScanString (e : num_error)
| ErrUnsupportedScanType.

Definition Value (i : Z) : src := SrcInt64 (int64 i).

(** [(i *ID) Scan(src)]: the error and the value [*i] holds afterwards. *)
Definition Scan (i : Z) (s : src) : option scan_error * Z :=
  match s with
  | SrcInt64 v => (None, u64 v)
  | SrcBytes b =>
      match ParseUint b with
      | inl e => (Some (ErrScanBytes e), i)
      | inr u => (None, u)
      end
  | SrcString b =>
      match ParseUint b with
      | inl e => (Some (ErrScanString e), i)
      | inr u => (None, u)
      end
  | SrcUint64 v => (None, v)
  | SrcNil => (None, 0)
  | SrcOther => (Some ErrUnsupportedScanType, i)
  end.

(** [strconv.FormatUint(u, 10)], which [%d] prints. *)
Fixpoint format_digits (fuel : nat) (u : Z) (acc : bytes) : bytes :=
  match fuel with
  | O => acc
  | S fuel' =>
      let acc' := byte_of (48 + u mod 10) :: acc in
      if u <? 10 then acc' else format_digits fuel' (u / 10) acc'
  end.

Definition FormatUint (u : Z) : bytes := format_digits 20 u [].

Definition String_ (defaultCodec : option Codec) (i : Z) : bytes :=
  match defaultCodec with
  | None => str "ID(" ++ FormatUint i ++ str ")"
  | Some c => EncodeUint64 c i
  end.

Definition MarshalText (defaultCodec : option Codec) (i : Z) : gx_error + bytes :=
  match getCodec defaultCodec with
  | inl err => inl err
  | inr c => inr (EncodeUint64 c i)
  end.

(** [UnmarshalText] and [ParseIDString] return the codec's error as it
    is, not wrapped. *)
Definition UnmarshalText (defaultCodec : option Codec) (i : Z) (b : bytes)
  : option (gx_error + error) * Z :=
  match getCodec defaultCodec with
  | inl err => (Some (inl err), i)
  | inr c =>
      match DecodeToUint64 c (TrimSpace b) with
      | Err e => (Some (inr e), i)
      | Ok u => (None, u)
      end
  end.

Definition ParseIDString (defaultCodec : option Codec) (s : bytes)
  : (gx_error + error) + Z :=
  match getCodec defaultCodec with
  | inl err => inl (inl err)
  | inr c =>
      match DecodeToUint64 c (TrimSpace s) with
      | Err e => inl (inr e)
      | Ok u => inr u
      end
  end.

Record NullID : Type := mkNullID {
  ID : Z;
  Valid : bool
}.

Definition NullID_Value (n : NullID) : src :=
  if negb (Valid n) then SrcNil else Value (ID n).

(** [Valid] is set before [n.ID.Scan] runs, whatever it returns. *)
Definition NullID_Scan (n : NullID) (s : src) : option scan_error * NullID :=
  match s with
  | SrcNil => (None, mkNullID 0 false)
  | _ => let '(err, i) := Scan (ID n) s in (err, mkNullID i true)
  end.

End GxAdapters.

(** ** Package gx: the per-key managers

    A manager keeps one child per key in a map. The map is a list of
    pairs without repeated keys; Go leaves the order of [range] over a
    map open, and the order of the list stands for one such order.
    Every method is one step, as for the children. A child is reached
    through the map only, so it is kept in the map itself; an evicted
    child, stopped for good, is dropped with its key. *)
Module FlowByKey.
Import Flow.

(** What a manager does besides updating its fields: taking and
    releasing its own mutex, and what the child of a key does. For a
    child, [EvCb v] is the call [m.cb(k, v)] (or [m.emit(k, v)]) and
    [EvOnStop v] the call [m.opts.OnStop(k, v)]; [EvLock] and
    [EvUnlock] are about the mutex of the child. [MPanic] is the type
    assertion on a child that was not constructed. *)
Inductive mevent (K V : Type) : Type :=
| MLock
| MUnlock
| MChild (k : K) (e : event V)
| MPanic.
Arguments MLock {K V}.
Arguments MUnlock {K V}.
Arguments MChild {K V} k e.
Arguments MPanic {K V}.

(** The map operations [m.nodes[k]], [m.nodes[k] = n] and
    [delete(m.nodes, k)]. *)
Section Map.
Variables K N : Type.
Variable K_eqb : K -> K -> bool.

Fixpoint lookup (k : K) (l : list (K * N)) : option N :=
  match l with
  | [] => None
  | (k', n) :: l' => if K_eqb k k' then Some n else lookup k l'
  end.

Fixpoint store (k : K) (n : N) (l : list (K * N)) : list (K * N) :=
  match l with
  | [] => [(k, n)]
  | (k', n') :: l' => if K_eqb k k' then (k, n) :: l' else (k', n') :: store k n l'
  end.

Fixpoint delete (k : K) (l : list (K * N)) : list (K * N) :=
  match l with
  | [] => []
  | (k', n') :: l' => if K_eqb k k' then l' else (k', n') :: delete k l'
  end.

End Map.
Arguments lookup {K N} K_eqb k l.
Arguments store {K N} K_eqb k n l.
Arguments delete {K N} K_eqb k l.

(** [for _, k := range keys { f k }] *)
Fixpoint for_keys {K S E : Type} (ks : list K) (f : K -> @M S E unit) : @M S E unit :=
  match ks with
  | [] => ret tt
  | k :: ks' => f k ;; for_keys ks' f
  end.

(** *** DebouncerByKey *)
Module DebouncerByKey.
Section WithKey.
Variables K V : Type.
Variable K_eqb : K -> K -> bool.   (* [==] on the comparable type [K] *)
Variable zero : V.

Record DebounceKeyOpts : Type := mkDebounceKeyOpts {
  Wait : Z;
  Leading : bool;
  Trailing : bool;
  MaxWait : Z;
  IdleTTL : Z;
  StopMode_ : StopMode;
  OnStop : bool        (* a callback is configured (non-nil) *)
}.

(** [last] is a [time.Time], in nanoseconds. *)
Record debouncerNode : Type := mkDebouncerNode {
  db : Debouncer.debouncer V;
  last : Z
}.

(** [evicting] says that the goroutine of [evictor] has not returned. *)
Record debouncerByKey : Type := mkDebouncerByKey {
  opts : DebounceKeyOpts;
  nodes : list (K * debouncerNode);
  stop : bool;
  evicting : bool
}.

Definition NewDebouncerByKey (o : DebounceKeyOpts) : option debouncerByKey :=
  if Wait o <=? 0 then None
  else
    let o :=
      if negb (Leading o) && negb (Trailing o)
      then mkDebounceKeyOpts (Wait o) (Leading o) true (MaxWait o) (IdleTTL o)
                             (StopMode_ o) (OnStop o)
      else o in
    Some {| opts := o; nodes := []; stop := false; evicting := 0 <? IdleTTL o |}.

Definition set_nodes (l : list (K * debouncerNode)) (m : debouncerByKey) : debouncerByKey :=
  mkDebouncerByKey (opts m) l (stop m) (evicting m).
Definition set_stop (b : bool) (m : debouncerByKey) : debouncerByKey :=
  mkDebouncerByKey (opts m) (nodes m) b (evicting m).
Definition set_evicting (b : bool) (m : debouncerByKey) : debouncerByKey :=
  mkDebouncerByKey (opts m) (nodes m) (stop m) b.

Definition MM : Type -> Type := @M debouncerByKey (mevent K V).

Definition lock : MM unit := emit MLock.
Definition unlock : MM unit := emit MUnlock.

(** The options a child is created with: its [OnStop] is a closure,
    never nil, that calls the manager's [OnStop] when there is one. *)
Definition child_opts (o : DebounceKeyOpts) : Debouncer.DebounceOpts :=
  Debouncer.mkDebounceOpts (Wait o) (Leading o) (Trailing o) (MaxWait o) (StopMode_ o) true.

Definition lift_event (o : DebounceKeyOpts) (k : K) (e : event V) : list (mevent K V) :=
  match e with
  | EvOnStop v => if OnStop o then [MChild k (EvOnStop v)] else []
  | _ => [MChild k e]
  end.

(** A method of the child of [k], on the child the map holds. *)
Definition on_child (k : K) (f : Debouncer.DM V unit) : MM unit :=
  fun m =>
    match lookup K_eqb k (nodes m) with
    | None => (tt, m, [])
    | Some n =>
        let '(_, d, tr) := f (db n) in
        (tt, set_nodes (store K_eqb k (mkDebouncerNode d (last n)) (nodes m)) m,
         flat_map (lift_event (opts m) k) tr)
    end.

(** [now] is what [time.Now()] returns. *)
Definition Trigger (now : Z) (k : K) (v : V) : MM unit :=
  lock ;;
  m <- get ;;
  if stop m then unlock
  else
    match lookup K_eqb k (nodes m) with
    | Some n =>
        modify (set_nodes (store K_eqb k (mkDebouncerNode (db n) now) (nodes m))) ;;
        unlock ;;
        on_child k (Debouncer.Trigger V v)
    | None =>
        match Debouncer.NewDebouncer V zero (child_opts (opts m)) with
        | None => emit MPanic
        | Some d =>
            modify (set_nodes (store K_eqb k (mkDebouncerNode d now) (nodes m))) ;;
            unlock ;;
            on_child k (Debouncer.Trigger V v)
        end
    end.

Definition FlushKey (k : K) : MM unit :=
  lock ;;
  unlock ;;
  on_child k (Debouncer.Flush V).

Definition FlushAll : MM unit :=
  lock ;;
  m <- get ;;
  unlock ;;
  for_keys (map fst (nodes m)) (fun k => on_child k (Debouncer.Flush V)).

Definition Stop : MM unit :=
  lock ;;
  m <- get ;;
  if stop m then unlock
  else
    modify (set_stop true) ;;
    unlock ;;
    for_keys (map fst (nodes m)) (fun k => on_child k (Debouncer.Stop V)).

(** One turn of [evictor] on a tick of its ticker. *)
Definition evictor (now : Z) : MM unit :=
  m0 <- get ;;
  if negb (evicting m0) then ret tt
  else
    lock ;;
    m <- get ;;
    if stop m then unlock ;; modify (set_evicting false)
    else
      let cut := now - IdleTTL (opts m) in
      for_keys (map fst (nodes m))
        (fun k =>
           s <- get ;;
           match lookup K_eqb k (nodes s) with
           | Some n =>
               if last n <? cut then
                 on_child k (Debouncer.Stop V) ;;
                 s' <- get ;;
                 modify (set_nodes (delete K_eqb k (nodes s')))
               else ret tt
           | None => ret tt
           end) ;;
      unlock.

(** [evictor] leaving on [ctx.Done()]. *)
Definition evictor_cancelled : MM unit := modify (set_evicting false).

(** The calls a manager receives, the ticks of its evictor and of the
    timers of its children included. *)
Inductive op : Type :=
| OpTrigger (now : Z) (k : K) (v : V)
| OpFlushKey (k : K)
| OpFlushAll
| OpStop
| OpEvict (now : Z)
| OpEvictorCancel
| OpTimerTick (k : K)
| OpMaxTick (k : K).

Definition run_op (o : op) : MM unit :=
  match o with
  | OpTrigger now k v => Trigger now k v
  | OpFlushKey k => FlushKey k
  | OpFlushAll => FlushAll
  | OpStop => Stop
  | OpEvict now => evictor now
  | OpEvictorCancel => evictor_cancelled
  | OpTimerTick k => on_child k (Debouncer.timerLoop V)
  | OpMaxTick k => on_child k (Debouncer.maxLoop V)
  end.

Fixpoint run (ops : list op) : MM unit :=
  match ops with
  | [] => ret tt
  | o :: ops' => run_op o ;; run ops'
  end.

End WithKey.
End DebouncerByKey.

(** *** CoalescerByKey *)
Module CoalescerByKey.
Section WithKey.
Variables K V : Type.
Variable K_eqb : K -> K -> bool.   (* [==] on the comparable type [K] *)
Variable zero : V.
Variable folder : V -> V -> V.

Record CoalesceKeyOpts : Type := mkCoalesceKeyOpts {
  Window : Z;
  IdleTTL : Z;
  StopMode_ : StopMode;
  OnStop : bool        (* a callback is configured (non-nil) *)
}.

Record coalesceNode : Type := mkCoalesceNode {
  c : Coalescer.coalescer V;
  last : Z
}.

Record coalescerByKey : Type := mkCoalescerByKey {
  opts : CoalesceKeyOpts;
  nodes : list (K * coalesceNode);
  stop : bool;
  evicting : bool
}.

Definition NewCoalescerByKey (o : CoalesceKeyOpts) : option coalescerByKey :=
  if Window o <=? 0 then None
  else Some {| opts := o; nodes := []; stop := false; evicting := 0 <? IdleTTL o |}.

Definition set_nodes (l : list (K * coalesceNode)) (m : coalescerByKey) : coalescerByKey :=
  mkCoalescerByKey (opts m) l (stop m) (evicting m).
Definition set_stop (b : bool) (m : coalescerByKey) : coalescerByKey :=
  mkCoalescerByKey (opts m) (nodes m) b (evicting m).
Definition set_evicting (b : bool) (m : coalescerByKey) : coalescerByKey :=
  mkCoalescerByKey (opts m) (nodes m) (stop m) b.

Definition MM : Type -> Type := @M coalescerByKey (mevent K V).

Definition lock : MM unit := emit MLock.
Definition unlock : MM unit := emit MUnlock.

(** The one [CoalesceOpts] a child is created with: its [OnStop] is a
    closure, never nil. *)
Definition child_opts (o : CoalesceKeyOpts) : Coalescer.CoalesceOpts :=
  Coalescer.mkCoalesceOpts (StopMode_ o) true.

Definition lift_event (o : CoalesceKeyOpts) (k : K) (e : event V) : list (mevent K V) :=
  match e with
  | EvOnStop v => if OnStop o then [MChild k (EvOnStop v)] else []
  | _ => [MChild k e]
  end.

Definition on_child (k : K) (f : Coalescer.CM V unit) : MM unit :=
  fun m =>
    match lookup K_eqb k (nodes m) with
    | None => (tt, m, [])
    | Some n =>
        let '(_, d, tr) := f (c n) in
        (tt, set_nodes (store K_eqb k (mkCoalesceNode d (last n)) (nodes m)) m,
         flat_map (lift_event (opts m) k) tr)
    end.

Definition Add (now : Z) (k : K) (v : V) : MM unit :=
  lock ;;
  m <- get ;;
  if stop m then unlock
  else
    match lookup K_eqb k (nodes m) with
    | Some n =>
        modify (set_nodes (store K_eqb k (mkCoalesceNode (c n) now) (nodes m))) ;;
        unlock ;;
        on_child k (Coalescer.Add V folder v)
    | None =>
        match Coalescer.NewCoalescer V zero (Window (opts m)) [child_opts (opts m)] with
        | None => emit MPanic
        | Some d =>
            modify (set_nodes (store K_eqb k (mkCoalesceNode d now) (nodes m))) ;;
            unlock ;;
            on_child k (Coalescer.Add V folder v)
        end
    end.

Definition FlushKey (k : K) : MM unit :=
  lock ;;
  unlock ;;
  on_child k (Coalescer.Flush V).

Definition FlushAll : MM unit :=
  lock ;;
  m <- get ;;
  unlock ;;
  for_keys (map fst (nodes m)) (fun k => on_child k (Coalescer.Flush V)).

Definition Stop : MM unit :=
  lock ;;
  m <- get ;;
  if stop m then unlock
  else
    modify (set_stop true) ;;
    unlock ;;
    for_keys (map fst (nodes m)) (fun k => on_child k (Coalescer.Stop V)).

Definition evictor (now : Z) : MM unit :=
  m0 <- get ;;
  if negb (evicting m0) then ret tt
  else
    lock ;;
    m <- get ;;
    if stop m then unlock ;; modify (set_evicting false)
    else
      let cut := now - IdleTTL (opts m) in
      for_keys (map fst (nodes m))
        (fun k =>
           s <- get ;;
           match lookup K_eqb k (nodes s) with
           | Some n =>
               if last n <? cut then
                 on_child k (Coalescer.Stop V) ;;
                 s' <- get ;;
                 modify (set_nodes (delete K_eqb k (nodes s')))
               else ret tt
           | None => ret tt
           end) ;;
      unlock.

Definition evictor_cancelled : MM unit := modify (set_evicting false).

(** The calls a manager receives, the ticks of its evictor and the
    turns of the loops of its children included. *)
Inductive op : Type :=
| OpAdd (now : Z) (k : K) (v : V)
| OpFlushKey (k : K)
| OpFlushAll
| OpStop
| OpEvict (now : Z)
| OpEvictorCancel
| OpTick (k : K)
| OpLoopCancel (k : K).

Definition run_op (o : op) : MM unit :=
  match o with
  | OpAdd now k v => Add now k v
  | OpFlushKey k => FlushKey k
  | OpFlushAll => FlushAll
  | OpStop => Stop
  | OpEvict now => evictor now
  | OpEvictorCancel => evictor_cancelled
  | OpTick k => on_child k (Coalescer.loop V)
  | OpLoopCancel k => on_child k (Coalescer.loop_cancelled V)
  end.

Fixpoint run (ops : list op) : MM unit :=
  match ops with
  | [] => ret tt
  | o :: ops' => run_op o ;; run ops'
  end.

End WithKey.
End CoalescerByKey.

End FlowByKey.

(** * Vocabulary of the properties

    The predicates and reference functions the properties are stated
    with, and the concrete instances their examples run on. *)

Import Idcodec GxID.

(** ** Codec *)

(** The two keys that are xored lie in the range of [uint64]. *)
Definition keys_in_range (c : Codec) : Prop :=
  0 <= k1 c < 2 ^ 64 /\ 0 <= k3 c < 2 ^ 64.

(** One turn of the loop that fills the reverse table. *)
Definition rev_step (alp : bytes) (r : list Z) (i : nat) : list Z :=
  set_nth r (nat_of_ascii (at_byte alp i)) (int8 (Z.of_nat i)).

(** The [n] low base-62 digits of [u], most significant first. *)
Fixpoint digits62 (n : nat) (u : Z) : list Z :=
  match n with
  | O => []
  | S k => digits62 k (u / 62) ++ [u mod 62]
  end.

(** [rev] inverts the alphabet on the 62 digits. *)
Definition rev_inverts (c : Codec) : Prop :=
  forall d, 0 <= d < 62 -> rev_at c (alpha_at c d) = d.

(** The alphabet the constructor settles on. *)
Definition effective_alphabet (cfg : Config) : bytes :=
  match Alphabet cfg with [] => DefaultAlphabet | _ => Alphabet cfg end.

(** Pairwise distinct bytes. *)
Fixpoint distinctb (l : bytes) : bool :=
  match l with
  | [] => true
  | a :: t => negb (existsb (Ascii.eqb a) t) && distinctb t
  end.

(** The first 62 bytes of the codec's alphabet are pairwise distinct. *)
Definition alphabet_distinct (c : Codec) : bool := distinctb (firstn 62 (alphabet c)).

(** Membership in the whole alphabet string, and in its first 62 bytes. *)
Definition in_alphabet (c : Codec) (ch : ascii) : bool :=
  existsb (Ascii.eqb ch) (alphabet c).

Definition in_first62 (c : Codec) (ch : ascii) : bool :=
  existsb (Ascii.eqb ch) (firstn 62 (alphabet c)).

(** The big-endian base-62 value of a body, through the reverse table. *)
Definition body_value (c : Codec) (body : bytes) : Z :=
  fold_left (fun u ch => u64 (u * 62 + rev_at c ch)) body 0.

(** The decoder as the specification words it: four checks in a fixed
    order, the first failing one naming the error. [member] decides
    which body characters count as inside the alphabet. *)
Definition checks_in_order (member : ascii -> bool) (c : Codec) (s : bytes) : result Z :=
  let body := firstn 11 (skipn 1 s) in
  let pad := skipn 12 s in
  if negb (Z.of_nat (length s) =? 1 + 11 + macLen c) then Err ErrInvalidLength
  else if negb (rev_at c (at_byte s 0) =? Z.of_N (version c)) then Err ErrVersionMismatch
  else if negb (forallb member body) then Err ErrInvalidBase62Char
  else if list_eq_dec ascii_dec pad (hmacPadding c (body_value c body) (kind c))
       then Ok (inversePermutation c (body_value c body))
       else Err ErrMACVerification.

(** ** JSON adapter *)

(** A string taken as it stands: the empty string is zero, any other
    string is decoded with the default codec. *)
Definition decode_json_string (defaultCodec : option Codec) (i : Z) (s : bytes)
  : option gx_error * Z :=
  match s with
  | [] => (None, 0)
  | _ =>
      match defaultCodec with
      | None => (Some ErrDefaultCodecNil, i)
      | Some c =>
          match DecodeToUint64 c s with
          | Err e => (Some (ErrInvalidEncodedID e), i)
          | Ok u => (None, u)
          end
      end
  end.

(** The number literals [json.Unmarshal] accepts for a [uint64]. *)
Definition is_uint64_literal (n : number) : bool :=
  negb (negative n) && negb (frac_or_exp n) && (digits n <? 2 ^ 64)%N.

(** ** Throttler *)
Section ThrottlerVocabulary.
Import Flow.Throttler.

Definition tevent_eq_dec (a b : tevent) : {a = b} + {a <> b}.
Proof. repeat decide equality. Defined.

(** How often the onStop callback ran in a trace. *)
Definition onStop_runs (tr : list tevent) : nat := count_occ tevent_eq_dec tr TOnStop.

(** How often a call of [Stop] returned in a trace. *)
Definition stop_returns (tr : list tevent) : nat := count_occ tevent_eq_dec tr TStopReturned.

(** [n] calls of [Stop], one after the other. *)
Fixpoint stop_calls (n : nat) (t : throttler) : list tevent * throttler :=
  match n with
  | O => ([], t)
  | S n' => (fst (Stop t) ++ fst (stop_calls n' (snd (Stop t))),
             snd (stop_calls n' (snd (Stop t))))
  end.

(** A monitor for the order of stopping. It remembers whether onStop
    has run and whether the stop signal is published, and is violated
    ([None]) when onStop runs twice, runs unconfigured or runs after the
    signal; when the signal is published twice or before a configured
    onStop has run; and when a call of [Stop] returns, or a call of
    [Acquire] fails as stopped, before the signal is published. *)
Definition monitor : Type := option (bool * bool).

Definition monitor_step (configured : bool) (m : monitor) (e : tevent) : monitor :=
  match m with
  | None => None
  | Some (ran, published) =>
      match e with
      | TOnStop =>
          if ran || published || negb configured then None else Some (true, published)
      | TStopClosed =>
          if published || (configured && negb ran) then None else Some (ran, true)
      | TStopReturned | TAcquired AcqStopped =>
          if published then m else None
      | _ => m
      end
  end.

Definition stop_protocol (configured : bool) (tr : list tevent) : monitor :=
  fold_left (monitor_step configured) tr (Some (false, false)).

(** The state of an execution agrees with its trace. *)
Definition agrees (configured : bool) (tr : list tevent) (t : throttler) : Prop :=
  onStop t = configured
  /\ stop_protocol configured tr =
     Some (match stopOnce t with OnceIdle => false | _ => configured end, stop_closed t)
  /\ onStop_runs tr = (match stopOnce t with OnceIdle => 0 | _ => if configured then 1 else 0 end)%nat
  /\ (stopOnce t = OnceDone <-> stop_closed t = true)
  /\ (In TStopReturned tr -> stopOnce t = OnceDone).

End ThrottlerVocabulary.

(** ** Traces of debouncers and coalescers *)
Section TraceVocabulary.
Import Flow.
Variable T : Type.

(** The callbacks ([cb]/[emit] and [onStop]) of a trace, in order. *)
Definition callbacks (tr : list (event T)) : list (event T) :=
  filter (fun e => match e with EvCb _ | EvOnStop _ => true | _ => false end) tr.

(** The values handed to [cb]/[emit], and to [onStop]. *)
Definition emitted (tr : list (event T)) : list T :=
  flat_map (fun e => match e with EvCb v => [v] | _ => [] end) tr.

Definition onStop_calls (tr : list (event T)) : list T :=
  flat_map (fun e => match e with EvOnStop v => [v] | _ => [] end) tr.

(** Every callback of the trace is called while the mutex is free;
    [held] says whether it is taken at the start. *)
Fixpoint callbacks_outside_lock (held : bool) (tr : list (event T)) : bool :=
  match tr with
  | [] => true
  | EvLock :: tr' => callbacks_outside_lock true tr'
  | EvUnlock :: tr' => callbacks_outside_lock false tr'
  | _ :: tr' => negb held && callbacks_outside_lock held tr'
  end.

(** The stop modes that flush, and those that call onStop. *)
Definition flush_mode (m : StopMode) : bool :=
  match m with StopFlush | StopFlushAndCallback => true | _ => false end.

Definition callback_mode (m : StopMode) : bool :=
  match m with StopCallbackOnly | StopFlushAndCallback => true | _ => false end.

End TraceVocabulary.
Arguments callbacks {T} tr.
Arguments emitted {T} tr.
Arguments onStop_calls {T} tr.
Arguments callbacks_outside_lock {T} held tr.

Section DebouncerVocabulary.
Import Flow Flow.Debouncer.
Variable T : Type.

(** The value of the last [Trigger] of a list of calls, [v0] if none. *)
Definition last_triggered (v0 : T) (ops : list (op T)) : T :=
  fold_left (fun v o => match o with OpTrigger _ x => x | _ => v end) ops v0.

(** The call is a [Stop]. *)
Definition is_debouncer_stop (o : op T) : bool :=
  match o with OpStop _ => true | _ => false end.

End DebouncerVocabulary.
Arguments last_triggered {T} v0 ops.
Arguments is_debouncer_stop {T} o.

Section CoalescerVocabulary.
Import Flow Flow.Coalescer.
Variable T : Type.
Variable zero : T.
Variable folder : T -> T -> T.

(** The left fold of a window of added values. *)
Definition fold_window (win : list T) : T :=
  match win with
  | [] => zero
  | v :: vs => fold_left folder vs v
  end.

(** The calls of a run, each with the events it caused. *)
Fixpoint run_log (ops : list (op T)) (c : coalescer T) : list (op T * list (event T)) :=
  match ops with
  | [] => []
  | o :: ops' =>
      (o, trace_of (run_op T folder o) c)
      :: run_log ops' (state_after (run_op T folder o) c)
  end.

(** Reading a log with the window of values added since the last
    emission: whatever a call hands to [emit] is one value, the left
    fold of the window, which is not empty; the window then restarts. *)
Fixpoint emissions_are_folds (win : list T) (log : list (op T * list (event T))) : Prop :=
  match log with
  | [] => True
  | (o, evs) :: log' =>
      let win1 := match o with OpAdd _ v => win ++ [v] | _ => win end in
      match emitted evs with
      | [] => emissions_are_folds win1 log'
      | xs => xs = [fold_window win1] /\ win1 <> [] /\ emissions_are_folds [] log'
      end
  end.

(** The accumulator holds the fold of the window. *)
Definition holds_window (c : coalescer T) (win : list T) : Prop :=
  stopped T c = true
  \/ (hasAcc T c = true /\ win <> [] /\ acc T c = fold_window win)
  \/ (hasAcc T c = false /\ win = []).

(** The value handed to [emit] last in a trace, [v0] if none. *)
Definition last_emitted (v0 : T) (tr : list (event T)) : T := List.last (emitted tr) v0.

(** The call is a [Stop], an [Add]. *)
Definition is_coalescer_stop (o : op T) : bool := match o with OpStop _ => true | _ => false end.

Definition is_add (o : op T) : bool := match o with OpAdd _ _ => true | _ => false end.

(** The value of the last [Add] of a list of calls, [v0] if none. *)
Definition last_added (v0 : T) (ops : list (op T)) : T :=
  fold_left (fun v o => match o with OpAdd _ x => x | _ => v end) ops v0.

End CoalescerVocabulary.
Arguments fold_window {T} zero folder win.
Arguments run_log {T} folder ops c.
Arguments emissions_are_folds {T} zero folder win log.
Arguments holds_window {T} zero folder c win.
Arguments last_emitted {T} v0 tr.
Arguments is_coalescer_stop {T} o.
Arguments is_add {T} o.
Arguments last_added {T} v0 ops.

(** ** Instances for the examples *)

(** The default alphabet with ['0'] repeated in front: 63 bytes, 62
    distinct characters. *)
Definition repeated_zero_alphabet : bytes :=
  str "00123456789ABCDEFGHIJKLMNOPQRSTUVWXYZabcdefghijklmnopqrstuvwxyz".

Definition repeated_zero_cfg : Config :=
  {| Secret := str "k"; Version := 0; MacLen := 1;
     Alphabet := repeated_zero_alphabet; Domain := []; Kind := None |}.

Definition repeated_zero_codec : Codec :=
  Eval vm_compute in
    match NewCodecFromSecret repeated_zero_cfg with
    | Ok c => c
    | Err _ => mkCodec 0 0 [] [] 0 0 0 0 [] [] None
    end.

(** The codec of the repository's tests: key [SHA-256("gx-secret")],
    version 0, six pad characters. *)
Definition gx_cfg : Config :=
  {| Secret := Sha256.Sum256 (str "gx-secret"); Version := 0; MacLen := 6;
     Alphabet := []; Domain := []; Kind := None |}.

Definition gx_codec : Codec :=
  Eval vm_compute in
    match NewCodecFromSecret gx_cfg with
    | Ok c => c
    | Err _ => mkCodec 0 0 [] [] 0 0 0 0 [] [] None
    end.

(** The default alphabet with ['~'] as a 63rd character. *)
Definition tilde_cfg : Config :=
  {| Secret := str "k"; Version := 0; MacLen := 1;
     Alphabet := str "0123456789ABCDEFGHIJKLMNOPQRSTUVWXYZabcdefghijklmnopqrstuvwxyz~";
     Domain := []; Kind := None |}.

Definition tilde_codec : Codec :=
  Eval vm_compute in
    match NewCodecFromSecret tilde_cfg with
    | Ok c => c
    | Err _ => mkCodec 0 0 [] [] 0 0 0 0 [] [] None
    end.

Definition tilde_token : bytes := str "0~~~~~~~~~~~0".

(** Throttlers, debouncers over [Z] and coalescers that sum. *)
Definition burst1_opts : Flow.Throttler.ThrottlerOpts :=
  Flow.Throttler.mkThrottlerOpts 20000000 1 false.

Definition burst2_opts : Flow.Throttler.ThrottlerOpts :=
  Flow.Throttler.mkThrottlerOpts 20000000 2 true.

Definition burst1_throttler : Flow.Throttler.throttler :=
  Eval compute in
    match Flow.Throttler.NewThrottler burst1_opts with
    | Some t => t
    | None => Flow.Throttler.mkThrottler 0 0 0 false Flow.Throttler.OnceIdle false false
    end.

Definition burst2_throttler : Flow.Throttler.throttler :=
  Eval compute in
    match Flow.Throttler.NewThrottler burst2_opts with
    | Some t => t
    | None => Flow.Throttler.mkThrottler 0 0 0 false Flow.Throttler.OnceIdle false false
    end.

Definition trailing_opts : Flow.Debouncer.DebounceOpts :=
  Flow.Debouncer.mkDebounceOpts 30000000 false true 0 Flow.StopNoop false.

Definition trailing_debouncer : Flow.Debouncer.debouncer Z :=
  Eval compute in
    match Flow.Debouncer.NewDebouncer Z 0 trailing_opts with
    | Some d => d
    | None => Flow.Debouncer.mkDebouncer Z trailing_opts Flow.TimerNil Flow.TimerNil
                0 false true false false
    end.

Definition flush_and_callback_opts : Flow.Debouncer.DebounceOpts :=
  Flow.Debouncer.mkDebounceOpts 50000000 true true 0 Flow.StopFlushAndCallback true.

Definition flush_and_callback_debouncer : Flow.Debouncer.debouncer Z :=
  Eval compute in
    match Flow.Debouncer.NewDebouncer Z 0 flush_and_callback_opts with
    | Some d => d
    | None => Flow.Debouncer.mkDebouncer Z flush_and_callback_opts Flow.TimerNil
                Flow.TimerNil 0 false true false false
    end.

Definition sum_coalescer (o : Flow.Coalescer.CoalesceOpts) : Flow.Coalescer.coalescer Z :=
  match Flow.Coalescer.NewCoalescer Z 0 30000000 [o] with
  | Some c => c
  | None => Flow.Coalescer.mkCoalescer Z 0 Flow.TimerNil 0 false true Flow.StopNoop false false
  end.

Definition stop_flush_opts : Flow.Coalescer.CoalesceOpts :=
  Flow.Coalescer.mkCoalesceOpts Flow.StopFlush false.

Definition flush_and_callback_coalescer_opts : Flow.Coalescer.CoalesceOpts :=
  Flow.Coalescer.mkCoalesceOpts Flow.StopFlushAndCallback true.

Definition callback_only_opts : Flow.Coalescer.CoalesceOpts :=
  Flow.Coalescer.mkCoalesceOpts Flow.StopCallbackOnly true.

(** ** Codec: tokens and key rotation *)

(** The value of a list of base-62 digits, most significant first. *)
Definition digits_value (ds : list Z) : Z :=
  fold_left (fun a d => a * 62 + d) ds 0.

(** A second token for [id]: its body spells [permutation c id + 2^64],
    which eleven base-62 digits still hold. *)
Definition alias_token (c : Codec) (id : Z) : bytes :=
  let enc := permutation c id in
  [alpha_at c (Z.of_N (version c))]
  ++ map (alpha_at c) (digits62 11 (enc + 2 ^ 64))
  ++ hmacPadding c enc (kind c).

(** The codec of a key rotation: key [SHA-256("cur")], version 1. *)
Definition cur_cfg : Config :=
  {| Secret := Sha256.Sum256 (str "cur"); Version := 1; MacLen := 6;
     Alphabet := []; Domain := []; Kind := None |}.

Definition cur_codec : Codec :=
  Eval vm_compute in
    match NewCodecFromSecret cur_cfg with
    | Ok c => c
    | Err _ => mkCodec 0 0 [] [] 0 0 0 0 [] [] None
    end.

Definition rotated : IdcodecMulti.MultiCodec :=
  IdcodecMulti.mkMultiCodec cur_codec [gx_codec].

(** ** Adapters *)

(** The [n] low decimal digits of [u], most significant first, as
    characters. *)
Fixpoint decimal (n : nat) (u : Z) : bytes :=
  match n with
  | O => []
  | S k => decimal k (u / 10) ++ [byte_of (48 + u mod 10)]
  end.

(** A byte of 7 bits that is not white space. *)
Definition plain (b : ascii) : bool := (byte_val b <? 128) && negb (ascii_space b).

(** The first 62 characters of the codec's alphabet are plain. *)
Definition alphabet_plain (c : Codec) : bool := forallb plain (firstn 62 (alphabet c)).

(** ** Runs of throttlers, debouncers and coalescers *)

(** [k] calls of [TryAcquire] one after the other: their results and
    the throttler afterwards. *)
Fixpoint try_many (k : nat) (t : Flow.Throttler.throttler)
  : list bool * Flow.Throttler.throttler :=
  match k with
  | O => ([], t)
  | S k' =>
      let '(hit, t1) := Flow.Throttler.TryAcquire t in
      let '(hits, t2) := try_many k' t1 in
      (hit :: hits, t2)
  end.

(** The capacity the constructor gives the reservoir. *)
Definition burst_of (o : Flow.Throttler.ThrottlerOpts) : nat :=
  Z.to_nat (Z.max 1 (Flow.Throttler.Burst o)).

Definition timer_armed (x : Flow.timer) : bool :=
  match x with Flow.TimerArmed _ => true | _ => false end.

(** Whether the mutex is held after a trace. *)
Definition lock_after {T : Type} (held : bool) (tr : list (Flow.event T)) : bool :=
  fold_left (fun h e => match e with
                        | Flow.EvLock => true
                        | Flow.EvUnlock => false
                        | _ => h
                        end) tr held.

(** The calls that leave emitting to the window timer. *)
Definition is_add_or_tick {T : Type} (o : Flow.Coalescer.op T) : bool :=
  match o with
  | Flow.Coalescer.OpAdd _ _ | Flow.Coalescer.OpTick _ | Flow.Coalescer.OpCancel _ => true
  | _ => false
  end.

(** A coalescer over sums whose loop has left on [ctx.Done()]. *)
Definition cancelled_coalescer : Flow.Coalescer.coalescer Z :=
  Eval compute in
    Flow.state_after
      (Flow.Coalescer.run Z Z.add [Flow.Coalescer.OpAdd Z 1; Flow.Coalescer.OpCancel Z])
      (sum_coalescer stop_flush_opts).

(** What holds of the fields of a debouncer between two calls: a value
    is pending exactly while the wait timer is armed, the [MaxWait]
    timer, when there is one, is armed with it, and a stopped debouncer
    has nothing pending. *)
Definition debouncer_consistent {T : Type} (d : Flow.Debouncer.debouncer T) : Prop :=
  0 < Flow.Debouncer.Wait (Flow.Debouncer.opts T d)
  /\ Flow.Debouncer.Leading (Flow.Debouncer.opts T d)
     || Flow.Debouncer.Trailing (Flow.Debouncer.opts T d) = true
  /\ timer_armed (Flow.Debouncer.timer_ T d) = Flow.Debouncer.pending T d
  /\ timer_armed (Flow.Debouncer.maxTimer T d)
     = Flow.Debouncer.pending T d && (0 <? Flow.Debouncer.MaxWait (Flow.Debouncer.opts T d))
  /\ (Flow.Debouncer.stopped T d = true -> Flow.Debouncer.pending T d = false).

(** The same for a coalescer: it holds a value exactly while the window
    timer is armed. *)
Definition coalescer_consistent {T : Type} (c : Flow.Coalescer.coalescer T) : Prop :=
  0 < Flow.Coalescer.window T c
  /\ timer_armed (Flow.Coalescer.timer_ T c) = Flow.Coalescer.hasAcc T c
  /\ (Flow.Coalescer.stopped T c = true -> Flow.Coalescer.hasAcc T c = false)
  /\ (Flow.Coalescer.looping T c = true -> Flow.Coalescer.timer_ T c <> Flow.TimerNil).

(** ** Per-key managers *)

(** Every event of a child occurs while the mutex of the manager is
    free; [held] says whether it is taken at the start. *)
Fixpoint children_outside_lock {K V : Type} (held : bool)
    (tr : list (FlowByKey.mevent K V)) : bool :=
  match tr with
  | [] => true
  | FlowByKey.MLock :: tr' => children_outside_lock true tr'
  | FlowByKey.MUnlock :: tr' => children_outside_lock false tr'
  | FlowByKey.MChild _ _ :: tr' => negb held && children_outside_lock held tr'
  | FlowByKey.MPanic :: tr' => children_outside_lock held tr'
  end.

(** Every event of a child occurs while the mutex of the manager is
    held. *)
Fixpoint children_under_lock {K V : Type} (held : bool)
    (tr : list (FlowByKey.mevent K V)) : bool :=
  match tr with
  | [] => true
  | FlowByKey.MLock :: tr' => children_under_lock true tr'
  | FlowByKey.MUnlock :: tr' => children_under_lock false tr'
  | FlowByKey.MChild _ _ :: tr' => held && children_under_lock held tr'
  | FlowByKey.MPanic :: tr' => children_under_lock held tr'
  end.

(** The event is one of a child. *)
Definition is_child_event {K V : Type} (e : FlowByKey.mevent K V) : Prop :=
  match e with FlowByKey.MChild _ _ => True | _ => False end.

(** The callbacks of a manager: [cb(k, v)] or [emit(k, v)] as
    [(k, EvCb v)], [OnStop(k, v)] as [(k, EvOnStop v)], in order. *)
Definition key_calls {K V : Type} (tr : list (FlowByKey.mevent K V))
  : list (K * Flow.event V) :=
  flat_map (fun e => match e with
                     | FlowByKey.MChild k (Flow.EvCb v) => [(k, Flow.EvCb v)]
                     | FlowByKey.MChild k (Flow.EvOnStop v) => [(k, Flow.EvOnStop v)]
                     | _ => []
                     end) tr.

(** The callbacks made for the key [k]. *)
Definition calls_for {K V : Type} (K_eqb : K -> K -> bool) (k : K)
    (tr : list (FlowByKey.mevent K V)) : list (Flow.event V) :=
  map snd (filter (fun c => K_eqb k (fst c)) (key_calls tr)).

(** The callbacks a manager makes for what a child does: the child's
    [onStop] reaches the user only when the manager has an [OnStop]. *)
Definition manager_calls {V : Type} (configured : bool) (tr : list (Flow.event V))
  : list (Flow.event V) :=
  flat_map (fun e => match e with
                     | Flow.EvCb v => [Flow.EvCb v]
                     | Flow.EvOnStop v => if configured then [Flow.EvOnStop v] else []
                     | _ => []
                     end) tr.

(** The methods of a debouncer other than [Stop]. *)
Definition is_quiet_method {V : Type} (f : Flow.Debouncer.DM V unit) : Prop :=
  (exists v, f = Flow.Debouncer.Trigger V v) \/ f = Flow.Debouncer.Flush V
  \/ f = Flow.Debouncer.timerLoop V \/ f = Flow.Debouncer.maxLoop V.

(** The calls a single debouncer sees of the calls of a manager, for
    the key [k]. [Stop] and the evictor are left out. *)
Definition debouncer_view {K V : Type} (K_eqb : K -> K -> bool) (k : K)
    (o : FlowByKey.DebouncerByKey.op K V) : list (Flow.Debouncer.op V) :=
  match o with
  | FlowByKey.DebouncerByKey.OpTrigger _ _ _ k' v =>
      if K_eqb k k' then [Flow.Debouncer.OpTrigger V v] else []
  | FlowByKey.DebouncerByKey.OpFlushKey _ _ k' =>
      if K_eqb k k' then [Flow.Debouncer.OpFlush V] else []
  | FlowByKey.DebouncerByKey.OpFlushAll _ _ => [Flow.Debouncer.OpFlush V]
  | FlowByKey.DebouncerByKey.OpTimerTick _ _ k' =>
      if K_eqb k k' then [Flow.Debouncer.OpTimerTick V] else []
  | FlowByKey.DebouncerByKey.OpMaxTick _ _ k' =>
      if K_eqb k k' then [Flow.Debouncer.OpMaxTick V] else []
  | _ => []
  end.

(** The calls that neither stop the manager nor evict. *)
Definition keeps_children {K V : Type} (o : FlowByKey.DebouncerByKey.op K V) : bool :=
  match o with
  | FlowByKey.DebouncerByKey.OpStop _ _
  | FlowByKey.DebouncerByKey.OpEvict _ _ _ => false
  | _ => true
  end.

(** A manager over integer keys and values that flushes and calls back
    when it stops, with keys idle for 100ns evicted. *)
Definition evicting_opts : FlowByKey.DebouncerByKey.DebounceKeyOpts :=
  FlowByKey.DebouncerByKey.mkDebounceKeyOpts 300 false true 0 100 Flow.StopFlushAndCallback true.

Definition evicting_manager : FlowByKey.DebouncerByKey.debouncerByKey Z Z :=
  Eval compute in
    match FlowByKey.DebouncerByKey.NewDebouncerByKey Z Z evicting_opts with
    | Some m => m
    | None => FlowByKey.DebouncerByKey.mkDebouncerByKey Z Z evicting_opts [] true false
    end.


(** The methods of a coalescer other than [Stop]. *)
Definition is_quiet_coalescer_method {V : Type} (folder : V -> V -> V)
    (f : Flow.Coalescer.CM V unit) : Prop :=
  (exists v, f = Flow.Coalescer.Add V folder v) \/ f = Flow.Coalescer.Flush V
  \/ f = Flow.Coalescer.loop V \/ f = Flow.Coalescer.loop_cancelled V.

(** The calls a single coalescer sees of the calls of a manager, for
    the key [k]. [Stop] and the evictor are left out. *)
Definition coalescer_view {K V : Type} (K_eqb : K -> K -> bool) (k : K)
    (o : FlowByKey.CoalescerByKey.op K V) : list (Flow.Coalescer.op V) :=
  match o with
  | FlowByKey.CoalescerByKey.OpAdd _ _ _ k' v =>
      if K_eqb k k' then [Flow.Coalescer.OpAdd V v] else []
  | FlowByKey.CoalescerByKey.OpFlushKey _ _ k' =>
      if K_eqb k k' then [Flow.Coalescer.OpFlush V] else []
  | FlowByKey.CoalescerByKey.OpFlushAll _ _ => [Flow.Coalescer.OpFlush V]
  | FlowByKey.CoalescerByKey.OpTick _ _ k' =>
      if K_eqb k k' then [Flow.Coalescer.OpTick V] else []
  | FlowByKey.CoalescerByKey.OpLoopCancel _ _ k' =>
      if K_eqb k k' then [Flow.Coalescer.OpCancel V] else []
  | _ => []
  end.

(** The calls that neither stop the manager nor evict. *)
Definition keeps_coalescers {K V : Type} (o : FlowByKey.CoalescerByKey.op K V) : bool :=
  match o with
  | FlowByKey.CoalescerByKey.OpStop _ _
  | FlowByKey.CoalescerByKey.OpEvict _ _ _ => false
  | _ => true
  end.

(** A manager of coalescers that sum, over integer keys, that does
    nothing when it stops, with keys idle for 100ns evicted. *)
Definition summing_opts : FlowByKey.CoalescerByKey.CoalesceKeyOpts :=
  FlowByKey.CoalescerByKey.mkCoalesceKeyOpts 300 100 Flow.StopNoop false.

Definition summing_manager : FlowByKey.CoalescerByKey.coalescerByKey Z Z :=
  Eval compute in
    match FlowByKey.CoalescerByKey.NewCoalescerByKey Z Z summing_opts with
    | Some m => m
    | None => FlowByKey.CoalescerByKey.mkCoalescerByKey Z Z summing_opts [] true false
    end.


(** A manager of coalescers that sum which flushes and calls back when
    it stops, without eviction. *)
Definition flushing_opts : FlowByKey.CoalescerByKey.CoalesceKeyOpts :=
  FlowByKey.CoalescerByKey.mkCoalesceKeyOpts 300 0 Flow.StopFlushAndCallback true.

Definition flushing_manager : FlowByKey.CoalescerByKey.coalescerByKey Z Z :=
  Eval compute in
    match FlowByKey.CoalescerByKey.NewCoalescerByKey Z Z flushing_opts with
    | Some m => m
    | None => FlowByKey.CoalescerByKey.mkCoalescerByKey Z Z flushing_opts [] true false
    end.

(** * Properties *)

(** ** Bits of 64-bit words *)
Section Bits64.

Lemma u64_range (x : Z) : 0 <= u64 x < 2 ^ 64.
Proof. unfold u64. apply Z.mod_pos_bound. lia. Qed.

Lemma u64_small (x : Z) : 0 <= x < 2 ^ 64 -> u64 x = x.
Proof. intros H. unfold u64. now apply Z.mod_small. Qed.

Lemma testbit_high (x n : Z) : 0 <= x < 2 ^ 64 -> 64 <= n -> Z.testbit x n = false.
Proof.
  intros Hx Hn. rewrite <- (Z.mod_small x (2 ^ 64)) by assumption.
  apply Z.mod_pow2_bits_high. lia.
Qed.

Lemma range_of_bits (x : Z) :
  0 <= x -> (forall n, 64 <= n -> Z.testbit x n = false) -> 0 <= x < 2 ^ 64.
Proof.
  intros H0 Hb. split; [assumption|].
  destruct (Z.eq_dec x 0) as [->|Hnz]; [reflexivity|].
  apply Z.log2_lt_pow2; [lia|].
  destruct (Z_lt_le_dec (Z.log2 x) 64) as [|Hge]; [assumption|].
  specialize (Hb _ Hge). rewrite Z.bit_log2 in Hb by lia. discriminate.
Qed.

Lemma lxor_range (x y : Z) :
  0 <= x < 2 ^ 64 -> 0 <= y < 2 ^ 64 -> 0 <= Z.lxor x y < 2 ^ 64.
Proof.
  intros Hx Hy. apply range_of_bits.
  - apply Z.lxor_nonneg. lia.
  - intros n Hn. rewrite Z.lxor_spec, !testbit_high by assumption. reflexivity.
Qed.

Lemma rotl_bits (x s n : Z) :
  0 <= x < 2 ^ 64 -> 0 <= s < 64 -> 0 <= n ->
  Z.testbit (Z.lor (u64 (Z.shiftl x s)) (Z.shiftr x (64 - s))) n =
  if n <? 64 then Z.testbit x ((n - s) mod 64) else false.
Proof.
  intros Hx Hs Hn. rewrite Z.lor_spec. unfold u64.
  rewrite Z.shiftr_spec by assumption.
  destruct (Z.ltb_spec n 64) as [Hlt|Hge].
  - rewrite Z.mod_pow2_bits_low by lia. rewrite Z.shiftl_spec by assumption.
    destruct (Z_lt_le_dec n s) as [Hns|Hns].
    + rewrite (Z.testbit_neg_r x (n - s)) by lia. rewrite orb_false_l.
      f_equal. symmetry.
      replace (n - s) with ((n + (64 - s)) + (-1) * 64) by lia.
      rewrite Z.mod_add by lia. apply Z.mod_small. lia.
    + rewrite (testbit_high x (n + (64 - s))) by lia.
      rewrite orb_false_r. f_equal. symmetry. apply Z.mod_small. lia.
  - rewrite Z.mod_pow2_bits_high by lia.
    rewrite (testbit_high x (n + (64 - s))) by lia. reflexivity.
Qed.

Lemma RotateLeft64_bits (x k n : Z) :
  0 <= x < 2 ^ 64 -> 0 <= n ->
  Z.testbit (RotateLeft64 x k) n =
  if n <? 64 then Z.testbit x ((n - k) mod 64) else false.
Proof.
  intros Hx Hn. unfold RotateLeft64.
  assert (Hs : 0 <= k mod 64 < 64) by (apply Z.mod_pos_bound; lia).
  rewrite rotl_bits by assumption.
  destruct (n <? 64); [|reflexivity].
  f_equal. rewrite Zminus_mod_idemp_r. reflexivity.
Qed.

Lemma RotateLeft64_range (x k : Z) :
  0 <= x < 2 ^ 64 -> 0 <= RotateLeft64 x k < 2 ^ 64.
Proof.
  intros Hx. apply range_of_bits.
  - unfold RotateLeft64. apply Z.lor_nonneg. split.
    + apply u64_range.
    + apply Z.shiftr_nonneg. lia.
  - intros n Hn. rewrite RotateLeft64_bits by lia.
    destruct (Z.ltb_spec n 64); [lia|reflexivity].
Qed.

(** Rotating by [k] and then by [-k] is the identity on [uint64]. *)
Lemma RotateLeft64_inverse (x k : Z) :
  0 <= x < 2 ^ 64 -> RotateLeft64 (RotateLeft64 x k) (- k) = x.
Proof.
  intros Hx. apply Z.bits_inj'. intros n Hn.
  pose proof (RotateLeft64_range x k Hx) as Hr.
  rewrite RotateLeft64_bits by assumption.
  destruct (Z.ltb_spec n 64) as [Hlt|Hge].
  - assert (Hm : 0 <= (n - - k) mod 64 < 64) by (apply Z.mod_pos_bound; lia).
    rewrite RotateLeft64_bits by lia.
    destruct (Z.ltb_spec ((n - - k) mod 64) 64); [|lia].
    f_equal. rewrite Zminus_mod_idemp_l.
    replace (n - - k - k) with n by lia. apply Z.mod_small. lia.
  - symmetry. apply testbit_high; assumption.
Qed.

End Bits64.

(** ** The permutation and its inverse *)

Lemma inversePermutation_permutation (c : Codec) (x : Z) :
  keys_in_range c -> 0 <= x < 2 ^ 64 ->
  inversePermutation c (permutation c x) = x.
Proof.
  intros [Hk1 Hk3] Hx. unfold permutation, inversePermutation.
  set (a := Z.lxor x (k1 c)).
  assert (Ha : 0 <= a < 2 ^ 64) by (apply lxor_range; assumption).
  set (b := RotateLeft64 a 17).
  assert (Hb : 0 <= b < 2 ^ 64) by (apply RotateLeft64_range; assumption).
  set (d := RotateLeft64 (u64 (b + k2 c)) 31).
  assert (Hd : 0 <= d < 2 ^ 64) by (apply RotateLeft64_range, u64_range).
  set (e := Z.lxor d (k3 c)).
  assert (He : 0 <= e < 2 ^ 64) by (apply lxor_range; assumption).
  assert (E1 : u64 (u64 (e + k4 c) - k4 c) = e).
  { unfold u64. rewrite Zminus_mod_idemp_l.
    replace (e + k4 c - k4 c) with e by lia. now apply Z.mod_small. }
  rewrite E1. unfold e. rewrite Z.lxor_assoc, Z.lxor_nilpotent, Z.lxor_0_r.
  unfold d. change (-31) with (- 31). rewrite RotateLeft64_inverse by apply u64_range.
  assert (E2 : u64 (u64 (b + k2 c) - k2 c) = b).
  { unfold u64. rewrite Zminus_mod_idemp_l.
    replace (b + k2 c - k2 c) with b by lia. now apply Z.mod_small. }
  rewrite E2. unfold b. change (-17) with (- 17). rewrite RotateLeft64_inverse by assumption.
  unfold a. rewrite Z.lxor_assoc, Z.lxor_nilpotent, Z.lxor_0_r. reflexivity.
Qed.

Lemma permutation_inversePermutation (c : Codec) (y : Z) :
  keys_in_range c -> 0 <= y < 2 ^ 64 ->
  permutation c (inversePermutation c y) = y.
Proof.
  intros [Hk1 Hk3] Hy. unfold permutation, inversePermutation.
  set (a := Z.lxor (u64 (y - k4 c)) (k3 c)).
  assert (Ha : 0 <= a < 2 ^ 64) by (apply lxor_range; [apply u64_range|assumption]).
  set (b := RotateLeft64 a (-31)).
  assert (Hb : 0 <= b < 2 ^ 64) by (apply RotateLeft64_range; assumption).
  set (d := RotateLeft64 (u64 (b - k2 c)) (-17)).
  assert (Hd : 0 <= d < 2 ^ 64) by (apply RotateLeft64_range, u64_range).
  rewrite Z.lxor_assoc, Z.lxor_nilpotent, Z.lxor_0_r.
  unfold d. change 17 with (- (-17)). rewrite RotateLeft64_inverse by apply u64_range.
  assert (E2 : u64 (u64 (b - k2 c) + k2 c) = b).
  { unfold u64. rewrite Zplus_mod_idemp_l.
    replace (b - k2 c + k2 c) with b by lia. now apply Z.mod_small. }
  rewrite E2. unfold b. change 31 with (- (-31)). rewrite RotateLeft64_inverse by assumption.
  unfold a. rewrite Z.lxor_assoc, Z.lxor_nilpotent, Z.lxor_0_r.
  unfold u64. rewrite Zplus_mod_idemp_l.
  replace (y - k4 c + k4 c) with y by lia. now apply Z.mod_small.
Qed.

(** ** The reverse-lookup table *)
Section RevTable.

Lemma set_nth_length (l : list Z) (i : nat) (v : Z) :
  length (set_nth l i v) = length l.
Proof.
  revert i. induction l as [|h t IH]; intros [|j]; simpl; auto.
Qed.

Lemma nth_set_nth_same (l : list Z) (i : nat) (v d : Z) :
  (i < length l)%nat -> nth i (set_nth l i v) d = v.
Proof.
  revert i. induction l as [|h t IH]; intros [|j] H; simpl in *; try lia; auto.
  apply IH. lia.
Qed.

Lemma nth_set_nth_other (l : list Z) (i j : nat) (v d : Z) :
  i <> j -> nth j (set_nth l i v) d = nth j l d.
Proof.
  revert i j. induction l as [|h t IH]; intros [|i] [|j] H; simpl; auto; try congruence.
Qed.

Lemma nat_of_ascii_lt (ch : ascii) : (nat_of_ascii ch < 256)%nat.
Proof.
  unfold nat_of_ascii. pose proof (N_ascii_bounded ch) as H.
  change 256%nat with (N.to_nat 256). lia.
Qed.

Lemma nat_of_ascii_inj (a b : ascii) : nat_of_ascii a = nat_of_ascii b -> a = b.
Proof.
  intros H. rewrite <- (ascii_nat_embedding a), <- (ascii_nat_embedding b).
  now rewrite H.
Qed.

Lemma rev_fold_length (alp : bytes) (idx : list nat) (r : list Z) :
  length (fold_left (rev_step alp) idx r) = length r.
Proof.
  revert r. induction idx as [|i idx IH]; intros r; simpl; [reflexivity|].
  rewrite IH. apply set_nth_length.
Qed.

(** After the loop, an entry is either untouched (no index maps to it)
    or holds one of the indices whose character selects it. *)
Lemma rev_fold_entry (alp : bytes) (idx : list nat) (r : list Z) (k : nat) :
  length r = 256%nat ->
  (nth k (fold_left (rev_step alp) idx r) (-1) = nth k r (-1)
   /\ forall i, In i idx -> nat_of_ascii (at_byte alp i) <> k)
  \/ (exists i, In i idx /\ nat_of_ascii (at_byte alp i) = k
                /\ nth k (fold_left (rev_step alp) idx r) (-1) = int8 (Z.of_nat i)).
Proof.
  intros Hlen. induction idx as [|i idx IH] using rev_ind.
  - left. split; [reflexivity|]. intros i [].
  - rewrite fold_left_app. simpl. unfold rev_step at 1 3.
    destruct (Nat.eq_dec (nat_of_ascii (at_byte alp i)) k) as [E|NE].
    + right. exists i. split; [apply in_or_app; right; now left|].
      split; [assumption|]. rewrite E. apply nth_set_nth_same.
      rewrite rev_fold_length, Hlen, <- E. apply nat_of_ascii_lt.
    + rewrite !nth_set_nth_other by assumption.
      destruct IH as [[Hsame Hno]|[j [Hin [Hj Hval]]]].
      * left. split; [assumption|]. intros j Hj.
        apply in_app_or in Hj. destruct Hj as [Hj|[<-|[]]]; auto.
      * right. exists j. split; [apply in_or_app; now left|]. now split.
Qed.

Lemma int8_small (z : Z) : 0 <= z < 128 -> int8 z = z.
Proof. intros H. unfold int8. rewrite Z.mod_small; lia. Qed.

Lemma build_rev_length (alp : bytes) : length (build_rev alp) = 256%nat.
Proof. unfold build_rev. apply (rev_fold_length alp). Qed.

(** [rev] is negative exactly on the bytes that are not among the
    first 62 characters of the alphabet. *)
Lemma build_rev_negative (alp : bytes) (ch : ascii) :
  nth (nat_of_ascii ch) (build_rev alp) (-1) < 0 <-> ~ In ch (firstn 62 alp).
Proof.
  unfold build_rev.
  destruct (rev_fold_entry alp (seq 0 (Nat.min (length alp) 62)) (repeat (-1) 256)
              (nat_of_ascii ch) (repeat_length _ _)) as [[Hsame Hno]|[i [Hin [Hi Hval]]]].
  - change (fold_left (rev_step alp)) with
      (fold_left (fun r i => set_nth r (nat_of_ascii (at_byte alp i)) (int8 (Z.of_nat i)))) in Hsame.
    rewrite Hsame. rewrite nth_repeat. split; [|lia]. intros _ Hin.
    apply (In_nth _ _ zero_byte) in Hin. destruct Hin as [i [Hlt Hnth]].
    rewrite length_firstn in Hlt.
    apply (Hno i).
    + apply in_seq. lia.
    + unfold at_byte. rewrite nth_firstn in Hnth.
      destruct (Nat.ltb_spec i 62); [|lia]. now rewrite Hnth.
  - change (fold_left (rev_step alp)) with
      (fold_left (fun r i => set_nth r (nat_of_ascii (at_byte alp i)) (int8 (Z.of_nat i)))) in Hval.
    rewrite Hval. apply in_seq in Hin. rewrite int8_small by lia.
    split; [lia|]. intros Hno. exfalso. apply Hno.
    apply nat_of_ascii_inj in Hi. subst ch. unfold at_byte.
    replace (nth i alp zero_byte) with (nth i (firstn 62 alp) zero_byte).
    + apply nth_In. rewrite length_firstn. lia.
    + rewrite nth_firstn. destruct (Nat.ltb_spec i 62); [reflexivity|lia].
Qed.

(** With pairwise distinct first 62 characters, [rev] inverts the
    alphabet on every digit. *)
Lemma build_rev_at (alp : bytes) (d : nat) :
  (62 <= length alp)%nat -> NoDup (firstn 62 alp) -> (d < 62)%nat ->
  nth (nat_of_ascii (at_byte alp d)) (build_rev alp) (-1) = Z.of_nat d.
Proof.
  intros Hlen Hnd Hd. unfold build_rev.
  destruct (rev_fold_entry alp (seq 0 (Nat.min (length alp) 62)) (repeat (-1) 256)
              (nat_of_ascii (at_byte alp d)) (repeat_length _ _))
    as [[_ Hno]|[i [Hin [Hi Hval]]]].
  - exfalso. apply (Hno d); [|reflexivity]. apply in_seq. lia.
  - change (fold_left (rev_step alp)) with
      (fold_left (fun r i => set_nth r (nat_of_ascii (at_byte alp i)) (int8 (Z.of_nat i)))) in Hval.
    rewrite Hval. apply in_seq in Hin. rewrite int8_small by lia.
    apply nat_of_ascii_inj in Hi. f_equal.
    assert (Hi' : nth i (firstn 62 alp) zero_byte = nth d (firstn 62 alp) zero_byte).
    { rewrite !nth_firstn.
      destruct (Nat.ltb_spec i 62); [|lia]. destruct (Nat.ltb_spec d 62); [|lia].
      exact Hi. }
    apply (proj1 (NoDup_nth _ zero_byte) Hnd) in Hi'; [assumption| |];
      rewrite length_firstn; lia.
Qed.

End RevTable.

(** ** Base 62 *)
Section Base62.

Lemma digits62_length (n : nat) (u : Z) : length (digits62 n u) = n.
Proof.
  revert u. induction n as [|n IH]; intros u; simpl; [reflexivity|].
  rewrite length_app, IH. simpl. lia.
Qed.

Lemma base62_fill_digits (c : Codec) (n : nat) (u : Z) (acc : bytes) :
  base62_fill c n u acc = map (alpha_at c) (digits62 n u) ++ acc.
Proof.
  revert u acc. induction n as [|n IH]; intros u acc; simpl; [reflexivity|].
  rewrite IH, map_app, <- app_assoc. reflexivity.
Qed.

Lemma base62EncodeFixed_length (c : Codec) (u : Z) :
  length (base62EncodeFixed c u) = 11%nat.
Proof.
  unfold base62EncodeFixed. rewrite base62_fill_digits, app_nil_r, length_map.
  apply digits62_length.
Qed.

Lemma base62_loop_app (c : Codec) (l1 l2 : bytes) (v : Z) :
  base62_loop c (l1 ++ l2) v =
  match base62_loop c l1 v with
  | Ok v' => base62_loop c l2 v'
  | Err e => Err e
  end.
Proof.
  revert v. induction l1 as [|ch l1 IH]; intros v; simpl; [reflexivity|].
  destruct (rev_at c ch <? 0); [reflexivity|apply IH].
Qed.

Lemma base62_loop_digits (c : Codec) (n : nat) (u : Z) :
  rev_inverts c -> 0 <= u < 2 ^ 64 ->
  base62_loop c (map (alpha_at c) (digits62 n u)) 0 = Ok (u mod 62 ^ Z.of_nat n).
Proof.
  intros Hrev. revert u. induction n as [|n IH]; intros u Hu.
  - simpl. now rewrite Z.mod_1_r.
  - cbn [digits62]. rewrite map_app, base62_loop_app.
    assert (Hq : 0 <= u / 62 < 2 ^ 64).
    { split; [apply Z.div_pos; lia|]. apply Z.div_lt_upper_bound; lia. }
    rewrite (IH _ Hq). cbn [map base62_loop].
    assert (Hd : 0 <= u mod 62 < 62) by (apply Z.mod_pos_bound; lia).
    rewrite (Hrev _ Hd).
    destruct (Z.ltb_spec (u mod 62) 0) as [|_]; [lia|].
    f_equal.
    assert (Hp : 0 < 62 ^ Z.of_nat n) by (apply Z.pow_pos_nonneg; lia).
    assert (E : u mod 62 ^ Z.of_nat (S n) =
                (u / 62) mod 62 ^ Z.of_nat n * 62 + u mod 62).
    { rewrite Nat2Z.inj_succ, Z.pow_succ_r by lia.
      rewrite Z.rem_mul_r by lia. lia. }
    rewrite <- E. apply u64_small.
    pose proof (Z.mod_pos_bound u (62 ^ Z.of_nat (S n))) as B.
    assert (0 < 62 ^ Z.of_nat (S n)) by (apply Z.pow_pos_nonneg; lia).
    pose proof (Z.mod_le u (62 ^ Z.of_nat (S n))). lia.
Qed.

(** Eleven digits hold every [uint64]: [62^11 > 2^64]. *)
Lemma base62_decode_encode (c : Codec) (u : Z) :
  rev_inverts c -> 0 <= u < 2 ^ 64 ->
  base62DecodeFixed c (base62EncodeFixed c u) = Ok u.
Proof.
  intros Hrev Hu. unfold base62DecodeFixed.
  rewrite base62EncodeFixed_length. simpl negb. cbv iota.
  unfold base62EncodeFixed. rewrite base62_fill_digits, app_nil_r.
  rewrite base62_loop_digits by assumption.
  f_equal. apply Z.mod_small. change (Z.of_nat 11) with 11. lia.
Qed.

End Base62.

(** ** The pad and the constant-time comparison *)
Section Pad.

Lemma pad_loop_length (c : Codec) (n : nat) (bitbuf bitsIn : Z) (rest : bytes) :
  length (pad_loop c n bitbuf bitsIn rest) = n.
Proof.
  revert bitbuf bitsIn rest. induction n as [|n IH]; intros bitbuf bitsIn rest.
  - reflexivity.
  - cbn [pad_loop]. destruct (pad_refill bitbuf bitsIn rest) as [[bb bi] r].
    destruct (bi <? 6); cbn [length]; f_equal; apply IH.
Qed.

Lemma hmacPadding_length (c : Codec) (enc : Z) (knd : option ascii) :
  length (hmacPadding c enc knd) = Z.to_nat (macLen c).
Proof. unfold hmacPadding. apply pad_loop_length. Qed.

Lemma byte_val_nonneg (b : ascii) : 0 <= byte_val b.
Proof. unfold byte_val. lia. Qed.

Lemma byte_val_inj (a b : ascii) : byte_val a = byte_val b -> a = b.
Proof.
  unfold byte_val. intros H. apply N2Z.inj in H.
  rewrite <- (ascii_N_embedding a), <- (ascii_N_embedding b). now rewrite H.
Qed.

Lemma ct_fold_zero (x y : bytes) (v : Z) :
  length x = length y -> 0 <= v ->
  (ct_fold v x y = 0 <-> v = 0 /\ x = y).
Proof.
  revert y v. induction x as [|a x IH]; intros [|b y] v Hlen Hv;
    simpl in *; try discriminate.
  - tauto.
  - pose proof (byte_val_nonneg a). pose proof (byte_val_nonneg b).
    assert (Hx : 0 <= Z.lxor (byte_val a) (byte_val b))
      by (apply Z.lxor_nonneg; tauto).
    rewrite IH; [|lia|apply Z.lor_nonneg; tauto].
    rewrite Z.lor_eq_0_iff, Z.lxor_eq_0_iff. split.
    + intros [[Hv0 Hab] Hxy]. apply byte_val_inj in Hab. subst. auto.
    + intros [Hv0 E]. inversion E; subst. auto.
Qed.

(** [ConstantTimeCompare] answers 1 exactly on equal byte strings. *)
Lemma ConstantTimeCompare_eq (x y : bytes) :
  ConstantTimeCompare x y = 1 <-> x = y.
Proof.
  unfold ConstantTimeCompare.
  destruct (Nat.eqb_spec (length x) (length y)) as [Hlen|Hlen]; simpl.
  - destruct (Z.eqb_spec (ct_fold 0 x y) 0) as [E|NE].
    + apply ct_fold_zero in E; [|assumption|lia]. tauto.
    + split; [discriminate|]. intros ->. exfalso. apply NE.
      apply ct_fold_zero; auto. lia.
  - split; [discriminate|]. intros ->. now elim Hlen.
Qed.

End Pad.

(** ** What the constructor establishes *)
Section Constructor.

Lemma be_word_range (bs : bytes) :
  0 <= Sha256.be_word bs < 256 ^ Z.of_nat (length bs).
Proof.
  unfold Sha256.be_word.
  assert (G : forall l acc n, 0 <= acc < 256 ^ n -> 0 <= n ->
              0 <= fold_left (fun a b => a * 256 + byte_val b) l acc
                < 256 ^ (n + Z.of_nat (length l))).
  { induction l as [|b l IH]; intros acc n Hacc Hn; simpl fold_left.
    - simpl length. now rewrite Z.add_0_r.
    - replace (n + Z.of_nat (length (b :: l))) with ((n + 1) + Z.of_nat (length l))
        by (simpl length; lia).
      apply IH; [|lia]. rewrite Z.pow_add_r by lia.
      pose proof (byte_val_nonneg b).
      assert (byte_val b < 256).
      { unfold byte_val. pose proof (N_ascii_bounded b). lia. }
      change (256 ^ 1) with 256. nia. }
  apply (G bs 0 0); simpl; lia.
Qed.

Lemma be_word8_range (bs : bytes) : 0 <= Sha256.be_word (firstn 8 bs) < 2 ^ 64.
Proof.
  pose proof (be_word_range (firstn 8 bs)) as H.
  assert (L : (length (firstn 8 bs) <= 8)%nat) by apply firstn_le_length.
  assert (256 ^ Z.of_nat (length (firstn 8 bs)) <= 256 ^ 8)
    by (apply Z.pow_le_mono_r; lia).
  change (2 ^ 64) with (256 ^ 8). lia.
Qed.

Lemma NewCodecFromSecret_ok (cfg : Config) (c : Codec) :
  NewCodecFromSecret cfg = Ok c ->
  0 < macLen c /\ (version c < 62)%N /\ (62 <= length (alphabet c))%nat
  /\ rev c = build_rev (alphabet c) /\ keys_in_range c
  /\ macLen c = MacLen cfg /\ version c = Version cfg
  /\ alphabet c = effective_alphabet cfg /\ kind c = Kind cfg.
Proof.
  unfold NewCodecFromSecret. fold (effective_alphabet cfg).
  destruct (Z.leb_spec (MacLen cfg) 0) as [|Hm]; [discriminate|].
  destruct (N.leb_spec 62 (Version cfg)) as [|Hv]; [discriminate|].
  destruct (Nat.ltb_spec (length (effective_alphabet cfg)) 62) as [|Ha]; [discriminate|].
  intros E. injection E as <-. cbn.
  repeat split; try assumption; try apply be_word8_range; try lia.
Qed.

(** The constructor fails exactly on [macLen <= 0], [version >= 62] or
    an alphabet shorter than 62 bytes. *)
Lemma NewCodecFromSecret_succeeds (cfg : Config) :
  0 < MacLen cfg -> (Version cfg < 62)%N -> (62 <= length (effective_alphabet cfg))%nat ->
  exists c, NewCodecFromSecret cfg = Ok c.
Proof.
  intros Hm Hv Ha. unfold NewCodecFromSecret. fold (effective_alphabet cfg).
  destruct (Z.leb_spec (MacLen cfg) 0); [lia|].
  destruct (N.leb_spec 62 (Version cfg)); [lia|].
  destruct (Nat.ltb_spec (length (effective_alphabet cfg)) 62); [lia|].
  eexists. reflexivity.
Qed.

End Constructor.

(** ** Tokens *)
Section Tokens.

Lemma distinctb_NoDup (l : bytes) : distinctb l = true -> NoDup l.
Proof.
  induction l as [|a t IH]; simpl; intros H; constructor.
  - apply andb_prop in H. destruct H as [H _].
    intros Hin. apply negb_true_iff in H.
    assert (existsb (Ascii.eqb a) t = true); [|congruence].
    apply existsb_exists. exists a. split; [assumption|apply Ascii.eqb_refl].
  - apply IH. apply andb_prop in H. tauto.
Qed.

Lemma constructed_rev_inverts (cfg : Config) (c : Codec) :
  NewCodecFromSecret cfg = Ok c -> alphabet_distinct c = true -> rev_inverts c.
Proof.
  intros Hc Hd d Hr.
  destruct (NewCodecFromSecret_ok _ _ Hc) as (_ & _ & Hlen & Hrev & _).
  unfold rev_at, alpha_at. rewrite Hrev.
  rewrite build_rev_at; [lia|assumption|now apply distinctb_NoDup|lia].
Qed.

Lemma permutation_range (c : Codec) (x : Z) : 0 <= permutation c x < 2 ^ 64.
Proof. unfold permutation. apply u64_range. Qed.

Lemma token_length (c : Codec) (enc : Z) (knd : option ascii) :
  0 < macLen c ->
  Z.of_nat (length (token c enc knd)) = 1 + 11 + macLen c.
Proof.
  intros Hm. unfold token.
  rewrite !length_app, base62EncodeFixed_length, hmacPadding_length.
  simpl length. lia.
Qed.

Lemma body_of_framed (a : ascii) (b p : bytes) :
  firstn (length b) (skipn 1 ([a] ++ b ++ p)) = b.
Proof.
  cbn [app skipn]. rewrite firstn_app, Nat.sub_diag, firstn_all, firstn_O.
  apply app_nil_r.
Qed.

Lemma pad_of_framed (a : ascii) (b p : bytes) :
  skipn (1 + length b) ([a] ++ b ++ p) = p.
Proof.
  cbn [app Nat.add skipn]. rewrite skipn_app, Nat.sub_diag, skipn_all, skipn_O.
  reflexivity.
Qed.

Lemma token_body (c : Codec) (enc : Z) (knd : option ascii) :
  firstn 11 (skipn 1 (token c enc knd)) = base62EncodeFixed c enc.
Proof.
  unfold token. rewrite <- (base62EncodeFixed_length c enc) at 1.
  apply body_of_framed.
Qed.

Lemma token_pad (c : Codec) (enc : Z) (knd : option ascii) :
  skipn (1 + 11) (token c enc knd) = hmacPadding c enc knd.
Proof.
  unfold token. rewrite <- (base62EncodeFixed_length c enc) at 1.
  apply pad_of_framed.
Qed.

(** Decoding a token the codec assembled for [enc] gives back the
    preimage of [enc]. *)
Lemma decode_token (cfg : Config) (c : Codec) (enc : Z) (knd : option ascii) :
  NewCodecFromSecret cfg = Ok c -> alphabet_distinct c = true ->
  0 <= enc < 2 ^ 64 ->
  decodeInternal c (token c enc knd) true knd = Ok (inversePermutation c enc).
Proof.
  intros Hc Hd Henc.
  pose proof (constructed_rev_inverts _ _ Hc Hd) as Hrev.
  destruct (NewCodecFromSecret_ok _ _ Hc) as (Hm & Hv & _).
  unfold decodeInternal.
  rewrite token_length by assumption. rewrite Z.eqb_refl. cbn [negb].
  assert (Hver : rev_at c (at_byte (token c enc knd) 0) = int8 (Z.of_N (version c))).
  { unfold token. cbn [app at_byte nth].
    rewrite Hrev by lia. symmetry. apply int8_small. lia. }
  rewrite Hver, Z.eqb_refl. cbn [negb].
  rewrite token_body, base62_decode_encode by assumption.
  rewrite token_pad.
  rewrite (proj2 (ConstantTimeCompare_eq _ _) eq_refl). reflexivity.
Qed.

End Tokens.

(** ** C1: the codec round trip *)

(** C1, as stated, fails: the alphabet ["0" ++ DefaultAlphabet] holds 62
    distinct characters and the constructor accepts it, yet the codec
    rejects its own token for id 0 with a version mismatch, because only
    the first 62 bytes are used and ['0'] stands at two of them. *)
Lemma roundtrip_fails_on_repeated_character :
  NewCodecFromSecret repeated_zero_cfg = Ok repeated_zero_codec
  /\ (Version repeated_zero_cfg < 62)%N /\ 0 < MacLen repeated_zero_cfg
  /\ length (nodup ascii_dec (Alphabet repeated_zero_cfg)) = 62%nat
  /\ DecodeToUint64 repeated_zero_codec (EncodeUint64 repeated_zero_codec 0)
     = Err ErrVersionMismatch.
Proof. vm_compute. repeat split. Qed.

(** C1 (amended): for every [uint64] id and every successfully
    constructed codec whose alphabet has pairwise distinct first 62
    characters, decoding the encoding of the id returns the id and no
    error. *)
Theorem decode_encode_roundtrip (cfg : Config) (c : Codec) (id : Z) :
  NewCodecFromSecret cfg = Ok c ->
  alphabet_distinct c = true ->
  0 <= id < 2 ^ 64 ->
  DecodeToUint64 c (EncodeUint64 c id) = Ok id.
Proof.
  intros Hc Hd Hid.
  unfold DecodeToUint64, DecodeToUint64WithKind, EncodeUint64, EncodeUint64WithKind.
  rewrite (decode_token cfg) by (try assumption; apply permutation_range).
  f_equal. apply inversePermutation_permutation; [|assumption].
  now destruct (NewCodecFromSecret_ok _ _ Hc) as (_ & _ & _ & _ & Hk & _).
Qed.

Lemma decode_encode_roundtrip_witness :
  DecodeToUint64 gx_codec (EncodeUint64 gx_codec 1234567890) = Ok 1234567890.
Proof.
  apply (decode_encode_roundtrip gx_cfg gx_codec 1234567890).
  - vm_compute. reflexivity.
  - vm_compute. reflexivity.
  - lia.
Defined.

(** ** C4: the order of the decoder's checks *)
Section DecodeOrder.

Lemma in_first62_In (c : Codec) (ch : ascii) :
  in_first62 c ch = true <-> In ch (firstn 62 (alphabet c)).
Proof.
  unfold in_first62. rewrite existsb_exists. split.
  - intros [x [Hin E]]. apply Ascii.eqb_eq in E. now subst.
  - intros Hin. exists ch. split; [assumption|apply Ascii.eqb_refl].
Qed.

Lemma rev_at_negative (cfg : Config) (c : Codec) (ch : ascii) :
  NewCodecFromSecret cfg = Ok c ->
  (rev_at c ch <? 0) = negb (in_first62 c ch).
Proof.
  intros Hc. destruct (NewCodecFromSecret_ok _ _ Hc) as (_ & _ & _ & Hrev & _).
  unfold rev_at. rewrite Hrev.
  pose proof (build_rev_negative (alphabet c) ch) as H.
  pose proof (in_first62_In c ch) as H'.
  destruct (Z.ltb_spec (nth (nat_of_ascii ch) (build_rev (alphabet c)) (-1)) 0) as [L|L];
    destruct (in_first62 c ch); simpl; try reflexivity; exfalso.
  - apply (proj1 H L). now apply H'.
  - assert (Hno : ~ In ch (firstn 62 (alphabet c)))
      by (intros Hin; apply H' in Hin; discriminate).
    apply H in Hno. lia.
Qed.

Lemma base62_loop_checks (cfg : Config) (c : Codec) (body : bytes) (u : Z) :
  NewCodecFromSecret cfg = Ok c ->
  base62_loop c body u =
  if forallb (in_first62 c) body
  then Ok (fold_left (fun u ch => u64 (u * 62 + rev_at c ch)) body u)
  else Err ErrInvalidBase62Char.
Proof.
  intros Hc. revert u. induction body as [|ch body IH]; intros u; simpl.
  - reflexivity.
  - rewrite (rev_at_negative cfg c ch Hc).
    destruct (in_first62 c ch); simpl; [apply IH|reflexivity].
Qed.

Lemma body_length (s : bytes) (n : Z) :
  0 < n -> Z.of_nat (length s) = 1 + 11 + n -> length (firstn 11 (skipn 1 s)) = 11%nat.
Proof. intros Hn Hs. rewrite length_firstn, length_skipn. lia. Qed.

End DecodeOrder.

(** C4, as stated, fails on an alphabet longer than 62 bytes: ['~'] is
    the 63rd character of the alphabet, so no body character of the
    token is outside the alphabet and the statement sends it on to the MAC
    check, but the decoder answers [ErrInvalidBase62Char]. *)
Lemma sixty_third_character_is_rejected :
  NewCodecFromSecret tilde_cfg = Ok tilde_codec
  /\ forallb (in_alphabet tilde_codec) (firstn 11 (skipn 1 tilde_token)) = true
  /\ checks_in_order (in_alphabet tilde_codec) tilde_codec tilde_token = Err ErrMACVerification
  /\ DecodeToUint64 tilde_codec tilde_token = Err ErrInvalidBase62Char.
Proof. vm_compute. repeat split. Qed.

(** C4 (amended): [DecodeToUint64] checks length, version, base-62 body
    and MAC in this order and returns the sentinel of the first failing
    check: [ErrInvalidLength] unless the length is [1 + 11 + macLen];
    else [ErrVersionMismatch] unless the first character reverse-maps to
    the version; else [ErrInvalidBase62Char] if a body character is not
    among the first 62 characters of the alphabet; else
    [ErrMACVerification] if the recomputed pad differs from the token's
    pad; else it succeeds with the inverse permutation of the body. *)
Theorem decode_checks_in_order (cfg : Config) (c : Codec) (s : bytes) :
  NewCodecFromSecret cfg = Ok c ->
  DecodeToUint64 c s = checks_in_order (in_first62 c) c s.
Proof.
  intros Hc. destruct (NewCodecFromSecret_ok _ _ Hc) as (Hm & Hv & _).
  unfold DecodeToUint64, DecodeToUint64WithKind, decodeInternal, checks_in_order.
  destruct (Z.eqb_spec (Z.of_nat (length s)) (1 + 11 + macLen c)) as [Hlen|Hlen];
    cbn [negb]; [|reflexivity].
  rewrite int8_small by lia.
  destruct (rev_at c (at_byte s 0) =? Z.of_N (version c)); cbn [negb]; [|reflexivity].
  unfold base62DecodeFixed. rewrite (body_length s (macLen c) Hm Hlen).
  cbn [Nat.eqb negb]. rewrite (base62_loop_checks cfg c _ 0 Hc).
  destruct (forallb (in_first62 c) (firstn 11 (skipn 1 s))); cbn [negb]; [|reflexivity].
  fold (body_value c (firstn 11 (skipn 1 s))).
  change (1 + 11)%nat with 12%nat.
  destruct (list_eq_dec ascii_dec (skipn 12 s)
              (hmacPadding c (body_value c (firstn 11 (skipn 1 s))) (kind c))) as [E|NE].
  - rewrite (proj2 (ConstantTimeCompare_eq _ _) E). reflexivity.
  - destruct (Z.eqb_spec (ConstantTimeCompare (skipn 12 s)
       (hmacPadding c (body_value c (firstn 11 (skipn 1 s))) (kind c))) 1) as [E1|_];
      [|reflexivity].
    apply ConstantTimeCompare_eq in E1. contradiction.
Qed.

Lemma decode_checks_in_order_witness :
  DecodeToUint64 tilde_codec tilde_token = Err ErrInvalidBase62Char.
Proof.
  rewrite (decode_checks_in_order tilde_cfg tilde_codec tilde_token).
  - vm_compute. reflexivity.
  - vm_compute. reflexivity.
Defined.

(** ** C10: DecodeBodyOnly *)
Section BodyOnly.

Lemma base62_loop_never_length (c : Codec) (s : bytes) (u : Z) :
  base62_loop c s u <> Err ErrInvalidLength.
Proof.
  revert u. induction s as [|ch s IH]; intros u; simpl; [discriminate|].
  destruct (rev_at c ch <? 0); [discriminate|apply IH].
Qed.

Lemma body_length_of_long (s : bytes) :
  (12 <= length s)%nat -> length (firstn 11 (skipn 1 s)) = 11%nat.
Proof. intros H. rewrite length_firstn, length_skipn. lia. Qed.

Lemma DecodeBodyOnly_long (c : Codec) (s : bytes) :
  (12 <= length s)%nat ->
  DecodeBodyOnly c s = base62_loop c (firstn 11 (skipn 1 s)) 0.
Proof.
  intros H. unfold DecodeBodyOnly, base62DecodeFixed.
  destruct (Nat.ltb_spec (length s) (1 + 11)) as [L|_]; [simpl in L; lia|].
  rewrite body_length_of_long by assumption. reflexivity.
Qed.

Lemma body_determined (s s' : bytes) :
  (12 <= length s)%nat -> (12 <= length s')%nat ->
  (forall i, (1 <= i <= 11)%nat -> at_byte s i = at_byte s' i) ->
  firstn 11 (skipn 1 s) = firstn 11 (skipn 1 s').
Proof.
  intros Hs Hs' Hpos. apply (nth_ext _ _ zero_byte zero_byte).
  - now rewrite !body_length_of_long.
  - intros n Hn. rewrite body_length_of_long in Hn by assumption.
    rewrite !nth_firstn. destruct (Nat.ltb_spec n 11); [|lia].
    rewrite !nth_skipn. apply (Hpos (1 + n)%nat). lia.
Qed.

End BodyOnly.

(** C10, as stated, fails: ["0~~~~~~~~~~~"] has 12 characters, yet
    [DecodeBodyOnly] does not accept it: ['~'] is not a character of the
    alphabet, and the answer is [ErrInvalidBase62Char]. *)
Lemma long_string_is_not_accepted :
  length (str "0~~~~~~~~~~~") = 12%nat
  /\ DecodeBodyOnly gx_codec (str "0~~~~~~~~~~~") = Err ErrInvalidBase62Char.
Proof. split; vm_compute; reflexivity. Qed.

(** C10 (amended): [DecodeBodyOnly] answers [ErrInvalidLength] exactly on
    strings shorter than 12 bytes; a string of at least 12 bytes, however
    long, passes the length check, and its result is the base-62
    decoding of the characters at positions 1 to 11 alone: two such
    strings that agree there have the same result, so neither the pad
    nor trailing characters (nor the version character) influence it.
    The string is accepted exactly when these eleven characters are all
    among the first 62 of the alphabet, and answered with
    [ErrInvalidBase62Char] otherwise. *)
Theorem DecodeBodyOnly_length_and_body (c : Codec) :
  (forall s, DecodeBodyOnly c s = Err ErrInvalidLength <-> (length s < 12)%nat)
  /\ (forall s s', (12 <= length s)%nat -> (12 <= length s')%nat ->
        (forall i, (1 <= i <= 11)%nat -> at_byte s i = at_byte s' i) ->
        DecodeBodyOnly c s = DecodeBodyOnly c s')
  /\ (forall v v' body pad pad', length body = 11%nat ->
        DecodeBodyOnly c ([v] ++ body ++ pad) = DecodeBodyOnly c ([v'] ++ body ++ pad'))
  /\ (forall cfg s, NewCodecFromSecret cfg = Ok c -> (12 <= length s)%nat ->
        DecodeBodyOnly c s
        = if forallb (in_first62 c) (firstn 11 (skipn 1 s))
          then Ok (body_value c (firstn 11 (skipn 1 s)))
          else Err ErrInvalidBase62Char).
Proof.
  split; [|split; [|split]].
  - intros s. split.
    + intros E. destruct (Nat.lt_ge_cases (length s) 12) as [|Hge]; [assumption|].
      rewrite DecodeBodyOnly_long in E by assumption.
      now apply base62_loop_never_length in E.
    + intros L. unfold DecodeBodyOnly.
      destruct (Nat.ltb_spec (length s) (1 + 11)) as [_|G]; [reflexivity|simpl in G; lia].
  - intros s s' Hs Hs' Hpos.
    rewrite !DecodeBodyOnly_long by assumption.
    now rewrite (body_determined s s').
  - intros v v' body pad pad' Hb.
    rewrite !DecodeBodyOnly_long by (rewrite !length_app, Hb; simpl; lia).
    rewrite <- Hb. now rewrite !body_of_framed.
  - intros cfg s Hc Hs.
    rewrite DecodeBodyOnly_long by assumption.
    apply (base62_loop_checks cfg c _ 0 Hc).
Qed.

Lemma DecodeBodyOnly_length_and_body_witness :
  DecodeBodyOnly gx_codec (str "0I5eKfV82GxQQZqsp5")
  = DecodeBodyOnly gx_codec (str "0I5eKfV82GxQzzzzzz-and-more").
Proof.
  apply (proj1 (proj2 (DecodeBodyOnly_length_and_body gx_codec))).
  - vm_compute. lia.
  - vm_compute. lia.
  - intros i Hi.
    assert (E : In i (seq 1 11)) by (apply in_seq; lia).
    simpl in E.
    repeat (destruct E as [<-|E]; [reflexivity|]). destruct E.
Defined.

(** ** Throttler: C2 and C7 *)
Section ThrottlerProperties.
Import Flow.Throttler.

Lemma NewThrottler_agrees (o : ThrottlerOpts) (t0 : throttler) :
  NewThrottler o = Some t0 -> agrees (OnStop o) [] t0.
Proof.
  unfold NewThrottler. destruct (Interval o <=? 0); [discriminate|].
  intros E. injection E as <-. unfold agrees. cbn.
  repeat split; try discriminate; try reflexivity. intros [].
Qed.

Lemma onStop_runs_app (a b : list tevent) :
  onStop_runs (a ++ b) = (onStop_runs a + onStop_runs b)%nat.
Proof. apply count_occ_app. Qed.

Ltac stop_not_returned Hret :=
  let H := fresh "H" in
  intros H; apply in_app_or in H; destruct H as [H|H];
  [ apply Hret in H; first [discriminate | assumption]
  | cbn in H; intuition discriminate ].

Lemma tstep_agrees (configured : bool) (tr evs : list tevent) (t t' : throttler) :
  agrees configured tr t -> tstep t evs t' -> agrees configured (tr ++ evs) t'.
Proof.
  intros (Hcb & Hmon & Hruns & Hdone & Hret) Hstep.
  unfold agrees, stop_protocol in *. rewrite fold_left_app, Hmon, onStop_runs_app, Hruns.
  destruct Hstep as [t Ho|t Ho|t Ho|t|ctx t r t' Hacq|t Hr|t Hr Hc|t Hr].
  - (* entering Do *)
    rewrite Ho in *. cbn. rewrite Hcb.
    assert (Hc : stop_closed t = false).
    { destruct (stop_closed t); [|reflexivity].
      destruct Hdone as [_ H]. specialize (H eq_refl). discriminate. }
    rewrite Hc. destruct configured; cbn; repeat split; try discriminate;
      stop_not_returned Hret.
  - (* closing the stop channel *)
    rewrite Ho in *. cbn.
    assert (Hc : stop_closed t = false).
    { destruct (stop_closed t); [|reflexivity].
      destruct Hdone as [_ H]. specialize (H eq_refl). discriminate. }
    rewrite Hc. destruct configured; cbn; repeat split; auto.
  - (* a later call of Stop *)
    rewrite Ho in *. cbn.
    assert (Hc : stop_closed t = true) by (now apply Hdone).
    rewrite Hc. cbn. rewrite Nat.add_0_r. repeat split; auto; try tauto.
  - (* TryAcquire *)
    unfold TryAcquire. destruct (tokens t); cbn; rewrite ?Nat.add_0_r;
      repeat split; try tauto; stop_not_returned Hret.
  - (* Acquire *)
    unfold Acquire in Hacq. apply in_app_or in Hacq.
    destruct Hacq as [Hacq|Hacq]; [|apply in_app_or in Hacq; destruct Hacq as [Hacq|Hacq]].
    + destruct ctx; [|destruct Hacq]. destruct Hacq as [E|[]]. injection E as <- <-.
      cbn. rewrite Nat.add_0_r. repeat split; try tauto; stop_not_returned Hret.
    + destruct (stop_closed t) eqn:Hc; [|destruct Hacq]. destruct Hacq as [E|[]].
      injection E as <- <-. cbn. rewrite Hc, Nat.add_0_r. repeat split; try tauto;
        intros _; now apply Hdone.
    + destruct (tokens t) as [|n] eqn:Hn; [destruct Hacq|]. destruct Hacq as [E|[]].
      injection E as <- <-. cbn. rewrite Nat.add_0_r. repeat split; try tauto;
        stop_not_returned Hret.
  - (* a tick of the refill loop *)
    destruct (tokens t <? capacity t)%nat; cbn; rewrite Nat.add_0_r;
      repeat split; try tauto; stop_not_returned Hret.
  - cbn. rewrite Nat.add_0_r. repeat split; try tauto; stop_not_returned Hret.
  - cbn. rewrite Nat.add_0_r. repeat split; try tauto; stop_not_returned Hret.
Qed.

Lemma texec_agrees (o : ThrottlerOpts) (t0 t : throttler) (tr : list tevent) :
  NewThrottler o = Some t0 -> texec t0 tr t -> agrees (OnStop o) tr t.
Proof.
  intros Hnew Hexec. induction Hexec as [t|t tr t1 evs t2 Hexec IH Hstep].
  - now apply NewThrottler_agrees.
  - eapply tstep_agrees; eauto.
Qed.

End ThrottlerProperties.

Section ThrottlerRuns.
Import Flow.Throttler.

(** One caller running [Stop] to its end is two steps of the throttler:
    entering [Do] (where onStop runs) and closing the stop channel. *)
Lemma Stop_first_call (t : throttler) :
  stopOnce t = OnceIdle -> texec t (fst (Stop t)) (snd (Stop t)).
Proof.
  intros Ho. unfold Stop. rewrite Ho. cbn [fst snd].
  pose proof (step_stop_enter t Ho) as S1.
  assert (S2 : tstep (with_once OnceRunning (stop_closed t) t) [TStopClosed; TStopReturned]
                 (with_once OnceDone true t)).
  { apply (step_stop_close (with_once OnceRunning (stop_closed t) t)). reflexivity. }
  pose proof (texec_step _ _ _ _ _ (texec_step _ _ _ _ _ (texec_nil t) S1) S2) as H.
  exact H.
Qed.

Lemma texec_app (t0 t1 t2 : throttler) (tr1 tr2 : list tevent) :
  texec t0 tr1 t1 -> texec t1 tr2 t2 -> texec t0 (tr1 ++ tr2) t2.
Proof.
  intros H1 H2. induction H2 as [t|t tr t' evs t'' H2 IH Hstep].
  - now rewrite app_nil_r.
  - rewrite app_assoc. eapply texec_step; eauto.
Qed.

(** Calls of [Stop] made one after the other, with no caller inside
    [Do] at the start, are steps of the throttler; each of them
    returns. *)
Lemma stop_calls_exec (n : nat) (t : throttler) :
  stopOnce t <> OnceRunning ->
  texec t (fst (stop_calls n t)) (snd (stop_calls n t))
  /\ stop_returns (fst (stop_calls n t)) = n
  /\ (n <> 0%nat -> stopOnce (snd (stop_calls n t)) = OnceDone).
Proof.
  revert t. induction n as [|n IH]; intros t Ho.
  - cbn. split; [constructor|]. split; [reflexivity|congruence].
  - cbn [stop_calls fst snd].
    assert (S1 : texec t (fst (Stop t)) (snd (Stop t))
                 /\ stopOnce (snd (Stop t)) = OnceDone
                 /\ stop_returns (fst (Stop t)) = 1%nat).
    { destruct (stopOnce t) eqn:E; [|congruence|].
      - split; [now apply Stop_first_call|].
        unfold Stop. rewrite E. cbn. destruct (onStop t); split; reflexivity.
      - unfold Stop. rewrite E. cbn [fst snd]. split; [|split; [assumption|reflexivity]].
        apply (texec_step t [] t [TStopReturned] t (texec_nil t)).
        now apply step_stop_again. }
    destruct S1 as (X1 & D1 & R1).
    destruct (IH (snd (Stop t))) as (X2 & R2 & D2); [congruence|].
    split; [now apply (texec_app _ _ _ _ _ X1 X2)|].
    split.
    + unfold stop_returns in *. rewrite count_occ_app, R1, R2. reflexivity.
    + intros _. destruct n; [exact D1|]. now apply D2.
Qed.

End ThrottlerRuns.

(** C2, at the failing input: a throttler made with burst 1 and stopped
    at once still holds its token, so after [Stop] has returned
    [TryAcquire] returns true and [Acquire] may return nil. *)
Lemma stopped_throttler_hands_out_token :
  Flow.Throttler.NewThrottler burst1_opts = Some burst1_throttler
  /\ fst (Flow.Throttler.Stop burst1_throttler)
     = [Flow.Throttler.TStopClosed; Flow.Throttler.TStopReturned]
  /\ fst (Flow.Throttler.TryAcquire (snd (Flow.Throttler.Stop burst1_throttler))) = true
  /\ map fst (Flow.Throttler.Acquire false (snd (Flow.Throttler.Stop burst1_throttler)))
     = [Flow.Throttler.AcqStopped; Flow.Throttler.AcqOk].
Proof. repeat split. Qed.

(** C2: the code does not do what the claim says. On a throttler on
    which [Stop] has returned, [TryAcquire] never looks at the stop
    channel: it returns false only when the reservoir is empty, and
    true, handing out a token, whenever one is left. [Acquire] does
    look at it, so the stopped error is always a possible result and the
    only one when the reservoir is empty and the caller's context is
    live; but with a token left its [select] may as well take the token
    and return nil. *)
Theorem acquire_after_stop (o : Flow.Throttler.ThrottlerOpts)
    (t0 t : Flow.Throttler.throttler) (tr : list Flow.Throttler.tevent) :
  Flow.Throttler.NewThrottler o = Some t0 ->
  Flow.Throttler.texec t0 tr t ->
  In Flow.Throttler.TStopReturned tr ->
  (fst (Flow.Throttler.TryAcquire t) = false <-> Flow.Throttler.tokens t = 0%nat)
  /\ (forall ctx_done, In (Flow.Throttler.AcqStopped, t) (Flow.Throttler.Acquire ctx_done t))
  /\ (Flow.Throttler.tokens t = 0%nat ->
      Flow.Throttler.Acquire false t = [(Flow.Throttler.AcqStopped, t)])
  /\ (forall ctx_done r t', In (r, t') (Flow.Throttler.Acquire ctx_done t) ->
      (r = Flow.Throttler.AcqStopped /\ t' = t)
      \/ (r = Flow.Throttler.AcqOk
          /\ Flow.Throttler.tokens t = S (Flow.Throttler.tokens t'))
      \/ (r = Flow.Throttler.AcqCanceled /\ ctx_done = true /\ t' = t))
  /\ (Flow.Throttler.tokens t <> 0%nat ->
      fst (Flow.Throttler.TryAcquire t) = true
      /\ forall ctx_done,
           In Flow.Throttler.AcqOk (map fst (Flow.Throttler.Acquire ctx_done t))).
Proof.
  intros Hnew Hexec Hret.
  destruct (texec_agrees o t0 t tr Hnew Hexec) as (_ & _ & _ & Hdone & Hr).
  assert (Hc : Flow.Throttler.stop_closed t = true) by (apply Hdone, Hr, Hret).
  unfold Flow.Throttler.TryAcquire, Flow.Throttler.Acquire. rewrite Hc.
  split; [|split; [|split; [|split]]].
  - destruct (Flow.Throttler.tokens t); cbn; split; congruence.
  - intros ctx. apply in_or_app. right. now left.
  - intros ->. reflexivity.
  - intros ctx r t' Hin. apply in_app_or in Hin. destruct Hin as [Hin|Hin].
    + destruct ctx; [|destruct Hin]. destruct Hin as [E|[]]. injection E as <- <-.
      right. right. auto.
    + destruct Hin as [E|Hin]; [injection E as <- <-; left; auto|].
      destruct (Flow.Throttler.tokens t) eqn:Hn; [destruct Hin|].
      destruct Hin as [E|[]]. injection E as <- <-. right. left. auto.
  - intros Hn. destruct (Flow.Throttler.tokens t) as [|k]; [congruence|].
    split; [reflexivity|]. intros ctx. rewrite !map_app. apply in_or_app. right.
    cbn. right. now left.
Qed.

Lemma acquire_after_stop_witness :
  fst (Flow.Throttler.TryAcquire (snd (Flow.Throttler.Stop burst1_throttler))) = true
  /\ In Flow.Throttler.AcqOk
       (map fst (Flow.Throttler.Acquire false (snd (Flow.Throttler.Stop burst1_throttler)))).
Proof.
  destruct (acquire_after_stop burst1_opts burst1_throttler
              (snd (Flow.Throttler.Stop burst1_throttler))
              (fst (Flow.Throttler.Stop burst1_throttler)) eq_refl
              (Stop_first_call burst1_throttler eq_refl))
    as (_ & _ & _ & _ & A).
  - cbn. auto.
  - destruct A as [A B]; [cbn; discriminate|]. split; [exact A|exact (B false)].
Defined.

(** C7: [Stop] is idempotent and runs onStop once, before the stop
    signal. In every execution of a throttler, whatever the callers do,
    onStop runs at most once, and only when configured; it has run
    exactly once (when configured) as soon as any call of [Stop] has
    returned; and the order monitor is never violated: the stop signal
    is published once, after onStop has run, and a call of [Acquire]
    fails as stopped (and a call of [Stop] returns) only after the
    signal is published. The calls do happen: the first call of [Stop]
    runs onStop (when configured), then closes the stop channel, then
    returns; any number of calls of [Stop], made from any state the
    throttler can reach, are steps of the throttler that all return,
    after which onStop has run exactly once, the signal is published and
    [Acquire] can fail as stopped; and a caller that finds another one
    inside [Do] returns once that one has closed the channel. A second
    call of [Stop] by the same caller changes nothing. *)
Theorem stop_runs_onStop_once_before_publishing (o : Flow.Throttler.ThrottlerOpts)
    (t0 t : Flow.Throttler.throttler) (tr : list Flow.Throttler.tevent) :
  Flow.Throttler.NewThrottler o = Some t0 ->
  Flow.Throttler.texec t0 tr t ->
  (exists ran, stop_protocol (Flow.Throttler.OnStop o) tr
               = Some (ran, Flow.Throttler.stop_closed t))
  /\ (onStop_runs tr <= if Flow.Throttler.OnStop o then 1 else 0)%nat
  /\ (In Flow.Throttler.TStopReturned tr ->
      onStop_runs tr = if Flow.Throttler.OnStop o then 1%nat else 0%nat)
  /\ Flow.Throttler.Stop (snd (Flow.Throttler.Stop t))
     = ([Flow.Throttler.TStopReturned], snd (Flow.Throttler.Stop t))
  /\ (Flow.Throttler.stopOnce t = Flow.Throttler.OnceIdle ->
      fst (Flow.Throttler.Stop t)
      = (if Flow.Throttler.OnStop o then [Flow.Throttler.TOnStop] else [])
        ++ [Flow.Throttler.TStopClosed; Flow.Throttler.TStopReturned])
  /\ (Flow.Throttler.stopOnce t <> Flow.Throttler.OnceRunning ->
      forall n,
        let calls := stop_calls (S n) t in
        Flow.Throttler.texec t0 (tr ++ fst calls) (snd calls)
        /\ stop_returns (fst calls) = S n
        /\ onStop_runs (tr ++ fst calls) = (if Flow.Throttler.OnStop o then 1%nat else 0%nat)
        /\ Flow.Throttler.stop_closed (snd calls) = true
        /\ (forall ctx_done,
              In (Flow.Throttler.AcqStopped, snd calls)
                 (Flow.Throttler.Acquire ctx_done (snd calls))))
  /\ (Flow.Throttler.stopOnce t = Flow.Throttler.OnceRunning ->
      exists t', Flow.Throttler.tstep t
                   [Flow.Throttler.TStopClosed; Flow.Throttler.TStopReturned] t'
                 /\ Flow.Throttler.stop_closed t' = true).
Proof.
  intros Hnew Hexec.
  destruct (texec_agrees o t0 t tr Hnew Hexec) as (Hcb & Hmon & Hruns & _ & Hret).
  split; [eauto|]. split; [|split; [|split; [|split; [|split]]]].
  - rewrite Hruns. destruct (Flow.Throttler.stopOnce t), (Flow.Throttler.OnStop o); lia.
  - intros H. apply Hret in H. rewrite Hruns, H. reflexivity.
  - unfold Flow.Throttler.Stop. destruct (Flow.Throttler.stopOnce t) eqn:Ho; cbn; try rewrite Ho; reflexivity.
  - intros Ho. unfold Flow.Throttler.Stop. rewrite Ho, Hcb. reflexivity.
  - intros Ho n calls. subst calls.
    destruct (stop_calls_exec (S n) t Ho) as (X & R & D).
    pose proof (texec_app _ _ _ _ _ Hexec X) as Hall.
    destruct (texec_agrees o t0 _ _ Hnew Hall) as (_ & _ & Hruns' & Hdone' & _).
    assert (Hc : Flow.Throttler.stop_closed (snd (stop_calls (S n) t)) = true)
      by (apply Hdone', D; discriminate).
    split; [exact Hall|]. split; [exact R|]. split.
    + rewrite Hruns', D by discriminate. reflexivity.
    + split; [exact Hc|]. intros ctx. unfold Flow.Throttler.Acquire. rewrite Hc.
      apply in_or_app. right. now left.
  - intros Ho. exists (Flow.Throttler.with_once Flow.Throttler.OnceDone true t). split.
    + now apply Flow.Throttler.step_stop_close.
    + reflexivity.
Qed.

Lemma stop_runs_onStop_once_before_publishing_witness :
  onStop_runs (fst (Flow.Throttler.Stop burst2_throttler)
               ++ fst (Flow.Throttler.Stop (snd (Flow.Throttler.Stop burst2_throttler))))
  = 1%nat.
Proof.
  destruct (stop_runs_onStop_once_before_publishing burst2_opts burst2_throttler
              burst2_throttler [] eq_refl (Flow.Throttler.texec_nil burst2_throttler))
    as (_ & _ & _ & _ & _ & A & _).
  destruct (A ltac:(discriminate) 1%nat) as (_ & _ & R & _).
  exact R.
Defined.

(** ** Debouncer and coalescer: traces *)
Section Traces.
Import Flow.
Variable T : Type.

Lemma flush_mode_eqb (m : StopMode) :
  mode_eqb m StopFlush || mode_eqb m StopFlushAndCallback = flush_mode m.
Proof. now destruct m. Qed.

Lemma callback_mode_eqb (m : StopMode) :
  mode_eqb m StopCallbackOnly || mode_eqb m StopFlushAndCallback = callback_mode m.
Proof. now destruct m. Qed.

Lemma emitted_app (a b : list (event T)) : emitted (a ++ b) = emitted a ++ emitted b.
Proof. apply flat_map_app. Qed.

End Traces.

(** ** Debouncer: C3, C5 and the debouncer half of C9 *)
Section DebouncerProperties.
Import Flow Flow.Debouncer.
Variable T : Type.
Variable zero : T.

Ltac debouncer_method :=
  cbv [Trigger Flush Stop timerLoop maxLoop resetTimerLocked resetMaxLocked
       stopTimerLocked lock unlock state_after trace_of when
       bind get modify emit ret set_timer set_maxTimer set_last set_pending
       set_stopped opts timer_ maxTimer last pending stopped timerLoopStarted
       maxLoopStarted Wait Leading Trailing MaxWait StopMode_ OnStop
       fst snd app].

Lemma Stop_when_stopped (d : debouncer T) :
  stopped T d = true ->
  state_after (Stop T) d = d /\ trace_of (Stop T) d = [EvLock; EvUnlock].
Proof.
  destruct d as [o tm mt l p s ls ms]. cbn [stopped]. intros ->.
  debouncer_method. auto.
Qed.
Lemma Trigger_when_stopped (d : debouncer T) (v : T) :
  stopped T d = true ->
  state_after (Trigger T v) d = d /\ trace_of (Trigger T v) d = [EvLock; EvUnlock].
Proof.
  destruct d as [o tm mt l p s ls ms]. cbn [stopped]. intros ->.
  debouncer_method. auto.
Qed.

Lemma Flush_when_stopped (d : debouncer T) :
  stopped T d = true ->
  state_after (Flush T) d = d /\ trace_of (Flush T) d = [EvLock; EvUnlock].
Proof.
  destruct d as [o tm mt l p s ls ms]. cbn [stopped]. intros ->.
  debouncer_method. auto.
Qed.

Lemma Stop_first (d : debouncer T) :
  stopped T d = false ->
  stopped T (state_after (Stop T) d) = true
  /\ pending T (state_after (Stop T) d) = false
  /\ trace_of (Stop T) d =
     [EvLock; EvUnlock]
     ++ (if flush_mode (StopMode_ (opts T d)) && pending T d && Trailing (opts T d)
         then [EvCb (last T d)] else [])
     ++ (if callback_mode (StopMode_ (opts T d)) && OnStop (opts T d)
         then [EvOnStop (last T d)] else []).
Proof.
  destruct d as [o tm mt l p s ls ms]. cbn [stopped]. intros ->.
  rewrite <- flush_mode_eqb, <- callback_mode_eqb.
  destruct o as [w ld trl mw m os].
  debouncer_method.
  destruct tm, mt; cbn;
    destruct ((mode_eqb m StopFlush || mode_eqb m StopFlushAndCallback) && p && trl);
    destruct ((mode_eqb m StopCallbackOnly || mode_eqb m StopFlushAndCallback) && os);
    cbn; auto.
Qed.

Lemma bind_state_after {S E A B : Type} (m : @M S E A) (k : @M S E B) (s : S) :
  state_after (m ;; k) s = state_after k (state_after m s).
Proof.
  unfold state_after, bind. destruct (m s) as [[a s1] t1].
  cbn [fst snd]. destruct (k s1) as [[b s2] t2]. reflexivity.
Qed.

Lemma bind_trace_of {S E A B : Type} (m : @M S E A) (k : @M S E B) (s : S) :
  trace_of (m ;; k) s = trace_of m s ++ trace_of k (state_after m s).
Proof.
  unfold trace_of, state_after, bind. destruct (m s) as [[a s1] t1].
  cbn [fst snd]. destruct (k s1) as [[b s2] t2]. reflexivity.
Qed.

Ltac split_matches :=
  repeat match goal with
         | |- context [if ?b then _ else _] => destruct b
         | |- context [match ?x with TimerNil => _ | _ => _ end] => destruct x
         end.

(** A call other than [Stop] leaves a live debouncer live, keeps its
    options, and only [Trigger] changes [last]. *)
Lemma run_op_live (d : debouncer T) (o : op T) :
  stopped T d = false -> is_debouncer_stop o = false ->
  stopped T (state_after (run_op T o) d) = false
  /\ opts T (state_after (run_op T o) d) = opts T d
  /\ last T (state_after (run_op T o) d)
     = match o with OpTrigger _ x => x | _ => last T d end.
Proof.
  destruct d as [[w ld trl mw m os] tm mt l p s ls ms]. cbn [stopped]. intros -> Ho.
  destruct o; try discriminate; cbn [run_op]; debouncer_method;
    split_matches; cbn; auto.
Qed.

Lemma run_live (ops : list (op T)) (d : debouncer T) :
  stopped T d = false -> forallb (fun o => negb (is_debouncer_stop o)) ops = true ->
  stopped T (state_after (run T ops) d) = false
  /\ opts T (state_after (run T ops) d) = opts T d
  /\ last T (state_after (run T ops) d) = last_triggered (last T d) ops.
Proof.
  revert d. induction ops as [|o ops IH]; intros d Hs Hops.
  - cbn. auto.
  - cbn [forallb] in Hops. apply andb_prop in Hops. destruct Hops as [Ho Hops].
    apply negb_true_iff in Ho.
    destruct (run_op_live d o Hs Ho) as (Hs1 & Ho1 & Hl1).
    cbn [run]. rewrite bind_state_after.
    destruct (IH _ Hs1 Hops) as (Hs2 & Ho2 & Hl2).
    rewrite Hs2, Ho2, Ho1, Hl2, Hl1. repeat split.
Qed.

Lemma NewDebouncer_fresh (o : DebounceOpts) (d0 : debouncer T) :
  NewDebouncer T zero o = Some d0 ->
  stopped T d0 = false /\ pending T d0 = false /\ last T d0 = zero
  /\ StopMode_ (opts T d0) = StopMode_ o /\ OnStop (opts T d0) = OnStop o
  /\ (Trailing (opts T d0) = Trailing o || negb (Leading o)).
Proof.
  destruct o as [w ld trl mw m os]. unfold NewDebouncer. cbn.
  destruct (w <=? 0); [discriminate|].
  intros E. injection E as <-. destruct ld, trl; cbn; repeat split.
Qed.

End DebouncerProperties.

(** C3: the debouncer calls the trigger callback with its mutex held,
    in [Flush], on a timer tick and on a leading [Trigger]: the statement
    that every callback runs outside the lock fails there. *)
Theorem debouncer_callback_under_lock (T : Type) (d : Flow.Debouncer.debouncer T) (v : T) :
  Flow.Debouncer.stopped T d = false ->
  Flow.Debouncer.Trailing (Flow.Debouncer.opts T d) = true ->
  (Flow.Debouncer.pending T d = true ->
     Flow.trace_of (Flow.Debouncer.Flush T) d
       = [Flow.EvLock; Flow.EvCb (Flow.Debouncer.last T d); Flow.EvUnlock]
     /\ callbacks_outside_lock false (Flow.trace_of (Flow.Debouncer.Flush T) d) = false
     /\ callbacks_outside_lock false (Flow.trace_of (Flow.Debouncer.timerLoop T) d) = false
     /\ callbacks_outside_lock false (Flow.trace_of (Flow.Debouncer.maxLoop T) d) = false)
  /\ (Flow.Debouncer.pending T d = false ->
      Flow.Debouncer.Leading (Flow.Debouncer.opts T d) = true ->
      Flow.trace_of (Flow.Debouncer.Trigger T v) d = [Flow.EvLock; Flow.EvCb v; Flow.EvUnlock]
      /\ callbacks_outside_lock false (Flow.trace_of (Flow.Debouncer.Trigger T v) d) = false).
Proof.
  destruct d as [[w ld trl mw m os] tm mt l p s ls ms].
  cbn [Flow.Debouncer.stopped Flow.Debouncer.opts Flow.Debouncer.Trailing
       Flow.Debouncer.pending Flow.Debouncer.Leading Flow.Debouncer.last].
  intros -> ->. split.
  - intros ->.
    cbv [Flow.Debouncer.Flush Flow.Debouncer.timerLoop Flow.Debouncer.maxLoop
         Flow.Debouncer.stopTimerLocked Flow.Debouncer.lock Flow.Debouncer.unlock
         Flow.trace_of Flow.when Flow.bind Flow.get Flow.modify Flow.emit Flow.ret
         Flow.Debouncer.set_timer Flow.Debouncer.set_maxTimer Flow.Debouncer.set_pending
         Flow.Debouncer.opts Flow.Debouncer.timer_ Flow.Debouncer.maxTimer
         Flow.Debouncer.last Flow.Debouncer.pending Flow.Debouncer.stopped
         Flow.Debouncer.Trailing fst snd app orb andb negb].
    destruct tm, mt; cbn; auto.
  - intros -> ->.
    cbv [Flow.Debouncer.Trigger Flow.Debouncer.resetTimerLocked
         Flow.Debouncer.resetMaxLocked Flow.Debouncer.lock Flow.Debouncer.unlock
         Flow.trace_of Flow.when Flow.bind Flow.get Flow.modify Flow.emit Flow.ret
         Flow.Debouncer.set_timer Flow.Debouncer.set_maxTimer Flow.Debouncer.set_pending
         Flow.Debouncer.set_last
         Flow.Debouncer.opts Flow.Debouncer.timer_ Flow.Debouncer.maxTimer
         Flow.Debouncer.last Flow.Debouncer.pending Flow.Debouncer.stopped
         Flow.Debouncer.Leading Flow.Debouncer.Wait Flow.Debouncer.MaxWait
         fst snd app orb andb negb].
    destruct (w <=? 0), (mw <=? 0), tm, mt; cbn; auto.
Qed.

Lemma debouncer_callback_under_lock_witness :
  Flow.trace_of (Flow.Debouncer.Flush Z)
    (Flow.state_after (Flow.Debouncer.Trigger Z 7) trailing_debouncer)
  = [Flow.EvLock; Flow.EvCb 7; Flow.EvUnlock].
Proof.
  exact (proj1 (proj1 (debouncer_callback_under_lock Z
           (Flow.state_after (Flow.Debouncer.Trigger Z 7) trailing_debouncer) 0
           eq_refl eq_refl) eq_refl)).
Defined.

(** C5: the first [Stop] of a debouncer that holds a pending value
    calls the trigger callback with the snapshotted [last] when the
    stop mode flushes and trailing is set, then calls onStop with the
    same value when the stop mode calls back and onStop is set, and
    nothing else; afterwards the debouncer is stopped, and every
    further [Stop], [Trigger] and [Flush] leaves it as it is and calls
    nothing. *)
Theorem debouncer_stop_with_pending (T : Type) (d : Flow.Debouncer.debouncer T) :
  Flow.Debouncer.stopped T d = false ->
  Flow.Debouncer.pending T d = true ->
  let d' := Flow.state_after (Flow.Debouncer.Stop T) d in
  callbacks (Flow.trace_of (Flow.Debouncer.Stop T) d)
  = (if flush_mode (Flow.Debouncer.StopMode_ (Flow.Debouncer.opts T d))
        && Flow.Debouncer.Trailing (Flow.Debouncer.opts T d)
     then [Flow.EvCb (Flow.Debouncer.last T d)] else [])
    ++ (if callback_mode (Flow.Debouncer.StopMode_ (Flow.Debouncer.opts T d))
           && Flow.Debouncer.OnStop (Flow.Debouncer.opts T d)
        then [Flow.EvOnStop (Flow.Debouncer.last T d)] else [])
  /\ Flow.Debouncer.stopped T d' = true
  /\ (Flow.state_after (Flow.Debouncer.Stop T) d' = d'
      /\ callbacks (Flow.trace_of (Flow.Debouncer.Stop T) d') = [])
  /\ (forall v, Flow.state_after (Flow.Debouncer.Trigger T v) d' = d'
                /\ callbacks (Flow.trace_of (Flow.Debouncer.Trigger T v) d') = [])
  /\ (Flow.state_after (Flow.Debouncer.Flush T) d' = d'
      /\ callbacks (Flow.trace_of (Flow.Debouncer.Flush T) d') = []).
Proof.
  intros Hs Hp d'.
  destruct (Stop_first T d Hs) as (Hs' & _ & Htr). fold d' in Hs'.
  split; [|split; [assumption|]].
  - rewrite Htr, Hp, andb_true_r. unfold callbacks.
    destruct (Flow.Debouncer.StopMode_ (Flow.Debouncer.opts T d)),
      (Flow.Debouncer.Trailing (Flow.Debouncer.opts T d)),
      (Flow.Debouncer.OnStop (Flow.Debouncer.opts T d)); reflexivity.
  - split; [|split].
    + destruct (Stop_when_stopped T d' Hs') as [-> ->]. auto.
    + intros v. destruct (Trigger_when_stopped T d' v Hs') as [-> ->]. auto.
    + destruct (Flush_when_stopped T d' Hs') as [-> ->]. auto.
Qed.

Lemma debouncer_stop_with_pending_witness :
  callbacks (Flow.trace_of (Flow.Debouncer.Stop Z)
    (Flow.state_after
       (Flow.Debouncer.run Z [Flow.Debouncer.OpTrigger Z 1; Flow.Debouncer.OpTrigger Z 2;
                              Flow.Debouncer.OpTrigger Z 3])
       flush_and_callback_debouncer))
  = [Flow.EvCb 3; Flow.EvOnStop 3].
Proof.
  exact (proj1 (debouncer_stop_with_pending Z
           (Flow.state_after
              (Flow.Debouncer.run Z [Flow.Debouncer.OpTrigger Z 1; Flow.Debouncer.OpTrigger Z 2;
                                     Flow.Debouncer.OpTrigger Z 3])
              flush_and_callback_debouncer)
           eq_refl eq_refl)).
Defined.

(** ** Coalescer: C6 and the coalescer half of C9 *)
Section CoalescerProperties.
Import Flow Flow.Coalescer.
Variable T : Type.
Variable zero : T.
Variable folder : T -> T -> T.

Ltac coalescer_method :=
  cbv [Add Flush Stop loop loop_cancelled run_op stopTimerLocked lock unlock
       state_after trace_of when bind get modify emit ret
       set_timer set_acc set_hasAcc set_stopped set_looping
       window timer_ acc hasAcc stopped stopMode onStop looping
       fst snd orb andb negb mode_eqb].

Ltac split_cases :=
  repeat match goal with
         | |- context [if ?b then _ else _] => is_var b; destruct b
         | |- context [match ?x with TimerNil => _ | _ => _ end] => is_var x; destruct x
         | |- context [match ?x with StopNoop => _ | _ => _ end] => is_var x; destruct x
         end.

Lemma fold_window_snoc (win : list T) (v : T) :
  win <> [] -> fold_window zero folder (win ++ [v]) = folder (fold_window zero folder win) v.
Proof.
  destruct win as [|v0 vs]; [congruence|]. intros _. cbn.
  now rewrite fold_left_app.
Qed.

Lemma run_op_window (c : coalescer T) (win : list T) (o : op T) :
  holds_window zero folder c win ->
  let win1 := match o with OpAdd _ v => win ++ [v] | _ => win end in
  let evs := trace_of (run_op T folder o) c in
  let c' := state_after (run_op T folder o) c in
  (emitted evs = [] /\ holds_window zero folder c' win1)
  \/ (emitted evs = [fold_window zero folder win1] /\ win1 <> [] /\ holds_window zero folder c' []).
Proof.
  destruct c as [w tm a h s m os lp]. unfold holds_window. cbn [stopped hasAcc acc].
  intros [->|[(-> & Hne & ->)|(-> & ->)]]; destruct o; cbn zeta.
  all: coalescer_method; split_cases; cbn; auto.
  all: try (left; split; [reflexivity|]; right; left; repeat split;
            [now destruct win|symmetry; now apply fold_window_snoc]).
  all: try (left; split; [reflexivity|]; right; right; split; reflexivity).
  all: try (right; repeat split; auto; right; right; auto).
  all: try (left; split; [reflexivity|]; right; left; repeat split; congruence).
  all: try (left; split; [reflexivity|]; right; left; repeat split; auto; discriminate).
Qed.

Lemma run_log_folds (ops : list (op T)) (c : coalescer T) (win : list T) :
  holds_window zero folder c win -> emissions_are_folds zero folder win (run_log folder ops c).
Proof.
  revert c win. induction ops as [|o ops IH]; intros c win H; cbn [run_log emissions_are_folds].
  - exact I.
  - destruct (run_op_window c win o H) as [[-> H']|(-> & Hne & H')].
    + now apply IH.
    + repeat split; auto.
Qed.

Lemma NewCoalescer_fresh (w : Z) (o : list CoalesceOpts) (c0 : coalescer T) :
  NewCoalescer T zero w o = Some c0 ->
  stopped T c0 = false /\ hasAcc T c0 = false /\ acc T c0 = zero
  /\ stopMode T c0 = StopMode_ (hd (mkCoalesceOpts StopNoop false) o)
  /\ onStop T c0 = OnStop (hd (mkCoalesceOpts StopNoop false) o).
Proof.
  unfold NewCoalescer. destruct (w <=? 0); [discriminate|].
  intros E. injection E as <-. destruct o; cbn; auto.
Qed.

Lemma Add_live (c : coalescer T) (v : T) :
  stopped T c = false ->
  (hasAcc T c = false -> acc T (state_after (Add T folder v) c) = v)
  /\ (hasAcc T c = true -> acc T (state_after (Add T folder v) c) = folder (acc T c) v)
  /\ hasAcc T (state_after (Add T folder v) c) = true.
Proof.
  destruct c as [w tm a h s m os lp]. cbn [stopped hasAcc acc]. intros ->.
  coalescer_method. destruct h, tm; cbn; repeat split; congruence.
Qed.

Lemma Add_stopped (c : coalescer T) (v : T) :
  stopped T c = true -> state_after (Add T folder v) c = c.
Proof.
  destruct c as [w tm a h s m os lp]. cbn [stopped]. intros ->. reflexivity.
Qed.

Lemma emission_clears (c : coalescer T) (o : op T) :
  emitted (trace_of (run_op T folder o) c) <> [] ->
  hasAcc T (state_after (run_op T folder o) c) = false.
Proof.
  destruct c as [w tm a h s m os lp]. destruct o; coalescer_method;
    split_cases; cbn; congruence.
Qed.

(** Without a pending value the accumulator is the value emitted last
    ([stale]), and the one the coalescer was made with before any
    emission. *)
Lemma run_op_stale (c : coalescer T) (o : op T) (stale : T) :
  stopped T c = false -> is_coalescer_stop o = false ->
  (hasAcc T c = false -> acc T c = stale) ->
  let c' := state_after (run_op T folder o) c in
  let evs := trace_of (run_op T folder o) c in
  stopped T c' = false
  /\ stopMode T c' = stopMode T c /\ onStop T c' = onStop T c
  /\ (hasAcc T c' = false -> acc T c' = List.last (emitted evs) stale)
  /\ (is_add o = false -> hasAcc T c = false -> hasAcc T c' = false /\ emitted evs = []).
Proof.
  destruct c as [w tm a h s m os lp]. cbn [stopped hasAcc acc stopMode onStop].
  intros -> Ho Hst. destruct o; try discriminate; cbn zeta.
  all: coalescer_method; split_cases; cbn; repeat split; auto; try discriminate.
Qed.

Lemma last_cons_default (l : list T) (x d : T) : List.last (x :: l) d = List.last l x.
Proof.
  revert x d. induction l as [|y l IH]; intros x d; [reflexivity|].
  change (List.last (x :: y :: l) d) with (List.last (y :: l) d).
  now rewrite (IH y d), (IH y x).
Qed.

Lemma last_app_default (l1 l2 : list T) (d : T) :
  List.last (l1 ++ l2) d = List.last l2 (List.last l1 d).
Proof.
  revert d. induction l1 as [|x l1 IH]; intros d; [reflexivity|].
  rewrite <- app_comm_cons, !last_cons_default. apply IH.
Qed.

Lemma run_stale (ops : list (op T)) (c : coalescer T) (stale : T) :
  stopped T c = false -> forallb (fun o => negb (is_coalescer_stop o)) ops = true ->
  (hasAcc T c = false -> acc T c = stale) ->
  let c' := state_after (run T folder ops) c in
  stopped T c' = false
  /\ stopMode T c' = stopMode T c /\ onStop T c' = onStop T c
  /\ (hasAcc T c' = false ->
      acc T c' = List.last (emitted (trace_of (run T folder ops) c)) stale)
  /\ (forallb (fun o => negb (is_add o)) ops = true -> hasAcc T c = false ->
      hasAcc T c' = false /\ emitted (trace_of (run T folder ops) c) = []).
Proof.
  revert c stale. induction ops as [|o ops IH]; intros c stale Hs Hops Hst; cbn zeta.
  - cbn. repeat split; auto.
  - cbn [forallb] in Hops. apply andb_prop in Hops. destruct Hops as [Ho Hops].
    apply negb_true_iff in Ho.
    destruct (run_op_stale c o stale Hs Ho Hst) as (Hs1 & Hm1 & Hos1 & Hst1 & Hidle1).
    cbn [run]. rewrite bind_state_after, bind_trace_of, emitted_app, last_app_default.
    destruct (IH _ _ Hs1 Hops Hst1) as (Hs2 & Hm2 & Hos2 & Hst2 & Hidle2).
    split; [exact Hs2|]. split; [congruence|]. split; [congruence|]. split.
    + intros Hh. now rewrite (Hst2 Hh).
    + intros Hadds Hh0. cbn [forallb] in Hadds. apply andb_prop in Hadds.
      destruct Hadds as [Ha Hrest]. apply negb_true_iff in Ha.
      destruct (Hidle1 Ha Hh0) as [Hh1 He1]. rewrite He1.
      now apply Hidle2.
Qed.

Lemma coalescer_Stop_first (c : coalescer T) :
  stopped T c = false ->
  onStop_calls (trace_of (Stop T) c)
  = if callback_mode (stopMode T c) && onStop T c then [acc T c] else [].
Proof.
  destruct c as [w tm a h s m os lp]. cbn [stopped stopMode onStop acc]. intros ->.
  destruct m, h, os, tm; reflexivity.
Qed.

(** Every call of a coalescer runs its callbacks with the mutex free. *)
Lemma coalescer_callbacks_outside_lock (c : coalescer T) (o : op T) :
  callbacks_outside_lock false (trace_of (run_op T folder o) c) = true.
Proof.
  destruct c as [w tm a h s m os lp]. destruct o; coalescer_method;
    split_cases; reflexivity.
Qed.

End CoalescerProperties.

Section DebouncerStop.
Import Flow Flow.Debouncer.
Variable T : Type.

Lemma debouncer_Stop_onStop (d : debouncer T) :
  stopped T d = false ->
  onStop_calls (trace_of (Stop T) d)
  = if callback_mode (StopMode_ (opts T d)) && OnStop (opts T d) then [last T d] else [].
Proof.
  destruct d as [[w ld trl mw m os] tm mt l p s ls ms].
  cbn [stopped opts StopMode_ OnStop last]. intros ->.
  destruct m, p, trl, os, tm, mt; reflexivity.
Qed.

(** [Stop] is the one method of a debouncer that runs its callbacks
    with the mutex free. *)
Lemma debouncer_Stop_outside_lock (d : debouncer T) :
  callbacks_outside_lock false (trace_of (Stop T) d) = true.
Proof.
  destruct d as [[w ld trl mw m os] tm mt l p s ls ms].
  destruct s, m, p, trl, os, tm, mt; reflexivity.
Qed.

End DebouncerStop.

(** ** C6 *)

(** C6, as stated, fails once the coalescer is stopped: the stop-flush
    is an emission, and the first [Add] after it does not set the
    accumulator (it stays at the value emitted, with nothing held). *)
Lemma add_after_stop_flush_is_ignored :
  emitted (Flow.trace_of
             (Flow.Coalescer.run Z Z.add [Flow.Coalescer.OpAdd Z 1; Flow.Coalescer.OpStop Z])
             (sum_coalescer stop_flush_opts)) = [1]
  /\ Flow.Coalescer.acc Z
       (Flow.state_after
          (Flow.Coalescer.run Z Z.add
             [Flow.Coalescer.OpAdd Z 1; Flow.Coalescer.OpStop Z; Flow.Coalescer.OpAdd Z 5])
          (sum_coalescer stop_flush_opts)) = 1
  /\ Flow.Coalescer.hasAcc Z
       (Flow.state_after
          (Flow.Coalescer.run Z Z.add
             [Flow.Coalescer.OpAdd Z 1; Flow.Coalescer.OpStop Z; Flow.Coalescer.OpAdd Z 5])
          (sum_coalescer stop_flush_opts)) = false.
Proof. repeat split. Qed.

(** C6 (amended): for every coalescer that has not been stopped, the
    first [Add] after an emission (every emission leaves nothing held)
    sets the accumulator to the added value and every later [Add]
    replaces it with [fold(acc, value)], while an [Add] on a stopped
    coalescer changes nothing; consequently, in every run of calls and
    timer ticks from construction, each value delivered to [emit] (on
    window expiry, [Flush] or stop-flush) is the left fold of all the
    values added since the last emission, of which there is at least
    one. *)
Theorem coalescer_emits_left_fold (T : Type) (zero : T) (folder : T -> T -> T)
    (w : Z) (o : list Flow.Coalescer.CoalesceOpts) (c0 : Flow.Coalescer.coalescer T)
    (ops : list (Flow.Coalescer.op T)) :
  Flow.Coalescer.NewCoalescer T zero w o = Some c0 ->
  emissions_are_folds zero folder [] (run_log folder ops c0)
  /\ (forall c op,
        emitted (Flow.trace_of (Flow.Coalescer.run_op T folder op) c) <> [] ->
        Flow.Coalescer.hasAcc T (Flow.state_after (Flow.Coalescer.run_op T folder op) c) = false)
  /\ (forall c v, Flow.Coalescer.stopped T c = false ->
        (Flow.Coalescer.hasAcc T c = false ->
           Flow.Coalescer.acc T (Flow.state_after (Flow.Coalescer.Add T folder v) c) = v)
        /\ (Flow.Coalescer.hasAcc T c = true ->
           Flow.Coalescer.acc T (Flow.state_after (Flow.Coalescer.Add T folder v) c)
           = folder (Flow.Coalescer.acc T c) v)
        /\ Flow.Coalescer.hasAcc T (Flow.state_after (Flow.Coalescer.Add T folder v) c) = true)
  /\ (forall c v, Flow.Coalescer.stopped T c = true ->
        Flow.state_after (Flow.Coalescer.Add T folder v) c = c).
Proof.
  intros Hnew. destruct (NewCoalescer_fresh T zero w o c0 Hnew) as (Hs & Hh & _).
  split; [|split; [|split]].
  - apply run_log_folds. right. right. auto.
  - apply emission_clears.
  - apply Add_live.
  - apply Add_stopped.
Qed.

Lemma coalescer_emits_left_fold_witness :
  emissions_are_folds 0 Z.add []
    (run_log Z.add
       [Flow.Coalescer.OpAdd Z 1; Flow.Coalescer.OpAdd Z 2; Flow.Coalescer.OpTick Z;
        Flow.Coalescer.OpAdd Z 5; Flow.Coalescer.OpAdd Z 5; Flow.Coalescer.OpStop Z]
       (sum_coalescer flush_and_callback_coalescer_opts)).
Proof.
  exact (proj1 (coalescer_emits_left_fold Z 0 Z.add 30000000
                  [flush_and_callback_coalescer_opts]
                  (sum_coalescer flush_and_callback_coalescer_opts)
                  [Flow.Coalescer.OpAdd Z 1; Flow.Coalescer.OpAdd Z 2; Flow.Coalescer.OpTick Z;
                   Flow.Coalescer.OpAdd Z 5; Flow.Coalescer.OpAdd Z 5; Flow.Coalescer.OpStop Z]
                  eq_refl)).
Defined.

Example coalescer_window_then_stop :
  emitted (Flow.trace_of
    (Flow.Coalescer.run Z Z.add
       [Flow.Coalescer.OpAdd Z 1; Flow.Coalescer.OpAdd Z 2; Flow.Coalescer.OpTick Z;
        Flow.Coalescer.OpAdd Z 5; Flow.Coalescer.OpAdd Z 5; Flow.Coalescer.OpStop Z])
    (sum_coalescer flush_and_callback_coalescer_opts)) = [3; 10].
Proof. reflexivity. Qed.

(** ** C9 *)

(** C9, as stated, fails for the coalescer: after [Add 1], [Add 2] and
    a [Flush] nothing is held; the value seen last is 2, but the first
    [Stop] hands onStop the stale accumulator 3. *)
Lemma coalescer_onStop_gets_stale_accumulator :
  Flow.Coalescer.hasAcc Z
    (Flow.state_after
       (Flow.Coalescer.run Z Z.add
          [Flow.Coalescer.OpAdd Z 1; Flow.Coalescer.OpAdd Z 2; Flow.Coalescer.OpFlush Z])
       (sum_coalescer callback_only_opts)) = false
  /\ last_added 0
       [Flow.Coalescer.OpAdd Z 1; Flow.Coalescer.OpAdd Z 2; Flow.Coalescer.OpFlush Z] = 2
  /\ onStop_calls
       (Flow.trace_of (Flow.Coalescer.Stop Z)
          (Flow.state_after
             (Flow.Coalescer.run Z Z.add
                [Flow.Coalescer.OpAdd Z 1; Flow.Coalescer.OpAdd Z 2; Flow.Coalescer.OpFlush Z])
             (sum_coalescer callback_only_opts))) = [3].
Proof. repeat split. Qed.

(** C9 (amended): with a stop mode that calls back and onStop set, the
    first [Stop] of a debouncer or a coalescer calls onStop once
    whether or not a value is pending. A debouncer hands it the value
    of the most recent [Trigger], or the zero value if there was none.
    A coalescer hands it its accumulator: with nothing held that is the
    stale value it emitted last, or the zero value if nothing was
    emitted, as when [Add] was never called. *)
Theorem onStop_without_pending (T : Type) (zero : T) (folder : T -> T -> T) :
  (forall o d0 ops,
     Flow.Debouncer.NewDebouncer T zero o = Some d0 ->
     forallb (fun x => negb (is_debouncer_stop x)) ops = true ->
     callback_mode (Flow.Debouncer.StopMode_ o) = true ->
     Flow.Debouncer.OnStop o = true ->
     onStop_calls (Flow.trace_of (Flow.Debouncer.Stop T)
                     (Flow.state_after (Flow.Debouncer.run T ops) d0))
     = [last_triggered zero ops])
  /\ (forall w o c0 ops,
     Flow.Coalescer.NewCoalescer T zero w [o] = Some c0 ->
     forallb (fun x => negb (is_coalescer_stop x)) ops = true ->
     callback_mode (Flow.Coalescer.StopMode_ o) = true ->
     Flow.Coalescer.OnStop o = true ->
     let c := Flow.state_after (Flow.Coalescer.run T folder ops) c0 in
     onStop_calls (Flow.trace_of (Flow.Coalescer.Stop T) c) = [Flow.Coalescer.acc T c]
     /\ (Flow.Coalescer.hasAcc T c = false ->
         Flow.Coalescer.acc T c
         = last_emitted zero (Flow.trace_of (Flow.Coalescer.run T folder ops) c0))
     /\ (forallb (fun x => negb (is_add x)) ops = true -> Flow.Coalescer.acc T c = zero)).
Proof.
  split.
  - intros o d0 ops Hnew Hops Hmode Hcb.
    destruct (NewDebouncer_fresh T zero o d0 Hnew) as (Hs & _ & Hl & Hm & Ho & _).
    destruct (run_live T ops d0 Hs Hops) as (Hs' & Ho' & Hl').
    rewrite debouncer_Stop_onStop by assumption.
    rewrite Ho', Hm, Ho, Hmode, Hcb, Hl', Hl. reflexivity.
  - intros w o c0 ops Hnew Hops Hmode Hcb c.
    destruct (NewCoalescer_fresh T zero w [o] c0 Hnew) as (Hs & Hh & Ha & Hm & Ho).
    cbn [hd] in Hm, Ho.
    destruct (run_stale T folder ops c0 zero Hs Hops (fun _ => Ha))
      as (Hs' & Hm' & Ho' & Hst & Hidle).
    fold c in Hs', Hm', Ho', Hst, Hidle.
    split; [|split].
    + rewrite coalescer_Stop_first by assumption.
      now rewrite Hm', Ho', Hm, Ho, Hmode, Hcb.
    + exact Hst.
    + intros Hadds. destruct (Hidle Hadds Hh) as [Hh' He].
      rewrite (Hst Hh'), He. reflexivity.
Qed.

Lemma onStop_without_pending_witness :
  onStop_calls
    (Flow.trace_of (Flow.Coalescer.Stop Z)
       (Flow.state_after
          (Flow.Coalescer.run Z Z.add
             [Flow.Coalescer.OpAdd Z 1; Flow.Coalescer.OpAdd Z 2; Flow.Coalescer.OpFlush Z])
          (sum_coalescer callback_only_opts)))
  = [Flow.Coalescer.acc Z
       (Flow.state_after
          (Flow.Coalescer.run Z Z.add
             [Flow.Coalescer.OpAdd Z 1; Flow.Coalescer.OpAdd Z 2; Flow.Coalescer.OpFlush Z])
          (sum_coalescer callback_only_opts))].
Proof.
  exact (proj1 (proj2 (onStop_without_pending Z 0 Z.add) 30000000 callback_only_opts
                  (sum_coalescer callback_only_opts)
                  [Flow.Coalescer.OpAdd Z 1; Flow.Coalescer.OpAdd Z 2; Flow.Coalescer.OpFlush Z]
                  eq_refl eq_refl eq_refl eq_refl)).
Defined.

(** ** C8: the JSON adapter *)

(** C8, as stated, fails on strings with white space around them: the
    adapter trims the string first. The JSON string [" "] is not empty,
    and with no default codec the statement makes it an error, yet
    [UnmarshalJSON] returns no error and sets the ID to zero. *)
Lemma blank_string_unmarshals_to_zero :
  UnmarshalJSON None 5 (JString (str " ")) = (None, 0)
  /\ decode_json_string None 5 (str " ") = (Some ErrDefaultCodecNil, 5).
Proof. split; reflexivity. Qed.

(** C8 (amended): [UnmarshalJSON] maps JSON null to zero; a JSON string
    that is empty once the white space around it is trimmed to zero;
    any other JSON string to the value obtained by decoding the trimmed
    string with the default codec, with an error (and the ID untouched)
    if the codec is unset or decoding fails; a JSON number written as
    an unsigned integer below [2^64] to that value; every other
    document, other numbers included, is an error. *)
Theorem UnmarshalJSON_by_shape (defaultCodec : option Codec) (i : Z) :
  UnmarshalJSON defaultCodec i JNull = (None, 0)
  /\ (forall s,
        UnmarshalJSON defaultCodec i (JString s)
        = decode_json_string defaultCodec i (TrimSpace s))
  /\ (forall n,
        UnmarshalJSON defaultCodec i (JNumber n)
        = if is_uint64_literal n then (None, Z.of_N (digits n))
          else (Some ErrNotStringOrNumber, i))
  /\ (forall b, UnmarshalJSON defaultCodec i (JBool b) = (Some ErrNotStringOrNumber, i))
  /\ UnmarshalJSON defaultCodec i JArray = (Some ErrNotStringOrNumber, i)
  /\ UnmarshalJSON defaultCodec i JObject = (Some ErrNotStringOrNumber, i)
  /\ UnmarshalJSON defaultCodec i JMalformed = (Some ErrNotStringOrNumber, i).
Proof.
  repeat split.
  - intros s. unfold UnmarshalJSON, decode_json_string. cbn [unmarshal_string].
    destruct (TrimSpace s); [reflexivity|]. destruct defaultCodec; reflexivity.
  - intros [neg ds fe]. unfold UnmarshalJSON, is_uint64_literal.
    cbn [unmarshal_string unmarshal_uint64 negative digits frac_or_exp].
    destruct neg, fe; cbn [orb andb negb]; try reflexivity.
    destruct (N.leb_spec (2 ^ 64) ds), (N.ltb_spec ds (2 ^ 64)); try reflexivity; lia.
Qed.

(** With the default codec set, a token in a JSON string with white
    space around it decodes to its ID. *)
Example unmarshal_trims_token :
  UnmarshalJSON (Some gx_codec) 5 (JString (str " 0I5eKfV82GxQQZqsp5 ")) = (None, 1234567890).
Proof. vm_compute. reflexivity. Qed.

(** ** The standard test vectors of SHA-256 and HMAC *)

Example sha256_empty :
  hex (Sha256.Sum256 []) =
  "e3b0c44298fc1c149afbf4c8996fb92427ae41e4649b934ca495991b7852b855"%string.
Proof. vm_compute. reflexivity. Qed.

Example sha256_abc :
  hex (Sha256.Sum256 (str "abc")) =
  "ba7816bf8f01cfea414140de5dae2223b00361a396177a9cb410ff61f20015ad"%string.
Proof. vm_compute. reflexivity. Qed.

Example sha256_two_blocks :
  hex (Sha256.Sum256 (str "abcdbcdecdefdefgefghfghighijhijkijkljklmklmnlmnomnopnopq")) =
  "248d6a61d20638b8e5c026930c3e6039a33ce45964ff2167f6ecedd419db06c1"%string.
Proof. vm_compute. reflexivity. Qed.

Example hmac_rfc4231_case2 :
  hex (Sha256.HMAC (str "Jefe") (str "what do ya want for nothing?")) =
  "5bdcc146bf60754e6a042426089575c75a003f089d2739839dec58b964ec3843"%string.
Proof. vm_compute. reflexivity. Qed.

(** * Further properties of the code *)

(** ** The permutation and the shape of tokens *)
Section CodecShape.

Lemma inversePermutation_range (c : Codec) (y : Z) :
  keys_in_range c -> 0 <= y < 2 ^ 64 -> 0 <= inversePermutation c y < 2 ^ 64.
Proof.
  intros [H1 H3] Hy. unfold inversePermutation.
  apply lxor_range; [|assumption].
  apply RotateLeft64_range, u64_range.
Qed.

Lemma alpha_at_first62 (c : Codec) (d : Z) :
  (62 <= length (alphabet c))%nat -> 0 <= d < 62 ->
  In (alpha_at c d) (firstn 62 (alphabet c)).
Proof.
  intros Hlen Hd. unfold alpha_at, at_byte.
  assert (E : nth (Z.to_nat d) (firstn 62 (alphabet c)) zero_byte
              = nth (Z.to_nat d) (alphabet c) zero_byte).
  { rewrite nth_firstn. destruct (Nat.ltb_spec (Z.to_nat d) 62); [reflexivity|lia]. }
  rewrite <- E. apply nth_In. rewrite length_firstn. lia.
Qed.

Lemma digits62_bound (n : nat) (u : Z) :
  Forall (fun d => 0 <= d < 62) (digits62 n u).
Proof.
  revert u. induction n as [|n IH]; intros u; simpl; [constructor|].
  apply Forall_app. split; [apply IH|].
  constructor; [apply Z.mod_pos_bound; lia|constructor].
Qed.

Lemma pad_value_bound (x : Z) :
  0 <= (if 62 <=? Z.land x 63 then Z.land x 63 - 2 else Z.land x 63) < 62.
Proof.
  change 63 with (Z.ones 6). rewrite Z.land_ones by lia.
  pose proof (Z.mod_pos_bound x (2 ^ 6) ltac:(lia)) as B.
  destruct (Z.leb_spec 62 (x mod 2 ^ 6)); lia.
Qed.

Lemma pad_loop_first62 (c : Codec) (n : nat) (bitbuf bitsIn : Z) (rest : bytes) :
  (62 <= length (alphabet c))%nat ->
  Forall (fun ch => In ch (firstn 62 (alphabet c))) (pad_loop c n bitbuf bitsIn rest).
Proof.
  intros Hlen. revert bitbuf bitsIn rest.
  induction n as [|n IH]; intros bitbuf bitsIn rest; simpl; [constructor|].
  destruct (pad_refill bitbuf bitsIn rest) as [[b1 i1] r1].
  destruct (i1 <? 6); (constructor; [apply alpha_at_first62; [assumption|apply pad_value_bound]|apply IH]).
Qed.

Lemma token_first62 (cfg : Config) (c : Codec) (enc : Z) (knd : option ascii) :
  NewCodecFromSecret cfg = Ok c ->
  Forall (fun ch => In ch (firstn 62 (alphabet c))) (token c enc knd).
Proof.
  intros Hc.
  destruct (NewCodecFromSecret_ok _ _ Hc) as (Hm & Hv & Hlen & _).
  unfold token. apply Forall_app. split; [|apply Forall_app; split].
  - constructor; [|constructor]. apply alpha_at_first62; [assumption|lia].
  - unfold base62EncodeFixed. rewrite base62_fill_digits, app_nil_r.
    apply Forall_map. eapply Forall_impl; [|apply digits62_bound].
    intros d Hd. now apply alpha_at_first62.
  - unfold hmacPadding. now apply pad_loop_first62.
Qed.

End CodecShape.

(** X1: the permutation of a constructed codec is a bijection of the
    64-bit words, and [inversePermutation] is its inverse on both
    sides. *)
Theorem permutation_is_bijection (cfg : Config) (c : Codec) (x y : Z) :
  NewCodecFromSecret cfg = Ok c ->
  0 <= x < 2 ^ 64 -> 0 <= y < 2 ^ 64 ->
  inversePermutation c (permutation c x) = x
  /\ permutation c (inversePermutation c y) = y
  /\ 0 <= permutation c x < 2 ^ 64
  /\ 0 <= inversePermutation c y < 2 ^ 64
  /\ (permutation c x = permutation c y -> x = y).
Proof.
  intros Hc Hx Hy.
  destruct (NewCodecFromSecret_ok _ _ Hc) as (_ & _ & _ & _ & Hk & _).
  repeat split.
  - now apply inversePermutation_permutation.
  - now apply permutation_inversePermutation.
  - apply permutation_range.
  - apply permutation_range.
  - now apply inversePermutation_range.
  - now apply inversePermutation_range.
  - intros E.
    rewrite <- (inversePermutation_permutation c x Hk Hx).
    rewrite <- (inversePermutation_permutation c y Hk Hy).
    now rewrite E.
Qed.

Lemma permutation_is_bijection_witness :
  inversePermutation gx_codec (permutation gx_codec 42) = 42
  /\ permutation gx_codec (inversePermutation gx_codec 7) = 7.
Proof.
  destruct (permutation_is_bijection gx_cfg gx_codec 42 7) as (A & B & _);
    [vm_compute; reflexivity|lia|lia|].
  split; assumption.
Defined.

(** X2: a token of a constructed codec, for any id and kind, has
    [1 + 11 + macLen] characters, starts with [alphabet[version]] and is
    made of the first 62 characters of the alphabet only. *)
Theorem token_shape (cfg : Config) (c : Codec) (id : Z) (knd : option ascii) :
  NewCodecFromSecret cfg = Ok c ->
  let s := EncodeUint64WithKind c id knd in
  Z.of_nat (length s) = 1 + 11 + macLen c
  /\ at_byte s 0 = alpha_at c (Z.of_N (version c))
  /\ Forall (fun ch => In ch (firstn 62 (alphabet c))) s.
Proof.
  intros Hc s.
  destruct (NewCodecFromSecret_ok _ _ Hc) as (Hm & Hv & Hlen & _).
  subst s. unfold EncodeUint64WithKind. split; [|split].
  - now apply token_length.
  - reflexivity.
  - now apply (token_first62 cfg).
Qed.

Lemma token_shape_witness :
  Z.of_nat (length (EncodeUint64WithKind gx_codec 1234567890 (Some "U"%char))) = 18.
Proof.
  destruct (token_shape gx_cfg gx_codec 1234567890 (Some "U"%char)) as (A & _);
    [vm_compute; reflexivity|].
  exact A.
Defined.

(** ** Bodies that spell more than a 64-bit word *)
Section Wrap.

Lemma u64_step (a d : Z) : u64 (u64 a * 62 + d) = u64 (a * 62 + d).
Proof.
  unfold u64. rewrite Zplus_mod, Zmult_mod_idemp_l, <- Zplus_mod. reflexivity.
Qed.

Lemma fold_u64 (ds : list Z) (v : Z) :
  fold_left (fun a d => u64 (a * 62 + d)) ds (u64 v)
  = u64 (fold_left (fun a d => a * 62 + d) ds v).
Proof.
  revert v. induction ds as [|d ds IH]; intros v; simpl; [reflexivity|].
  rewrite u64_step. apply IH.
Qed.

Lemma fold_u64_zero (ds : list Z) :
  fold_left (fun a d => u64 (a * 62 + d)) ds 0 = u64 (digits_value ds).
Proof. apply (fold_u64 ds 0). Qed.

Lemma base62_loop_valid (c : Codec) (ds : list Z) (v : Z) :
  rev_inverts c -> Forall (fun d => 0 <= d < 62) ds ->
  base62_loop c (map (alpha_at c) ds) v
  = Ok (fold_left (fun a d => u64 (a * 62 + d)) ds v).
Proof.
  intros Hrev Hds. revert v.
  induction Hds as [|d ds Hd _ IH]; intros v; simpl; [reflexivity|].
  rewrite (Hrev _ Hd).
  destruct (Z.ltb_spec d 0); [lia|]. apply IH.
Qed.

Lemma digits_value_digits62 (n : nat) (u : Z) :
  digits_value (digits62 n u) = u mod 62 ^ Z.of_nat n.
Proof.
  unfold digits_value. revert u.
  induction n as [|n IH]; intros u.
  - simpl. now rewrite Z.mod_1_r.
  - cbn [digits62]. rewrite fold_left_app, IH. cbn [fold_left].
    assert (Hp : 0 < 62 ^ Z.of_nat n) by (apply Z.pow_pos_nonneg; lia).
    rewrite Nat2Z.inj_succ, Z.pow_succ_r by lia.
    rewrite Z.rem_mul_r by lia. lia.
Qed.

Lemma rev_of_alpha (c : Codec) (ds : list Z) :
  rev_inverts c -> Forall (fun d => 0 <= d < 62) ds ->
  map (rev_at c) (map (alpha_at c) ds) = ds.
Proof.
  intros Hrev Hds. induction Hds as [|d ds Hd _ IH]; simpl; [reflexivity|].
  now rewrite (Hrev _ Hd), IH.
Qed.

(** Decoding a framed token whose body is a list of eleven digits. *)
Lemma decode_framed (cfg : Config) (c : Codec) (ds : list Z) (knd : option ascii) :
  NewCodecFromSecret cfg = Ok c -> alphabet_distinct c = true ->
  length ds = 11%nat -> Forall (fun d => 0 <= d < 62) ds ->
  decodeInternal c
    ([alpha_at c (Z.of_N (version c))] ++ map (alpha_at c) ds
     ++ hmacPadding c (u64 (digits_value ds)) knd) true knd
  = Ok (inversePermutation c (u64 (digits_value ds))).
Proof.
  intros Hc Hd Hlen Hds.
  pose proof (constructed_rev_inverts _ _ Hc Hd) as Hrev.
  destruct (NewCodecFromSecret_ok _ _ Hc) as (Hm & Hv & _).
  assert (Hbody : length (map (alpha_at c) ds) = 11%nat) by now rewrite length_map.
  unfold decodeInternal.
  rewrite !length_app, Hbody, hmacPadding_length.
  replace (Z.of_nat (length [alpha_at c (Z.of_N (version c))] + (11 + Z.to_nat (macLen c))))
    with (1 + 11 + macLen c) by (simpl length; lia).
  rewrite Z.eqb_refl. cbn [negb].
  assert (Hver : rev_at c (at_byte ([alpha_at c (Z.of_N (version c))] ++ map (alpha_at c) ds
                   ++ hmacPadding c (u64 (digits_value ds)) knd) 0)
                 = int8 (Z.of_N (version c))).
  { cbn [app at_byte nth]. rewrite Hrev by lia. symmetry. apply int8_small. lia. }
  rewrite Hver, Z.eqb_refl. cbn [negb].
  rewrite <- Hbody at 1. rewrite body_of_framed.
  unfold base62DecodeFixed. rewrite Hbody. cbn [Nat.eqb negb].
  rewrite (base62_loop_valid c ds 0 Hrev Hds), fold_u64_zero.
  rewrite <- Hbody at 1. rewrite pad_of_framed.
  rewrite (proj2 (ConstantTimeCompare_eq _ _) eq_refl). reflexivity.
Qed.

End Wrap.

(** X3: [base62DecodeFixed] never reports an overflow. On a codec whose
    first 62 alphabet characters are distinct, a body of eleven valid
    characters always decodes, to the number its digits spell reduced
    modulo [2^64]; the digits can spell up to [62^11 - 1]. *)
Theorem base62DecodeFixed_wraps (cfg : Config) (c : Codec) (ds : list Z) :
  NewCodecFromSecret cfg = Ok c -> alphabet_distinct c = true ->
  length ds = 11%nat -> Forall (fun d => 0 <= d < 62) ds ->
  base62DecodeFixed c (map (alpha_at c) ds) = Ok (digits_value ds mod 2 ^ 64).
Proof.
  intros Hc Hd Hlen Hds.
  pose proof (constructed_rev_inverts _ _ Hc Hd) as Hrev.
  unfold base62DecodeFixed. rewrite length_map, Hlen. cbn [Nat.eqb negb].
  rewrite (base62_loop_valid c ds 0 Hrev Hds), fold_u64_zero. reflexivity.
Qed.

Lemma base62DecodeFixed_wraps_witness :
  base62DecodeFixed gx_codec (str "zzzzzzzzzzz") = Ok (digits_value (repeat 61 11) mod 2 ^ 64)
  /\ 2 ^ 64 <= digits_value (repeat 61 11).
Proof.
  split; [|vm_compute; discriminate].
  apply (base62DecodeFixed_wraps gx_cfg gx_codec (repeat 61 11)).
  - vm_compute. reflexivity.
  - vm_compute. reflexivity.
  - reflexivity.
  - repeat constructor; lia.
Defined.

(** X4: tokens are not unique. For every id a constructed codec accepts
    a second token, different from the one [EncodeUint64] returns, that
    decodes to the same id: its body spells the encrypted word plus
    [2^64], and the pad, computed from the decoded word, is the same. *)
Theorem second_token_is_accepted (cfg : Config) (c : Codec) (id : Z) :
  NewCodecFromSecret cfg = Ok c -> alphabet_distinct c = true ->
  0 <= id < 2 ^ 64 ->
  DecodeToUint64 c (alias_token c id) = Ok id
  /\ alias_token c id <> EncodeUint64 c id.
Proof.
  intros Hc Hd Hid.
  pose proof (constructed_rev_inverts _ _ Hc Hd) as Hrev.
  destruct (NewCodecFromSecret_ok _ _ Hc) as (_ & _ & _ & _ & Hk & _).
  pose proof (permutation_range c id) as Hp.
  assert (Hv : digits_value (digits62 11 (permutation c id + 2 ^ 64))
               = permutation c id + 2 ^ 64).
  { rewrite digits_value_digits62. apply Z.mod_small.
    change (Z.of_nat 11) with 11. lia. }
  assert (Hu : u64 (digits_value (digits62 11 (permutation c id + 2 ^ 64)))
               = permutation c id).
  { rewrite Hv. unfold u64. rewrite <- (Z.mul_1_l (2 ^ 64)) at 1.
    rewrite Z.mod_add by lia. now apply Z.mod_small. }
  split.
  - unfold DecodeToUint64, DecodeToUint64WithKind, alias_token. cbv zeta.
    rewrite <- Hu at 2.
    rewrite (decode_framed cfg c _ (kind c) Hc Hd (digits62_length _ _) (digits62_bound _ _)).
    rewrite Hu. f_equal. now apply inversePermutation_permutation.
  - unfold alias_token, EncodeUint64, EncodeUint64WithKind, token. cbv zeta.
    intros E. apply app_inv_head in E. apply app_inv_tail in E.
    unfold base62EncodeFixed in E. rewrite base62_fill_digits, app_nil_r in E.
    apply (f_equal (map (rev_at c))) in E.
    rewrite !rev_of_alpha in E by (assumption || apply digits62_bound).
    apply (f_equal digits_value) in E.
    rewrite Hv, digits_value_digits62 in E.
    rewrite Z.mod_small in E by (change (Z.of_nat 11) with 11; lia). lia.
Qed.

Lemma second_token_is_accepted_witness :
  DecodeToUint64 gx_codec (alias_token gx_codec 1234567890) = Ok 1234567890
  /\ alias_token gx_codec 1234567890 <> EncodeUint64 gx_codec 1234567890.
Proof.
  apply (second_token_is_accepted gx_cfg gx_codec 1234567890).
  - vm_compute. reflexivity.
  - vm_compute. reflexivity.
  - lia.
Defined.

(** X5: [Validate] accepts exactly the strings [DecodeToUint64]
    decodes, and rejects the others with the same error. *)
Theorem Validate_agrees_with_decode (c : Codec) (s : bytes) :
  (Validate c s = None <-> exists u, DecodeToUint64 c s = Ok u)
  /\ (forall e, Validate c s = Some e <-> DecodeToUint64 c s = Err e).
Proof.
  unfold Validate, DecodeToUint64, DecodeToUint64WithKind, decodeInternal.
  destruct (negb (Z.of_nat (length s) =? 1 + 11 + macLen c)).
  { split; [split; [discriminate|intros [u H]; discriminate]|].
    intros e. split; intros H; inversion H; reflexivity. }
  destruct (negb (rev_at c (at_byte s 0) =? int8 (Z.of_N (version c)))).
  { split; [split; [discriminate|intros [u H]; discriminate]|].
    intros e. split; intros H; inversion H; reflexivity. }
  destruct (base62DecodeFixed c (firstn 11 (skipn 1 s))) as [enc|e0].
  - destruct (negb (ConstantTimeCompare (skipn (1 + 11) s) (hmacPadding c enc (kind c)) =? 1)).
    + split; [split; [discriminate|intros [u H]; discriminate]|].
      intros e. split; intros H; inversion H; reflexivity.
    + cbn [negb]. split; [split; [eauto|reflexivity]|].
      intros e. split; discriminate.
  - split; [split; [discriminate|intros [u H]; discriminate]|].
    intros e. split; intros H; inversion H; reflexivity.
Qed.

(** X6: the kind is bound into the pad only. On a codec whose first 62
    alphabet characters are distinct, a token made for the kind [k]
    decodes under [k] to its id; under another kind [k'] it either
    decodes to the same id (when the two pads agree) or fails the MAC
    check: it never gives another id or another error. *)
Theorem decode_under_kind (cfg : Config) (c : Codec) (id : Z) (k k' : option ascii) :
  NewCodecFromSecret cfg = Ok c -> alphabet_distinct c = true ->
  0 <= id < 2 ^ 64 ->
  DecodeToUint64WithKind c (EncodeUint64WithKind c id k) k = Ok id
  /\ DecodeToUint64WithKind c (EncodeUint64WithKind c id k) k'
     = if list_eq_dec ascii_dec (hmacPadding c (permutation c id) k)
                      (hmacPadding c (permutation c id) k')
       then Ok id else Err ErrMACVerification.
Proof.
  intros Hc Hd Hid.
  destruct (NewCodecFromSecret_ok _ _ Hc) as (Hm & Hv & _ & _ & Hk & _).
  pose proof (constructed_rev_inverts _ _ Hc Hd) as Hrev.
  pose proof (permutation_range c id) as Hp.
  split.
  - unfold DecodeToUint64WithKind, EncodeUint64WithKind.
    rewrite (decode_token cfg) by assumption.
    f_equal. now apply inversePermutation_permutation.
  - unfold DecodeToUint64WithKind, EncodeUint64WithKind, decodeInternal.
    rewrite token_length by assumption. rewrite Z.eqb_refl. cbn [negb].
    assert (Hver : rev_at c (at_byte (token c (permutation c id) k) 0)
                   = int8 (Z.of_N (version c))).
    { unfold token. cbn [app at_byte nth].
      rewrite Hrev by lia. symmetry. apply int8_small. lia. }
    rewrite Hver, Z.eqb_refl. cbn [negb].
    rewrite token_body, base62_decode_encode by assumption.
    rewrite token_pad.
    destruct (list_eq_dec ascii_dec _ _) as [E|N].
    + rewrite (proj2 (ConstantTimeCompare_eq _ _) E). cbn [Z.eqb Pos.eqb negb].
      f_equal. now apply inversePermutation_permutation.
    + destruct (Z.eqb_spec (ConstantTimeCompare (hmacPadding c (permutation c id) k)
                              (hmacPadding c (permutation c id) k')) 1) as [E|_];
        [|reflexivity].
      apply ConstantTimeCompare_eq in E. contradiction.
Qed.

Lemma decode_under_kind_witness :
  DecodeToUint64WithKind gx_codec (EncodeUint64WithKind gx_codec 321 (Some "U"%char))
    (Some "U"%char) = Ok 321
  /\ DecodeToUint64WithKind gx_codec (EncodeUint64WithKind gx_codec 321 (Some "U"%char))
       (Some "P"%char) = Err ErrMACVerification.
Proof.
  destruct (decode_under_kind gx_cfg gx_codec 321 (Some "U"%char) (Some "P"%char))
    as [A B]; [vm_compute; reflexivity|vm_compute; reflexivity|lia|].
  split; [exact A|]. rewrite B. vm_compute. reflexivity.
Defined.

(** X7: a codec built by [NewCodec], which always takes the default
    alphabet, decodes every token it encodes: no condition on the
    alphabet is left. *)
Theorem NewCodec_roundtrip (masterKey : bytes) (ver : N) (mlen : Z) (c : Codec) (id : Z) :
  NewCodec masterKey ver mlen = Ok c ->
  0 <= id < 2 ^ 64 ->
  DecodeToUint64 c (EncodeUint64 c id) = Ok id
  /\ Validate c (EncodeUint64 c id) = None.
Proof.
  intros Hc Hid. unfold NewCodec in Hc.
  destruct (NewCodecFromSecret_ok _ _ Hc) as (_ & _ & _ & _ & Hk & _ & _ & Ha & Hkind).
  assert (Hd : alphabet_distinct c = true).
  { unfold alphabet_distinct. rewrite Ha. vm_compute. reflexivity. }
  assert (R : DecodeToUint64 c (EncodeUint64 c id) = Ok id).
  { unfold DecodeToUint64, DecodeToUint64WithKind, EncodeUint64, EncodeUint64WithKind.
    rewrite (decode_token _ c _ _ Hc Hd (permutation_range c id)).
    f_equal. now apply inversePermutation_permutation. }
  split; [exact R|].
  revert R. unfold Validate, DecodeToUint64, DecodeToUint64WithKind, decodeInternal.
  destruct (negb (Z.of_nat (length (EncodeUint64 c id)) =? 1 + 11 + macLen c));
    [discriminate|].
  destruct (negb (rev_at c (at_byte (EncodeUint64 c id) 0) =? int8 (Z.of_N (version c))));
    [discriminate|].
  destruct (base62DecodeFixed c (firstn 11 (skipn 1 (EncodeUint64 c id)))); [|discriminate].
  destruct (negb (ConstantTimeCompare _ _ =? 1)); [discriminate|reflexivity].
Qed.

Lemma NewCodec_roundtrip_witness :
  DecodeToUint64 gx_codec (EncodeUint64 gx_codec 31415) = Ok 31415
  /\ Validate gx_codec (EncodeUint64 gx_codec 31415) = None.
Proof.
  apply (NewCodec_roundtrip (Sha256.Sum256 (str "gx-secret")) 0 6 gx_codec 31415).
  - vm_compute. reflexivity.
  - lia.
Defined.

(** ** Key rotation *)
Section Rotation.
Import IdcodecMulti.

Lemma decode_old_sound (l : list Codec) (s : bytes) (u : Z) :
  decode_old l s = Ok u -> exists c, In c l /\ Idcodec.DecodeToUint64 c s = Ok u.
Proof.
  induction l as [|c l IH]; simpl; [discriminate|].
  destruct (Idcodec.DecodeToUint64 c s) as [u'|e] eqn:E.
  - intros H. inversion H. subst. exists c. split; [now left|assumption].
  - intros H. destruct (IH H) as (c' & Hin & Hc'). exists c'. split; [now right|assumption].
Qed.

Lemma decode_old_error (l : list Codec) (s : bytes) (e : error) :
  decode_old l s = Err e -> e = ErrMACVerification.
Proof.
  induction l as [|c l IH]; simpl; [intros H; now inversion H|].
  destruct (Idcodec.DecodeToUint64 c s); [discriminate|exact IH].
Qed.

Lemma decode_old_all_reject (l : list Codec) (s : bytes) :
  (forall c, In c l -> exists e, Idcodec.DecodeToUint64 c s = Err e) ->
  decode_old l s = Err ErrMACVerification.
Proof.
  induction l as [|c l IH]; simpl; intros H; [reflexivity|].
  destruct (H c (or_introl eq_refl)) as [e E]. rewrite E.
  apply IH. intros c' Hin. apply H. now right.
Qed.

Lemma alpha_at_shared (c c' : Codec) (d : Z) :
  firstn 62 (alphabet c') = firstn 62 (alphabet c) -> 0 <= d < 62 ->
  alpha_at c' d = alpha_at c d.
Proof.
  intros E Hd. unfold alpha_at, at_byte.
  assert (F : forall l, nth (Z.to_nat d) l zero_byte = nth (Z.to_nat d) (firstn 62 l) zero_byte).
  { intros l. rewrite nth_firstn.
    destruct (Nat.ltb_spec (Z.to_nat d) 62); [reflexivity|lia]. }
  rewrite (F (alphabet c')), (F (alphabet c)), E. reflexivity.
Qed.

(** A codec of another version rejects the token. *)
Lemma other_version_rejects (cfg cfg' : Config) (c c' : Codec) (id : Z) :
  NewCodecFromSecret cfg = Ok c -> NewCodecFromSecret cfg' = Ok c' ->
  alphabet_distinct c' = true ->
  firstn 62 (alphabet c') = firstn 62 (alphabet c) ->
  version c' <> version c ->
  exists e, Idcodec.DecodeToUint64 c' (Idcodec.EncodeUint64 c id) = Err e.
Proof.
  intros Hc Hc' Hd' Ha Hv.
  destruct (NewCodecFromSecret_ok _ _ Hc) as (_ & Hver & _).
  destruct (NewCodecFromSecret_ok _ _ Hc') as (_ & Hver' & _).
  pose proof (constructed_rev_inverts _ _ Hc' Hd') as Hrev.
  unfold Idcodec.DecodeToUint64, DecodeToUint64WithKind, decodeInternal.
  destruct (negb (Z.of_nat (length (Idcodec.EncodeUint64 c id)) =? 1 + 11 + macLen c'));
    [eauto|].
  assert (E : rev_at c' (at_byte (Idcodec.EncodeUint64 c id) 0) = Z.of_N (version c)).
  { unfold Idcodec.EncodeUint64, EncodeUint64WithKind, token. cbn [app at_byte nth].
    rewrite <- (alpha_at_shared c c') by (assumption || lia).
    apply Hrev. lia. }
  rewrite E, int8_small by lia.
  destruct (Z.eqb_spec (Z.of_N (version c)) (Z.of_N (version c'))) as [E'|_];
    [apply N2Z.inj in E'; congruence|].
  cbn [negb]. eauto.
Qed.

Lemma decode_old_generation (l : list Codec) (a : bytes) (c : Codec) (id : Z) :
  Forall (fun c' => (exists cfg, NewCodecFromSecret cfg = Ok c')
                    /\ alphabet_distinct c' = true
                    /\ firstn 62 (alphabet c') = a) l ->
  NoDup (map version l) -> In c l -> 0 <= id < 2 ^ 64 ->
  decode_old l (Idcodec.EncodeUint64 c id) = Ok id.
Proof.
  intros Hall Hnd Hin Hid.
  induction l as [|c' l IH]; [contradiction|].
  inversion Hall as [|? ? ((cfg' & Hc') & Hd' & Ha') Hall']; subst.
  inversion Hnd as [|? ? Hnotin Hnd']; subst.
  cbn [decode_old].
  destruct Hin as [->|Hin].
  - assert (R : Idcodec.DecodeToUint64 c (Idcodec.EncodeUint64 c id) = Ok id).
    { destruct (NewCodecFromSecret_ok _ _ Hc') as (_ & _ & _ & _ & Hk & _).
      unfold Idcodec.DecodeToUint64, DecodeToUint64WithKind,
        Idcodec.EncodeUint64, EncodeUint64WithKind.
      rewrite (decode_token _ c _ _ Hc' Hd' (permutation_range c id)).
      f_equal. now apply inversePermutation_permutation. }
    now rewrite R.
  - assert (Hc : (exists cfg, NewCodecFromSecret cfg = Ok c)
                 /\ alphabet_distinct c = true
                 /\ firstn 62 (alphabet c) = firstn 62 (alphabet c')).
    { rewrite Forall_forall in Hall'. destruct (Hall' c Hin) as (A & B & C).
      repeat split; [exact A|exact B|exact C]. }
    destruct Hc as ((cfg & Hc) & _ & Ha).
    assert (Hv : version c' <> version c).
    { intros E. apply Hnotin. rewrite E. now apply in_map. }
    destruct (other_version_rejects cfg cfg' c c' id Hc Hc' Hd' (eq_sym Ha) Hv) as [e E].
    rewrite E. now apply IH.
Qed.

(** The loop answers with the first codec that accepts. *)
Lemma decode_old_first (l : list Codec) (s : bytes) (u : Z) :
  decode_old l s = Ok u <->
  exists before c after,
    l = before ++ c :: after
    /\ (forall c', In c' before -> exists e, Idcodec.DecodeToUint64 c' s = Err e)
    /\ Idcodec.DecodeToUint64 c s = Ok u.
Proof.
  induction l as [|c l IH]; cbn [decode_old].
  - split; [discriminate|]. intros (b & c & a & E & _). now destruct b.
  - destruct (Idcodec.DecodeToUint64 c s) as [u'|e] eqn:E.
    + split.
      * intros H. exists [], c, l. split; [reflexivity|]. split; [intros c' []|].
        congruence.
      * intros (b & c1 & a & El & Hb & Hc). destruct b as [|c0 b].
        -- cbn in El. injection El as <- _. congruence.
        -- cbn in El. injection El as <- _.
           destruct (Hb c (or_introl eq_refl)) as [e E']. congruence.
    + rewrite IH. split.
      * intros (b & c1 & a & El & Hb & Hc). exists (c :: b), c1, a.
        split; [cbn; now rewrite El|]. split; [|assumption].
        intros c' [<-|Hin]; [eauto|now apply Hb].
      * intros (b & c1 & a & El & Hb & Hc). destruct b as [|c0 b].
        -- cbn in El. injection El as <- _. congruence.
        -- cbn in El. injection El as <- ->. exists b, c1, a.
           split; [reflexivity|]. split; [|assumption].
           intros c' Hin. apply Hb. now right.
Qed.

End Rotation.

(** X8: [MultiCodec.DecodeToUint64] returns the value of the first
    codec, the current one before the old ones in their order, that
    accepts the string: it answers [u] exactly when some codec of the
    list accepts the string with [u] and every codec before it rejects
    it. When none accepts, and only then, the error is
    [ErrMACVerification] whatever the codecs reported (a wrong length
    or an invalid character included). *)
Theorem MultiCodec_masks_errors (m : IdcodecMulti.MultiCodec) (s : bytes) :
  (forall e, IdcodecMulti.DecodeToUint64 m s = Err e -> e = ErrMACVerification)
  /\ (forall u, IdcodecMulti.DecodeToUint64 m s = Ok u <->
        exists before c after,
          IdcodecMulti.Cur m :: IdcodecMulti.Old m = before ++ c :: after
          /\ (forall c', In c' before -> exists e, DecodeToUint64 c' s = Err e)
          /\ DecodeToUint64 c s = Ok u)
  /\ (IdcodecMulti.DecodeToUint64 m s = Err ErrMACVerification <->
      forall c, In c (IdcodecMulti.Cur m :: IdcodecMulti.Old m) ->
                exists e, DecodeToUint64 c s = Err e)
  /\ (forall u, DecodeToUint64 (IdcodecMulti.Cur m) s = Ok u ->
        IdcodecMulti.DecodeToUint64 m s = Ok u).
Proof.
  change (IdcodecMulti.DecodeToUint64 m s)
    with (IdcodecMulti.decode_old (IdcodecMulti.Cur m :: IdcodecMulti.Old m) s).
  split; [|split; [|split]].
  - apply decode_old_error.
  - intros u. apply decode_old_first.
  - split; [|apply decode_old_all_reject].
    intros E c Hin.
    destruct (DecodeToUint64 c s) as [u|e] eqn:Ec; [|eauto].
    apply in_split in Hin. destruct Hin as (l1 & l2 & El).
    exfalso. revert E. rewrite El. clear El.
    induction l1 as [|c1 l1 IH]; cbn [app IdcodecMulti.decode_old].
    + rewrite Ec. discriminate.
    + destruct (DecodeToUint64 c1 s); [discriminate|exact IH].
  - intros u E. cbn [IdcodecMulti.decode_old]. now rewrite E.
Qed.

(** X9: key rotation with a version bump. When the codecs of a
    [MultiCodec] are constructed, share the first 62 characters of an
    alphabet without repetition and have pairwise different versions,
    the tokens of every one of them, current or old, decode to their
    id. *)
Theorem MultiCodec_decodes_every_generation
    (m : IdcodecMulti.MultiCodec) (c : Codec) (id : Z) :
  Forall (fun c' => (exists cfg, NewCodecFromSecret cfg = Ok c')
                    /\ alphabet_distinct c' = true
                    /\ firstn 62 (alphabet c')
                       = firstn 62 (alphabet (IdcodecMulti.Cur m)))
         (IdcodecMulti.Cur m :: IdcodecMulti.Old m) ->
  NoDup (map version (IdcodecMulti.Cur m :: IdcodecMulti.Old m)) ->
  In c (IdcodecMulti.Cur m :: IdcodecMulti.Old m) ->
  0 <= id < 2 ^ 64 ->
  IdcodecMulti.DecodeToUint64 m (EncodeUint64 c id) = Ok id.
Proof.
  intros Hall Hnd Hin Hid.
  change (IdcodecMulti.DecodeToUint64 m (EncodeUint64 c id))
    with (IdcodecMulti.decode_old (IdcodecMulti.Cur m :: IdcodecMulti.Old m)
            (EncodeUint64 c id)).
  now apply (decode_old_generation _ (firstn 62 (alphabet (IdcodecMulti.Cur m)))).
Qed.

Lemma MultiCodec_decodes_every_generation_witness :
  IdcodecMulti.DecodeToUint64 rotated (EncodeUint64 gx_codec 2024) = Ok 2024.
Proof.
  apply (MultiCodec_decodes_every_generation rotated gx_codec 2024).
  - repeat constructor.
    + exists cur_cfg. vm_compute. reflexivity.
    + exists gx_cfg. vm_compute. reflexivity.
  - repeat constructor; simpl; intuition discriminate.
  - right. left. reflexivity.
  - lia.
Defined.

(** ** The pad beyond the bits of the MAC *)
Section PadExhausted.

Lemma rounds_length (ks win st : list Z) :
  length st = 8%nat -> length (Sha256.rounds ks win st) = 8%nat.
Proof.
  revert win st. induction ks as [|k ks IH]; intros win st H.
  - destruct st; assumption.
  - do 9 (destruct st as [|? st]; try discriminate H).
    cbn [Sha256.rounds]. apply IH. reflexivity.
Qed.

Lemma add_state_length (s t : list Z) :
  length s = length t -> length (Sha256.add_state s t) = length s.
Proof.
  revert t. induction s as [|x s IH]; intros [|y t] H; simpl in *;
    try reflexivity; try discriminate.
  f_equal. apply IH. lia.
Qed.

Lemma blocks_length (n : nat) (st : list Z) (bs : bytes) :
  length st = 8%nat -> length (Sha256.blocks n st bs) = 8%nat.
Proof.
  revert st bs. induction n as [|n IH]; intros st bs H; simpl; [assumption|].
  apply IH. unfold Sha256.compress.
  rewrite add_state_length; [assumption|].
  now rewrite rounds_length.
Qed.

Lemma be_bytes_length (n : nat) (x : Z) : length (Sha256.be_bytes n x) = n.
Proof. induction n as [|n IH]; simpl; [reflexivity|now rewrite IH]. Qed.

Lemma flat_map_be_bytes_length (ws : list Z) :
  length (flat_map (Sha256.be_bytes 4) ws) = (4 * length ws)%nat.
Proof.
  induction ws as [|w ws IH]; [reflexivity|].
  cbn [flat_map]. rewrite length_app, be_bytes_length, IH. simpl length. lia.
Qed.

Lemma Sum256_length (msg : bytes) : length (Sha256.Sum256 msg) = 32%nat.
Proof.
  unfold Sha256.Sum256. rewrite flat_map_be_bytes_length, blocks_length; reflexivity.
Qed.

Lemma HMAC_length (key msg : bytes) : length (Sha256.HMAC key msg) = 32%nat.
Proof. unfold Sha256.HMAC. apply Sum256_length. Qed.

(** With no bit left and no byte to read every character is
    [alphabet[0]]. *)
Lemma pad_loop_dry (c : Codec) (n : nat) (bitbuf : Z) :
  pad_loop c n bitbuf 0 [] = repeat (alpha_at c 0) n.
Proof.
  revert bitbuf. induction n as [|n IH]; intros bitbuf; [reflexivity|].
  cbn [pad_loop pad_refill]. change (0 <? 6) with true. cbv iota beta.
  change (0 <? 6) with true. cbv iota beta.
  change (6 - 0) with 6. change (6 - 6) with 0. rewrite Z.shiftr_0_r.
  assert (E : Z.land (u64 (Z.shiftl bitbuf 6)) 63 = 0).
  { change 63 with (Z.ones 6). rewrite Z.land_ones by lia.
    unfold u64. rewrite Z.shiftl_mul_pow2 by lia.
    change (2 ^ 64) with (2 ^ 6 * 2 ^ 58).
    rewrite Z.rem_mul_r by lia.
    rewrite Z.mod_mul by lia.
    rewrite Z.add_0_l, Z.mul_comm, Z.mod_mul by lia. reflexivity. }
  rewrite E. cbn [Z.leb Z.compare]. cbv iota. cbn [repeat]. f_equal. apply IH.
Qed.

Lemma pad_refill_cases (bitbuf bitsIn : Z) (rest : bytes) :
  0 <= bitsIn < 8 ->
  exists b' i' r',
    pad_refill bitbuf bitsIn rest = (b', i', r')
    /\ ((6 <= i' < 14 /\ i' + 8 * Z.of_nat (length r') = bitsIn + 8 * Z.of_nat (length rest))
        \/ (i' = bitsIn /\ bitsIn < 6 /\ r' = [] /\ rest = [])).
Proof.
  intros Hb. destruct rest as [|b rest]; cbn [pad_refill].
  - destruct (Z.ltb_spec bitsIn 6).
    + exists bitbuf, bitsIn, []. split; [reflexivity|right; repeat split; assumption].
    + exists bitbuf, bitsIn, []. split; [reflexivity|left; simpl; lia].
  - destruct (Z.ltb_spec bitsIn 6).
    + destruct rest as [|b2 rest]; cbn [pad_refill];
        (destruct (Z.ltb_spec (bitsIn + 8) 6); [lia|]);
        eexists _, _, _; (split; [reflexivity|left; cbn [length]; lia]).
    + exists bitbuf, bitsIn, (b :: rest). split; [reflexivity|left; lia].
Qed.

(** Once [k] characters have used up the bits there are, the rest of
    the pad is constant. *)
Lemma pad_loop_runs_dry (c : Codec) (k n : nat) (bitbuf bitsIn : Z) (rest : bytes) :
  0 <= bitsIn < 8 ->
  bitsIn + 8 * Z.of_nat (length rest) <= 6 * Z.of_nat k ->
  skipn k (pad_loop c (k + n) bitbuf bitsIn rest) = repeat (alpha_at c 0) n.
Proof.
  revert bitbuf bitsIn rest. induction k as [|k IH]; intros bitbuf bitsIn rest Hb Ha.
  - assert (bitsIn = 0) by lia. assert (rest = []) by (destruct rest; [reflexivity|simpl in Ha; lia]).
    subst. apply pad_loop_dry.
  - cbn [Nat.add pad_loop].
    destruct (pad_refill_cases bitbuf bitsIn rest Hb) as (b' & i' & r' & E & [[Hi Hs]|(-> & Hlt & -> & ->)]);
      rewrite E.
    + destruct (Z.ltb_spec i' 6); [lia|]. cbn [skipn]. apply IH; lia.
    + destruct (Z.ltb_spec bitsIn 6); [|lia]. cbn [skipn].
      change (6 - 6) with 0. apply IH; cbn [length]; lia.
Qed.

End PadExhausted.

(** X10: the pad has no more than 43 characters of the MAC in it. The
    32 bytes of the HMAC give 42 characters of 6 bits and a 43rd of the
    4 bits left; every character after them is [alphabet[0]], so a
    [MacLen] above 43 makes the token longer and the check no
    stronger. *)
Theorem pad_is_constant_after_43 (c : Codec) (enc : Z) (knd : option ascii) :
  skipn 43 (hmacPadding c enc knd)
  = repeat (alpha_at c 0) (Z.to_nat (macLen c) - 43).
Proof.
  unfold hmacPadding.
  destruct (Nat.le_gt_cases 43 (Z.to_nat (macLen c))) as [H|H].
  - replace (Z.to_nat (macLen c)) with (43 + (Z.to_nat (macLen c) - 43))%nat at 1 by lia.
    apply pad_loop_runs_dry; [lia|]. rewrite HMAC_length. lia.
  - replace (Z.to_nat (macLen c) - 43)%nat with 0%nat by lia.
    apply skipn_all2. rewrite pad_loop_length. lia.
Qed.

(** ** The SQL adapter *)
Section Sql.
Import GxAdapters.

Lemma byte_val_of (z : Z) : 0 <= z < 256 -> byte_val (byte_of z) = z.
Proof.
  intros H. unfold byte_val, byte_of. rewrite Z.mod_small by assumption.
  rewrite N_ascii_embedding by lia. lia.
Qed.

Lemma int64_range (u : Z) : - 2 ^ 63 <= int64 u < 2 ^ 63.
Proof.
  unfold int64. pose proof (Z.mod_pos_bound (u + 2 ^ 63) (2 ^ 64) ltac:(lia)). lia.
Qed.

Lemma u64_int64 (u : Z) : 0 <= u < 2 ^ 64 -> u64 (int64 u) = u.
Proof.
  intros H. unfold u64, int64.
  rewrite Zminus_mod_idemp_l.
  replace (u + 2 ^ 63 - 2 ^ 63) with u by lia. now apply Z.mod_small.
Qed.

Lemma int64_sign (u : Z) : 0 <= u < 2 ^ 64 -> (int64 u < 0 <-> 2 ^ 63 <= u).
Proof.
  intros H. unfold int64.
  destruct (Z_lt_le_dec u (2 ^ 63)) as [L|L].
  - rewrite Z.mod_small by lia. lia.
  - replace (u + 2 ^ 63) with (u - 2 ^ 63 + 1 * 2 ^ 64) by lia.
    rewrite Z.mod_add by lia. rewrite Z.mod_small by lia. lia.
Qed.

Lemma parse_digits_app (a b : bytes) (n : Z) :
  parse_digits (a ++ b) n =
  match parse_digits a n with
  | inr m => parse_digits b m
  | inl e => inl e
  end.
Proof.
  revert n. induction a as [|ch a IH]; intros n; [reflexivity|].
  cbn [parse_digits app].
  destruct ((48 <=? byte_val ch) && (byte_val ch <=? 57)); [|reflexivity].
  destruct (maxUint64 / 10 + 1 <=? n); [reflexivity|].
  destruct ((u64 (n * 10 + (byte_val ch - 48)) <? n * 10)
            || (maxUint64 <? u64 (n * 10 + (byte_val ch - 48)))); [reflexivity|].
  apply IH.
Qed.

Lemma parse_decimal (n : nat) (u : Z) :
  0 <= u < 2 ^ 64 -> u < 10 ^ Z.of_nat n ->
  parse_digits (decimal n u) 0 = inr u.
Proof.
  revert u. induction n as [|n IH]; intros u Hu Hn.
  - simpl in Hn. simpl. f_equal. lia.
  - cbn [decimal]. rewrite parse_digits_app.
    assert (Hq : 0 <= u / 10 < 2 ^ 64).
    { split; [apply Z.div_pos; lia|apply Z.div_lt_upper_bound; lia]. }
    assert (Hq' : u / 10 < 10 ^ Z.of_nat n).
    { apply Z.div_lt_upper_bound; [lia|].
      rewrite Nat2Z.inj_succ, Z.pow_succ_r in Hn by lia. lia. }
    rewrite (IH _ Hq Hq').
    assert (Hd : 0 <= u mod 10 < 10) by (apply Z.mod_pos_bound; lia).
    cbn [parse_digits]. rewrite byte_val_of by lia.
    destruct (Z.leb_spec 48 (48 + u mod 10)); [|lia].
    destruct (Z.leb_spec (48 + u mod 10) 57); [|lia].
    cbn [andb].
    assert (Hcut : u / 10 < maxUint64 / 10 + 1).
    { unfold maxUint64. change ((2 ^ 64 - 1) / 10 + 1) with 1844674407370955162.
      apply Z.div_lt_upper_bound; lia. }
    destruct (Z.leb_spec (maxUint64 / 10 + 1) (u / 10)); [lia|].
    replace (u / 10 * 10 + (48 + u mod 10 - 48)) with u
      by (pose proof (Z.div_mod u 10 ltac:(lia)); lia).
    rewrite u64_small by assumption.
    destruct (Z.ltb_spec u (u / 10 * 10));
      [pose proof (Z.div_mod u 10 ltac:(lia)); lia|].
    destruct (Z.ltb_spec maxUint64 u); [unfold maxUint64 in *; lia|].
    reflexivity.
Qed.

Lemma decimal_not_empty (n : nat) (u : Z) : (0 < n)%nat -> decimal n u <> [].
Proof.
  destruct n as [|n]; [lia|]. intros _. cbn [decimal].
  intros E. apply app_eq_nil in E. destruct E as [_ E]. discriminate.
Qed.

Lemma ParseUint_decimal (n : nat) (u : Z) :
  (0 < n)%nat -> 0 <= u < 2 ^ 64 -> u < 10 ^ Z.of_nat n ->
  ParseUint (decimal n u) = inr u.
Proof.
  intros Hn Hu Hlt. unfold ParseUint.
  pose proof (decimal_not_empty n u Hn) as Hne.
  destruct (decimal n u) eqn:E; [contradiction|].
  rewrite <- E. now apply parse_decimal.
Qed.

End Sql.

(** X11: an [ID] written with [Value] and read back with [Scan] is the
    same for every [uint64]. [Value] hands the driver an [int64], which
    is negative for an id of [2^63] or more, and [Scan] undoes the
    conversion. *)
Theorem Scan_Value_roundtrip (i j : Z) :
  0 <= i < 2 ^ 64 ->
  GxAdapters.Scan j (GxAdapters.Value i) = (None, i)
  /\ exists v, GxAdapters.Value i = GxAdapters.SrcInt64 v
               /\ - 2 ^ 63 <= v < 2 ^ 63 /\ (v < 0 <-> 2 ^ 63 <= i).
Proof.
  intros Hi. split.
  - unfold GxAdapters.Value, GxAdapters.Scan. now rewrite u64_int64.
  - exists (GxAdapters.int64 i). split; [reflexivity|].
    split; [apply int64_range|now apply int64_sign].
Qed.

Lemma Scan_Value_roundtrip_witness :
  GxAdapters.Scan 0 (GxAdapters.Value 18446744073709551615) = (None, 18446744073709551615)
  /\ GxAdapters.Value 18446744073709551615 = GxAdapters.SrcInt64 (-1).
Proof.
  destruct (Scan_Value_roundtrip 18446744073709551615 0) as [A _]; [lia|].
  split; [exact A|reflexivity].
Defined.

(** X12: [Scan] reads a column that arrives as text. The decimal digits
    of any [uint64], with or without leading zeros, as a [[]byte] or a
    [string], scan to that number; a sign in front is a syntax error, so
    the text of a negative [int64] that [Value] produced does not scan
    and leaves the [ID] as it was. *)
Theorem Scan_decimal_text (n : nat) (u j : Z) (s : bytes) :
  (0 < n)%nat -> 0 <= u < 2 ^ 64 -> u < 10 ^ Z.of_nat n ->
  GxAdapters.Scan j (GxAdapters.SrcBytes (decimal n u)) = (None, u)
  /\ GxAdapters.Scan j (GxAdapters.SrcString (decimal n u)) = (None, u)
  /\ GxAdapters.Scan j (GxAdapters.SrcBytes ("-"%char :: s))
     = (Some (GxAdapters.ErrScanBytes GxAdapters.ErrSyntax), j)
  /\ GxAdapters.Scan j (GxAdapters.SrcString ("-"%char :: s))
     = (Some (GxAdapters.ErrScanString GxAdapters.ErrSyntax), j).
Proof.
  intros Hn Hu Hlt. unfold GxAdapters.Scan.
  rewrite (ParseUint_decimal n u Hn Hu Hlt). repeat split.
Qed.

Lemma Scan_decimal_text_witness :
  GxAdapters.Scan 0 (GxAdapters.SrcBytes (str "00456")) = (None, 456).
Proof.
  destruct (Scan_decimal_text 5 456 0 []) as [A _]; [lia|lia|simpl; lia|].
  exact A.
Defined.

(** X13: [NullID]. Scanning what [Value] wrote gives the value back,
    with the [ID] of an invalid one reset to zero. A source other than
    nil sets [Valid] before it is read: when the read fails, [Scan]
    returns the error and leaves a valid [NullID] with the old [ID]. *)
Theorem NullID_Scan_Value (n m : GxAdapters.NullID) (s : GxAdapters.src) :
  0 <= GxAdapters.ID m < 2 ^ 64 ->
  GxAdapters.NullID_Scan n (GxAdapters.NullID_Value m)
  = (None, if GxAdapters.Valid m then m else GxAdapters.mkNullID 0 false)
  /\ (s <> GxAdapters.SrcNil ->
      GxAdapters.Valid (snd (GxAdapters.NullID_Scan n s)) = true
      /\ (fst (GxAdapters.NullID_Scan n s) <> None ->
          GxAdapters.ID (snd (GxAdapters.NullID_Scan n s)) = GxAdapters.ID n)).
Proof.
  intros Hm. split.
  - destruct m as [i [|]]; cbn in *; [|reflexivity].
    now rewrite u64_int64.
  - intros Hs. destruct s as [v|b|b|v| |]; try contradiction; cbn.
    + split; [reflexivity|intros H; now contradiction H].
    + destruct (GxAdapters.ParseUint b); cbn; split; try reflexivity;
        intros H; now contradiction H.
    + destruct (GxAdapters.ParseUint b); cbn; split; try reflexivity;
        intros H; now contradiction H.
    + split; [reflexivity|intros H; now contradiction H].
    + split; [reflexivity|reflexivity].
Qed.

Lemma NullID_Scan_Value_witness :
  GxAdapters.NullID_Scan (GxAdapters.mkNullID 9 true)
    (GxAdapters.NullID_Value (GxAdapters.mkNullID 1234 false))
  = (None, GxAdapters.mkNullID 0 false).
Proof.
  destruct (NullID_Scan_Value (GxAdapters.mkNullID 9 true) (GxAdapters.mkNullID 1234 false)
              GxAdapters.SrcOther) as [A _]; [simpl; lia|].
  exact A.
Defined.

(** ** The JSON and text adapters *)
Section Text.
Import GxAdapters.

Lemma plain_ascii (b : ascii) : plain b = true -> byte_val b < 128 /\ ascii_space b = false.
Proof.
  unfold plain. intros H. apply andb_prop in H. destruct H as [H1 H2].
  split; [now apply Z.ltb_lt|now apply negb_true_iff].
Qed.

(** No pattern of [patterns], all of which start with a byte of the
    upper half, is at the head of a string that starts with a plain
    byte. *)
Lemma find_wide_none (patterns : list (list Z)) (b : ascii) (s : bytes) :
  forallb (fun p => match p with x :: _ => 128 <=? x | [] => false end) patterns = true ->
  byte_val b < 128 ->
  find (fun p => has_prefix p (b :: s)) patterns = None.
Proof.
  intros Hp Hb. induction patterns as [|p ps IH]; [reflexivity|].
  cbn [forallb] in Hp. apply andb_prop in Hp. destruct Hp as [Hx Hps].
  cbn [find]. destruct p as [|x p]; [discriminate|].
  cbn [has_prefix]. apply Z.leb_le in Hx.
  destruct (Z.eqb_spec (byte_val b) x); [lia|]. cbn [andb]. now apply IH.
Qed.

Lemma trim_left_spaces (patterns : list (list Z)) (fuel : nat) (pre t : bytes) :
  forallb (fun p => match p with x :: _ => 128 <=? x | [] => false end) patterns = true ->
  forallb ascii_space pre = true ->
  (length pre <= fuel)%nat ->
  match t with [] => True | b :: _ => plain b = true end ->
  trim_left patterns fuel (pre ++ t) = t.
Proof.
  intros Hp Hpre. revert fuel. induction pre as [|a pre IH]; intros fuel Hfuel Ht.
  - cbn [app]. destruct fuel as [|fuel]; [now destruct t|].
    destruct t as [|b t]; [reflexivity|].
    destruct (plain_ascii b Ht) as [Hb Hs].
    cbn [trim_left]. rewrite Hs, find_wide_none by assumption. reflexivity.
  - cbn [forallb] in Hpre. apply andb_prop in Hpre. destruct Hpre as [Ha Hpre].
    destruct fuel as [|fuel]; [simpl in Hfuel; lia|].
    cbn [app trim_left]. rewrite Ha. apply IH; [assumption|simpl in Hfuel; lia|assumption].
Qed.

Lemma wide_spaces_upper :
  forallb (fun p => match p with x :: _ => 128 <=? x | [] => false end) wide_spaces = true
  /\ forallb (fun p => match p with x :: _ => 128 <=? x | [] => false end)
       (map (@List.rev Z) wide_spaces) = true.
Proof. split; vm_compute; reflexivity. Qed.

(** White space of ASCII around a string of plain bytes is trimmed, and
    nothing else. *)
Lemma TrimSpace_padded (pre t post : bytes) :
  forallb ascii_space pre = true -> forallb ascii_space post = true ->
  forallb plain t = true ->
  TrimSpace (pre ++ t ++ post) = t.
Proof.
  intros Hpre Hpost Ht. unfold TrimSpace.
  destruct wide_spaces_upper as [W1 W2].
  destruct t as [|b t].
  - cbn [app].
    assert (Hpp : forallb ascii_space (pre ++ post) = true)
      by (rewrite forallb_app, Hpre, Hpost; reflexivity).
    pose proof (trim_left_spaces wide_spaces (length (pre ++ post)) (pre ++ post) []
                  W1 Hpp (le_n _) I) as E.
    rewrite app_nil_r in E. rewrite E. reflexivity.
  - assert (H1 : trim_left wide_spaces (length (pre ++ (b :: t) ++ post))
                   (pre ++ (b :: t) ++ post) = (b :: t) ++ post).
    { apply trim_left_spaces; [assumption|assumption|rewrite length_app; lia|].
      cbn [app]. cbn [forallb] in Ht. now apply andb_prop in Ht. }
    rewrite H1.
    assert (H2 : List.rev ((b :: t) ++ post) = List.rev post ++ List.rev (b :: t))
      by apply rev_app_distr.
    rewrite H2.
    rewrite (trim_left_spaces (map (@List.rev Z) wide_spaces)).
    + apply rev_involutive.
    + assumption.
    + rewrite forallb_forall in *. intros x Hx. apply Hpost. now apply in_rev.
    + rewrite length_rev, length_app. lia.
    + destruct (List.rev (b :: t)) as [|z r] eqn:E; [exact I|].
      rewrite forallb_forall in Ht. apply Ht. apply in_rev. rewrite E. now left.
Qed.

Lemma coerce_utf8_ascii (fuel : nat) (s : bytes) :
  (length s <= fuel)%nat -> Forall (fun b => byte_val b < 128) s ->
  coerce_utf8 fuel s = s.
Proof.
  intros Hf Hs. revert fuel Hf.
  induction Hs as [|b s Hb _ IH]; intros fuel Hf.
  - now destruct fuel.
  - destruct fuel as [|fuel]; [simpl in Hf; lia|].
    cbn [coerce_utf8]. destruct (Z.ltb_spec (byte_val b) 128); [|lia].
    f_equal. apply IH. simpl in Hf. lia.
Qed.

(** The tokens of a codec with a plain alphabet are plain. *)
Lemma token_plain (cfg : Config) (c : Codec) (id : Z) :
  NewCodecFromSecret cfg = Ok c -> alphabet_plain c = true ->
  forallb plain (EncodeUint64 c id) = true.
Proof.
  intros Hc Hp. apply forallb_forall. intros b Hb.
  pose proof (token_first62 cfg c (permutation c id) (kind c) Hc) as F.
  rewrite Forall_forall in F.
  unfold alphabet_plain in Hp. rewrite forallb_forall in Hp.
  apply Hp, F, Hb.
Qed.

Lemma token_not_empty (c : Codec) (id : Z) : EncodeUint64 c id <> [].
Proof. unfold EncodeUint64, EncodeUint64WithKind, token. discriminate. Qed.

Lemma own_token_decodes (cfg : Config) (c : Codec) (id : Z) :
  NewCodecFromSecret cfg = Ok c -> alphabet_distinct c = true -> 0 <= id < 2 ^ 64 ->
  DecodeToUint64 c (EncodeUint64 c id) = Ok id.
Proof.
  intros Hc Hd Hid.
  destruct (NewCodecFromSecret_ok _ _ Hc) as (_ & _ & _ & _ & Hk & _).
  unfold DecodeToUint64, DecodeToUint64WithKind, EncodeUint64, EncodeUint64WithKind.
  rewrite (decode_token _ c _ _ Hc Hd (permutation_range c id)).
  f_equal. now apply inversePermutation_permutation.
Qed.

End Text.

(** X14: the JSON round trip. With the default codec set to a
    constructed codec whose first 62 alphabet characters are distinct,
    of 7 bits and no white space, [MarshalJSON] writes the token as a
    JSON string and [UnmarshalJSON] reads the id back from it, also when
    ASCII white space surrounds the token inside the string. *)
Theorem JSON_roundtrip (cfg : Config) (c : Codec) (id j : Z) (pre post : bytes) :
  NewCodecFromSecret cfg = Ok c ->
  alphabet_distinct c = true -> alphabet_plain c = true ->
  0 <= id < 2 ^ 64 ->
  forallb ascii_space pre = true -> forallb ascii_space post = true ->
  GxAdapters.MarshalJSON (Some c) id = inr (JString (EncodeUint64 c id))
  /\ UnmarshalJSON (Some c) j (JString (EncodeUint64 c id)) = (None, id)
  /\ UnmarshalJSON (Some c) j (JString (pre ++ EncodeUint64 c id ++ post)) = (None, id).
Proof.
  intros Hc Hd Hp Hid Hpre Hpost.
  pose proof (token_plain cfg c id Hc Hp) as Ht.
  pose proof (own_token_decodes cfg c id Hc Hd Hid) as Hdec.
  assert (U : forall a b, forallb ascii_space a = true -> forallb ascii_space b = true ->
              UnmarshalJSON (Some c) j (JString (a ++ EncodeUint64 c id ++ b)) = (None, id)).
  { intros a b Ha Hb. unfold UnmarshalJSON. cbn [unmarshal_string].
    rewrite (TrimSpace_padded a _ b Ha Hb Ht).
    destruct (EncodeUint64 c id) eqn:E; [now apply token_not_empty in E|].
    cbn [getCodec]. now rewrite Hdec. }
  split; [|split].
  - unfold GxAdapters.MarshalJSON, GxAdapters.json_Marshal_string. cbn [getCodec].
    rewrite coerce_utf8_ascii; [reflexivity|lia|].
    rewrite forallb_forall in Ht. apply Forall_forall. intros b Hb.
    now apply plain_ascii, Ht.
  - specialize (U [] [] eq_refl eq_refl). cbn [app] in U. now rewrite app_nil_r in U.
  - now apply U.
Qed.

Lemma JSON_roundtrip_witness :
  UnmarshalJSON (Some gx_codec) 0
    (JString (str " " ++ EncodeUint64 gx_codec 1234567890 ++ str " ")) = (None, 1234567890).
Proof.
  destruct (JSON_roundtrip gx_cfg gx_codec 1234567890 0 (str " ") (str " ")) as (_ & _ & A).
  - vm_compute. reflexivity.
  - vm_compute. reflexivity.
  - vm_compute. reflexivity.
  - lia.
  - reflexivity.
  - reflexivity.
  - exact A.
Defined.

(** X15: the text round trip. Under the same conditions on the default
    codec [UnmarshalText] reads back what [MarshalText] wrote and
    [ParseIDString] what [String] printed, also with ASCII white space
    around it. *)
Theorem Text_roundtrip (cfg : Config) (c : Codec) (id j : Z) (pre post : bytes) :
  NewCodecFromSecret cfg = Ok c ->
  alphabet_distinct c = true -> alphabet_plain c = true ->
  0 <= id < 2 ^ 64 ->
  forallb ascii_space pre = true -> forallb ascii_space post = true ->
  GxAdapters.MarshalText (Some c) id = inr (EncodeUint64 c id)
  /\ GxAdapters.UnmarshalText (Some c) j (pre ++ EncodeUint64 c id ++ post) = (None, id)
  /\ GxAdapters.ParseIDString (Some c) (pre ++ GxAdapters.String_ (Some c) id ++ post)
     = inr id.
Proof.
  intros Hc Hd Hp Hid Hpre Hpost.
  pose proof (token_plain cfg c id Hc Hp) as Ht.
  pose proof (own_token_decodes cfg c id Hc Hd Hid) as Hdec.
  split; [reflexivity|split].
  - unfold GxAdapters.UnmarshalText. cbn [getCodec].
    rewrite (TrimSpace_padded pre _ post Hpre Hpost Ht). now rewrite Hdec.
  - unfold GxAdapters.ParseIDString, GxAdapters.String_. cbn [getCodec].
    rewrite (TrimSpace_padded pre _ post Hpre Hpost Ht). now rewrite Hdec.
Qed.

Lemma Text_roundtrip_witness :
  GxAdapters.ParseIDString (Some gx_codec)
    (str " " ++ GxAdapters.String_ (Some gx_codec) 31415 ++ []) = inr 31415.
Proof.
  destruct (Text_roundtrip gx_cfg gx_codec 31415 0 (str " ") []) as (_ & _ & A).
  - vm_compute. reflexivity.
  - vm_compute. reflexivity.
  - vm_compute. reflexivity.
  - lia.
  - reflexivity.
  - reflexivity.
  - exact A.
Defined.

(** ** The reservoir of a throttler *)
Section Reservoir.
Import Flow.Throttler.

Lemma tstep_reservoir (t t' : throttler) (evs : list tevent) :
  tstep t evs t' ->
  capacity t' = capacity t
  /\ ((tokens t <= capacity t)%nat -> (tokens t' <= capacity t')%nat)
  /\ (refilling t = false -> refilling t' = false /\ (tokens t' <= tokens t)%nat).
Proof.
  intros H.
  destruct H as [t Hi|t Hi|t Hi|t|ctx_done t r t' Hin|t Hr|t Hr Hs|t Hr].
  - repeat split; cbn; try tauto; lia.
  - repeat split; cbn; try tauto; lia.
  - repeat split; try tauto; lia.
  - unfold TryAcquire. destruct (tokens t) as [|n] eqn:E; cbn; rewrite ?E;
      repeat split; try tauto; try lia.
  - unfold Acquire in Hin.
    apply in_app_or in Hin. destruct Hin as [Hin|Hin].
    { destruct ctx_done; [|contradiction]. destruct Hin as [Hin|[]].
      inversion Hin; subst. repeat split; try tauto; lia. }
    apply in_app_or in Hin. destruct Hin as [Hin|Hin].
    { destruct (stop_closed t); [|contradiction]. destruct Hin as [Hin|[]].
      inversion Hin; subst. repeat split; try tauto; lia. }
    destruct (tokens t) as [|n] eqn:E; [contradiction|]. destruct Hin as [Hin|[]].
    inversion Hin; subst. cbn. rewrite ?E. repeat split; try tauto; lia.
  - destruct (Nat.ltb_spec (tokens t) (capacity t)); cbn;
      repeat split; try tauto; try lia; congruence.
  - repeat split; cbn; try tauto; lia.
  - repeat split; cbn; try tauto; lia.
Qed.

Lemma texec_reservoir (t t' : throttler) (tr : list tevent) :
  texec t tr t' ->
  capacity t' = capacity t
  /\ ((tokens t <= capacity t)%nat -> (tokens t' <= capacity t')%nat)
  /\ (refilling t = false -> refilling t' = false /\ (tokens t' <= tokens t)%nat).
Proof.
  induction 1 as [t|t tr t1 evs t2 _ IH Hstep].
  - repeat split; try tauto; lia.
  - destruct IH as (C1 & B1 & R1).
    destruct (tstep_reservoir _ _ _ Hstep) as (C2 & B2 & R2).
    split; [congruence|]. split; [tauto|].
    intros Hr. destruct (R1 Hr) as [Hr1 L1]. destruct (R2 Hr1) as [Hr2 L2].
    split; [assumption|lia].
Qed.

Lemma try_many_counts (k : nat) (t : throttler) :
  fst (try_many k t)
  = repeat true (Nat.min k (tokens t)) ++ repeat false (k - tokens t)
  /\ tokens (snd (try_many k t)) = (tokens t - k)%nat.
Proof.
  revert t. induction k as [|k IH]; intros t.
  - simpl. split; [reflexivity|lia].
  - cbn [try_many]. unfold TryAcquire.
    destruct (tokens t) as [|n] eqn:E.
    + specialize (IH t). rewrite E in IH.
      destruct (try_many k t) as [hits t2]. cbn [fst snd] in *.
      destruct IH as [IH1 IH2]. rewrite IH1.
      rewrite Nat.min_0_r, Nat.sub_0_r. split; [reflexivity|exact IH2].
    + specialize (IH (with_tokens n t)). cbn [with_tokens tokens] in IH.
      destruct (try_many k (with_tokens n t)) as [hits t2]. cbn [fst snd] in *.
      destruct IH as [IH1 IH2]. rewrite IH1. split; [reflexivity|exact IH2].
Qed.

End Reservoir.

(** X16: the reservoir of a throttler never holds more tokens than its
    capacity, in any execution, and the capacity is the burst the
    options ask for, or one when they ask for less. Once the refill loop
    has returned no token is ever added again. *)
Theorem throttler_reservoir_bounded (o : Flow.Throttler.ThrottlerOpts)
    (t0 t : Flow.Throttler.throttler) (tr : list Flow.Throttler.tevent) :
  Flow.Throttler.NewThrottler o = Some t0 ->
  Flow.Throttler.texec t0 tr t ->
  (Flow.Throttler.tokens t <= Flow.Throttler.capacity t)%nat
  /\ Flow.Throttler.capacity t = burst_of o
  /\ (1 <= burst_of o)%nat
  /\ (forall tr' t', Flow.Throttler.refilling t = false ->
        Flow.Throttler.texec t tr' t' ->
        Flow.Throttler.refilling t' = false
        /\ (Flow.Throttler.tokens t' <= Flow.Throttler.tokens t)%nat).
Proof.
  intros Hnew Hex.
  destruct (texec_reservoir _ _ _ Hex) as (C & B & _).
  unfold Flow.Throttler.NewThrottler in Hnew.
  destruct (Flow.Throttler.Interval o <=? 0); [discriminate|].
  inversion Hnew; subst t0; clear Hnew. cbn in C, B.
  assert (E : Z.to_nat (if Flow.Throttler.Burst o <? 1 then 1 else Flow.Throttler.Burst o)
              = burst_of o).
  { unfold burst_of. destruct (Z.ltb_spec (Flow.Throttler.Burst o) 1); f_equal; lia. }
  rewrite E in *. repeat split.
  - apply B. lia.
  - assumption.
  - unfold burst_of. lia.
  - now apply (texec_reservoir t t' tr').
  - now apply (texec_reservoir t t' tr').
Qed.

Lemma throttler_reservoir_bounded_witness :
  (Flow.Throttler.tokens (snd (Flow.Throttler.Stop burst2_throttler))
   <= Flow.Throttler.capacity (snd (Flow.Throttler.Stop burst2_throttler)))%nat.
Proof.
  destruct (throttler_reservoir_bounded burst2_opts burst2_throttler
              (snd (Flow.Throttler.Stop burst2_throttler))
              (fst (Flow.Throttler.Stop burst2_throttler))) as (A & _).
  - reflexivity.
  - apply Stop_first_call. reflexivity.
  - exact A.
Defined.

(** X17: a new throttler hands out exactly its burst. Of [k] calls of
    [TryAcquire] made on it before any refill, the first [burst] return
    true and all the others false. *)
Theorem throttler_burst_then_refusal (o : Flow.Throttler.ThrottlerOpts)
    (t0 : Flow.Throttler.throttler) (k : nat) :
  Flow.Throttler.NewThrottler o = Some t0 ->
  fst (try_many k t0)
  = repeat true (Nat.min k (burst_of o)) ++ repeat false (k - burst_of o)
  /\ Flow.Throttler.tokens (snd (try_many k t0)) = (burst_of o - k)%nat.
Proof.
  intros Hnew.
  assert (E : Flow.Throttler.tokens t0 = burst_of o).
  { unfold Flow.Throttler.NewThrottler in Hnew.
    destruct (Flow.Throttler.Interval o <=? 0); [discriminate|].
    inversion Hnew; subst t0; clear Hnew. cbn. unfold burst_of.
    destruct (Z.ltb_spec (Flow.Throttler.Burst o) 1); f_equal; lia. }
  rewrite <- E. apply try_many_counts.
Qed.

Lemma throttler_burst_then_refusal_witness :
  fst (try_many 4 burst2_throttler) = [true; true; false; false].
Proof.
  destruct (throttler_burst_then_refusal burst2_opts burst2_throttler 4) as [A _].
  - reflexivity.
  - exact A.
Defined.

(** ** Debouncer: the fields between two calls, and bursts *)
Section DebouncerRuns.
Import Flow Flow.Debouncer.
Variable T : Type.
Variable zero : T.

Ltac debouncer_steps :=
  cbv [run_op Trigger Flush Stop timerLoop maxLoop resetTimerLocked resetMaxLocked
       stopTimerLocked lock unlock state_after trace_of when
       bind get modify emit ret set_timer set_maxTimer set_last set_pending
       set_stopped opts timer_ maxTimer last pending stopped timerLoopStarted
       maxLoopStarted Wait Leading Trailing MaxWait StopMode_ OnStop
       fst snd app debouncer_consistent timer_armed].

Ltac split_vars :=
  repeat match goal with
         | |- context [if ?b then _ else _] => is_var b; destruct b
         | |- context [match ?x with TimerNil => _ | _ => _ end] => is_var x; destruct x
         | |- context [match ?x with StopNoop => _ | _ => _ end] => is_var x; destruct x
         end.

Ltac split_conditions :=
  repeat match goal with
         | |- context [if ?b then _ else _] => destruct b
         end.

Lemma run_op_consistent (d : debouncer T) (o : op T) :
  debouncer_consistent d -> debouncer_consistent (state_after (run_op T o) d).
Proof.
  destruct d as [[w ld trl mw m os] tm mt l p s ls ms].
  unfold debouncer_consistent at 1.
  cbn [opts Wait Leading Trailing MaxWait timer_ maxTimer pending stopped].
  intros (Hw & Hlt & Ht & Hm & Hs).
  assert (Ew : (w <=? 0) = false) by (apply Z.leb_gt; lia).
  assert (Em : (mw <=? 0) = negb (0 <? mw))
    by (destruct (Z.leb_spec mw 0), (Z.ltb_spec 0 mw); try reflexivity; lia).
  destruct (0 <? mw) eqn:E2; cbn [negb] in Em;
    (destruct s; [rewrite (Hs eq_refl) in *; clear Hs|clear Hs]);
    destruct tm; cbn [timer_armed] in Ht; try discriminate Ht; try rewrite <- Ht in *;
    cbn [andb] in Hm;
    destruct mt; cbn [timer_armed] in Hm; try discriminate Hm;
    destruct ld, trl; try discriminate Hlt;
    destruct o;
    repeat (debouncer_steps; rewrite ?Ew, ?Em, ?E2; cbn [negb andb orb]);
    split_conditions;
    rewrite ?E2; repeat split; try assumption; try reflexivity; try (intros; discriminate).
Qed.

End DebouncerRuns.

Section DebouncerRuns2.
Import Flow Flow.Debouncer.
Variable T : Type.
Variable zero : T.

Ltac debouncer_steps :=
  cbv [run_op Trigger Flush Stop timerLoop maxLoop resetTimerLocked resetMaxLocked
       stopTimerLocked lock unlock state_after trace_of when
       bind get modify emit ret set_timer set_maxTimer set_last set_pending
       set_stopped opts timer_ maxTimer last pending stopped timerLoopStarted
       maxLoopStarted Wait Leading Trailing MaxWait StopMode_ OnStop
       fst snd app debouncer_consistent timer_armed].

Ltac split_conditions :=
  repeat match goal with
         | |- context [if ?b then _ else _] => destruct b
         end.

Lemma run_consistent (ops : list (op T)) (d : debouncer T) :
  debouncer_consistent d -> debouncer_consistent (state_after (run T ops) d).
Proof.
  revert d. induction ops as [|o ops IH]; intros d H; [exact H|].
  cbn [run]. rewrite bind_state_after. apply IH. now apply run_op_consistent.
Qed.

Lemma NewDebouncer_consistent (o : DebounceOpts) (d0 : debouncer T) :
  NewDebouncer T zero o = Some d0 -> debouncer_consistent d0.
Proof.
  destruct o as [w ld trl mw m os]. unfold NewDebouncer. cbn.
  destruct (Z.leb_spec w 0); [discriminate|].
  intros E. injection E as <-.
  destruct ld, trl; cbn; repeat split; try assumption; intros; discriminate.
Qed.

(** A [Trigger] on a live debouncer: the first of a burst calls back
    when [Leading] is set, the later ones never do. *)
Lemma Trigger_live (d : debouncer T) (v : T) :
  stopped T d = false ->
  emitted (trace_of (Trigger T v) d)
  = (if Leading (opts T d) && negb (pending T d) then [v] else [])
  /\ onStop_calls (trace_of (Trigger T v) d) = []
  /\ stopped T (state_after (Trigger T v) d) = false
  /\ pending T (state_after (Trigger T v) d) = true
  /\ last T (state_after (Trigger T v) d) = v
  /\ opts T (state_after (Trigger T v) d) = opts T d.
Proof.
  destruct d as [[w ld trl mw m os] tm mt l p s ls ms].
  cbn [stopped opts Leading pending]. intros ->.
  destruct ld, p; debouncer_steps; split_conditions; destruct tm, mt; cbn;
    repeat split.
Qed.

Lemma burst_pending (vs : list T) (d : debouncer T) :
  stopped T d = false -> pending T d = true ->
  let d' := state_after (run T (map (OpTrigger T) vs)) d in
  emitted (trace_of (run T (map (OpTrigger T) vs)) d) = []
  /\ onStop_calls (trace_of (run T (map (OpTrigger T) vs)) d) = []
  /\ stopped T d' = false /\ pending T d' = true
  /\ last T d' = List.last vs (last T d) /\ opts T d' = opts T d.
Proof.
  revert d. induction vs as [|v vs IH]; intros d Hs Hp; cbn zeta.
  - cbn. repeat split; assumption.
  - cbn [map run]. rewrite bind_state_after, bind_trace_of.
    destruct (Trigger_live d v Hs) as (E & O & Hs1 & Hp1 & Hl1 & Ho1).
    change (run_op T (OpTrigger T v)) with (Trigger T v).
    destruct (IH _ Hs1 Hp1) as (E2 & O2 & Hs2 & Hp2 & Hl2 & Ho2).
    rewrite emitted_app, E, E2, Hp, andb_false_r.
    unfold onStop_calls in *. rewrite flat_map_app, O, O2.
    repeat split; try assumption.
    + rewrite Hl2, Hl1. symmetry. apply last_cons_default.
    + congruence.
Qed.

(** What ends a burst: a tick of either timer, or [Flush]. *)
Lemma close_pending (d : debouncer T) (o : op T) :
  stopped T d = false -> pending T d = true ->
  o = OpFlush T \/ o = OpTimerTick T \/ o = OpMaxTick T ->
  emitted (trace_of (run_op T o) d) = (if Trailing (opts T d) then [last T d] else [])
  /\ onStop_calls (trace_of (run_op T o) d) = []
  /\ stopped T (state_after (run_op T o) d) = false
  /\ pending T (state_after (run_op T o) d) = false
  /\ opts T (state_after (run_op T o) d) = opts T d.
Proof.
  destruct d as [[w ld trl mw m os] tm mt l p s ls ms].
  cbn [stopped opts Trailing pending last]. intros -> -> [ -> | [ -> | -> ] ];
    destruct trl, tm, mt; cbn; repeat split.
Qed.

Lemma close_idle (d : debouncer T) (o : op T) :
  stopped T d = false -> pending T d = false ->
  o = OpFlush T \/ o = OpTimerTick T \/ o = OpMaxTick T ->
  emitted (trace_of (run_op T o) d) = []
  /\ onStop_calls (trace_of (run_op T o) d) = [].
Proof.
  destruct d as [[w ld trl mw m os] tm mt l p s ls ms].
  cbn [stopped opts Trailing pending last]. intros -> -> [ -> | [ -> | -> ] ];
    destruct trl, tm, mt; cbn; repeat split.
Qed.

End DebouncerRuns2.

Section Runs.
Import Flow.

Lemma debouncer_run_app (T : Type) (a b : list (Debouncer.op T)) (d : Debouncer.debouncer T) :
  trace_of (Debouncer.run T (a ++ b)) d
  = trace_of (Debouncer.run T a) d
    ++ trace_of (Debouncer.run T b) (state_after (Debouncer.run T a) d)
  /\ state_after (Debouncer.run T (a ++ b)) d
     = state_after (Debouncer.run T b) (state_after (Debouncer.run T a) d).
Proof.
  revert d. induction a as [|o a IH]; intros d; [split; reflexivity|].
  cbn [app Debouncer.run]. rewrite !bind_trace_of, !bind_state_after.
  destruct (IH (state_after (Debouncer.run_op T o) d)) as [E1 E2].
  rewrite E1, E2, app_assoc. split; reflexivity.
Qed.

End Runs.

(** X18: the fields of a debouncer between two calls. After any
    sequence of calls and timer ticks on a constructed debouncer, a
    value is pending exactly when the wait timer is armed; the
    [MaxWait] timer is armed with it when [MaxWait] is positive and
    never otherwise; a stopped debouncer has nothing pending; and at
    least one of [Leading] and [Trailing] is set. *)
Theorem debouncer_fields_consistent (T : Type) (zero : T)
    (o : Flow.Debouncer.DebounceOpts) (d0 : Flow.Debouncer.debouncer T)
    (ops : list (Flow.Debouncer.op T)) :
  Flow.Debouncer.NewDebouncer T zero o = Some d0 ->
  debouncer_consistent (Flow.state_after (Flow.Debouncer.run T ops) d0).
Proof.
  intros H. apply run_consistent. now apply (NewDebouncer_consistent T zero o).
Qed.

Lemma debouncer_fields_consistent_witness :
  debouncer_consistent
    (Flow.state_after
       (Flow.Debouncer.run Z [Flow.Debouncer.OpTrigger Z 1; Flow.Debouncer.OpTimerTick Z;
                              Flow.Debouncer.OpTrigger Z 2])
       trailing_debouncer).
Proof.
  apply (debouncer_fields_consistent Z 0 trailing_opts). reflexivity.
Defined.

(** X19: one burst. On a live debouncer with nothing pending, a burst
    of [Trigger]s ended by a tick of either timer or by [Flush] calls
    back with the first value, at once, when [Leading] is set, and with
    the last value, at the end, when [Trailing] is set: a burst of one
    [Trigger(v)] with both set calls [cb(v)] twice. A second tick or
    [Flush] after the end calls nothing. *)
Theorem debouncer_burst (T : Type) (d : Flow.Debouncer.debouncer T) (v : T) (vs : list T)
    (close again : Flow.Debouncer.op T) :
  Flow.Debouncer.stopped T d = false ->
  Flow.Debouncer.pending T d = false ->
  close = Flow.Debouncer.OpFlush T \/ close = Flow.Debouncer.OpTimerTick T
    \/ close = Flow.Debouncer.OpMaxTick T ->
  again = Flow.Debouncer.OpFlush T \/ again = Flow.Debouncer.OpTimerTick T
    \/ again = Flow.Debouncer.OpMaxTick T ->
  let burst := Flow.Debouncer.OpTrigger T v :: map (Flow.Debouncer.OpTrigger T) vs in
  let calls :=
    (if Flow.Debouncer.Leading (Flow.Debouncer.opts T d) then [v] else [])
    ++ (if Flow.Debouncer.Trailing (Flow.Debouncer.opts T d) then [List.last vs v] else []) in
  emitted (Flow.trace_of (Flow.Debouncer.run T (burst ++ [close])) d) = calls
  /\ emitted (Flow.trace_of (Flow.Debouncer.run T (burst ++ [close; again])) d) = calls.
Proof.
  intros Hs Hp Hc Ha burst calls.
  destruct (Trigger_live T d v Hs) as (E1 & _ & Hs1 & Hp1 & Hl1 & Ho1).
  destruct (burst_pending T vs _ Hs1 Hp1) as (E2 & _ & Hs2 & Hp2 & Hl2 & Ho2).
  cbn zeta in E2, Hs2, Hp2, Hl2, Ho2.
  assert (Eb : emitted (Flow.trace_of (Flow.Debouncer.run T burst) d)
               = if Flow.Debouncer.Leading (Flow.Debouncer.opts T d) then [v] else []).
  { subst burst. cbn [Flow.Debouncer.run]. rewrite bind_trace_of, emitted_app.
    change (Flow.Debouncer.run_op T (Flow.Debouncer.OpTrigger T v))
      with (Flow.Debouncer.Trigger T v).
    rewrite E1, E2, Hp, app_nil_r. now destruct (Flow.Debouncer.Leading _). }
  assert (Sb : Flow.state_after (Flow.Debouncer.run T burst) d
               = Flow.state_after (Flow.Debouncer.run T (map (Flow.Debouncer.OpTrigger T) vs))
                   (Flow.state_after (Flow.Debouncer.Trigger T v) d)).
  { subst burst. cbn [Flow.Debouncer.run]. now rewrite bind_state_after. }
  destruct (close_pending T _ close Hs2 Hp2 Hc) as (E3 & _ & Hs3 & Hp3 & Ho3).
  rewrite Ho2, Ho1, Hl2, Hl1 in E3.
  assert (Ec : emitted (Flow.trace_of (Flow.Debouncer.run T (burst ++ [close])) d) = calls).
  { destruct (debouncer_run_app T burst [close] d) as [R _]. rewrite R, emitted_app, Eb, Sb.
    cbn [Flow.Debouncer.run]. rewrite bind_trace_of, emitted_app, E3.
    cbn. now rewrite app_nil_r. }
  split; [exact Ec|].
  change [close; again] with ([close] ++ [again]). rewrite app_assoc.
  destruct (debouncer_run_app T (burst ++ [close]) [again] d) as [R S].
  rewrite R, emitted_app, Ec.
  destruct (debouncer_run_app T burst [close] d) as [_ S2]. rewrite S2, Sb.
  cbn [Flow.Debouncer.run]. rewrite bind_trace_of, emitted_app.
  assert (Hs4 : Flow.Debouncer.stopped T
                  (Flow.state_after
                     (Flow.bind (Flow.Debouncer.run_op T close) (fun _ => Flow.ret tt))
                     (Flow.state_after
                        (Flow.Debouncer.run T (map (Flow.Debouncer.OpTrigger T) vs))
                        (Flow.state_after (Flow.Debouncer.Trigger T v) d))) = false)
    by (rewrite bind_state_after; exact Hs3).
  assert (Hp4 : Flow.Debouncer.pending T
                  (Flow.state_after
                     (Flow.bind (Flow.Debouncer.run_op T close) (fun _ => Flow.ret tt))
                     (Flow.state_after
                        (Flow.Debouncer.run T (map (Flow.Debouncer.OpTrigger T) vs))
                        (Flow.state_after (Flow.Debouncer.Trigger T v) d))) = false)
    by (rewrite bind_state_after; exact Hp3).
  destruct (close_idle T _ again Hs4 Hp4 Ha) as (E4 & _).
  rewrite E4. cbn. now rewrite !app_nil_r.
Qed.

Lemma debouncer_burst_witness :
  emitted (Flow.trace_of
             (Flow.Debouncer.run Z [Flow.Debouncer.OpTrigger Z 7; Flow.Debouncer.OpTimerTick Z])
             flush_and_callback_debouncer) = [7; 7].
Proof.
  destruct (debouncer_burst Z flush_and_callback_debouncer 7 []
              (Flow.Debouncer.OpTimerTick Z) (Flow.Debouncer.OpFlush Z)) as [A _].
  - reflexivity.
  - reflexivity.
  - right. left. reflexivity.
  - left. reflexivity.
  - exact A.
Defined.

(** ** Coalescer: the mutex, the fields between two calls, the loop *)
Section CoalescerRuns.
Import Flow Flow.Coalescer.
Variable T : Type.
Variable zero : T.
Variable folder : T -> T -> T.

Ltac coalescer_steps :=
  cbv [Add Flush Stop loop loop_cancelled run_op stopTimerLocked lock unlock
       state_after trace_of when bind get modify emit ret
       set_timer set_acc set_hasAcc set_stopped set_looping
       window timer_ acc hasAcc stopped stopMode onStop looping
       fst snd orb andb negb mode_eqb app].

Ltac split_vars :=
  repeat match goal with
         | |- context [if ?b then _ else _] => is_var b; destruct b
         | |- context [match ?x with TimerNil => _ | _ => _ end] => is_var x; destruct x
         | |- context [match ?x with StopNoop => _ | _ => _ end] => is_var x; destruct x
         end.

Lemma coalescer_run_app (a b : list (op T)) (c : coalescer T) :
  trace_of (run T folder (a ++ b)) c
  = trace_of (run T folder a) c
    ++ trace_of (run T folder b) (state_after (run T folder a) c)
  /\ state_after (run T folder (a ++ b)) c
     = state_after (run T folder b) (state_after (run T folder a) c).
Proof.
  revert c. induction a as [|o a IH]; intros c; [split; reflexivity|].
  cbn [app run]. rewrite !bind_trace_of, !bind_state_after.
  destruct (IH (state_after (run_op T folder o) c)) as [E1 E2].
  rewrite E1, E2, app_assoc. split; reflexivity.
Qed.

Lemma outside_lock_app (held : bool) (a b : list (event T)) :
  callbacks_outside_lock held (a ++ b)
  = callbacks_outside_lock held a && callbacks_outside_lock (lock_after held a) b.
Proof.
  revert held. induction a as [|e a IH]; intros held; [reflexivity|].
  destruct e; cbn [app callbacks_outside_lock lock_after fold_left];
    rewrite IH; unfold lock_after; try reflexivity;
    now rewrite andb_assoc.
Qed.

Lemma lock_after_app (held : bool) (a b : list (event T)) :
  lock_after held (a ++ b) = lock_after (lock_after held a) b.
Proof. unfold lock_after. apply fold_left_app. Qed.

(** Every call leaves the mutex free. *)
Lemma run_op_releases (c : coalescer T) (o : op T) :
  lock_after false (trace_of (run_op T folder o) c) = false.
Proof.
  destruct c as [w tm a h s m os lp]. destruct o; coalescer_steps;
    split_vars; reflexivity.
Qed.

Lemma run_outside_lock (ops : list (op T)) (c : coalescer T) :
  callbacks_outside_lock false (trace_of (run T folder ops) c) = true
  /\ lock_after false (trace_of (run T folder ops) c) = false.
Proof.
  revert c. induction ops as [|o ops IH]; intros c; [split; reflexivity|].
  cbn [run]. rewrite bind_trace_of, outside_lock_app, lock_after_app.
  rewrite run_op_releases, coalescer_callbacks_outside_lock.
  destruct (IH (state_after (run_op T folder o) c)) as [E1 E2].
  now rewrite E1, E2.
Qed.

Lemma run_op_coalescer_consistent (c : coalescer T) (o : op T) :
  coalescer_consistent c -> coalescer_consistent (state_after (run_op T folder o) c).
Proof.
  destruct c as [w tm a h s m os lp]. unfold coalescer_consistent.
  cbn [window timer_ hasAcc stopped looping].
  intros (Hw & Ht & Hs & Hl).
  destruct o; coalescer_steps;
    (destruct s; [rewrite (Hs eq_refl) in *|]);
    destruct tm; cbn [timer_armed] in Ht; try discriminate Ht; try rewrite <- Ht in *;
    destruct lp; try (exfalso; now apply Hl);
    split_vars; cbn [timer_armed];
    repeat split; try assumption; try reflexivity; try (intros; discriminate);
    try (intros _; discriminate).
Qed.

Lemma run_coalescer_consistent (ops : list (op T)) (c : coalescer T) :
  coalescer_consistent c -> coalescer_consistent (state_after (run T folder ops) c).
Proof.
  revert c. induction ops as [|o ops IH]; intros c H; [exact H|].
  cbn [run]. rewrite bind_state_after. apply IH. now apply run_op_coalescer_consistent.
Qed.

(** With the loop gone and the timer created, [Add] and a tick emit
    nothing and do not bring the loop back. *)
Lemma run_op_loop_gone (c : coalescer T) (o : op T) :
  looping T c = false -> timer_ T c <> TimerNil -> is_add_or_tick o = true ->
  trace_of (run_op T folder o) c = match o with OpAdd _ _ => [EvLock; EvUnlock] | _ => [] end
  /\ looping T (state_after (run_op T folder o) c) = false
  /\ timer_ T (state_after (run_op T folder o) c) <> TimerNil
  /\ (stopped T c = false ->
      hasAcc T (state_after (run_op T folder o) c)
      = match o with OpAdd _ _ => true | _ => hasAcc T c end).
Proof.
  destruct c as [w tm a h s m os lp]. cbn [looping timer_ stopped hasAcc].
  intros -> Ht Ho.
  destruct o; try discriminate Ho; destruct tm; try contradiction;
    destruct s, h; cbn; repeat split; try discriminate; try reflexivity;
    try (intros; discriminate).
Qed.

Lemma run_loop_gone (ops : list (op T)) (c : coalescer T) :
  looping T c = false -> timer_ T c <> TimerNil ->
  forallb is_add_or_tick ops = true ->
  emitted (trace_of (run T folder ops) c) = []
  /\ onStop_calls (trace_of (run T folder ops) c) = []
  /\ looping T (state_after (run T folder ops) c) = false
  /\ (stopped T c = false ->
      hasAcc T (state_after (run T folder ops) c) = existsb is_add ops || hasAcc T c).
Proof.
  revert c. induction ops as [|o ops IH]; intros c Hl Ht Hops.
  - cbn. auto.
  - cbn [forallb] in Hops. apply andb_prop in Hops. destruct Hops as [Ho Hops].
    destruct (run_op_loop_gone c o Hl Ht Ho) as (E & Hl1 & Ht1 & Hh1).
    cbn [run]. rewrite bind_trace_of, bind_state_after, emitted_app.
    unfold onStop_calls. rewrite flat_map_app.
    destruct (IH _ Hl1 Ht1 Hops) as (E2 & O2 & Hl2 & Hh2).
    rewrite E, E2. unfold onStop_calls in O2. rewrite O2.
    repeat split.
    + now destruct o.
    + now destruct o.
    + assumption.
    + intros Hs.
      assert (Hs1 : stopped T (state_after (run_op T folder o) c) = false).
      { destruct c as [w tm a h s m os lp]. cbn [stopped] in Hs. subst s.
        destruct o; try discriminate Ho; destruct tm, h, lp; reflexivity. }
      rewrite (Hh2 Hs1), (Hh1 Hs). cbn [existsb].
      destruct o; try discriminate Ho; cbn [is_add];
        destruct (existsb is_add ops); reflexivity.
Qed.

Lemma NewCoalescer_consistent (w : Z) (o : list CoalesceOpts) (c0 : coalescer T) :
  NewCoalescer T zero w o = Some c0 -> coalescer_consistent c0.
Proof.
  unfold NewCoalescer. destruct (Z.leb_spec w 0); [discriminate|].
  intros E. injection E as <-. unfold coalescer_consistent. cbn.
  repeat split; try assumption; intros; discriminate.
Qed.

End CoalescerRuns.

(** X20: a coalescer never calls [emit] or [onStop] with its mutex
    held. In every sequence of calls ([Add], [Flush], [Stop], ticks of
    the window timer, the loop leaving on a cancelled context), from
    any state, each callback runs after the mutex is released, and the
    mutex is free when the sequence ends. *)
Theorem coalescer_lock_discipline (T : Type) (folder : T -> T -> T)
    (c : Flow.Coalescer.coalescer T) (ops : list (Flow.Coalescer.op T)) :
  callbacks_outside_lock false (Flow.trace_of (Flow.Coalescer.run T folder ops) c) = true
  /\ lock_after false (Flow.trace_of (Flow.Coalescer.run T folder ops) c) = false.
Proof. apply run_outside_lock. Qed.

(** X21: [Stop] of a debouncer, unlike its other methods, releases the
    mutex before it calls anything: its trace is the lock, the unlock,
    and then the callbacks, from any state. *)
Theorem debouncer_Stop_releases_first (T : Type) (d : Flow.Debouncer.debouncer T) :
  callbacks_outside_lock false (Flow.trace_of (Flow.Debouncer.Stop T) d) = true
  /\ Flow.trace_of (Flow.Debouncer.Stop T) d
     = [Flow.EvLock; Flow.EvUnlock] ++ callbacks (Flow.trace_of (Flow.Debouncer.Stop T) d).
Proof.
  split; [apply debouncer_Stop_outside_lock|].
  destruct d as [[w ld trl mw m os] tm mt l p s ls ms].
  destruct s, m, p, trl, os, tm, mt; reflexivity.
Qed.

(** X22: the fields of a coalescer between two calls. After any
    sequence of calls and ticks on a constructed coalescer, a value is
    held exactly when the window timer is armed, a stopped coalescer
    holds nothing, and the loop runs only once the timer exists. *)
Theorem coalescer_fields_consistent (T : Type) (zero : T) (folder : T -> T -> T)
    (w : Z) (o : list Flow.Coalescer.CoalesceOpts) (c0 : Flow.Coalescer.coalescer T)
    (ops : list (Flow.Coalescer.op T)) :
  Flow.Coalescer.NewCoalescer T zero w o = Some c0 ->
  coalescer_consistent (Flow.state_after (Flow.Coalescer.run T folder ops) c0).
Proof.
  intros H. apply run_coalescer_consistent. now apply (NewCoalescer_consistent T zero w o).
Qed.

Lemma coalescer_fields_consistent_witness :
  coalescer_consistent
    (Flow.state_after
       (Flow.Coalescer.run Z Z.add
          [Flow.Coalescer.OpAdd Z 1; Flow.Coalescer.OpTick Z; Flow.Coalescer.OpAdd Z 2])
       (sum_coalescer stop_flush_opts)).
Proof.
  apply (coalescer_fields_consistent Z 0 Z.add 30000000 [stop_flush_opts]). reflexivity.
Defined.

(** X23: the loop of a coalescer is started once and never again. When
    it has returned (on a cancelled context, or on a tick that found
    nothing held) while the timer exists, no [Add] and no expiry of the
    window emits anything any more: the values added are held, and
    only [Flush] or [Stop] can deliver them. *)
Theorem coalescer_loop_never_restarts (T : Type) (folder : T -> T -> T)
    (c : Flow.Coalescer.coalescer T) (ops : list (Flow.Coalescer.op T)) :
  Flow.Coalescer.looping T c = false ->
  Flow.Coalescer.timer_ T c <> Flow.TimerNil ->
  Flow.Coalescer.stopped T c = false ->
  forallb is_add_or_tick ops = true ->
  emitted (Flow.trace_of (Flow.Coalescer.run T folder ops) c) = []
  /\ Flow.Coalescer.looping T (Flow.state_after (Flow.Coalescer.run T folder ops) c) = false
  /\ Flow.Coalescer.hasAcc T (Flow.state_after (Flow.Coalescer.run T folder ops) c)
     = existsb is_add ops || Flow.Coalescer.hasAcc T c.
Proof.
  intros Hl Ht Hs Hops.
  destruct (run_loop_gone T folder ops c Hl Ht Hops) as (E & _ & L & H).
  repeat split; [exact E|exact L|exact (H Hs)].
Qed.

Lemma coalescer_loop_never_restarts_witness :
  emitted (Flow.trace_of
             (Flow.Coalescer.run Z Z.add
                [Flow.Coalescer.OpAdd Z 2; Flow.Coalescer.OpTick Z;
                 Flow.Coalescer.OpAdd Z 3; Flow.Coalescer.OpTick Z])
             cancelled_coalescer) = []
  /\ Flow.Coalescer.hasAcc Z
       (Flow.state_after
          (Flow.Coalescer.run Z Z.add
             [Flow.Coalescer.OpAdd Z 2; Flow.Coalescer.OpTick Z;
              Flow.Coalescer.OpAdd Z 3; Flow.Coalescer.OpTick Z])
          cancelled_coalescer) = true.
Proof.
  destruct (coalescer_loop_never_restarts Z Z.add cancelled_coalescer
              [Flow.Coalescer.OpAdd Z 2; Flow.Coalescer.OpTick Z;
               Flow.Coalescer.OpAdd Z 3; Flow.Coalescer.OpTick Z]) as (A & _ & B).
  - reflexivity.
  - discriminate.
  - reflexivity.
  - reflexivity.
  - split; [exact A|exact B].
Defined.

(** ** The per-key managers *)
Section Managers.
Import Flow FlowByKey.

Lemma bind_get_trace {S E B : Type} (k : S -> @M S E B) (s : S) :
  trace_of (bind get k) s = trace_of (k s) s.
Proof.
  unfold trace_of, bind, get. destruct (k s s) as [[b s2] t2]. reflexivity.
Qed.

Lemma bind_get_state {S E B : Type} (k : S -> @M S E B) (s : S) :
  state_after (bind get k) s = state_after (k s) s.
Proof.
  unfold state_after, bind, get. destruct (k s s) as [[b s2] t2]. reflexivity.
Qed.

Lemma children_only_outside {K V : Type} (cs : list (mevent K V)) :
  Forall is_child_event cs -> children_outside_lock false cs = true.
Proof.
  induction 1 as [|e cs He _ IH]; [reflexivity|].
  destruct e; try contradiction. exact IH.
Qed.

Lemma children_only_under {K V : Type} (cs rest : list (mevent K V)) :
  Forall is_child_event cs ->
  children_under_lock true (cs ++ rest) = children_under_lock true rest.
Proof.
  induction 1 as [|e cs He _ IH]; [reflexivity|].
  destruct e; try contradiction. exact IH.
Qed.

Lemma state_after_emit {S E : Type} (e : E) (s : S) : state_after (emit e) s = s.
Proof. reflexivity. Qed.

Lemma trace_of_emit {S E : Type} (e : E) (s : S) : trace_of (emit e) s = [e].
Proof. reflexivity. Qed.

Lemma state_after_modify {S E : Type} (f : S -> S) (s : S) :
  state_after (@modify S E f) s = f s.
Proof. reflexivity. Qed.

Lemma trace_of_modify {S E : Type} (f : S -> S) (s : S) : trace_of (@modify S E f) s = [].
Proof. reflexivity. Qed.

Lemma state_after_ret {S E A : Type} (a : A) (s : S) : state_after (@ret S E A a) s = s.
Proof. reflexivity. Qed.

Lemma trace_of_ret {S E A : Type} (a : A) (s : S) : trace_of (@ret S E A a) s = [].
Proof. reflexivity. Qed.

Lemma for_keys_children {K V S : Type} (ks : list K) (f : K -> @M S (mevent K V) unit) :
  (forall k s, Forall is_child_event (trace_of (f k) s)) ->
  forall s, Forall is_child_event (trace_of (for_keys ks f) s).
Proof.
  intros Hf. induction ks as [|k ks IH]; intros s; [constructor|].
  cbn [for_keys]. rewrite bind_trace_of. apply Forall_app. split; [apply Hf|apply IH].
Qed.

End Managers.

Section DebouncerManager.
Import Flow FlowByKey FlowByKey.DebouncerByKey.
Variables K V : Type.
Variable K_eqb : K -> K -> bool.
Variable zero : V.

Lemma lift_event_children (o : DebounceKeyOpts) (k : K) (tr : list (event V)) :
  Forall is_child_event (flat_map (lift_event K V o k) tr).
Proof.
  induction tr as [|e tr IH]; [constructor|].
  cbn [flat_map]. apply Forall_app. split; [|exact IH].
  destruct e; cbn; try (constructor; [exact I|constructor]).
  destruct (OnStop o); constructor; [exact I|constructor].
Qed.

Lemma on_child_children (k : K) (f : Debouncer.DM V unit) (m : debouncerByKey K V) :
  Forall is_child_event (trace_of (on_child K V K_eqb k f) m).
Proof.
  unfold on_child, trace_of. destruct (lookup K_eqb k (nodes K V m)) as [n|]; [|constructor].
  destruct (f (db V n)) as [[u d] tr]. cbn [snd]. apply lift_event_children.
Qed.

Lemma evict_key_children (cut : Z) (k : K) (m : debouncerByKey K V) :
  Forall is_child_event
    (trace_of
       (s <- get ;;
        match lookup K_eqb k (nodes K V s) with
        | Some n =>
            if last V n <? cut then
              on_child K V K_eqb k (Debouncer.Stop V) ;;
              s' <- get ;;
              modify (set_nodes K V (delete K_eqb k (nodes K V s')))
            else ret tt
        | None => ret tt
        end) m).
Proof.
  rewrite bind_get_trace.
  destruct (lookup K_eqb k (nodes K V m)) as [n|]; [|constructor].
  destruct (last V n <? cut); [|constructor].
  rewrite bind_trace_of, bind_get_trace. apply Forall_app. split.
  - apply on_child_children.
  - constructor.
Qed.

Ltac step_trace :=
  rewrite ?bind_trace_of, ?bind_get_trace, ?bind_state_after, ?bind_get_state,
    ?state_after_emit, ?trace_of_emit, ?state_after_modify, ?trace_of_modify,
    ?state_after_ret, ?trace_of_ret.

Lemma public_outside_lock (m : debouncerByKey K V) (o : op K V) :
  match o with OpEvict _ _ _ => False | _ => True end ->
  children_outside_lock false (trace_of (run_op K V K_eqb zero o) m) = true.
Proof.
  intros Ho. destruct o as [now k v|k| | |now| |k|k]; try contradiction; cbn [run_op].
  - unfold Trigger, lock, unlock. step_trace.
    destruct (stop K V m); [reflexivity|].
    destruct (lookup K_eqb k (nodes K V m)) as [n|].
    + repeat step_trace. cbn [app children_outside_lock].
      apply children_only_outside, on_child_children.
    + destruct (Debouncer.NewDebouncer V zero (child_opts (opts K V m))); [|reflexivity].
      repeat step_trace. cbn [app children_outside_lock].
      apply children_only_outside, on_child_children.
  - unfold FlushKey, lock, unlock. repeat step_trace.
    cbn [app children_outside_lock].
    apply children_only_outside, on_child_children.
  - unfold FlushAll, lock, unlock. repeat step_trace.
    cbn [app children_outside_lock].
    apply children_only_outside, for_keys_children. intros; apply on_child_children.
  - unfold Stop, lock, unlock. step_trace.
    destruct (stop K V m); [reflexivity|].
    repeat step_trace. cbn [app children_outside_lock].
    apply children_only_outside, for_keys_children. intros; apply on_child_children.
  - reflexivity.
  - apply children_only_outside, on_child_children.
  - apply children_only_outside, on_child_children.
Qed.

Lemma evictor_under_lock (m : debouncerByKey K V) (now : Z) :
  children_under_lock false (trace_of (evictor K V K_eqb now) m) = true.
Proof.
  unfold evictor, lock, unlock. step_trace.
  destruct (evicting K V m); [|reflexivity]. cbn [negb].
  step_trace.
  destruct (stop K V m); [reflexivity|].
  repeat step_trace. cbn [app children_under_lock].
  rewrite children_only_under; [reflexivity|].
  apply for_keys_children. intros. apply evict_key_children.
Qed.

End DebouncerManager.

(** ** The map of a manager *)
Section MapLemmas.
Import FlowByKey.
Variables K N : Type.
Variable K_eqb : K -> K -> bool.
Hypothesis K_eqb_spec : forall a b, K_eqb a b = true <-> a = b.

Lemma K_eqb_refl (k : K) : K_eqb k k = true.
Proof. now apply K_eqb_spec. Qed.

Lemma K_eqb_neq (a b : K) : a <> b -> K_eqb a b = false.
Proof.
  intros H. destruct (K_eqb a b) eqn:E; [|reflexivity].
  apply K_eqb_spec in E. contradiction.
Qed.

Lemma K_eqb_dec (a b : K) : {a = b} + {a <> b}.
Proof.
  destruct (K_eqb a b) eqn:E.
  - left. now apply K_eqb_spec.
  - right. intros H. apply K_eqb_spec in H. congruence.
Qed.

Lemma lookup_store_same (k : K) (n : N) (l : list (K * N)) :
  lookup K_eqb k (store K_eqb k n l) = Some n.
Proof.
  induction l as [|[k' n'] l IH]; cbn [store lookup].
  - now rewrite K_eqb_refl.
  - destruct (K_eqb k k') eqn:E; cbn [lookup]; [now rewrite K_eqb_refl|].
    now rewrite E.
Qed.

Lemma lookup_store_other (k k' : K) (n : N) (l : list (K * N)) :
  k <> k' -> lookup K_eqb k (store K_eqb k' n l) = lookup K_eqb k l.
Proof.
  intros H. induction l as [|[k1 n1] l IH]; cbn [store lookup].
  - now rewrite (K_eqb_neq _ _ H).
  - destruct (K_eqb k' k1) eqn:E; cbn [lookup].
    + apply K_eqb_spec in E. subst k1. now rewrite (K_eqb_neq _ _ H).
    + now rewrite IH.
Qed.

Lemma lookup_none_keys (k : K) (l : list (K * N)) :
  lookup K_eqb k l = None <-> ~ In k (map fst l).
Proof.
  induction l as [|[k' n'] l IH]; cbn [lookup map fst In]; [tauto|].
  destruct (K_eqb k k') eqn:E.
  - apply K_eqb_spec in E. subst. split; [discriminate|]. intros H. exfalso. apply H. now left.
  - rewrite IH. split; [|tauto].
    intros H [H'|H']; [|tauto]. subst. rewrite K_eqb_refl in E. discriminate.
Qed.

Lemma lookup_some_keys (k : K) (n : N) (l : list (K * N)) :
  lookup K_eqb k l = Some n -> In k (map fst l).
Proof.
  intros H. destruct (in_dec K_eqb_dec k (map fst l)) as [Hin|Hn]; [assumption|].
  apply lookup_none_keys in Hn. congruence.
Qed.

Lemma store_keys_present (k : K) (n n0 : N) (l : list (K * N)) :
  lookup K_eqb k l = Some n0 -> map fst (store K_eqb k n l) = map fst l.
Proof.
  induction l as [|[k' n'] l IH]; cbn [store lookup map fst]; [discriminate|].
  destruct (K_eqb k k') eqn:E; cbn [map fst].
  - intros _. apply K_eqb_spec in E. now subst.
  - intros H. now rewrite IH.
Qed.

Lemma store_keys_absent (k : K) (n : N) (l : list (K * N)) :
  lookup K_eqb k l = None -> map fst (store K_eqb k n l) = map fst l ++ [k].
Proof.
  induction l as [|[k' n'] l IH]; cbn [store lookup map fst app]; [reflexivity|].
  destruct (K_eqb k k') eqn:E; [discriminate|].
  intros H. cbn [map fst]. now rewrite IH.
Qed.

Lemma store_keys_NoDup (k : K) (n : N) (l : list (K * N)) :
  NoDup (map fst l) -> NoDup (map fst (store K_eqb k n l)).
Proof.
  intros H. destruct (lookup K_eqb k l) as [n0|] eqn:E.
  - now rewrite (store_keys_present k n n0 l E).
  - rewrite (store_keys_absent k n l E).
    apply NoDup_app; [assumption|repeat constructor; intros []|].
    intros x Hx [<-|[]]. now apply lookup_none_keys in E.
Qed.

Lemma lookup_delete_other (k k' : K) (l : list (K * N)) :
  k <> k' -> lookup K_eqb k (delete K_eqb k' l) = lookup K_eqb k l.
Proof.
  intros H. induction l as [|[k1 n1] l IH]; cbn [delete lookup]; [reflexivity|].
  destruct (K_eqb k' k1) eqn:E; cbn [lookup].
  - apply K_eqb_spec in E. subst k1. now rewrite (K_eqb_neq _ _ H).
  - now rewrite IH.
Qed.

Lemma lookup_delete_same (k : K) (l : list (K * N)) :
  NoDup (map fst l) -> lookup K_eqb k (delete K_eqb k l) = None.
Proof.
  induction l as [|[k1 n1] l IH]; cbn [delete lookup map fst]; [reflexivity|].
  intros H. inversion H as [|? ? Hnotin Hnd]; subst.
  destruct (K_eqb k k1) eqn:E; cbn [lookup].
  - apply K_eqb_spec in E. subst k1. now apply lookup_none_keys.
  - rewrite E. now apply IH.
Qed.

Lemma delete_keys_NoDup (k : K) (l : list (K * N)) :
  NoDup (map fst l) -> NoDup (map fst (delete K_eqb k l)).
Proof.
  induction l as [|[k1 n1] l IH]; cbn [delete map fst]; [constructor|].
  intros H. inversion H as [|? ? Hnotin Hnd]; subst.
  destruct (K_eqb k k1); [assumption|]. cbn [map fst]. constructor; [|now apply IH].
  intros Hin. apply Hnotin.
  clear - Hin. induction l as [|[k2 n2] l IH']; cbn [delete map fst In] in *; [assumption|].
  destruct (K_eqb k k2); cbn [map fst In] in *; tauto.
Qed.

Lemma existsb_keys (k : K) (ks : list K) : existsb (K_eqb k) ks = true <-> In k ks.
Proof.
  rewrite existsb_exists. split.
  - intros (x & Hx & E). apply K_eqb_spec in E. now subst.
  - intros H. exists k. split; [assumption|apply K_eqb_refl].
Qed.

End MapLemmas.

(** ** DebouncerByKey: one key at a time *)
Section DebouncerKeys.
Import Flow FlowByKey FlowByKey.DebouncerByKey.
Variables K V : Type.
Variable K_eqb : K -> K -> bool.
Variable zero : V.
Hypothesis K_eqb_spec : forall a b, K_eqb a b = true <-> a = b.

Ltac step_trace :=
  rewrite ?bind_trace_of, ?bind_get_trace, ?bind_state_after, ?bind_get_state,
    ?state_after_emit, ?trace_of_emit, ?state_after_modify, ?trace_of_modify,
    ?state_after_ret, ?trace_of_ret.

Lemma key_calls_app (a b : list (mevent K V)) :
  key_calls (a ++ b) = key_calls a ++ key_calls b.
Proof. apply flat_map_app. Qed.

Lemma calls_for_app (k : K) (a b : list (mevent K V)) :
  calls_for K_eqb k (a ++ b) = calls_for K_eqb k a ++ calls_for K_eqb k b.
Proof. unfold calls_for. now rewrite key_calls_app, filter_app, map_app. Qed.

Lemma calls_for_lift (o : DebounceKeyOpts) (k k' : K) (tr : list (event V)) :
  calls_for K_eqb k (flat_map (lift_event K V o k') tr)
  = if K_eqb k k' then manager_calls (OnStop o) tr else [].
Proof.
  induction tr as [|e tr IH].
  - now destruct (K_eqb k k').
  - cbn [flat_map]. rewrite calls_for_app, IH.
    unfold calls_for, key_calls, manager_calls.
    destruct e; cbn [lift_event flat_map app filter map fst snd];
      try (destruct (OnStop o); cbn [flat_map app filter map fst snd]);
      destruct (K_eqb k k'); reflexivity.
Qed.

Lemma key_calls_lift (o : DebounceKeyOpts) (k : K) (tr : list (event V)) :
  manager_calls (OnStop o) tr = [] -> key_calls (flat_map (lift_event K V o k) tr) = [].
Proof.
  induction tr as [|e tr IH]; [reflexivity|].
  cbn [flat_map manager_calls]. rewrite key_calls_app.
  destruct e; cbn [lift_event]; try (intros H; now rewrite (IH H));
    try discriminate.
  destruct (OnStop o); [discriminate|]. intros H. now rewrite (IH H).
Qed.

(** A method of the child of [k]: the child is replaced by what the
    method makes of it, and the events are the child's. *)
Lemma on_child_hit (k : K) (f : Debouncer.DM V unit) (m : debouncerByKey K V)
    (n : debouncerNode V) :
  lookup K_eqb k (nodes K V m) = Some n ->
  state_after (on_child K V K_eqb k f) m
  = set_nodes K V (store K_eqb k (mkDebouncerNode V (state_after f (db V n)) (last V n))
                     (nodes K V m)) m
  /\ trace_of (on_child K V K_eqb k f) m
     = flat_map (lift_event K V (opts K V m) k) (trace_of f (db V n)).
Proof.
  intros H. unfold on_child, state_after, trace_of. rewrite H.
  destruct (f (db V n)) as [[u d] tr]. split; reflexivity.
Qed.

Lemma on_child_miss (k : K) (f : Debouncer.DM V unit) (m : debouncerByKey K V) :
  lookup K_eqb k (nodes K V m) = None ->
  state_after (on_child K V K_eqb k f) m = m /\ trace_of (on_child K V K_eqb k f) m = [].
Proof.
  intros H. unfold on_child, state_after, trace_of. rewrite H. split; reflexivity.
Qed.

(** What [on_child k' f] does to the child of [k] and to the calls made
    for [k]. *)
Lemma on_child_at (k k' : K) (f : Debouncer.DM V unit) (m : debouncerByKey K V) :
  let m' := state_after (on_child K V K_eqb k' f) m in
  opts K V m' = opts K V m /\ stop K V m' = stop K V m /\ evicting K V m' = evicting K V m
  /\ map fst (nodes K V m') = map fst (nodes K V m)
  /\ lookup K_eqb k (nodes K V m')
     = (if K_eqb k k'
        then option_map (fun n => mkDebouncerNode V (state_after f (db V n)) (last V n))
               (lookup K_eqb k (nodes K V m))
        else lookup K_eqb k (nodes K V m))
  /\ calls_for K_eqb k (trace_of (on_child K V K_eqb k' f) m)
     = (if K_eqb k k'
        then match lookup K_eqb k (nodes K V m) with
             | Some n => manager_calls (OnStop (opts K V m)) (trace_of f (db V n))
             | None => []
             end
        else []).
Proof.
  cbn zeta. destruct (lookup K_eqb k' (nodes K V m)) as [n|] eqn:E.
  - destruct (on_child_hit k' f m n E) as [S T]. rewrite S, T, calls_for_lift.
    cbn [set_nodes opts stop evicting nodes].
    rewrite (store_keys_present K _ K_eqb K_eqb_spec k' _ n _ E).
    do 4 (split; [reflexivity|]).
    destruct (K_eqb k k') eqn:Ek.
    + apply K_eqb_spec in Ek. subst k'. rewrite E. cbn [option_map].
      split; [apply (lookup_store_same K _ K_eqb K_eqb_spec)|reflexivity].
    + split; [|reflexivity]. apply (lookup_store_other K _ K_eqb K_eqb_spec).
      intros ->. rewrite (K_eqb_refl K K_eqb K_eqb_spec) in Ek. discriminate.
  - destruct (on_child_miss k' f m E) as [S T]. rewrite S, T.
    do 4 (split; [reflexivity|]).
    destruct (K_eqb k k') eqn:Ek.
    + apply K_eqb_spec in Ek. subst k'. rewrite E. split; reflexivity.
    + split; reflexivity.
Qed.

Lemma existsb_head_fresh (k k1 : K) (ks : list K) :
  NoDup (k1 :: ks) -> K_eqb k k1 = true -> existsb (K_eqb k) ks = false.
Proof.
  intros Hnd E. apply K_eqb_spec in E. subst k1.
  inversion Hnd as [|? ? Hnotin _]; subst.
  destruct (existsb (K_eqb k) ks) eqn:Ex; [|reflexivity].
  apply (existsb_keys K K_eqb K_eqb_spec) in Ex. contradiction.
Qed.

(** A method called on the child of every key of [ks]. *)
Lemma for_keys_at (k : K) (f : Debouncer.DM V unit) (ks : list K) (m : debouncerByKey K V) :
  NoDup ks ->
  let m' := state_after (for_keys ks (fun k' => on_child K V K_eqb k' f)) m in
  opts K V m' = opts K V m /\ stop K V m' = stop K V m /\ evicting K V m' = evicting K V m
  /\ map fst (nodes K V m') = map fst (nodes K V m)
  /\ lookup K_eqb k (nodes K V m')
     = (if existsb (K_eqb k) ks
        then option_map (fun n => mkDebouncerNode V (state_after f (db V n)) (last V n))
               (lookup K_eqb k (nodes K V m))
        else lookup K_eqb k (nodes K V m))
  /\ calls_for K_eqb k (trace_of (for_keys ks (fun k' => on_child K V K_eqb k' f)) m)
     = (if existsb (K_eqb k) ks
        then match lookup K_eqb k (nodes K V m) with
             | Some n => manager_calls (OnStop (opts K V m)) (trace_of f (db V n))
             | None => []
             end
        else []).
Proof.
  revert m. induction ks as [|k1 ks IH]; intros m Hnd; cbn zeta.
  - repeat split.
  - cbn [for_keys existsb]. step_trace. rewrite calls_for_app.
    destruct (on_child_at k k1 f m) as (O1 & S1 & E1 & K1 & L1 & C1).
    assert (Hnd' : NoDup ks) by now inversion Hnd.
    destruct (IH (state_after (on_child K V K_eqb k1 f) m) Hnd')
      as (O2 & S2 & E2 & K2 & L2 & C2).
    rewrite O2, S2, E2, K2, L2, C2, O1, S1, E1, K1, L1, C1.
    do 4 (split; [reflexivity|]).
    destruct (K_eqb k k1) eqn:Ek; cbn [orb].
    + rewrite (existsb_head_fresh k k1 ks Hnd Ek).
      split; [reflexivity|]. now rewrite app_nil_r.
    + split; reflexivity.
Qed.

(** One turn of the loop of [evictor], for the key [k1]. *)
Lemma evict_key_at (cut : Z) (k k1 : K) (m : debouncerByKey K V) :
  NoDup (map fst (nodes K V m)) ->
  let body :=
    (s <- get ;;
     match lookup K_eqb k1 (nodes K V s) with
     | Some n =>
         if last V n <? cut then
           on_child K V K_eqb k1 (Debouncer.Stop V) ;;
           s' <- get ;;
           modify (set_nodes K V (delete K_eqb k1 (nodes K V s')))
         else ret tt
     | None => ret tt
     end) in
  let m' := state_after body m in
  opts K V m' = opts K V m /\ stop K V m' = stop K V m /\ evicting K V m' = evicting K V m
  /\ NoDup (map fst (nodes K V m'))
  /\ lookup K_eqb k (nodes K V m')
     = (if K_eqb k k1
        then match lookup K_eqb k (nodes K V m) with
             | Some n => if last V n <? cut then None else Some n
             | None => None
             end
        else lookup K_eqb k (nodes K V m))
  /\ calls_for K_eqb k (trace_of body m)
     = (if K_eqb k k1
        then match lookup K_eqb k (nodes K V m) with
             | Some n => if last V n <? cut
                         then manager_calls (OnStop (opts K V m))
                                (trace_of (Debouncer.Stop V) (db V n))
                         else []
             | None => []
             end
        else []).
Proof.
  intros Hnd. cbn zeta. step_trace.
  destruct (lookup K_eqb k1 (nodes K V m)) as [n|] eqn:E.
  - destruct (last V n <? cut) eqn:Ec.
    + repeat step_trace. rewrite app_nil_r.
      destruct (on_child_at k k1 (Debouncer.Stop V) m) as (O1 & S1 & E1 & K1 & L1 & C1).
      cbn [set_nodes opts stop evicting nodes]. rewrite O1, S1, E1, C1.
      do 3 (split; [reflexivity|]).
      assert (Hnd1 : NoDup (map fst (nodes K V
                        (state_after (on_child K V K_eqb k1 (Debouncer.Stop V)) m))))
        by now rewrite K1.
      split; [now apply delete_keys_NoDup|].
      destruct (K_eqb k k1) eqn:Ek.
      * apply K_eqb_spec in Ek. subst k1. rewrite E, Ec.
        split; [|reflexivity].
        now apply (lookup_delete_same K _ K_eqb K_eqb_spec).
      * split; [|reflexivity].
        rewrite (lookup_delete_other K _ K_eqb K_eqb_spec), L1, ?Ek; [reflexivity|].
        intros ->. rewrite (K_eqb_refl K K_eqb K_eqb_spec) in Ek. discriminate.
    + step_trace. do 3 (split; [reflexivity|]). split; [assumption|].
      destruct (K_eqb k k1) eqn:Ek; [|split; reflexivity].
      apply K_eqb_spec in Ek. subst k1. rewrite E, Ec. split; reflexivity.
  - step_trace. do 3 (split; [reflexivity|]). split; [assumption|].
    destruct (K_eqb k k1) eqn:Ek; [|split; reflexivity].
    apply K_eqb_spec in Ek. subst k1. rewrite E. split; reflexivity.
Qed.

Local Notation evict_body cut :=
  (fun k1 =>
     s <- get ;;
     match lookup K_eqb k1 (nodes K V s) with
     | Some n =>
         if last V n <? cut then
           on_child K V K_eqb k1 (Debouncer.Stop V) ;;
           s' <- get ;;
           modify (set_nodes K V (delete K_eqb k1 (nodes K V s')))
         else ret tt
     | None => ret tt
     end).



(** What the methods of a child do, as the manager needs it. *)
Ltac child_steps :=
  cbv [Debouncer.Trigger Debouncer.Flush Debouncer.Stop Debouncer.timerLoop
       Debouncer.maxLoop Debouncer.resetTimerLocked Debouncer.resetMaxLocked
       Debouncer.stopTimerLocked Debouncer.lock Debouncer.unlock state_after trace_of when
       bind get modify emit ret Debouncer.set_timer Debouncer.set_maxTimer
       Debouncer.set_last Debouncer.set_pending Debouncer.set_stopped
       Debouncer.opts Debouncer.timer_ Debouncer.maxTimer Debouncer.last
       Debouncer.pending Debouncer.stopped Debouncer.timerLoopStarted
       Debouncer.maxLoopStarted Debouncer.Wait Debouncer.Leading Debouncer.Trailing
       Debouncer.MaxWait Debouncer.StopMode_ Debouncer.OnStop fst snd app].

Ltac split_conditions :=
  repeat match goal with
         | |- context [if ?b then _ else _] => destruct b
         | |- context [match ?x with TimerNil => _ | _ => _ end] => destruct x
         end.

Lemma child_no_onStop (b : bool) (f : Debouncer.DM V unit) (d : Debouncer.debouncer V) :
  is_quiet_method f ->
  manager_calls b (trace_of f d) = callbacks (trace_of f d).
Proof.
  destruct d as [[w ld trl mw md os] tm mt l p s ls ms].
  intros [ [v ->] | [ -> | [ -> | -> ] ] ]; child_steps; split_conditions; reflexivity.
Qed.

Lemma stopped_child_quiet (b : bool) (f : Debouncer.DM V unit) (d : Debouncer.debouncer V) :
  is_quiet_method f \/ f = Debouncer.Stop V ->
  Debouncer.stopped V d = true ->
  state_after f d = d /\ manager_calls b (trace_of f d) = [].
Proof.
  destruct d as [[w ld trl mw md os] tm mt l p s ls ms]. cbn [Debouncer.stopped].
  intros [ [ [v ->] | [ -> | [ -> | -> ] ] ] | -> ] ->; split; reflexivity.
Qed.

Lemma Stop_stops (d : Debouncer.debouncer V) :
  Debouncer.stopped V (state_after (Debouncer.Stop V) d) = true.
Proof.
  destruct d as [[w ld trl mw md os] tm mt l p s ls ms].
  destruct s; [reflexivity|]. child_steps. split_conditions; reflexivity.
Qed.

Lemma fresh_idle (o : Debouncer.DebounceOpts) (d0 : Debouncer.debouncer V)
    (f : Debouncer.DM V unit) :
  Debouncer.NewDebouncer V zero o = Some d0 ->
  f = Debouncer.Flush V \/ f = Debouncer.timerLoop V \/ f = Debouncer.maxLoop V ->
  state_after f d0 = d0 /\ callbacks (trace_of f d0) = [].
Proof.
  destruct o as [w ld trl mw md os].
  unfold Debouncer.NewDebouncer. cbn [Debouncer.Wait Debouncer.Leading Debouncer.Trailing].
  destruct (w <=? 0); [discriminate|].
  intros E. injection E as <-.
  intros [ -> | [ -> | -> ] ]; destruct ld, trl; split; reflexivity.
Qed.

End DebouncerKeys.

Section DebouncerManagerRuns.
Import Flow FlowByKey FlowByKey.DebouncerByKey.
Variables K V : Type.
Variable K_eqb : K -> K -> bool.
Variable zero : V.
Hypothesis K_eqb_spec : forall a b, K_eqb a b = true <-> a = b.

Ltac step_trace :=
  rewrite ?bind_trace_of, ?bind_get_trace, ?bind_state_after, ?bind_get_state,
    ?state_after_emit, ?trace_of_emit, ?state_after_modify, ?trace_of_modify,
    ?state_after_ret, ?trace_of_ret.

(** A [Trigger] on a live manager, seen from the key [k]; [d0] is the
    child a new key gets. *)
Lemma Trigger_at (now : Z) (k k1 : K) (v : V) (m : debouncerByKey K V)
    (d0 : Debouncer.debouncer V) :
  stop K V m = false ->
  (lookup K_eqb k1 (nodes K V m) = None ->
   Debouncer.NewDebouncer V zero (child_opts (opts K V m)) = Some d0) ->
  NoDup (map fst (nodes K V m)) ->
  let c := match lookup K_eqb k1 (nodes K V m) with Some n => db V n | None => d0 end in
  let m' := state_after (Trigger K V K_eqb zero now k1 v) m in
  opts K V m' = opts K V m /\ stop K V m' = false
  /\ NoDup (map fst (nodes K V m'))
  /\ lookup K_eqb k (nodes K V m')
     = (if K_eqb k k1
        then Some (mkDebouncerNode V (state_after (Debouncer.Trigger V v) c) now)
        else lookup K_eqb k (nodes K V m))
  /\ calls_for K_eqb k (trace_of (Trigger K V K_eqb zero now k1 v) m)
     = (if K_eqb k k1
        then manager_calls (OnStop (opts K V m)) (trace_of (Debouncer.Trigger V v) c)
        else []).
Proof.
  intros Hs Hnew Hnd. cbn zeta. unfold Trigger, lock, unlock.
  step_trace. rewrite Hs.
  assert (Step : forall c0,
    c0 = match lookup K_eqb k1 (nodes K V m) with Some n => db V n | None => d0 end ->
    let body :=
      (modify (set_nodes K V (store K_eqb k1 (mkDebouncerNode V c0 now) (nodes K V m))) ;;
       emit MUnlock ;; on_child K V K_eqb k1 (Debouncer.Trigger V v)) in
    opts K V (state_after body m) = opts K V m /\ stop K V (state_after body m) = false
    /\ NoDup (map fst (nodes K V (state_after body m)))
    /\ lookup K_eqb k (nodes K V (state_after body m))
       = (if K_eqb k k1
          then Some (mkDebouncerNode V (state_after (Debouncer.Trigger V v) c0) now)
          else lookup K_eqb k (nodes K V m))
    /\ calls_for K_eqb k ([MLock] ++ trace_of body m)
       = (if K_eqb k k1
          then manager_calls (OnStop (opts K V m)) (trace_of (Debouncer.Trigger V v) c0)
          else [])).
  { intros c0 _. cbn zeta. repeat step_trace.
    set (m1 := set_nodes K V (store K_eqb k1 (mkDebouncerNode V c0 now) (nodes K V m)) m).
    destruct (on_child_at K V K_eqb K_eqb_spec k k1 (Debouncer.Trigger V v) m1)
      as (O1 & S1 & _ & K1 & L1 & C1).
    rewrite O1, S1, K1, L1. rewrite !calls_for_app, C1.
    subst m1. cbn [set_nodes opts stop nodes].
    split; [reflexivity|]. split; [exact Hs|].
    split; [now apply store_keys_NoDup|].
    destruct (K_eqb k k1) eqn:Ek.
    - apply K_eqb_spec in Ek. subst k1.
      rewrite (lookup_store_same K _ K_eqb K_eqb_spec). cbn [option_map db last].
      split; reflexivity.
    - split; [|reflexivity]. apply (lookup_store_other K _ K_eqb K_eqb_spec).
      intros ->. rewrite (K_eqb_refl K K_eqb K_eqb_spec) in Ek. discriminate. }
  destruct (lookup K_eqb k1 (nodes K V m)) as [n1|] eqn:E1.
  - exact (Step (db V n1) eq_refl).
  - rewrite (Hnew eq_refl). exact (Step d0 eq_refl).
Qed.

Local Notation all_stopped m :=
  (forall k n, lookup K_eqb k (nodes K V m) = Some n ->
               Debouncer.stopped V (db V n) = true).

Lemma calls_for_nil_all (tr : list (mevent K V)) :
  (forall k, calls_for K_eqb k tr = []) -> key_calls tr = [].
Proof.
  intros H. destruct (key_calls tr) as [|[k0 e0] r] eqn:E; [reflexivity|].
  specialize (H k0). unfold calls_for in H. rewrite E in H.
  cbn [filter fst] in H. rewrite (K_eqb_refl K K_eqb K_eqb_spec) in H. discriminate.
Qed.

Lemma on_child_frame (k : K) (f : Debouncer.DM V unit) (m : debouncerByKey K V) :
  let m' := state_after (on_child K V K_eqb k f) m in
  opts K V m' = opts K V m /\ stop K V m' = stop K V m /\ evicting K V m' = evicting K V m
  /\ map fst (nodes K V m') = map fst (nodes K V m).
Proof.
  destruct (on_child_at K V K_eqb K_eqb_spec k k f m) as (O & S & E & Ks & _).
  repeat split; assumption.
Qed.

Lemma for_keys_frame (f : Debouncer.DM V unit) (ks : list K) (m : debouncerByKey K V) :
  let m' := state_after (for_keys ks (fun k' => on_child K V K_eqb k' f)) m in
  opts K V m' = opts K V m /\ stop K V m' = stop K V m /\ evicting K V m' = evicting K V m
  /\ map fst (nodes K V m') = map fst (nodes K V m).
Proof.
  revert m. induction ks as [|k1 ks IH]; intros m; cbn zeta; [repeat split|].
  cbn [for_keys]. step_trace.
  destruct (on_child_frame k1 f m) as (O1 & S1 & E1 & K1).
  destruct (IH (state_after (on_child K V K_eqb k1 f) m)) as (O2 & S2 & E2 & K2).
  rewrite O2, S2, E2, K2. repeat split; assumption.
Qed.

Lemma evict_loop_frame (cut : Z) (ks : list K) (m : debouncerByKey K V) :
  NoDup (map fst (nodes K V m)) ->
  let m' :=
    state_after
      (for_keys ks
         (fun k1 =>
            s <- get ;;
            match lookup K_eqb k1 (nodes K V s) with
            | Some n =>
                if last V n <? cut then
                  on_child K V K_eqb k1 (Debouncer.Stop V) ;;
                  s' <- get ;;
                  modify (set_nodes K V (delete K_eqb k1 (nodes K V s')))
                else ret tt
            | None => ret tt
            end)) m in
  NoDup (map fst (nodes K V m')) /\ opts K V m' = opts K V m /\ stop K V m' = stop K V m.
Proof.
  revert m. induction ks as [|k1 ks IH]; intros m Hnd; cbn zeta.
  - repeat split; assumption.
  - cbn [for_keys]. rewrite bind_state_after.
    destruct (evict_key_at K V K_eqb K_eqb_spec cut k1 k1 m Hnd) as (O1 & S1 & _ & N1 & _).
    cbn zeta in O1, S1, N1.
    destruct (IH _ N1) as (N2 & O2 & S2). cbn zeta in N2, O2, S2.
    rewrite O2, S2, O1, S1. repeat split; assumption.
Qed.

Lemma evictor_frame (now : Z) (m : debouncerByKey K V) :
  NoDup (map fst (nodes K V m)) ->
  let m' := state_after (evictor K V K_eqb now) m in
  NoDup (map fst (nodes K V m')) /\ opts K V m' = opts K V m /\ stop K V m' = stop K V m.
Proof.
  intros Hnd. cbn zeta.
  destruct (evicting K V m) eqn:He.
  - destruct (stop K V m) eqn:Hs.
    + unfold evictor, lock, unlock. step_trace. rewrite He. cbn [negb]. step_trace.
      rewrite Hs. repeat step_trace. cbn [set_evicting nodes opts stop].
      repeat split; assumption.
    + unfold evictor, lock, unlock. step_trace. rewrite He. cbn [negb]. step_trace.
      rewrite Hs. repeat step_trace.
      destruct (evict_loop_frame (now - IdleTTL (opts K V m)) (map fst (nodes K V m)) m Hnd)
        as (N & O & S).
      cbn zeta in N, O, S. rewrite O, S. repeat split; assumption.
  - unfold evictor. step_trace. rewrite He. cbn [negb]. step_trace.
    repeat split; assumption.
Qed.

(** Every call keeps the keys of the map apart and the options as they
    are; only [Stop] changes [stop]. *)
Lemma run_op_frame (o : op K V) (m : debouncerByKey K V) :
  NoDup (map fst (nodes K V m)) ->
  let m' := state_after (run_op K V K_eqb zero o) m in
  NoDup (map fst (nodes K V m')) /\ opts K V m' = opts K V m
  /\ (match o with OpStop _ _ => True | _ => stop K V m' = stop K V m end).
Proof.
  intros Hnd. cbn zeta.
  destruct o as [now k v|k| | |now| |k|k]; cbn [run_op].
  - destruct (stop K V m) eqn:Hs.
    { unfold Trigger, lock, unlock. step_trace. rewrite Hs. step_trace.
      repeat split; assumption. }
    destruct (lookup K_eqb k (nodes K V m)) as [n1|] eqn:E1.
    + destruct (Trigger_at now k k v m (db V n1) Hs) as (O & S & N & _);
        [congruence|assumption|].
      repeat split; assumption.
    + destruct (Debouncer.NewDebouncer V zero (child_opts (opts K V m))) as [d0|] eqn:En.
      * destruct (Trigger_at now k k v m d0 Hs) as (O & S & N & _);
          [congruence|assumption|].
        repeat split; assumption.
      * unfold Trigger, lock, unlock. step_trace. rewrite Hs, E1, En. step_trace.
        repeat split; assumption.
  - unfold FlushKey, lock, unlock. repeat step_trace.
    destruct (on_child_frame k (Debouncer.Flush V) m) as (O & S & _ & Ks).
    rewrite Ks, O, S. repeat split; assumption.
  - unfold FlushAll, lock, unlock. repeat step_trace.
    destruct (for_keys_frame (Debouncer.Flush V) (map fst (nodes K V m)) m)
      as (O & S & _ & Ks).
    rewrite Ks, O, S. repeat split; assumption.
  - destruct (stop K V m) eqn:Hs.
    { unfold Stop, lock, unlock. step_trace. rewrite Hs. step_trace.
      repeat split; assumption. }
    unfold Stop, lock, unlock. step_trace. rewrite Hs. repeat step_trace.
    destruct (for_keys_frame (Debouncer.Stop V) (map fst (nodes K V m))
                (set_stop K V true m)) as (O & S & _ & Ks).
    rewrite Ks, O. repeat split; assumption.
  - now apply evictor_frame.
  - unfold evictor_cancelled. step_trace. repeat split; assumption.
  - destruct (on_child_frame k (Debouncer.timerLoop V) m) as (O & S & _ & Ks).
    rewrite Ks, O, S. repeat split; assumption.
  - destruct (on_child_frame k (Debouncer.maxLoop V) m) as (O & S & _ & Ks).
    rewrite Ks, O, S. repeat split; assumption.
Qed.

Lemma run_frame (ops : list (op K V)) (m : debouncerByKey K V) :
  NoDup (map fst (nodes K V m)) ->
  NoDup (map fst (nodes K V (state_after (run K V K_eqb zero ops) m)))
  /\ opts K V (state_after (run K V K_eqb zero ops) m) = opts K V m.
Proof.
  revert m. induction ops as [|o ops IH]; intros m Hnd; [split; [assumption|reflexivity]|].
  cbn [run]. step_trace.
  destruct (run_op_frame o m Hnd) as (N1 & O1 & _).
  destruct (IH _ N1) as (N2 & O2). rewrite O2. split; assumption.
Qed.

(** [Stop] on a live manager stops every child of the map. *)
Lemma Stop_stops_all (m : debouncerByKey K V) :
  stop K V m = false -> NoDup (map fst (nodes K V m)) ->
  let m' := state_after (Stop K V K_eqb) m in
  stop K V m' = true /\ all_stopped m'.
Proof.
  intros Hs Hnd. cbn zeta. unfold Stop, lock, unlock. step_trace. rewrite Hs.
  repeat step_trace.
  destruct (for_keys_frame (Debouncer.Stop V) (map fst (nodes K V m)) (set_stop K V true m))
    as (_ & S & _).
  split; [now rewrite S|].
  intros k n Hl.
  destruct (for_keys_at K V K_eqb K_eqb_spec k (Debouncer.Stop V) (map fst (nodes K V m))
              (set_stop K V true m) Hnd) as (_ & _ & _ & _ & L & _).
  cbn zeta in L. rewrite L in Hl. cbn [set_stop nodes] in Hl.
  destruct (lookup K_eqb k (nodes K V m)) as [n0|] eqn:E0.
  - apply (lookup_some_keys K _ K_eqb K_eqb_spec) in E0.
    apply (existsb_keys K K_eqb K_eqb_spec) in E0. rewrite E0 in Hl.
    cbn [option_map] in Hl. injection Hl as <-. cbn [db]. apply Stop_stops.
  - destruct (existsb (K_eqb k) (map fst (nodes K V m))); discriminate.
Qed.

(** On a stopped manager whose children are stopped no call does
    anything but take and release mutexes. *)
Lemma stopped_manager_quiet (o : op K V) (m : debouncerByKey K V) :
  stop K V m = true -> all_stopped m -> NoDup (map fst (nodes K V m)) ->
  let m' := state_after (run_op K V K_eqb zero o) m in
  stop K V m' = true /\ all_stopped m'
  /\ map fst (nodes K V m') = map fst (nodes K V m)
  /\ key_calls (trace_of (run_op K V K_eqb zero o) m) = [].
Proof.
  intros Hs Hall Hnd. cbn zeta.
  assert (Child : forall k f, is_quiet_method f \/ f = Debouncer.Stop V ->
    let m' := state_after (on_child K V K_eqb k f) m in
    stop K V m' = true /\ all_stopped m'
    /\ map fst (nodes K V m') = map fst (nodes K V m)
    /\ key_calls (trace_of (on_child K V K_eqb k f) m) = []).
  { intros k f Hf. cbn zeta.
    destruct (on_child_frame k f m) as (_ & S & _ & Ks).
    split; [now rewrite S|]. split; [|split; [exact Ks|]].
    - intros k' n Hl.
      destruct (on_child_at K V K_eqb K_eqb_spec k' k f m) as (_ & _ & _ & _ & L & _).
      cbn zeta in L. rewrite L in Hl.
      destruct (K_eqb k' k); [|now apply (Hall k')].
      destruct (lookup K_eqb k' (nodes K V m)) as [n0|] eqn:E0; [|discriminate].
      cbn [option_map] in Hl. injection Hl as <-. cbn [db].
      destruct (stopped_child_quiet V (OnStop (opts K V m)) f (db V n0) Hf (Hall k' n0 E0))
        as [-> _].
      now apply (Hall k').
    - apply calls_for_nil_all. intros k'.
      destruct (on_child_at K V K_eqb K_eqb_spec k' k f m) as (_ & _ & _ & _ & _ & C).
      rewrite C. destruct (K_eqb k' k); [|reflexivity].
      destruct (lookup K_eqb k' (nodes K V m)) as [n0|] eqn:E0; [|reflexivity].
      now destruct (stopped_child_quiet V (OnStop (opts K V m)) f (db V n0) Hf
                      (Hall k' n0 E0)). }
  destruct o as [now k v|k| | |now| |k|k]; cbn [run_op].
  - unfold Trigger, lock, unlock. step_trace. rewrite Hs. step_trace.
    repeat split; assumption.
  - unfold FlushKey, lock, unlock. repeat step_trace.
    destruct (Child k (Debouncer.Flush V)) as (A & B & C & D);
      [left; right; left; reflexivity|].
    rewrite !key_calls_app, D. repeat split; assumption.
  - unfold FlushAll, lock, unlock. repeat step_trace.
    destruct (for_keys_frame (Debouncer.Flush V) (map fst (nodes K V m)) m)
      as (_ & S & _ & Ks).
    split; [now rewrite S|]. split; [|split; [exact Ks|]].
    + intros k' n Hl.
      destruct (for_keys_at K V K_eqb K_eqb_spec k' (Debouncer.Flush V)
                  (map fst (nodes K V m)) m Hnd) as (_ & _ & _ & _ & L & _).
      cbn zeta in L. rewrite L in Hl.
      destruct (existsb (K_eqb k') (map fst (nodes K V m))); [|now apply (Hall k')].
      destruct (lookup K_eqb k' (nodes K V m)) as [n0|] eqn:E0; [|discriminate].
      cbn [option_map] in Hl. injection Hl as <-. cbn [db].
      destruct (stopped_child_quiet V (OnStop (opts K V m)) (Debouncer.Flush V) (db V n0))
        as [-> _]; [left; right; left; reflexivity|now apply (Hall k')|].
      now apply (Hall k').
    + apply calls_for_nil_all. intros k'. rewrite !calls_for_app.
      destruct (for_keys_at K V K_eqb K_eqb_spec k' (Debouncer.Flush V)
                  (map fst (nodes K V m)) m Hnd) as (_ & _ & _ & _ & _ & C).
      rewrite C. cbn.
      destruct (existsb (K_eqb k') (map fst (nodes K V m))); [|reflexivity].
      destruct (lookup K_eqb k' (nodes K V m)) as [n0|] eqn:E0; [|reflexivity].
      destruct (stopped_child_quiet V (OnStop (opts K V m)) (Debouncer.Flush V) (db V n0))
        as [_ ->]; [left; right; left; reflexivity|now apply (Hall k')|reflexivity].
  - unfold Stop, lock, unlock. step_trace. rewrite Hs. step_trace.
    repeat split; assumption.
  - unfold evictor, lock, unlock. step_trace.
    destruct (evicting K V m); cbn [negb]; repeat step_trace; rewrite ?Hs;
      repeat step_trace; cbn [set_evicting stop nodes]; repeat split; assumption.
  - unfold evictor_cancelled. step_trace. cbn [set_evicting stop nodes].
    repeat split; assumption.
  - apply Child. left. right. right. left. reflexivity.
  - apply Child. left. right. right. right. reflexivity.
Qed.

End DebouncerManagerRuns.

Section DebouncerManagerChildren.
Import Flow FlowByKey FlowByKey.DebouncerByKey.
Variables K V : Type.
Variable K_eqb : K -> K -> bool.
Variable zero : V.
Hypothesis K_eqb_spec : forall a b, K_eqb a b = true <-> a = b.

Ltac step_trace :=
  rewrite ?bind_trace_of, ?bind_get_trace, ?bind_state_after, ?bind_get_state,
    ?state_after_emit, ?trace_of_emit, ?state_after_modify, ?trace_of_modify,
    ?state_after_ret, ?trace_of_ret.

(** The children of a live manager are live and carry its stop mode. *)
Local Notation live_children m :=
  (stop K V m = false ->
   forall k n, lookup K_eqb k (nodes K V m) = Some n ->
     Debouncer.stopped V (db V n) = false
     /\ Debouncer.StopMode_ (Debouncer.opts V (db V n)) = StopMode_ (opts K V m)
     /\ Debouncer.OnStop (Debouncer.opts V (db V n)) = true).




End DebouncerManagerChildren.

Section DebouncerManagerView.
Import Flow FlowByKey FlowByKey.DebouncerByKey.
Variables K V : Type.
Variable K_eqb : K -> K -> bool.
Variable zero : V.
Hypothesis K_eqb_spec : forall a b, K_eqb a b = true <-> a = b.

Ltac step_trace :=
  rewrite ?bind_trace_of, ?bind_get_trace, ?bind_state_after, ?bind_get_state,
    ?state_after_emit, ?trace_of_emit, ?state_after_modify, ?trace_of_modify,
    ?state_after_ret, ?trace_of_ret.

(** The child of [k] is in the state [d]; a key without a child stands
    for the debouncer [d0] it will get. *)
Local Notation child_is m k d d0 :=
  (match lookup K_eqb k (nodes K V m) with
   | Some n => db V n = d
   | None => d = d0
   end).

Lemma run_single (x : Debouncer.op V) (d : Debouncer.debouncer V) :
  state_after (Debouncer.run V [x]) d = state_after (Debouncer.run_op V x) d
  /\ trace_of (Debouncer.run V [x]) d = trace_of (Debouncer.run_op V x) d.
Proof.
  cbn [Debouncer.run]. step_trace. now rewrite app_nil_r.
Qed.

Lemma child_view (k k1 : K) (x : Debouncer.op V) (m : debouncerByKey K V)
    (d d0 : Debouncer.debouncer V) :
  x = Debouncer.OpFlush V \/ x = Debouncer.OpTimerTick V \/ x = Debouncer.OpMaxTick V ->
  Debouncer.NewDebouncer V zero (child_opts (opts K V m)) = Some d0 ->
  child_is m k d d0 ->
  let f := Debouncer.run_op V x in
  let xs := if K_eqb k k1 then [x] else [] in
  child_is (state_after (on_child K V K_eqb k1 f) m) k
           (state_after (Debouncer.run V xs) d) d0
  /\ calls_for K_eqb k (trace_of (on_child K V K_eqb k1 f) m)
     = callbacks (trace_of (Debouncer.run V xs) d).
Proof.
  intros Hx Hnew Hc. cbn zeta.
  assert (Hq : is_quiet_method (Debouncer.run_op V x)).
  { destruct Hx as [ -> | [ -> | -> ] ]; cbn [Debouncer.run_op];
      [right; left|right; right; left|right; right; right]; reflexivity. }
  assert (Hi : Debouncer.run_op V x = Debouncer.Flush V
               \/ Debouncer.run_op V x = Debouncer.timerLoop V
               \/ Debouncer.run_op V x = Debouncer.maxLoop V).
  { destruct Hx as [ -> | [ -> | -> ] ]; cbn [Debouncer.run_op]; tauto. }
  destruct (on_child_at K V K_eqb K_eqb_spec k k1 (Debouncer.run_op V x) m)
    as (_ & _ & _ & _ & L & C).
  cbn zeta in L. rewrite L, C.
  destruct (K_eqb k k1); [|split; [exact Hc|reflexivity]].
  destruct (run_single x d) as [-> ->].
  destruct (lookup K_eqb k (nodes K V m)) as [n0|] eqn:E0; cbn [option_map db].
  - subst d. split; [reflexivity|]. now apply child_no_onStop.
  - subst d. destruct (fresh_idle V zero _ d0 _ Hnew Hi) as [-> ->]. split; reflexivity.
Qed.

(** One call of a live manager, seen from the key [k]. *)
Lemma view_step (k : K) (o : op K V) (m : debouncerByKey K V)
    (d d0 : Debouncer.debouncer V) :
  keeps_children o = true -> stop K V m = false ->
  NoDup (map fst (nodes K V m)) ->
  Debouncer.NewDebouncer V zero (child_opts (opts K V m)) = Some d0 ->
  child_is m k d d0 ->
  child_is (state_after (run_op K V K_eqb zero o) m) k
           (state_after (Debouncer.run V (debouncer_view K_eqb k o)) d) d0
  /\ calls_for K_eqb k (trace_of (run_op K V K_eqb zero o) m)
     = callbacks (trace_of (Debouncer.run V (debouncer_view K_eqb k o)) d).
Proof.
  intros Ho Hs Hnd Hnew Hc.
  destruct o as [now k1 v|k1| | |now| |k1|k1]; try discriminate Ho;
    cbn [run_op debouncer_view].
  - destruct (Trigger_at K V K_eqb zero K_eqb_spec now k k1 v m d0 Hs (fun _ => Hnew) Hnd)
      as (_ & _ & _ & L & C).
    cbn zeta in L, C. rewrite L, C.
    destruct (K_eqb k k1) eqn:Ek; [|split; [exact Hc|reflexivity]].
    apply K_eqb_spec in Ek. subst k1.
    destruct (run_single (Debouncer.OpTrigger V v) d) as [-> ->]. cbn [Debouncer.run_op].
    assert (E : match lookup K_eqb k (nodes K V m) with
                | Some n => db V n
                | None => d0
                end = d).
    { destruct (lookup K_eqb k (nodes K V m)); congruence. }
    rewrite E. cbn [db]. split; [reflexivity|].
    apply child_no_onStop. left. now exists v.
  - unfold FlushKey, lock, unlock. repeat step_trace. rewrite !calls_for_app.
    destruct (child_view k k1 (Debouncer.OpFlush V) m d d0) as [A B];
      [tauto|assumption|assumption|].
    cbn zeta in A, B. cbn [Debouncer.run_op] in A, B. rewrite B. split; [exact A|reflexivity].
  - unfold FlushAll, lock, unlock. repeat step_trace. rewrite !calls_for_app.
    destruct (for_keys_at K V K_eqb K_eqb_spec k (Debouncer.Flush V)
                (map fst (nodes K V m)) m Hnd) as (_ & _ & _ & _ & L & C).
    cbn zeta in L. rewrite L, C.
    destruct (run_single (Debouncer.OpFlush V) d) as [-> ->]. cbn [Debouncer.run_op].
    destruct (lookup K_eqb k (nodes K V m)) as [n0|] eqn:E0.
    + pose proof (lookup_some_keys K _ K_eqb K_eqb_spec _ _ _ E0) as Hin.
      apply (existsb_keys K K_eqb K_eqb_spec) in Hin. rewrite Hin.
      cbn [option_map db]. subst d. split; [reflexivity|].
      cbn [calls_for key_calls flat_map filter map app].
      apply child_no_onStop. right. left. reflexivity.
    + subst d.
      destruct (fresh_idle V zero _ d0 (Debouncer.Flush V) Hnew) as [-> ->]; [tauto|].
      destruct (existsb (K_eqb k) (map fst (nodes K V m))); split; reflexivity.
  - unfold evictor_cancelled. step_trace. cbn [set_evicting nodes].
    split; [exact Hc|reflexivity].
  - destruct (child_view k k1 (Debouncer.OpTimerTick V) m d d0) as [A B];
      [tauto|assumption|assumption|].
    split; [exact A|exact B].
  - destruct (child_view k k1 (Debouncer.OpMaxTick V) m d d0) as [A B];
      [tauto|assumption|assumption|].
    split; [exact A|exact B].
Qed.

Lemma view_run (k : K) (ops : list (op K V)) (m : debouncerByKey K V)
    (d d0 : Debouncer.debouncer V) :
  forallb keeps_children ops = true -> stop K V m = false ->
  NoDup (map fst (nodes K V m)) ->
  Debouncer.NewDebouncer V zero (child_opts (opts K V m)) = Some d0 ->
  child_is m k d d0 ->
  calls_for K_eqb k (trace_of (run K V K_eqb zero ops) m)
  = callbacks (trace_of (Debouncer.run V (flat_map (debouncer_view K_eqb k) ops)) d).
Proof.
  revert m d. induction ops as [|o ops IH]; intros m d Hops Hs Hnd Hnew Hc.
  - reflexivity.
  - cbn [forallb] in Hops. apply andb_prop in Hops. destruct Hops as [Ho Hops].
    cbn [run flat_map]. step_trace. rewrite calls_for_app.
    destruct (debouncer_run_app V (debouncer_view K_eqb k o)
                (flat_map (debouncer_view K_eqb k) ops) d) as [-> _].
    destruct (view_step k o m d d0 Ho Hs Hnd Hnew Hc) as [Hc1 ->].
    destruct (run_op_frame K V K_eqb zero K_eqb_spec o m Hnd) as (N1 & O1 & S1).
    assert (Hs1 : stop K V (state_after (run_op K V K_eqb zero o) m) = false).
    { destruct o; try discriminate Ho; congruence. }
    rewrite (IH _ (state_after (Debouncer.run V (debouncer_view K_eqb k o)) d) Hops Hs1 N1);
      [|now rewrite O1|exact Hc1].
    unfold callbacks. now rewrite filter_app.
Qed.

End DebouncerManagerView.

Section DebouncerManagerTheorems.
Import Flow FlowByKey FlowByKey.DebouncerByKey.
Variables K V : Type.
Variable K_eqb : K -> K -> bool.
Variable zero : V.
Hypothesis K_eqb_spec : forall a b, K_eqb a b = true <-> a = b.

Ltac step_trace :=
  rewrite ?bind_trace_of, ?bind_get_trace, ?bind_state_after, ?bind_get_state,
    ?state_after_emit, ?trace_of_emit, ?state_after_modify, ?trace_of_modify,
    ?state_after_ret, ?trace_of_ret.

Lemma NewDebouncerByKey_fresh (o : DebounceKeyOpts) (m0 : debouncerByKey K V) :
  NewDebouncerByKey K V o = Some m0 ->
  stop K V m0 = false /\ nodes K V m0 = []
  /\ IdleTTL (opts K V m0) = IdleTTL o /\ StopMode_ (opts K V m0) = StopMode_ o
  /\ OnStop (opts K V m0) = OnStop o
  /\ exists d0, Debouncer.NewDebouncer V zero (child_opts (opts K V m0)) = Some d0.
Proof.
  destruct o as [w ld trl mw ttl md os]. unfold NewDebouncerByKey.
  cbn [Wait Leading Trailing MaxWait IdleTTL StopMode_ OnStop].
  destruct (w <=? 0) eqn:Ew; [discriminate|].
  intros E. injection E as <-. cbn [stop nodes opts].
  assert (F : forall o', Wait o' = w ->
            exists d0, Debouncer.NewDebouncer V zero (child_opts o') = Some d0).
  { intros o' Hw. unfold Debouncer.NewDebouncer, child_opts. cbn [Debouncer.Wait].
    rewrite Hw, Ew. eauto. }
  destruct ld, trl; cbn; repeat split; apply F; reflexivity.
Qed.

Lemma manager_run_app (a b : list (op K V)) (m : debouncerByKey K V) :
  trace_of (run K V K_eqb zero (a ++ b)) m
  = trace_of (run K V K_eqb zero a) m
    ++ trace_of (run K V K_eqb zero b) (state_after (run K V K_eqb zero a) m)
  /\ state_after (run K V K_eqb zero (a ++ b)) m
     = state_after (run K V K_eqb zero b) (state_after (run K V K_eqb zero a) m).
Proof.
  revert m. induction a as [|o a IH]; intros m; [split; reflexivity|].
  cbn [app run]. rewrite !bind_trace_of, !bind_state_after.
  destruct (IH (state_after (run_op K V K_eqb zero o) m)) as [E1 E2].
  rewrite E1, E2, app_assoc. split; reflexivity.
Qed.

Local Notation all_stopped m :=
  (forall k n, lookup K_eqb k (nodes K V m) = Some n ->
               Debouncer.stopped V (db V n) = true).

Lemma run_stopped_children (ops : list (op K V)) (m : debouncerByKey K V) :
  NoDup (map fst (nodes K V m)) ->
  (stop K V m = true -> all_stopped m) ->
  (stop K V (state_after (run K V K_eqb zero ops) m) = true ->
   all_stopped (state_after (run K V K_eqb zero ops) m)).
Proof.
  revert m. induction ops as [|o ops IH]; intros m Hnd Hinv; [exact Hinv|].
  cbn [run]. rewrite bind_state_after.
  destruct (run_op_frame K V K_eqb zero K_eqb_spec o m Hnd) as (N1 & _ & S1).
  apply IH; [assumption|]. intros Hs1.
  destruct (stop K V m) eqn:Hs.
  - now destruct (stopped_manager_quiet K V K_eqb zero K_eqb_spec o m Hs (Hinv eq_refl) Hnd)
      as (_ & A & _).
  - destruct o; try congruence.
    now destruct (Stop_stops_all K V K_eqb K_eqb_spec m Hs Hnd).
Qed.

Lemma run_stopped_quiet (ops : list (op K V)) (m : debouncerByKey K V) :
  stop K V m = true -> all_stopped m -> NoDup (map fst (nodes K V m)) ->
  key_calls (trace_of (run K V K_eqb zero ops) m) = []
  /\ map fst (nodes K V (state_after (run K V K_eqb zero ops) m)) = map fst (nodes K V m)
  /\ stop K V (state_after (run K V K_eqb zero ops) m) = true.
Proof.
  revert m. induction ops as [|o ops IH]; intros m Hs Hall Hnd.
  - repeat split. assumption.
  - cbn [run]. rewrite bind_trace_of, bind_state_after, key_calls_app.
    destruct (stopped_manager_quiet K V K_eqb zero K_eqb_spec o m Hs Hall Hnd)
      as (S1 & A1 & K1 & C1).
    cbn zeta in S1, A1, K1, C1.
    assert (N1 : NoDup (map fst (nodes K V (state_after (run_op K V K_eqb zero o) m))))
      by now rewrite K1.
    destruct (IH _ S1 A1 N1) as (C2 & K2 & S2).
    rewrite C1, C2, K2, K1. repeat split. assumption.
Qed.

End DebouncerManagerTheorems.

(** X24: the mutex of a [DebouncerByKey]. [Trigger], [FlushKey],
    [FlushAll] and [Stop] release the manager's mutex before they call
    into a child, so no callback of theirs runs with it held. The
    evictor does the opposite: it stops the idle children, and so runs
    their flush and [OnStop] callbacks, while it holds the manager's
    mutex. Both hold from any state. *)
Theorem DebouncerByKey_lock_discipline (K V : Type) (K_eqb : K -> K -> bool) (zero : V)
    (m : FlowByKey.DebouncerByKey.debouncerByKey K V) :
  (forall o,
     match o with
     | FlowByKey.DebouncerByKey.OpEvict _ _ _ => True
     | _ => children_outside_lock false
              (Flow.trace_of (FlowByKey.DebouncerByKey.run_op K V K_eqb zero o) m) = true
     end)
  /\ (forall now,
        children_under_lock false
          (Flow.trace_of (FlowByKey.DebouncerByKey.evictor K V K_eqb now) m) = true).
Proof.
  split.
  - intros o.
    pose proof (public_outside_lock K V K_eqb zero m o) as H.
    destruct o; try exact I; apply H; exact I.
  - intros now. apply evictor_under_lock.
Qed.



(** X26: a stopped [DebouncerByKey]. After [Stop] every child of the
    map is stopped, and whatever is called afterwards ([Trigger], also
    for a new key, [FlushKey], [FlushAll], [Stop], ticks of the evictor
    and of the children's timers) makes no callback and adds no key. *)
Theorem DebouncerByKey_after_Stop (K V : Type) (K_eqb : K -> K -> bool) (zero : V)
    (o : FlowByKey.DebouncerByKey.DebounceKeyOpts)
    (m0 m : FlowByKey.DebouncerByKey.debouncerByKey K V)
    (before after : list (FlowByKey.DebouncerByKey.op K V)) :
  (forall a b, K_eqb a b = true <-> a = b) ->
  FlowByKey.DebouncerByKey.NewDebouncerByKey K V o = Some m0 ->
  m = Flow.state_after
        (FlowByKey.DebouncerByKey.run K V K_eqb zero
           (before ++ [FlowByKey.DebouncerByKey.OpStop K V])) m0 ->
  FlowByKey.DebouncerByKey.stop K V m = true
  /\ (forall k n,
        FlowByKey.lookup K_eqb k (FlowByKey.DebouncerByKey.nodes K V m) = Some n ->
        Flow.Debouncer.stopped V (FlowByKey.DebouncerByKey.db V n) = true)
  /\ key_calls (Flow.trace_of (FlowByKey.DebouncerByKey.run K V K_eqb zero after) m) = []
  /\ map fst (FlowByKey.DebouncerByKey.nodes K V
                (Flow.state_after (FlowByKey.DebouncerByKey.run K V K_eqb zero after) m))
     = map fst (FlowByKey.DebouncerByKey.nodes K V m).
Proof.
  intros Hk Hnew Hm.
  destruct (NewDebouncerByKey_fresh K V zero o m0 Hnew) as (S0 & N0 & _).
  assert (Hnd0 : NoDup (map fst (FlowByKey.DebouncerByKey.nodes K V m0)))
    by (rewrite N0; constructor).
  destruct (run_frame K V K_eqb zero Hk (before ++ [FlowByKey.DebouncerByKey.OpStop K V])
              m0 Hnd0) as (Hnd & _).
  rewrite <- Hm in Hnd.
  assert (Hs : FlowByKey.DebouncerByKey.stop K V m = true).
  { destruct (manager_run_app K V K_eqb zero before [FlowByKey.DebouncerByKey.OpStop K V] m0)
      as [_ E]. rewrite <- Hm in E. rewrite E.
    cbn [FlowByKey.DebouncerByKey.run FlowByKey.DebouncerByKey.run_op].
    rewrite bind_state_after, state_after_ret.
    destruct (run_frame K V K_eqb zero Hk before m0 Hnd0) as (Hnd1 & _).
    destruct (FlowByKey.DebouncerByKey.stop K V
                (Flow.state_after (FlowByKey.DebouncerByKey.run K V K_eqb zero before) m0))
      eqn:Hs1.
    - unfold FlowByKey.DebouncerByKey.Stop, FlowByKey.DebouncerByKey.lock,
        FlowByKey.DebouncerByKey.unlock.
      rewrite bind_state_after, bind_get_state, state_after_emit, Hs1, state_after_emit.
      exact Hs1.
    - now destruct (Stop_stops_all K V K_eqb Hk _ Hs1 Hnd1). }
  assert (Hall : forall k n,
            FlowByKey.lookup K_eqb k (FlowByKey.DebouncerByKey.nodes K V m) = Some n ->
            Flow.Debouncer.stopped V (FlowByKey.DebouncerByKey.db V n) = true).
  { pose proof (run_stopped_children K V K_eqb zero Hk
                  (before ++ [FlowByKey.DebouncerByKey.OpStop K V]) m0 Hnd0) as R.
    rewrite <- Hm in R. apply R; [congruence|exact Hs]. }
  destruct (run_stopped_quiet K V K_eqb zero Hk after m Hs Hall Hnd) as (C & Ks & _).
  repeat split; assumption.
Qed.

Lemma DebouncerByKey_after_Stop_witness :
  key_calls
    (Flow.trace_of
       (FlowByKey.DebouncerByKey.run Z Z Z.eqb 0
          [FlowByKey.DebouncerByKey.OpTrigger Z Z 7 2 20;
           FlowByKey.DebouncerByKey.OpFlushAll Z Z;
           FlowByKey.DebouncerByKey.OpTimerTick Z Z 1])
       (Flow.state_after
          (FlowByKey.DebouncerByKey.run Z Z Z.eqb 0
             ([FlowByKey.DebouncerByKey.OpTrigger Z Z 0 1 10]
              ++ [FlowByKey.DebouncerByKey.OpStop Z Z]))
          evicting_manager)) = [].
Proof.
  destruct (DebouncerByKey_after_Stop Z Z Z.eqb 0 evicting_opts evicting_manager
              (Flow.state_after
                 (FlowByKey.DebouncerByKey.run Z Z Z.eqb 0
                    ([FlowByKey.DebouncerByKey.OpTrigger Z Z 0 1 10]
                     ++ [FlowByKey.DebouncerByKey.OpStop Z Z]))
                 evicting_manager)
              [FlowByKey.DebouncerByKey.OpTrigger Z Z 0 1 10]
              [FlowByKey.DebouncerByKey.OpTrigger Z Z 7 2 20;
               FlowByKey.DebouncerByKey.OpFlushAll Z Z;
               FlowByKey.DebouncerByKey.OpTimerTick Z Z 1])
    as (_ & _ & A & _).
  - apply Z.eqb_eq.
  - reflexivity.
  - reflexivity.
  - exact A.
Defined.

(** X27: a [DebouncerByKey] is a debouncer per key. As long as the
    manager is neither stopped nor evicting, the callbacks it makes for
    a key are those of one debouncer, created with the manager's
    options at the key's first [Trigger], that receives the key's
    [Trigger]s, [FlushKey]s and timer ticks and every [FlushAll];
    calls for other keys do not reach it. *)
Theorem DebouncerByKey_is_a_debouncer_per_key (K V : Type) (K_eqb : K -> K -> bool)
    (zero : V) (o : FlowByKey.DebouncerByKey.DebounceKeyOpts)
    (m0 : FlowByKey.DebouncerByKey.debouncerByKey K V)
    (ops : list (FlowByKey.DebouncerByKey.op K V)) (k : K) :
  (forall a b, K_eqb a b = true <-> a = b) ->
  FlowByKey.DebouncerByKey.NewDebouncerByKey K V o = Some m0 ->
  forallb keeps_children ops = true ->
  exists d0,
    Flow.Debouncer.NewDebouncer V zero
      (FlowByKey.DebouncerByKey.child_opts (FlowByKey.DebouncerByKey.opts K V m0)) = Some d0
    /\ calls_for K_eqb k
         (Flow.trace_of (FlowByKey.DebouncerByKey.run K V K_eqb zero ops) m0)
       = callbacks
           (Flow.trace_of
              (Flow.Debouncer.run V (flat_map (debouncer_view K_eqb k) ops)) d0).
Proof.
  intros Hk Hnew Hops.
  destruct (NewDebouncerByKey_fresh K V zero o m0 Hnew) as (S0 & N0 & _ & _ & _ & d0 & Hd0).
  exists d0. split; [exact Hd0|].
  apply (view_run K V K_eqb zero Hk k ops m0 d0 d0 Hops S0); [|exact Hd0|].
  - rewrite N0. constructor.
  - rewrite N0. reflexivity.
Qed.

Lemma DebouncerByKey_is_a_debouncer_per_key_witness :
  calls_for Z.eqb 1
    (Flow.trace_of
       (FlowByKey.DebouncerByKey.run Z Z Z.eqb 0
          [FlowByKey.DebouncerByKey.OpTrigger Z Z 0 1 10;
           FlowByKey.DebouncerByKey.OpTrigger Z Z 5 2 20;
           FlowByKey.DebouncerByKey.OpTrigger Z Z 6 1 11;
           FlowByKey.DebouncerByKey.OpTimerTick Z Z 1;
           FlowByKey.DebouncerByKey.OpFlushAll Z Z])
       evicting_manager)
  = [Flow.EvCb 11].
Proof.
  destruct (DebouncerByKey_is_a_debouncer_per_key Z Z Z.eqb 0 evicting_opts evicting_manager
              [FlowByKey.DebouncerByKey.OpTrigger Z Z 0 1 10;
               FlowByKey.DebouncerByKey.OpTrigger Z Z 5 2 20;
               FlowByKey.DebouncerByKey.OpTrigger Z Z 6 1 11;
               FlowByKey.DebouncerByKey.OpTimerTick Z Z 1;
               FlowByKey.DebouncerByKey.OpFlushAll Z Z] 1) as (d0 & Hd0 & E).
  - apply Z.eqb_eq.
  - reflexivity.
  - reflexivity.
  - rewrite E. injection Hd0 as <-. reflexivity.
Defined.

(** ** CoalescerByKey *)
Section CoalescerManager.
Import Flow FlowByKey FlowByKey.CoalescerByKey.
Variables K V : Type.
Variable K_eqb : K -> K -> bool.
Variable zero : V.
Variable folder : V -> V -> V.

Lemma ck_lift_event_children (o : CoalesceKeyOpts) (k : K) (tr : list (event V)) :
  Forall is_child_event (flat_map (lift_event K V o k) tr).
Proof.
  induction tr as [|e tr IH]; [constructor|].
  cbn [flat_map]. apply Forall_app. split; [|exact IH].
  destruct e; cbn; try (constructor; [exact I|constructor]).
  destruct (OnStop o); constructor; [exact I|constructor].
Qed.

Lemma ck_on_child_children (k : K) (f : Coalescer.CM V unit) (m : coalescerByKey K V) :
  Forall is_child_event (trace_of (on_child K V K_eqb k f) m).
Proof.
  unfold on_child, trace_of. destruct (lookup K_eqb k (nodes K V m)) as [n|]; [|constructor].
  destruct (f (c V n)) as [[u d] tr]. cbn [snd]. apply ck_lift_event_children.
Qed.


Ltac step_trace :=
  rewrite ?bind_trace_of, ?bind_get_trace, ?bind_state_after, ?bind_get_state,
    ?state_after_emit, ?trace_of_emit, ?state_after_modify, ?trace_of_modify,
    ?state_after_ret, ?trace_of_ret.

Lemma ck_public_outside_lock (m : coalescerByKey K V) (o : op K V) :
  match o with OpEvict _ _ _ => False | _ => True end ->
  children_outside_lock false (trace_of (run_op K V K_eqb zero folder o) m) = true.
Proof.
  intros Ho. destruct o as [now k v|k| | |now| |k|k]; try contradiction; cbn [run_op].
  - unfold Add, lock, unlock. step_trace.
    destruct (stop K V m); [reflexivity|].
    destruct (lookup K_eqb k (nodes K V m)) as [n|].
    + repeat step_trace. cbn [app children_outside_lock].
      apply children_only_outside, ck_on_child_children.
    + destruct (Coalescer.NewCoalescer V zero (Window (opts K V m)) [child_opts (opts K V m)]); [|reflexivity].
      repeat step_trace. cbn [app children_outside_lock].
      apply children_only_outside, ck_on_child_children.
  - unfold FlushKey, lock, unlock. repeat step_trace.
    cbn [app children_outside_lock].
    apply children_only_outside, ck_on_child_children.
  - unfold FlushAll, lock, unlock. repeat step_trace.
    cbn [app children_outside_lock].
    apply children_only_outside, for_keys_children. intros; apply ck_on_child_children.
  - unfold Stop, lock, unlock. step_trace.
    destruct (stop K V m); [reflexivity|].
    repeat step_trace. cbn [app children_outside_lock].
    apply children_only_outside, for_keys_children. intros; apply ck_on_child_children.
  - reflexivity.
  - apply children_only_outside, ck_on_child_children.
  - apply children_only_outside, ck_on_child_children.
Qed.


End CoalescerManager.

Section CoalescerKeys.
Import Flow FlowByKey FlowByKey.CoalescerByKey.
Variables K V : Type.
Variable K_eqb : K -> K -> bool.
Variable zero : V.
Variable folder : V -> V -> V.
Hypothesis K_eqb_spec : forall a b, K_eqb a b = true <-> a = b.

Ltac step_trace :=
  rewrite ?bind_trace_of, ?bind_get_trace, ?bind_state_after, ?bind_get_state,
    ?state_after_emit, ?trace_of_emit, ?state_after_modify, ?trace_of_modify,
    ?state_after_ret, ?trace_of_ret.

Lemma ck_calls_for_lift (o : CoalesceKeyOpts) (k k' : K) (tr : list (event V)) :
  calls_for K_eqb k (flat_map (lift_event K V o k') tr)
  = if K_eqb k k' then manager_calls (OnStop o) tr else [].
Proof.
  induction tr as [|e tr IH].
  - now destruct (K_eqb k k').
  - cbn [flat_map]. rewrite calls_for_app, IH.
    unfold calls_for, key_calls, manager_calls.
    destruct e; cbn [lift_event flat_map app filter map fst snd];
      try (destruct (OnStop o); cbn [flat_map app filter map fst snd]);
      destruct (K_eqb k k'); reflexivity.
Qed.

Lemma ck_key_calls_lift (o : CoalesceKeyOpts) (k : K) (tr : list (event V)) :
  manager_calls (OnStop o) tr = [] -> key_calls (flat_map (lift_event K V o k) tr) = [].
Proof.
  induction tr as [|e tr IH]; [reflexivity|].
  cbn [flat_map manager_calls]. rewrite key_calls_app.
  destruct e; cbn [lift_event]; try (intros H; now rewrite (IH H));
    try discriminate.
  destruct (OnStop o); [discriminate|]. intros H. now rewrite (IH H).
Qed.

(** A method of the child of [k]: the child is replaced by what the
    method makes of it, and the events are the child's. *)
Lemma ck_on_child_hit (k : K) (f : Coalescer.CM V unit) (m : coalescerByKey K V)
    (n : coalesceNode V) :
  lookup K_eqb k (nodes K V m) = Some n ->
  state_after (on_child K V K_eqb k f) m
  = set_nodes K V (store K_eqb k (mkCoalesceNode V (state_after f (c V n)) (last V n))
                     (nodes K V m)) m
  /\ trace_of (on_child K V K_eqb k f) m
     = flat_map (lift_event K V (opts K V m) k) (trace_of f (c V n)).
Proof.
  intros H. unfold on_child, state_after, trace_of. rewrite H.
  destruct (f (c V n)) as [[u d] tr]. split; reflexivity.
Qed.

Lemma ck_on_child_miss (k : K) (f : Coalescer.CM V unit) (m : coalescerByKey K V) :
  lookup K_eqb k (nodes K V m) = None ->
  state_after (on_child K V K_eqb k f) m = m /\ trace_of (on_child K V K_eqb k f) m = [].
Proof.
  intros H. unfold on_child, state_after, trace_of. rewrite H. split; reflexivity.
Qed.

(** What [on_child k' f] does to the child of [k] and to the calls made
    for [k]. *)
Lemma ck_on_child_at (k k' : K) (f : Coalescer.CM V unit) (m : coalescerByKey K V) :
  let m' := state_after (on_child K V K_eqb k' f) m in
  opts K V m' = opts K V m /\ stop K V m' = stop K V m /\ evicting K V m' = evicting K V m
  /\ map fst (nodes K V m') = map fst (nodes K V m)
  /\ lookup K_eqb k (nodes K V m')
     = (if K_eqb k k'
        then option_map (fun n => mkCoalesceNode V (state_after f (c V n)) (last V n))
               (lookup K_eqb k (nodes K V m))
        else lookup K_eqb k (nodes K V m))
  /\ calls_for K_eqb k (trace_of (on_child K V K_eqb k' f) m)
     = (if K_eqb k k'
        then match lookup K_eqb k (nodes K V m) with
             | Some n => manager_calls (OnStop (opts K V m)) (trace_of f (c V n))
             | None => []
             end
        else []).
Proof.
  cbn zeta. destruct (lookup K_eqb k' (nodes K V m)) as [n|] eqn:E.
  - destruct (ck_on_child_hit k' f m n E) as [S T]. rewrite S, T, ck_calls_for_lift.
    cbn [set_nodes opts stop evicting nodes].
    rewrite (store_keys_present K _ K_eqb K_eqb_spec k' _ n _ E).
    do 4 (split; [reflexivity|]).
    destruct (K_eqb k k') eqn:Ek.
    + apply K_eqb_spec in Ek. subst k'. rewrite E. cbn [option_map].
      split; [apply (lookup_store_same K _ K_eqb K_eqb_spec)|reflexivity].
    + split; [|reflexivity]. apply (lookup_store_other K _ K_eqb K_eqb_spec).
      intros ->. rewrite (K_eqb_refl K K_eqb K_eqb_spec) in Ek. discriminate.
  - destruct (ck_on_child_miss k' f m E) as [S T]. rewrite S, T.
    do 4 (split; [reflexivity|]).
    destruct (K_eqb k k') eqn:Ek.
    + apply K_eqb_spec in Ek. subst k'. rewrite E. split; reflexivity.
    + split; reflexivity.
Qed.

(** A method called on the child of every key of [ks]. *)
Lemma ck_for_keys_at (k : K) (f : Coalescer.CM V unit) (ks : list K) (m : coalescerByKey K V) :
  NoDup ks ->
  let m' := state_after (for_keys ks (fun k' => on_child K V K_eqb k' f)) m in
  opts K V m' = opts K V m /\ stop K V m' = stop K V m /\ evicting K V m' = evicting K V m
  /\ map fst (nodes K V m') = map fst (nodes K V m)
  /\ lookup K_eqb k (nodes K V m')
     = (if existsb (K_eqb k) ks
        then option_map (fun n => mkCoalesceNode V (state_after f (c V n)) (last V n))
               (lookup K_eqb k (nodes K V m))
        else lookup K_eqb k (nodes K V m))
  /\ calls_for K_eqb k (trace_of (for_keys ks (fun k' => on_child K V K_eqb k' f)) m)
     = (if existsb (K_eqb k) ks
        then match lookup K_eqb k (nodes K V m) with
             | Some n => manager_calls (OnStop (opts K V m)) (trace_of f (c V n))
             | None => []
             end
        else []).
Proof.
  revert m. induction ks as [|k1 ks IH]; intros m Hnd; cbn zeta.
  - repeat split.
  - cbn [for_keys existsb]. step_trace. rewrite calls_for_app.
    destruct (ck_on_child_at k k1 f m) as (O1 & S1 & E1 & K1 & L1 & C1).
    assert (Hnd' : NoDup ks) by now inversion Hnd.
    destruct (IH (state_after (on_child K V K_eqb k1 f) m) Hnd')
      as (O2 & S2 & E2 & K2 & L2 & C2).
    rewrite O2, S2, E2, K2, L2, C2, O1, S1, E1, K1, L1, C1.
    do 4 (split; [reflexivity|]).
    destruct (K_eqb k k1) eqn:Ek; cbn [orb].
    + rewrite (existsb_head_fresh K K_eqb K_eqb_spec k k1 ks Hnd Ek).
      split; [reflexivity|]. now rewrite app_nil_r.
    + split; reflexivity.
Qed.

(** One turn of the loop of [evictor], for the key [k1]. *)
Lemma ck_evict_key_at (cut : Z) (k k1 : K) (m : coalescerByKey K V) :
  NoDup (map fst (nodes K V m)) ->
  let body :=
    (s <- get ;;
     match lookup K_eqb k1 (nodes K V s) with
     | Some n =>
         if last V n <? cut then
           on_child K V K_eqb k1 (Coalescer.Stop V) ;;
           s' <- get ;;
           modify (set_nodes K V (delete K_eqb k1 (nodes K V s')))
         else ret tt
     | None => ret tt
     end) in
  let m' := state_after body m in
  opts K V m' = opts K V m /\ stop K V m' = stop K V m /\ evicting K V m' = evicting K V m
  /\ NoDup (map fst (nodes K V m'))
  /\ lookup K_eqb k (nodes K V m')
     = (if K_eqb k k1
        then match lookup K_eqb k (nodes K V m) with
             | Some n => if last V n <? cut then None else Some n
             | None => None
             end
        else lookup K_eqb k (nodes K V m))
  /\ calls_for K_eqb k (trace_of body m)
     = (if K_eqb k k1
        then match lookup K_eqb k (nodes K V m) with
             | Some n => if last V n <? cut
                         then manager_calls (OnStop (opts K V m))
                                (trace_of (Coalescer.Stop V) (c V n))
                         else []
             | None => []
             end
        else []).
Proof.
  intros Hnd. cbn zeta. step_trace.
  destruct (lookup K_eqb k1 (nodes K V m)) as [n|] eqn:E.
  - destruct (last V n <? cut) eqn:Ec.
    + repeat step_trace. rewrite app_nil_r.
      destruct (ck_on_child_at k k1 (Coalescer.Stop V) m) as (O1 & S1 & E1 & K1 & L1 & C1).
      cbn [set_nodes opts stop evicting nodes]. rewrite O1, S1, E1, C1.
      do 3 (split; [reflexivity|]).
      assert (Hnd1 : NoDup (map fst (nodes K V
                        (state_after (on_child K V K_eqb k1 (Coalescer.Stop V)) m))))
        by now rewrite K1.
      split; [now apply delete_keys_NoDup|].
      destruct (K_eqb k k1) eqn:Ek.
      * apply K_eqb_spec in Ek. subst k1. rewrite E, Ec.
        split; [|reflexivity].
        now apply (lookup_delete_same K _ K_eqb K_eqb_spec).
      * split; [|reflexivity].
        rewrite (lookup_delete_other K _ K_eqb K_eqb_spec), L1, ?Ek; [reflexivity|].
        intros ->. rewrite (K_eqb_refl K K_eqb K_eqb_spec) in Ek. discriminate.
    + step_trace. do 3 (split; [reflexivity|]). split; [assumption|].
      destruct (K_eqb k k1) eqn:Ek; [|split; reflexivity].
      apply K_eqb_spec in Ek. subst k1. rewrite E, Ec. split; reflexivity.
  - step_trace. do 3 (split; [reflexivity|]). split; [assumption|].
    destruct (K_eqb k k1) eqn:Ek; [|split; reflexivity].
    apply K_eqb_spec in Ek. subst k1. rewrite E. split; reflexivity.
Qed.

Local Notation evict_body cut :=
  (fun k1 =>
     s <- get ;;
     match lookup K_eqb k1 (nodes K V s) with
     | Some n =>
         if last V n <? cut then
           on_child K V K_eqb k1 (Coalescer.Stop V) ;;
           s' <- get ;;
           modify (set_nodes K V (delete K_eqb k1 (nodes K V s')))
         else ret tt
     | None => ret tt
     end).

Lemma ck_evict_loop_at (cut : Z) (k : K) (ks : list K) (m : coalescerByKey K V) :
  NoDup ks -> NoDup (map fst (nodes K V m)) ->
  let m' := state_after (for_keys ks (evict_body cut)) m in
  opts K V m' = opts K V m /\ stop K V m' = stop K V m /\ evicting K V m' = evicting K V m
  /\ NoDup (map fst (nodes K V m'))
  /\ lookup K_eqb k (nodes K V m')
     = (if existsb (K_eqb k) ks
        then match lookup K_eqb k (nodes K V m) with
             | Some n => if last V n <? cut then None else Some n
             | None => None
             end
        else lookup K_eqb k (nodes K V m))
  /\ calls_for K_eqb k (trace_of (for_keys ks (evict_body cut)) m)
     = (if existsb (K_eqb k) ks
        then match lookup K_eqb k (nodes K V m) with
             | Some n => if last V n <? cut
                         then manager_calls (OnStop (opts K V m))
                                (trace_of (Coalescer.Stop V) (c V n))
                         else []
             | None => []
             end
        else []).
Proof.
  revert m. induction ks as [|k1 ks IH]; intros m Hks Hnd; cbn zeta.
  - repeat split. assumption.
  - cbn [for_keys existsb]. rewrite bind_trace_of, bind_state_after, calls_for_app.
    destruct (ck_evict_key_at cut k k1 m Hnd) as (O1 & S1 & E1 & N1 & L1 & C1).
    cbn zeta in O1, S1, E1, N1, L1, C1.
    assert (Hks' : NoDup ks) by now inversion Hks.
    destruct (IH _ Hks' N1) as (O2 & S2 & E2 & N2 & L2 & C2).
    cbn zeta in O2, S2, E2, N2, L2, C2.
    rewrite O2, S2, E2, L2, C2, O1, S1, E1, L1, C1.
    do 3 (split; [reflexivity|]). split; [exact N2|].
    destruct (K_eqb k k1) eqn:Ek; cbn [orb].
    + rewrite (existsb_head_fresh K K_eqb K_eqb_spec k k1 ks Hks Ek).
      split; [reflexivity|]. now rewrite app_nil_r.
    + split; reflexivity.
Qed.

(** A tick of the evictor of a live manager, seen from the key [k]. *)
Lemma ck_evictor_at (now : Z) (k : K) (m : coalescerByKey K V) :
  evicting K V m = true -> stop K V m = false -> NoDup (map fst (nodes K V m)) ->
  let m' := state_after (evictor K V K_eqb now) m in
  let cut := now - IdleTTL (opts K V m) in
  opts K V m' = opts K V m /\ stop K V m' = false
  /\ NoDup (map fst (nodes K V m'))
  /\ lookup K_eqb k (nodes K V m')
     = match lookup K_eqb k (nodes K V m) with
       | Some n => if last V n <? cut then None else Some n
       | None => None
       end
  /\ calls_for K_eqb k (trace_of (evictor K V K_eqb now) m)
     = match lookup K_eqb k (nodes K V m) with
       | Some n => if last V n <? cut
                   then manager_calls (OnStop (opts K V m))
                          (trace_of (Coalescer.Stop V) (c V n))
                   else []
       | None => []
       end.
Proof.
  intros He Hs Hnd. cbn zeta. unfold evictor, lock, unlock.
  step_trace. rewrite He. cbn [negb]. step_trace. rewrite Hs. repeat step_trace.
  rewrite !calls_for_app.
  destruct (ck_evict_loop_at (now - IdleTTL (opts K V m)) k (map fst (nodes K V m)) m Hnd Hnd)
    as (O & S & E & N & L & C).
  cbn zeta in O, S, E, N, L, C. rewrite O, S, L, C, Hs.
  do 2 (split; [reflexivity|]). split; [exact N|].
  destruct (lookup K_eqb k (nodes K V m)) as [n|] eqn:El.
  - apply (lookup_some_keys K _ K_eqb K_eqb_spec) in El.
    apply (existsb_keys K K_eqb K_eqb_spec) in El. rewrite El.
    split; [reflexivity|]. cbn. now rewrite app_nil_r.
  - destruct (existsb (K_eqb k) (map fst (nodes K V m))); split; reflexivity.
Qed.

(** What the methods of a child do, as the manager needs it. *)
Ltac child_steps :=
  cbv [Coalescer.Add Coalescer.Flush Coalescer.Stop Coalescer.loop
       Coalescer.loop_cancelled Coalescer.stopTimerLocked Coalescer.lock Coalescer.unlock
       state_after trace_of when bind get modify emit ret Coalescer.set_timer
       Coalescer.set_acc Coalescer.set_hasAcc Coalescer.set_stopped Coalescer.set_looping
       Coalescer.window Coalescer.timer_ Coalescer.acc Coalescer.hasAcc Coalescer.stopped
       Coalescer.stopMode Coalescer.onStop Coalescer.looping fst snd app negb orb].

Ltac split_conditions :=
  repeat match goal with
         | |- context [if ?b then _ else _] => destruct b
         | |- context [match ?x with TimerNil => _ | _ => _ end] => destruct x
         end.

Lemma ck_child_no_onStop (b : bool) (f : Coalescer.CM V unit) (d : Coalescer.coalescer V) :
  is_quiet_coalescer_method folder f ->
  manager_calls b (trace_of f d) = callbacks (trace_of f d).
Proof.
  destruct d as [w tm a h s md os lp].
  intros [ [v ->] | [ -> | [ -> | -> ] ] ]; child_steps; split_conditions; reflexivity.
Qed.

Lemma ck_stopped_child_quiet (b : bool) (f : Coalescer.CM V unit) (d : Coalescer.coalescer V) :
  is_quiet_coalescer_method folder f \/ f = Coalescer.Stop V ->
  Coalescer.stopped V d = true ->
  Coalescer.stopped V (state_after f d) = true /\ manager_calls b (trace_of f d) = [].
Proof.
  destruct d as [w tm a h s md os lp]. cbn [Coalescer.stopped].
  intros [ [ [v ->] | [ -> | [ -> | -> ] ] ] | -> ] ->; destruct lp; split; reflexivity.
Qed.

Lemma ck_Stop_stops (d : Coalescer.coalescer V) :
  Coalescer.stopped V (state_after (Coalescer.Stop V) d) = true.
Proof.
  destruct d as [w tm a h s md os lp].
  destruct s; [reflexivity|]. child_steps. split_conditions; reflexivity.
Qed.

(** The callbacks of [Stop] on a live coalescer, as its manager passes
    them on. *)
Lemma ck_Stop_calls (b : bool) (d : Coalescer.coalescer V) :
  Coalescer.stopped V d = false ->
  manager_calls b (trace_of (Coalescer.Stop V) d)
  = (if flush_mode (Coalescer.stopMode V d) && Coalescer.hasAcc V d
     then [EvCb (Coalescer.acc V d)] else [])
    ++ (if callback_mode (Coalescer.stopMode V d) && Coalescer.onStop V d && b
        then [EvOnStop (Coalescer.acc V d)] else []).
Proof.
  destruct d as [w tm a h s md os lp]. cbn [Coalescer.stopped]. intros ->.
  destruct md, h, os, tm, b; reflexivity.
Qed.

Lemma ck_fresh_idle (w : Z) (o : list Coalescer.CoalesceOpts) (d0 : Coalescer.coalescer V)
    (f : Coalescer.CM V unit) :
  Coalescer.NewCoalescer V zero w o = Some d0 ->
  f = Coalescer.Flush V \/ f = Coalescer.loop V \/ f = Coalescer.loop_cancelled V ->
  state_after f d0 = d0 /\ callbacks (trace_of f d0) = [].
Proof.
  unfold Coalescer.NewCoalescer.
  destruct (w <=? 0); [discriminate|].
  intros E. injection E as <-.
  intros [ -> | [ -> | -> ] ]; split; reflexivity.
Qed.

End CoalescerKeys.

Section CoalescerManagerRuns.
Import Flow FlowByKey FlowByKey.CoalescerByKey.
Variables K V : Type.
Variable K_eqb : K -> K -> bool.
Variable zero : V.
Variable folder : V -> V -> V.
Hypothesis K_eqb_spec : forall a b, K_eqb a b = true <-> a = b.

Ltac step_trace :=
  rewrite ?bind_trace_of, ?bind_get_trace, ?bind_state_after, ?bind_get_state,
    ?state_after_emit, ?trace_of_emit, ?state_after_modify, ?trace_of_modify,
    ?state_after_ret, ?trace_of_ret.

(** An [Add] on a live manager, seen from the key [k]; [d0] is the
    child a new key gets. *)
Lemma ck_Add_at (now : Z) (k k1 : K) (v : V) (m : coalescerByKey K V)
    (d0 : Coalescer.coalescer V) :
  stop K V m = false ->
  (lookup K_eqb k1 (nodes K V m) = None ->
   Coalescer.NewCoalescer V zero (Window (opts K V m)) [child_opts (opts K V m)] = Some d0) ->
  NoDup (map fst (nodes K V m)) ->
  let c := match lookup K_eqb k1 (nodes K V m) with Some n => c V n | None => d0 end in
  let m' := state_after (Add K V K_eqb zero folder now k1 v) m in
  opts K V m' = opts K V m /\ stop K V m' = false
  /\ NoDup (map fst (nodes K V m'))
  /\ lookup K_eqb k (nodes K V m')
     = (if K_eqb k k1
        then Some (mkCoalesceNode V (state_after (Coalescer.Add V folder v) c) now)
        else lookup K_eqb k (nodes K V m))
  /\ calls_for K_eqb k (trace_of (Add K V K_eqb zero folder now k1 v) m)
     = (if K_eqb k k1
        then manager_calls (OnStop (opts K V m)) (trace_of (Coalescer.Add V folder v) c)
        else []).
Proof.
  intros Hs Hnew Hnd. cbn zeta. unfold Add, lock, unlock.
  step_trace. rewrite Hs.
  assert (Step : forall c0,
    c0 = match lookup K_eqb k1 (nodes K V m) with Some n => c V n | None => d0 end ->
    let body :=
      (modify (set_nodes K V (store K_eqb k1 (mkCoalesceNode V c0 now) (nodes K V m))) ;;
       emit MUnlock ;; on_child K V K_eqb k1 (Coalescer.Add V folder v)) in
    opts K V (state_after body m) = opts K V m /\ stop K V (state_after body m) = false
    /\ NoDup (map fst (nodes K V (state_after body m)))
    /\ lookup K_eqb k (nodes K V (state_after body m))
       = (if K_eqb k k1
          then Some (mkCoalesceNode V (state_after (Coalescer.Add V folder v) c0) now)
          else lookup K_eqb k (nodes K V m))
    /\ calls_for K_eqb k ([MLock] ++ trace_of body m)
       = (if K_eqb k k1
          then manager_calls (OnStop (opts K V m)) (trace_of (Coalescer.Add V folder v) c0)
          else [])).
  { intros c0 _. cbn zeta. repeat step_trace.
    set (m1 := set_nodes K V (store K_eqb k1 (mkCoalesceNode V c0 now) (nodes K V m)) m).
    destruct (ck_on_child_at K V K_eqb K_eqb_spec k k1 (Coalescer.Add V folder v) m1)
      as (O1 & S1 & _ & K1 & L1 & C1).
    rewrite O1, S1, K1, L1. rewrite !calls_for_app, C1.
    subst m1. cbn [set_nodes opts stop nodes].
    split; [reflexivity|]. split; [exact Hs|].
    split; [now apply store_keys_NoDup|].
    destruct (K_eqb k k1) eqn:Ek.
    - apply K_eqb_spec in Ek. subst k1.
      rewrite (lookup_store_same K _ K_eqb K_eqb_spec). cbn [option_map c last].
      split; reflexivity.
    - split; [|reflexivity]. apply (lookup_store_other K _ K_eqb K_eqb_spec).
      intros ->. rewrite (K_eqb_refl K K_eqb K_eqb_spec) in Ek. discriminate. }
  destruct (lookup K_eqb k1 (nodes K V m)) as [n1|] eqn:E1.
  - exact (Step (c V n1) eq_refl).
  - rewrite (Hnew eq_refl). exact (Step d0 eq_refl).
Qed.

Local Notation all_stopped m :=
  (forall k n, lookup K_eqb k (nodes K V m) = Some n ->
               Coalescer.stopped V (c V n) = true).

Lemma ck_on_child_frame (k : K) (f : Coalescer.CM V unit) (m : coalescerByKey K V) :
  let m' := state_after (on_child K V K_eqb k f) m in
  opts K V m' = opts K V m /\ stop K V m' = stop K V m /\ evicting K V m' = evicting K V m
  /\ map fst (nodes K V m') = map fst (nodes K V m).
Proof.
  destruct (ck_on_child_at K V K_eqb K_eqb_spec k k f m) as (O & S & E & Ks & _).
  repeat split; assumption.
Qed.

Lemma ck_for_keys_frame (f : Coalescer.CM V unit) (ks : list K) (m : coalescerByKey K V) :
  let m' := state_after (for_keys ks (fun k' => on_child K V K_eqb k' f)) m in
  opts K V m' = opts K V m /\ stop K V m' = stop K V m /\ evicting K V m' = evicting K V m
  /\ map fst (nodes K V m') = map fst (nodes K V m).
Proof.
  revert m. induction ks as [|k1 ks IH]; intros m; cbn zeta; [repeat split|].
  cbn [for_keys]. step_trace.
  destruct (ck_on_child_frame k1 f m) as (O1 & S1 & E1 & K1).
  destruct (IH (state_after (on_child K V K_eqb k1 f) m)) as (O2 & S2 & E2 & K2).
  rewrite O2, S2, E2, K2. repeat split; assumption.
Qed.

Lemma ck_evict_loop_frame (cut : Z) (ks : list K) (m : coalescerByKey K V) :
  NoDup (map fst (nodes K V m)) ->
  let m' :=
    state_after
      (for_keys ks
         (fun k1 =>
            s <- get ;;
            match lookup K_eqb k1 (nodes K V s) with
            | Some n =>
                if last V n <? cut then
                  on_child K V K_eqb k1 (Coalescer.Stop V) ;;
                  s' <- get ;;
                  modify (set_nodes K V (delete K_eqb k1 (nodes K V s')))
                else ret tt
            | None => ret tt
            end)) m in
  NoDup (map fst (nodes K V m')) /\ opts K V m' = opts K V m /\ stop K V m' = stop K V m.
Proof.
  revert m. induction ks as [|k1 ks IH]; intros m Hnd; cbn zeta.
  - repeat split; assumption.
  - cbn [for_keys]. rewrite bind_state_after.
    destruct (ck_evict_key_at K V K_eqb K_eqb_spec cut k1 k1 m Hnd) as (O1 & S1 & _ & N1 & _).
    cbn zeta in O1, S1, N1.
    destruct (IH _ N1) as (N2 & O2 & S2). cbn zeta in N2, O2, S2.
    rewrite O2, S2, O1, S1. repeat split; assumption.
Qed.

Lemma ck_evictor_frame (now : Z) (m : coalescerByKey K V) :
  NoDup (map fst (nodes K V m)) ->
  let m' := state_after (evictor K V K_eqb now) m in
  NoDup (map fst (nodes K V m')) /\ opts K V m' = opts K V m /\ stop K V m' = stop K V m.
Proof.
  intros Hnd. cbn zeta.
  destruct (evicting K V m) eqn:He.
  - destruct (stop K V m) eqn:Hs.
    + unfold evictor, lock, unlock. step_trace. rewrite He. cbn [negb]. step_trace.
      rewrite Hs. repeat step_trace. cbn [set_evicting nodes opts stop].
      repeat split; assumption.
    + unfold evictor, lock, unlock. step_trace. rewrite He. cbn [negb]. step_trace.
      rewrite Hs. repeat step_trace.
      destruct (ck_evict_loop_frame (now - IdleTTL (opts K V m)) (map fst (nodes K V m)) m Hnd)
        as (N & O & S).
      cbn zeta in N, O, S. rewrite O, S. repeat split; assumption.
  - unfold evictor. step_trace. rewrite He. cbn [negb]. step_trace.
    repeat split; assumption.
Qed.

(** Every call keeps the keys of the map apart and the options as they
    are; only [Stop] changes [stop]. *)
Lemma ck_run_op_frame (o : op K V) (m : coalescerByKey K V) :
  NoDup (map fst (nodes K V m)) ->
  let m' := state_after (run_op K V K_eqb zero folder o) m in
  NoDup (map fst (nodes K V m')) /\ opts K V m' = opts K V m
  /\ (match o with OpStop _ _ => True | _ => stop K V m' = stop K V m end).
Proof.
  intros Hnd. cbn zeta.
  destruct o as [now k v|k| | |now| |k|k]; cbn [run_op].
  - destruct (stop K V m) eqn:Hs.
    { unfold Add, lock, unlock. step_trace. rewrite Hs. step_trace.
      repeat split; assumption. }
    destruct (lookup K_eqb k (nodes K V m)) as [n1|] eqn:E1.
    + destruct (ck_Add_at now k k v m (c V n1) Hs) as (O & S & N & _);
        [congruence|assumption|].
      repeat split; assumption.
    + destruct (Coalescer.NewCoalescer V zero (Window (opts K V m)) [child_opts (opts K V m)]) as [d0|] eqn:En.
      * destruct (ck_Add_at now k k v m d0 Hs) as (O & S & N & _);
          [congruence|assumption|].
        repeat split; assumption.
      * unfold Add, lock, unlock. step_trace. rewrite Hs, E1, En. step_trace.
        repeat split; assumption.
  - unfold FlushKey, lock, unlock. repeat step_trace.
    destruct (ck_on_child_frame k (Coalescer.Flush V) m) as (O & S & _ & Ks).
    rewrite Ks, O, S. repeat split; assumption.
  - unfold FlushAll, lock, unlock. repeat step_trace.
    destruct (ck_for_keys_frame (Coalescer.Flush V) (map fst (nodes K V m)) m)
      as (O & S & _ & Ks).
    rewrite Ks, O, S. repeat split; assumption.
  - destruct (stop K V m) eqn:Hs.
    { unfold Stop, lock, unlock. step_trace. rewrite Hs. step_trace.
      repeat split; assumption. }
    unfold Stop, lock, unlock. step_trace. rewrite Hs. repeat step_trace.
    destruct (ck_for_keys_frame (Coalescer.Stop V) (map fst (nodes K V m))
                (set_stop K V true m)) as (O & S & _ & Ks).
    rewrite Ks, O. repeat split; assumption.
  - now apply ck_evictor_frame.
  - unfold evictor_cancelled. step_trace. repeat split; assumption.
  - destruct (ck_on_child_frame k (Coalescer.loop V) m) as (O & S & _ & Ks).
    rewrite Ks, O, S. repeat split; assumption.
  - destruct (ck_on_child_frame k (Coalescer.loop_cancelled V) m) as (O & S & _ & Ks).
    rewrite Ks, O, S. repeat split; assumption.
Qed.

Lemma ck_run_frame (ops : list (op K V)) (m : coalescerByKey K V) :
  NoDup (map fst (nodes K V m)) ->
  NoDup (map fst (nodes K V (state_after (run K V K_eqb zero folder ops) m)))
  /\ opts K V (state_after (run K V K_eqb zero folder ops) m) = opts K V m.
Proof.
  revert m. induction ops as [|o ops IH]; intros m Hnd; [split; [assumption|reflexivity]|].
  cbn [run]. step_trace.
  destruct (ck_run_op_frame o m Hnd) as (N1 & O1 & _).
  destruct (IH _ N1) as (N2 & O2). rewrite O2. split; assumption.
Qed.

(** [Stop] on a live manager stops every child of the map. *)
Lemma ck_Stop_stops_all (m : coalescerByKey K V) :
  stop K V m = false -> NoDup (map fst (nodes K V m)) ->
  let m' := state_after (Stop K V K_eqb) m in
  stop K V m' = true /\ all_stopped m'.
Proof.
  intros Hs Hnd. cbn zeta. unfold Stop, lock, unlock. step_trace. rewrite Hs.
  repeat step_trace.
  destruct (ck_for_keys_frame (Coalescer.Stop V) (map fst (nodes K V m)) (set_stop K V true m))
    as (_ & S & _).
  split; [now rewrite S|].
  intros k n Hl.
  destruct (ck_for_keys_at K V K_eqb K_eqb_spec k (Coalescer.Stop V) (map fst (nodes K V m))
              (set_stop K V true m) Hnd) as (_ & _ & _ & _ & L & _).
  cbn zeta in L. rewrite L in Hl. cbn [set_stop nodes] in Hl.
  destruct (lookup K_eqb k (nodes K V m)) as [n0|] eqn:E0.
  - apply (lookup_some_keys K _ K_eqb K_eqb_spec) in E0.
    apply (existsb_keys K K_eqb K_eqb_spec) in E0. rewrite E0 in Hl.
    cbn [option_map] in Hl. injection Hl as <-. cbn [c]. apply ck_Stop_stops.
  - destruct (existsb (K_eqb k) (map fst (nodes K V m))); discriminate.
Qed.

(** On a stopped manager whose children are stopped no call does
    anything but take and release mutexes. *)
Lemma ck_stopped_manager_quiet (o : op K V) (m : coalescerByKey K V) :
  stop K V m = true -> all_stopped m -> NoDup (map fst (nodes K V m)) ->
  let m' := state_after (run_op K V K_eqb zero folder o) m in
  stop K V m' = true /\ all_stopped m'
  /\ map fst (nodes K V m') = map fst (nodes K V m)
  /\ key_calls (trace_of (run_op K V K_eqb zero folder o) m) = [].
Proof.
  intros Hs Hall Hnd. cbn zeta.
  assert (Child : forall k f, is_quiet_coalescer_method folder f \/ f = Coalescer.Stop V ->
    let m' := state_after (on_child K V K_eqb k f) m in
    stop K V m' = true /\ all_stopped m'
    /\ map fst (nodes K V m') = map fst (nodes K V m)
    /\ key_calls (trace_of (on_child K V K_eqb k f) m) = []).
  { intros k f Hf. cbn zeta.
    destruct (ck_on_child_frame k f m) as (_ & S & _ & Ks).
    split; [now rewrite S|]. split; [|split; [exact Ks|]].
    - intros k' n Hl.
      destruct (ck_on_child_at K V K_eqb K_eqb_spec k' k f m) as (_ & _ & _ & _ & L & _).
      cbn zeta in L. rewrite L in Hl.
      destruct (K_eqb k' k); [|now apply (Hall k')].
      destruct (lookup K_eqb k' (nodes K V m)) as [n0|] eqn:E0; [|discriminate].
      cbn [option_map] in Hl. injection Hl as <-. cbn [c].
      now destruct (ck_stopped_child_quiet V folder (OnStop (opts K V m)) f (c V n0) Hf
                      (Hall k' n0 E0)).
    - apply (calls_for_nil_all K V K_eqb K_eqb_spec). intros k'.
      destruct (ck_on_child_at K V K_eqb K_eqb_spec k' k f m) as (_ & _ & _ & _ & _ & C).
      rewrite C. destruct (K_eqb k' k); [|reflexivity].
      destruct (lookup K_eqb k' (nodes K V m)) as [n0|] eqn:E0; [|reflexivity].
      now destruct (ck_stopped_child_quiet V folder (OnStop (opts K V m)) f (c V n0) Hf
                      (Hall k' n0 E0)). }
  destruct o as [now k v|k| | |now| |k|k]; cbn [run_op].
  - unfold Add, lock, unlock. step_trace. rewrite Hs. step_trace.
    repeat split; assumption.
  - unfold FlushKey, lock, unlock. repeat step_trace.
    destruct (Child k (Coalescer.Flush V)) as (A & B & C & D);
      [left; right; left; reflexivity|].
    rewrite !key_calls_app, D. repeat split; assumption.
  - unfold FlushAll, lock, unlock. repeat step_trace.
    destruct (ck_for_keys_frame (Coalescer.Flush V) (map fst (nodes K V m)) m)
      as (_ & S & _ & Ks).
    split; [now rewrite S|]. split; [|split; [exact Ks|]].
    + intros k' n Hl.
      destruct (ck_for_keys_at K V K_eqb K_eqb_spec k' (Coalescer.Flush V)
                  (map fst (nodes K V m)) m Hnd) as (_ & _ & _ & _ & L & _).
      cbn zeta in L. rewrite L in Hl.
      destruct (existsb (K_eqb k') (map fst (nodes K V m))); [|now apply (Hall k')].
      destruct (lookup K_eqb k' (nodes K V m)) as [n0|] eqn:E0; [|discriminate].
      cbn [option_map] in Hl. injection Hl as <-. cbn [c].
      destruct (ck_stopped_child_quiet V folder (OnStop (opts K V m)) (Coalescer.Flush V)
                  (c V n0)) as [S' _]; [left; right; left; reflexivity|now apply (Hall k')|].
      exact S'.
    + apply (calls_for_nil_all K V K_eqb K_eqb_spec). intros k'. rewrite !calls_for_app.
      destruct (ck_for_keys_at K V K_eqb K_eqb_spec k' (Coalescer.Flush V)
                  (map fst (nodes K V m)) m Hnd) as (_ & _ & _ & _ & _ & C).
      rewrite C. cbn.
      destruct (existsb (K_eqb k') (map fst (nodes K V m))); [|reflexivity].
      destruct (lookup K_eqb k' (nodes K V m)) as [n0|] eqn:E0; [|reflexivity].
      destruct (ck_stopped_child_quiet V folder (OnStop (opts K V m)) (Coalescer.Flush V)
                  (c V n0)) as [_ ->]; [left; right; left; reflexivity|now apply (Hall k')|reflexivity].
  - unfold Stop, lock, unlock. step_trace. rewrite Hs. step_trace.
    repeat split; assumption.
  - unfold evictor, lock, unlock. step_trace.
    destruct (evicting K V m); cbn [negb]; repeat step_trace; rewrite ?Hs;
      repeat step_trace; cbn [set_evicting stop nodes]; repeat split; assumption.
  - unfold evictor_cancelled. step_trace. cbn [set_evicting stop nodes].
    repeat split; assumption.
  - apply Child. left. right. right. left. reflexivity.
  - apply Child. left. right. right. right. reflexivity.
Qed.

End CoalescerManagerRuns.

Section CoalescerManagerChildren.
Import Flow FlowByKey FlowByKey.CoalescerByKey.
Variables K V : Type.
Variable K_eqb : K -> K -> bool.
Variable zero : V.
Variable folder : V -> V -> V.
Hypothesis K_eqb_spec : forall a b, K_eqb a b = true <-> a = b.

Ltac step_trace :=
  rewrite ?bind_trace_of, ?bind_get_trace, ?bind_state_after, ?bind_get_state,
    ?state_after_emit, ?trace_of_emit, ?state_after_modify, ?trace_of_modify,
    ?state_after_ret, ?trace_of_ret.

(** The children of a live manager are live and carry its stop mode. *)
Local Notation live_children m :=
  (stop K V m = false ->
   forall k n, lookup K_eqb k (nodes K V m) = Some n ->
     Coalescer.stopped V (c V n) = false
     /\ Coalescer.stopMode V (c V n) = StopMode_ (opts K V m)
     /\ Coalescer.onStop V (c V n) = true).

Lemma ck_quiet_method_live (f : Coalescer.CM V unit) (d : Coalescer.coalescer V) :
  is_quiet_coalescer_method folder f -> Coalescer.stopped V d = false ->
  Coalescer.stopped V (state_after f d) = false
  /\ Coalescer.stopMode V (state_after f d) = Coalescer.stopMode V d
  /\ Coalescer.onStop V (state_after f d) = Coalescer.onStop V d.
Proof.
  intros Hf Hs.
  assert (R : forall o, is_coalescer_stop o = false ->
            Coalescer.stopped V (state_after (Coalescer.run_op V folder o) d) = false
            /\ Coalescer.stopMode V (state_after (Coalescer.run_op V folder o) d)
               = Coalescer.stopMode V d
            /\ Coalescer.onStop V (state_after (Coalescer.run_op V folder o) d)
               = Coalescer.onStop V d).
  { intros o Ho.
    destruct (run_op_stale V folder d o (Coalescer.acc V d) Hs Ho (fun _ => eq_refl))
      as (A & B & C & _).
    repeat split; assumption. }
  destruct Hf as [ [v ->] | [ -> | [ -> | -> ] ] ].
  - exact (R (Coalescer.OpAdd V v) eq_refl).
  - exact (R (Coalescer.OpFlush V) eq_refl).
  - exact (R (Coalescer.OpTick V) eq_refl).
  - exact (R (Coalescer.OpCancel V) eq_refl).
Qed.

Lemma ck_run_op_live_children (o : op K V) (m : coalescerByKey K V) :
  NoDup (map fst (nodes K V m)) ->
  live_children m -> live_children (state_after (run_op K V K_eqb zero folder o) m).
Proof.
  intros Hnd Hlive Hs' k n Hl.
  destruct (ck_run_op_frame K V K_eqb zero folder K_eqb_spec o m Hnd) as (_ & O & St).
  rewrite O.
  assert (Child : forall k1 f, is_quiet_coalescer_method folder f -> stop K V m = false ->
            forall n', lookup K_eqb k (nodes K V (state_after (on_child K V K_eqb k1 f) m))
                       = Some n' ->
            Coalescer.stopped V (c V n') = false
            /\ Coalescer.stopMode V (c V n') = StopMode_ (opts K V m)
            /\ Coalescer.onStop V (c V n') = true).
  { intros k1 f Hf Hs n' Hl'.
    destruct (ck_on_child_at K V K_eqb K_eqb_spec k k1 f m) as (_ & _ & _ & _ & L & _).
    cbn zeta in L. rewrite L in Hl'.
    destruct (K_eqb k k1); [|now apply (Hlive Hs k)].
    destruct (lookup K_eqb k (nodes K V m)) as [n0|] eqn:E0; [|discriminate].
    cbn [option_map] in Hl'. injection Hl' as <-. cbn [c].
    destruct (Hlive Hs k n0 E0) as (A & B & C).
    destruct (ck_quiet_method_live f (c V n0) Hf A) as (A' & -> & ->).
    repeat split; assumption. }
  destruct o as [now k1 v|k1| | |now| |k1|k1]; cbn [run_op] in *.
  - assert (Hs : stop K V m = false) by congruence.
    destruct (lookup K_eqb k1 (nodes K V m)) as [n1|] eqn:E1.
    + destruct (ck_Add_at K V K_eqb zero folder K_eqb_spec now k k1 v m (c V n1) Hs)
        as (_ & _ & _ & L & _); [congruence|assumption|].
      cbn zeta in L. rewrite L, E1 in Hl.
      destruct (K_eqb k k1) eqn:Ek; [|now apply (Hlive Hs k)].
      injection Hl as <-. cbn [c].
      destruct (Hlive Hs k1 n1 E1) as (A & B & C).
      destruct (ck_quiet_method_live (Coalescer.Add V folder v) (c V n1)) as (A' & -> & ->);
        [left; now exists v|assumption|]. repeat split; assumption.
    + destruct (Coalescer.NewCoalescer V zero (Window (opts K V m)) [child_opts (opts K V m)]) as [d0|] eqn:En.
      * destruct (ck_Add_at K V K_eqb zero folder K_eqb_spec now k k1 v m d0 Hs)
          as (_ & _ & _ & L & _); [congruence|assumption|].
        cbn zeta in L. rewrite L, E1 in Hl.
        destruct (K_eqb k k1) eqn:Ek; [|now apply (Hlive Hs k)].
        injection Hl as <-. cbn [c].
        destruct (NewCoalescer_fresh V zero _ _ d0 En) as (A & _ & _ & B & C).
        cbn [hd child_opts Coalescer.StopMode_ Coalescer.OnStop] in B, C.
        destruct (ck_quiet_method_live (Coalescer.Add V folder v) d0) as (A' & -> & ->);
          [left; now exists v|assumption|]. repeat split; assumption.
      * revert Hl. unfold Add, lock, unlock. step_trace. rewrite Hs, E1, En.
        step_trace. now apply (Hlive Hs k).
  - assert (Hs : stop K V m = false) by congruence.
    revert Hl. unfold FlushKey, lock, unlock. repeat step_trace.
    apply (Child k1 (Coalescer.Flush V)); [right; left; reflexivity|assumption].
  - assert (Hs : stop K V m = false) by congruence.
    revert Hl. unfold FlushAll, lock, unlock. repeat step_trace.
    destruct (ck_for_keys_at K V K_eqb K_eqb_spec k (Coalescer.Flush V)
                (map fst (nodes K V m)) m Hnd) as (_ & _ & _ & _ & L & _).
    cbn zeta in L. rewrite L. intros Hl.
    destruct (existsb (K_eqb k) (map fst (nodes K V m))); [|now apply (Hlive Hs k)].
    destruct (lookup K_eqb k (nodes K V m)) as [n0|] eqn:E0; [|discriminate].
    cbn [option_map] in Hl. injection Hl as <-. cbn [c].
    destruct (Hlive Hs k n0 E0) as (A & B & C).
    destruct (ck_quiet_method_live (Coalescer.Flush V) (c V n0)) as (A' & -> & ->);
      [right; left; reflexivity|assumption|]. repeat split; assumption.
  - exfalso. destruct (stop K V m) eqn:Hs.
    + revert Hs'. unfold Stop, lock, unlock. step_trace. rewrite Hs. step_trace.
      congruence.
    + destruct (ck_Stop_stops_all K V K_eqb K_eqb_spec m Hs Hnd) as [A _]. congruence.
  - assert (Hs : stop K V m = false) by congruence.
    destruct (evicting K V m) eqn:He.
    + destruct (ck_evictor_at K V K_eqb K_eqb_spec now k m He Hs Hnd) as (_ & _ & _ & L & _).
      cbn zeta in L. rewrite L in Hl.
      destruct (lookup K_eqb k (nodes K V m)) as [n0|] eqn:E0; [|discriminate].
      destruct (last V n0 <? now - IdleTTL (opts K V m)); [discriminate|].
      injection Hl as <-. now apply (Hlive Hs k).
    + revert Hl. unfold evictor. step_trace. rewrite He. cbn [negb]. step_trace.
      now apply (Hlive Hs k).
  - assert (Hs : stop K V m = false) by congruence.
    revert Hl. unfold evictor_cancelled. step_trace. cbn [set_evicting nodes].
    now apply (Hlive Hs k).
  - assert (Hs : stop K V m = false) by congruence.
    revert Hl. apply (Child k1 (Coalescer.loop V)); [right; right; left; reflexivity|assumption].
  - assert (Hs : stop K V m = false) by congruence.
    revert Hl. apply (Child k1 (Coalescer.loop_cancelled V)); [right; right; right; reflexivity|assumption].
Qed.

Lemma ck_run_live_children (ops : list (op K V)) (m : coalescerByKey K V) :
  NoDup (map fst (nodes K V m)) ->
  live_children m -> live_children (state_after (run K V K_eqb zero folder ops) m).
Proof.
  revert m. induction ops as [|o ops IH]; intros m Hnd Hlive; [exact Hlive|].
  cbn [run]. rewrite bind_state_after.
  destruct (ck_run_op_frame K V K_eqb zero folder K_eqb_spec o m Hnd) as (N1 & _).
  apply IH; [assumption|]. now apply ck_run_op_live_children.
Qed.

End CoalescerManagerChildren.

Section CoalescerManagerView.
Import Flow FlowByKey FlowByKey.CoalescerByKey.
Variables K V : Type.
Variable K_eqb : K -> K -> bool.
Variable zero : V.
Variable folder : V -> V -> V.
Hypothesis K_eqb_spec : forall a b, K_eqb a b = true <-> a = b.

Ltac step_trace :=
  rewrite ?bind_trace_of, ?bind_get_trace, ?bind_state_after, ?bind_get_state,
    ?state_after_emit, ?trace_of_emit, ?state_after_modify, ?trace_of_modify,
    ?state_after_ret, ?trace_of_ret.

(** The child of [k] is in the state [d]; a key without a child stands
    for the coalescer [d0] it will get. *)
Local Notation child_is m k d d0 :=
  (match lookup K_eqb k (nodes K V m) with
   | Some n => c V n = d
   | None => d = d0
   end).

Lemma ck_run_single (x : Coalescer.op V) (d : Coalescer.coalescer V) :
  state_after (Coalescer.run V folder [x]) d = state_after (Coalescer.run_op V folder x) d
  /\ trace_of (Coalescer.run V folder [x]) d = trace_of (Coalescer.run_op V folder x) d.
Proof.
  cbn [Coalescer.run]. step_trace. now rewrite app_nil_r.
Qed.

Lemma ck_child_view (k k1 : K) (x : Coalescer.op V) (m : coalescerByKey K V)
    (d d0 : Coalescer.coalescer V) :
  x = Coalescer.OpFlush V \/ x = Coalescer.OpTick V \/ x = Coalescer.OpCancel V ->
  Coalescer.NewCoalescer V zero (Window (opts K V m)) [child_opts (opts K V m)] = Some d0 ->
  child_is m k d d0 ->
  let f := Coalescer.run_op V folder x in
  let xs := if K_eqb k k1 then [x] else [] in
  child_is (state_after (on_child K V K_eqb k1 f) m) k
           (state_after (Coalescer.run V folder xs) d) d0
  /\ calls_for K_eqb k (trace_of (on_child K V K_eqb k1 f) m)
     = callbacks (trace_of (Coalescer.run V folder xs) d).
Proof.
  intros Hx Hnew Hc. cbn zeta.
  assert (Hq : is_quiet_coalescer_method folder (Coalescer.run_op V folder x)).
  { destruct Hx as [ -> | [ -> | -> ] ]; cbn [Coalescer.run_op];
      [right; left|right; right; left|right; right; right]; reflexivity. }
  assert (Hi : Coalescer.run_op V folder x = Coalescer.Flush V
               \/ Coalescer.run_op V folder x = Coalescer.loop V
               \/ Coalescer.run_op V folder x = Coalescer.loop_cancelled V).
  { destruct Hx as [ -> | [ -> | -> ] ]; cbn [Coalescer.run_op]; tauto. }
  destruct (ck_on_child_at K V K_eqb K_eqb_spec k k1 (Coalescer.run_op V folder x) m)
    as (_ & _ & _ & _ & L & C).
  cbn zeta in L. rewrite L, C.
  destruct (K_eqb k k1); [|split; [exact Hc|reflexivity]].
  destruct (ck_run_single x d) as [-> ->].
  destruct (lookup K_eqb k (nodes K V m)) as [n0|] eqn:E0; cbn [option_map c].
  - subst d. split; [reflexivity|]. now apply (ck_child_no_onStop V folder).
  - subst d. destruct (ck_fresh_idle V zero _ _ d0 _ Hnew Hi) as [-> ->]. split; reflexivity.
Qed.

(** One call of a live manager, seen from the key [k]. *)
Lemma ck_view_step (k : K) (o : op K V) (m : coalescerByKey K V)
    (d d0 : Coalescer.coalescer V) :
  keeps_coalescers o = true -> stop K V m = false ->
  NoDup (map fst (nodes K V m)) ->
  Coalescer.NewCoalescer V zero (Window (opts K V m)) [child_opts (opts K V m)] = Some d0 ->
  child_is m k d d0 ->
  child_is (state_after (run_op K V K_eqb zero folder o) m) k
           (state_after (Coalescer.run V folder (coalescer_view K_eqb k o)) d) d0
  /\ calls_for K_eqb k (trace_of (run_op K V K_eqb zero folder o) m)
     = callbacks (trace_of (Coalescer.run V folder (coalescer_view K_eqb k o)) d).
Proof.
  intros Ho Hs Hnd Hnew Hc.
  destruct o as [now k1 v|k1| | |now| |k1|k1]; try discriminate Ho;
    cbn [run_op coalescer_view].
  - destruct (ck_Add_at K V K_eqb zero folder K_eqb_spec now k k1 v m d0 Hs (fun _ => Hnew) Hnd)
      as (_ & _ & _ & L & C).
    cbn zeta in L, C. rewrite L, C.
    destruct (K_eqb k k1) eqn:Ek; [|split; [exact Hc|reflexivity]].
    apply K_eqb_spec in Ek. subst k1.
    destruct (ck_run_single (Coalescer.OpAdd V v) d) as [-> ->]. cbn [Coalescer.run_op].
    assert (E : match lookup K_eqb k (nodes K V m) with
                | Some n => c V n
                | None => d0
                end = d).
    { destruct (lookup K_eqb k (nodes K V m)); congruence. }
    rewrite E. cbn [c]. split; [reflexivity|].
    apply (ck_child_no_onStop V folder). left. now exists v.
  - unfold FlushKey, lock, unlock. repeat step_trace. rewrite !calls_for_app.
    destruct (ck_child_view k k1 (Coalescer.OpFlush V) m d d0) as [A B];
      [tauto|assumption|assumption|].
    cbn zeta in A, B. cbn [Coalescer.run_op] in A, B. rewrite B. split; [exact A|reflexivity].
  - unfold FlushAll, lock, unlock. repeat step_trace. rewrite !calls_for_app.
    destruct (ck_for_keys_at K V K_eqb K_eqb_spec k (Coalescer.Flush V)
                (map fst (nodes K V m)) m Hnd) as (_ & _ & _ & _ & L & C).
    cbn zeta in L. rewrite L, C.
    destruct (ck_run_single (Coalescer.OpFlush V) d) as [-> ->]. cbn [Coalescer.run_op].
    destruct (lookup K_eqb k (nodes K V m)) as [n0|] eqn:E0.
    + pose proof (lookup_some_keys K _ K_eqb K_eqb_spec _ _ _ E0) as Hin.
      apply (existsb_keys K K_eqb K_eqb_spec) in Hin. rewrite Hin.
      cbn [option_map c]. subst d. split; [reflexivity|].
      cbn [calls_for key_calls flat_map filter map app].
      apply (ck_child_no_onStop V folder). right. left. reflexivity.
    + subst d.
      destruct (ck_fresh_idle V zero _ _ d0 (Coalescer.Flush V) Hnew) as [-> ->]; [tauto|].
      destruct (existsb (K_eqb k) (map fst (nodes K V m))); split; reflexivity.
  - unfold evictor_cancelled. step_trace. cbn [set_evicting nodes].
    split; [exact Hc|reflexivity].
  - destruct (ck_child_view k k1 (Coalescer.OpTick V) m d d0) as [A B];
      [tauto|assumption|assumption|].
    split; [exact A|exact B].
  - destruct (ck_child_view k k1 (Coalescer.OpCancel V) m d d0) as [A B];
      [tauto|assumption|assumption|].
    split; [exact A|exact B].
Qed.

Lemma ck_view_run (k : K) (ops : list (op K V)) (m : coalescerByKey K V)
    (d d0 : Coalescer.coalescer V) :
  forallb keeps_coalescers ops = true -> stop K V m = false ->
  NoDup (map fst (nodes K V m)) ->
  Coalescer.NewCoalescer V zero (Window (opts K V m)) [child_opts (opts K V m)] = Some d0 ->
  child_is m k d d0 ->
  calls_for K_eqb k (trace_of (run K V K_eqb zero folder ops) m)
  = callbacks (trace_of (Coalescer.run V folder (flat_map (coalescer_view K_eqb k) ops)) d).
Proof.
  revert m d. induction ops as [|o ops IH]; intros m d Hops Hs Hnd Hnew Hc.
  - reflexivity.
  - cbn [forallb] in Hops. apply andb_prop in Hops. destruct Hops as [Ho Hops].
    cbn [run flat_map]. step_trace. rewrite calls_for_app.
    destruct (coalescer_run_app V folder (coalescer_view K_eqb k o)
                (flat_map (coalescer_view K_eqb k) ops) d) as [-> _].
    destruct (ck_view_step k o m d d0 Ho Hs Hnd Hnew Hc) as [Hc1 ->].
    destruct (ck_run_op_frame K V K_eqb zero folder K_eqb_spec o m Hnd) as (N1 & O1 & S1).
    assert (Hs1 : stop K V (state_after (run_op K V K_eqb zero folder o) m) = false).
    { destruct o; try discriminate Ho; congruence. }
    rewrite (IH _ (state_after (Coalescer.run V folder (coalescer_view K_eqb k o)) d) Hops Hs1 N1);
      [|now rewrite O1|exact Hc1].
    unfold callbacks. now rewrite filter_app.
Qed.

End CoalescerManagerView.

Section CoalescerManagerTheorems.
Import Flow FlowByKey FlowByKey.CoalescerByKey.
Variables K V : Type.
Variable K_eqb : K -> K -> bool.
Variable zero : V.
Variable folder : V -> V -> V.
Hypothesis K_eqb_spec : forall a b, K_eqb a b = true <-> a = b.

Ltac step_trace :=
  rewrite ?bind_trace_of, ?bind_get_trace, ?bind_state_after, ?bind_get_state,
    ?state_after_emit, ?trace_of_emit, ?state_after_modify, ?trace_of_modify,
    ?state_after_ret, ?trace_of_ret.

Lemma ck_NewCoalescerByKey_fresh (o : CoalesceKeyOpts) (m0 : coalescerByKey K V) :
  NewCoalescerByKey K V o = Some m0 ->
  stop K V m0 = false /\ nodes K V m0 = [] /\ opts K V m0 = o
  /\ exists d0,
       Coalescer.NewCoalescer V zero (Window (opts K V m0)) [child_opts (opts K V m0)]
       = Some d0.
Proof.
  unfold NewCoalescerByKey. destruct (Window o <=? 0) eqn:Ew; [discriminate|].
  intros E. injection E as <-. cbn [stop nodes opts].
  do 3 (split; [reflexivity|]).
  unfold Coalescer.NewCoalescer. rewrite Ew. eauto.
Qed.

Lemma ck_manager_run_app (a b : list (op K V)) (m : coalescerByKey K V) :
  trace_of (run K V K_eqb zero folder (a ++ b)) m
  = trace_of (run K V K_eqb zero folder a) m
    ++ trace_of (run K V K_eqb zero folder b) (state_after (run K V K_eqb zero folder a) m)
  /\ state_after (run K V K_eqb zero folder (a ++ b)) m
     = state_after (run K V K_eqb zero folder b) (state_after (run K V K_eqb zero folder a) m).
Proof.
  revert m. induction a as [|o a IH]; intros m; [split; reflexivity|].
  cbn [app run]. rewrite !bind_trace_of, !bind_state_after.
  destruct (IH (state_after (run_op K V K_eqb zero folder o) m)) as [E1 E2].
  rewrite E1, E2, app_assoc. split; reflexivity.
Qed.

Local Notation all_stopped m :=
  (forall k n, lookup K_eqb k (nodes K V m) = Some n ->
               Coalescer.stopped V (c V n) = true).

Lemma ck_run_stopped_children (ops : list (op K V)) (m : coalescerByKey K V) :
  NoDup (map fst (nodes K V m)) ->
  (stop K V m = true -> all_stopped m) ->
  (stop K V (state_after (run K V K_eqb zero folder ops) m) = true ->
   all_stopped (state_after (run K V K_eqb zero folder ops) m)).
Proof.
  revert m. induction ops as [|o ops IH]; intros m Hnd Hinv; [exact Hinv|].
  cbn [run]. rewrite bind_state_after.
  destruct (ck_run_op_frame K V K_eqb zero folder K_eqb_spec o m Hnd) as (N1 & _ & S1).
  apply IH; [assumption|]. intros Hs1.
  destruct (stop K V m) eqn:Hs.
  - now destruct (ck_stopped_manager_quiet K V K_eqb zero folder K_eqb_spec o m Hs (Hinv eq_refl) Hnd)
      as (_ & A & _).
  - destruct o; try congruence.
    now destruct (ck_Stop_stops_all K V K_eqb K_eqb_spec m Hs Hnd).
Qed.

Lemma ck_run_stopped_quiet (ops : list (op K V)) (m : coalescerByKey K V) :
  stop K V m = true -> all_stopped m -> NoDup (map fst (nodes K V m)) ->
  key_calls (trace_of (run K V K_eqb zero folder ops) m) = []
  /\ map fst (nodes K V (state_after (run K V K_eqb zero folder ops) m)) = map fst (nodes K V m)
  /\ stop K V (state_after (run K V K_eqb zero folder ops) m) = true.
Proof.
  revert m. induction ops as [|o ops IH]; intros m Hs Hall Hnd.
  - repeat split. assumption.
  - cbn [run]. rewrite bind_trace_of, bind_state_after, key_calls_app.
    destruct (ck_stopped_manager_quiet K V K_eqb zero folder K_eqb_spec o m Hs Hall Hnd)
      as (S1 & A1 & K1 & C1).
    cbn zeta in S1, A1, K1, C1.
    assert (N1 : NoDup (map fst (nodes K V (state_after (run_op K V K_eqb zero folder o) m))))
      by now rewrite K1.
    destruct (IH _ S1 A1 N1) as (C2 & K2 & S2).
    rewrite C1, C2, K2, K1. repeat split. assumption.
Qed.

End CoalescerManagerTheorems.

Ltac manager_steps :=
  rewrite ?bind_trace_of, ?bind_get_trace, ?bind_state_after, ?bind_get_state,
    ?state_after_emit, ?trace_of_emit, ?state_after_modify, ?trace_of_modify,
    ?state_after_ret, ?trace_of_ret.

(** X28: [Stop] of a [CoalescerByKey]. On a live manager [Stop] stops
    the coalescer of every key with the manager's mutex released: the
    accumulated value of a key is handed to [emit] when the stop mode
    flushes and the key holds one, and to [OnStop] when the stop mode
    calls back and the manager has an [OnStop]; with the other stop
    modes the accumulated values are dropped. Afterwards no call ([Add],
    [FlushKey], [FlushAll], [Stop], ticks of the evictor and of the
    windows) makes a callback or adds a key. *)
Theorem CoalescerByKey_Stop_then_silence (K V : Type) (K_eqb : K -> K -> bool) (zero : V)
    (folder : V -> V -> V) (o : FlowByKey.CoalescerByKey.CoalesceKeyOpts)
    (m0 m : FlowByKey.CoalescerByKey.coalescerByKey K V)
    (before after : list (FlowByKey.CoalescerByKey.op K V)) (k : K) :
  (forall a b, K_eqb a b = true <-> a = b) ->
  FlowByKey.CoalescerByKey.NewCoalescerByKey K V o = Some m0 ->
  m = Flow.state_after (FlowByKey.CoalescerByKey.run K V K_eqb zero folder before) m0 ->
  FlowByKey.CoalescerByKey.stop K V m = false ->
  let tr := Flow.trace_of (FlowByKey.CoalescerByKey.Stop K V K_eqb) m in
  let m' := Flow.state_after (FlowByKey.CoalescerByKey.Stop K V K_eqb) m in
  children_outside_lock false tr = true
  /\ calls_for K_eqb k tr
     = match FlowByKey.lookup K_eqb k (FlowByKey.CoalescerByKey.nodes K V m) with
       | Some n =>
           (if flush_mode (FlowByKey.CoalescerByKey.StopMode_ o)
               && Flow.Coalescer.hasAcc V (FlowByKey.CoalescerByKey.c V n)
            then [Flow.EvCb (Flow.Coalescer.acc V (FlowByKey.CoalescerByKey.c V n))]
            else [])
           ++ (if callback_mode (FlowByKey.CoalescerByKey.StopMode_ o)
                  && FlowByKey.CoalescerByKey.OnStop o
               then [Flow.EvOnStop (Flow.Coalescer.acc V (FlowByKey.CoalescerByKey.c V n))]
               else [])
       | None => []
       end
  /\ FlowByKey.CoalescerByKey.stop K V m' = true
  /\ key_calls
       (Flow.trace_of (FlowByKey.CoalescerByKey.run K V K_eqb zero folder after) m') = []
  /\ map fst (FlowByKey.CoalescerByKey.nodes K V
                (Flow.state_after
                   (FlowByKey.CoalescerByKey.run K V K_eqb zero folder after) m'))
     = map fst (FlowByKey.CoalescerByKey.nodes K V m).
Proof.
  intros Hk Hnew Hm Hs tr m'. subst tr m'.
  destruct (ck_NewCoalescerByKey_fresh K V zero o m0 Hnew) as (S0 & N0 & O0 & _).
  assert (Hnd0 : NoDup (map fst (FlowByKey.CoalescerByKey.nodes K V m0)))
    by (rewrite N0; constructor).
  destruct (ck_run_frame K V K_eqb zero folder Hk before m0 Hnd0) as (Hnd & Ho).
  rewrite <- Hm in Hnd, Ho. rewrite O0 in Ho.
  pose proof (ck_run_live_children K V K_eqb zero folder Hk before m0 Hnd0) as Hlive.
  rewrite <- Hm in Hlive.
  specialize (Hlive (fun _ k' n' Hl' => ltac:(rewrite N0 in Hl'; discriminate Hl')) Hs).
  rewrite Ho in Hlive.
  destruct (ck_Stop_stops_all K V K_eqb Hk m Hs Hnd) as [Hs' Hall].
  cbn zeta in Hs', Hall.
  assert (Hkeys : map fst (FlowByKey.CoalescerByKey.nodes K V
                    (Flow.state_after (FlowByKey.CoalescerByKey.Stop K V K_eqb) m))
                  = map fst (FlowByKey.CoalescerByKey.nodes K V m)).
  { unfold FlowByKey.CoalescerByKey.Stop, FlowByKey.CoalescerByKey.lock,
      FlowByKey.CoalescerByKey.unlock.
    manager_steps. rewrite Hs. repeat manager_steps.
    now destruct (ck_for_keys_frame K V K_eqb Hk (Flow.Coalescer.Stop V)
                    (map fst (FlowByKey.CoalescerByKey.nodes K V m))
                    (FlowByKey.CoalescerByKey.set_stop K V true m)) as (_ & _ & _ & Ks). }
  split.
  { exact (ck_public_outside_lock K V K_eqb zero folder m
             (FlowByKey.CoalescerByKey.OpStop K V) I). }
  split.
  { unfold FlowByKey.CoalescerByKey.Stop, FlowByKey.CoalescerByKey.lock,
      FlowByKey.CoalescerByKey.unlock.
    manager_steps. rewrite Hs. repeat manager_steps.
    rewrite !calls_for_app.
    destruct (ck_for_keys_at K V K_eqb Hk k (Flow.Coalescer.Stop V)
                (map fst (FlowByKey.CoalescerByKey.nodes K V m))
                (FlowByKey.CoalescerByKey.set_stop K V true m) Hnd)
      as (_ & _ & _ & _ & _ & C).
    rewrite C.
    cbn [FlowByKey.CoalescerByKey.set_stop FlowByKey.CoalescerByKey.nodes
         FlowByKey.CoalescerByKey.opts].
    rewrite Ho.
    destruct (FlowByKey.lookup K_eqb k (FlowByKey.CoalescerByKey.nodes K V m))
      as [n|] eqn:El.
    - pose proof (lookup_some_keys K _ K_eqb Hk _ _ _ El) as Hin.
      apply (existsb_keys K K_eqb Hk) in Hin. rewrite Hin.
      destruct (Hlive k n El) as (Ld & Md & Od).
      rewrite (ck_Stop_calls V _ _ Ld), Md, Od, andb_true_r. reflexivity.
    - now destruct (existsb (K_eqb k) (map fst (FlowByKey.CoalescerByKey.nodes K V m))). }
  split; [exact Hs'|].
  rewrite <- Hkeys in Hnd.
  destruct (ck_run_stopped_quiet K V K_eqb zero folder Hk after _ Hs' Hall Hnd)
    as (C & Ks & _).
  split; [exact C|]. now rewrite Ks.
Qed.

Lemma CoalescerByKey_Stop_then_silence_witness :
  calls_for Z.eqb 1
    (Flow.trace_of (FlowByKey.CoalescerByKey.Stop Z Z Z.eqb)
       (Flow.state_after
          (FlowByKey.CoalescerByKey.run Z Z Z.eqb 0 Z.add
             [FlowByKey.CoalescerByKey.OpAdd Z Z 0 1 10;
              FlowByKey.CoalescerByKey.OpAdd Z Z 1 2 20;
              FlowByKey.CoalescerByKey.OpAdd Z Z 2 1 5])
          flushing_manager))
  = [Flow.EvCb 15; Flow.EvOnStop 15].
Proof.
  destruct (CoalescerByKey_Stop_then_silence Z Z Z.eqb 0 Z.add flushing_opts
              flushing_manager
              (Flow.state_after
                 (FlowByKey.CoalescerByKey.run Z Z Z.eqb 0 Z.add
                    [FlowByKey.CoalescerByKey.OpAdd Z Z 0 1 10;
                     FlowByKey.CoalescerByKey.OpAdd Z Z 1 2 20;
                     FlowByKey.CoalescerByKey.OpAdd Z Z 2 1 5])
                 flushing_manager)
              [FlowByKey.CoalescerByKey.OpAdd Z Z 0 1 10;
               FlowByKey.CoalescerByKey.OpAdd Z Z 1 2 20;
               FlowByKey.CoalescerByKey.OpAdd Z Z 2 1 5]
              [FlowByKey.CoalescerByKey.OpAdd Z Z 3 1 7] 1)
    as (_ & A & _).
  - apply Z.eqb_eq.
  - reflexivity.
  - reflexivity.
  - reflexivity.
  - exact A.
Defined.



(** X30: a [CoalescerByKey] is a coalescer per key. As long as the
    manager is neither stopped nor evicting, the callbacks it makes for
    a key are those of one coalescer, created with the manager's window
    and stop mode at the key's first [Add], that receives the key's
    [Add]s, [FlushKey]s and window ticks and every [FlushAll]; calls for
    other keys do not reach it. *)
Theorem CoalescerByKey_is_a_coalescer_per_key (K V : Type) (K_eqb : K -> K -> bool)
    (zero : V) (folder : V -> V -> V) (o : FlowByKey.CoalescerByKey.CoalesceKeyOpts)
    (m0 : FlowByKey.CoalescerByKey.coalescerByKey K V)
    (ops : list (FlowByKey.CoalescerByKey.op K V)) (k : K) :
  (forall a b, K_eqb a b = true <-> a = b) ->
  FlowByKey.CoalescerByKey.NewCoalescerByKey K V o = Some m0 ->
  forallb keeps_coalescers ops = true ->
  exists c0,
    Flow.Coalescer.NewCoalescer V zero (FlowByKey.CoalescerByKey.Window o)
      [FlowByKey.CoalescerByKey.child_opts o] = Some c0
    /\ calls_for K_eqb k
         (Flow.trace_of (FlowByKey.CoalescerByKey.run K V K_eqb zero folder ops) m0)
       = callbacks
           (Flow.trace_of
              (Flow.Coalescer.run V folder (flat_map (coalescer_view K_eqb k) ops)) c0).
Proof.
  intros Hk Hnew Hops.
  destruct (ck_NewCoalescerByKey_fresh K V zero o m0 Hnew) as (S0 & N0 & O0 & c0 & Hc0).
  exists c0. split; [now rewrite <- O0|].
  apply (ck_view_run K V K_eqb zero folder Hk k ops m0 c0 c0 Hops S0); [|exact Hc0|].
  - rewrite N0. constructor.
  - rewrite N0. reflexivity.
Qed.

Lemma CoalescerByKey_is_a_coalescer_per_key_witness :
  calls_for Z.eqb 1
    (Flow.trace_of
       (FlowByKey.CoalescerByKey.run Z Z Z.eqb 0 Z.add
          [FlowByKey.CoalescerByKey.OpAdd Z Z 0 1 10;
           FlowByKey.CoalescerByKey.OpAdd Z Z 5 2 20;
           FlowByKey.CoalescerByKey.OpAdd Z Z 6 1 11;
           FlowByKey.CoalescerByKey.OpTick Z Z 1;
           FlowByKey.CoalescerByKey.OpAdd Z Z 7 1 4;
           FlowByKey.CoalescerByKey.OpFlushAll Z Z])
       summing_manager)
  = [Flow.EvCb 21; Flow.EvCb 4].
Proof.
  destruct (CoalescerByKey_is_a_coalescer_per_key Z Z Z.eqb 0 Z.add summing_opts
              summing_manager
              [FlowByKey.CoalescerByKey.OpAdd Z Z 0 1 10;
               FlowByKey.CoalescerByKey.OpAdd Z Z 5 2 20;
               FlowByKey.CoalescerByKey.OpAdd Z Z 6 1 11;
               FlowByKey.CoalescerByKey.OpTick Z Z 1;
               FlowByKey.CoalescerByKey.OpAdd Z Z 7 1 4;
               FlowByKey.CoalescerByKey.OpFlushAll Z Z] 1) as (c0 & Hc0 & E).
  - apply Z.eqb_eq.
  - reflexivity.
  - reflexivity.
  - rewrite E. injection Hc0 as <-. reflexivity.
Defined.
